(* ===== verification/_CoqProject ===== *)
-Q . S2P
Prelude.v
ArcSystem.v
Config.v
Printing.v
Transitions.v
Machine.v
Projectivity.v
Tree.v
StaticOracle.v
OracleCorrect.v
Reach.v
Planar.v
Forest.v
DynamicOracle.v
Agreement.v
Costs.v
Driver.v
DynamicCorrect.v
Script.v
Loss.v
