(* ===== verification/Prelude.v ===== *)
(** * Verification of the arc-eager transition parser (src/arc_eager.py)

    ** The program

    [src/arc_eager.py] implements the arc-eager transition system for
    dependency parsing.  Its parts, and how they interact:

    - the data: a token is a tuple (word, tag, head, label); a sentence is
      a list of tokens; [ROOT = -1] is the index of the virtual root;
    - [Configuration]: the mutable parser state of one sentence, a stack
      (a Python list, top at the end), a buffer (front at index 0) and a
      list of (head, dependent) arcs;
    - [GoldConfiguration]: the gold tree of an annotated sentence, as a
      dict [head_of], a defaultdict [deps_of] and a set [arcs];
    - [ArcEager]: the transition engine ([get_initial_config],
      [get_legal_transitions], [left_arc], [right_arc], [shift], [reduce],
      [take_transition], [is_finished]), the gold-tree builder
      [get_gold_config], the projectivity test [is_not_projective], the
      static oracle [static_oracle] and the dynamic oracle
      [dynamic_oracle] with its four cost functions;
    - the script at the end of the file, which runs the static oracle on
      one sentence of a corpus, and [src/transparser.py], which wires an
      arc system, a feature extractor and a trainer that are not part of
      the sources.

    A driver asks the engine for the legal transitions of the current
    configuration, picks one (by an oracle or a classifier), applies it
    with [take_transition] and repeats until [is_finished].

    ** How the code is modelled

    Token indices are [Z] (ROOT is negative).  Python lists are Rocq
    lists in the same order: the top of the stack is the LAST element,
    [stack.pop()] is [py_pop], [stack[-1]] is [py_top], [buffer[0]] is
    [head] and [del buffer[0]] is [tail].  Dicts are [gmap], Python sets
    are [gset].  Transitions are the integers 0..3 of the source, with an
    inductive view [Transition] for the abstract transition system.

    Python exceptions are values of [exn].  A computation that cannot
    mutate anything returns a [result]; a method that mutates an object in
    place is a [py S A = S -> result A * S]: the state is returned also
    when an exception is raised, because a Python object keeps the
    mutations made before the raise ([left_arc] pops the stack before it
    reads the buffer).  The comparisons [x is ROOT] of the source are
    modelled as equality: CPython caches the integer -1, so identity and
    equality agree on it.  Integers are unbounded, as in Python; the
    printed form is that of a plain [int], which every index of a
    sentence that fits in memory is.

    ** Files

    - [Prelude] (this file): exceptions, the [result] and [py] monads and
      their laws, the Python list operations, the shared list and
      sortedness lemmas, the hint database [arc], the tactics, and the
      rules of [returns], a small program logic for computations that
      leave their state equivalent to the one they were given;
    - [ArcSystem]: the interface an arc system offers to a driver (a
      class: legal transitions, application, terminal test, termination
      measure, with the law that a legal transition succeeds and
      decreases the measure) and the driver loop of the specification,
      on fuel, proved against the interface;
    - [Config]: tokens, [Configuration], [GoldConfiguration], the
      constants, [get_initial_config], [get_gold_config], [is_finished],
      the characterisation of the gold tree built from a sentence, and
      the equivalence [gold_equiv] of gold trees that differ by empty
      [deps_of] entries, with its [Proper] instances;
    - [Printing]: [Configuration.__str__], with Python's [repr] of
      integers, tuples and lists as a class, and a reader of the printed
      text, built from one reader per type, that undoes it;
    - [Transitions]: [get_legal_transitions] (with the flag list updated
      in place as the source does), the four handlers, the handler table
      [transition_funcs] filled by the constructor, [take_transition];
      the exact behaviour of each on every branch, errors included;
    - [Machine]: the abstract arc-eager transition system of the
      specification as an [Inductive] step relation [step], the
      refinement between it and the handlers of [Transitions],
      reachability, the well-formedness invariant [wf_at] of reachable
      configurations (ROOT at the bottom of the stack, stack and buffer
      strictly increasing, single head, arcs in range), the termination
      measure, the count of transitions of a complete run, dead ends;
    - [Projectivity]: [is_not_projective] as nested loops with early
      return, its characterisation by crossing arcs between tokens, and
      the complete test [projectiveb];
    - [Tree]: what a valid annotation is ([well_formed]: every token
      leads to ROOT by following [head_of]), decided by [well_formedb],
      and the property of projective trees the oracles rest on: a token
      strictly inside an arc descends from the head of that arc;
    - [StaticOracle]: [static_oracle], its decision table on reachable
      configurations, the loop that follows it, and the run of the
      specification's example;
    - [OracleCorrect]: the invariant [oracle_inv] of the configurations
      the static oracle leads to, its preservation by each rule of the
      oracle, and the correctness of the oracle on every projective
      tree;
    - [DynamicOracle]: the four cost functions with their assertions and
      their reads of the defaultdict, [dynamic_oracle], the costs as pure
      functions [cost], and the proof that on reachable configurations
      the oracle returns the legal transitions of cost zero and leaves
      an equivalent gold tree;
    - [Agreement]: on the static oracle's path the transition it names
      has cost zero, so the dynamic oracle returns it; the oracles give
      the same results on gold trees that differ by the empty entries
      the cost functions create;
    - [Reach]: the arcs a configuration can still build
      ([arc_reachable], a condition on where the two tokens are), shown
      to be exactly the arcs that some run of legal transitions builds;
    - [Planar]: the handlers without the legality test ([moves],
      [take_all]) and their invariant [planar_at]: whatever transitions
      are taken, no two arcs cross; the trees that are not projective
      and pass [is_not_projective] ([covered_root]), and what the loop
      of the static oracle does on a tree that is not projective;
    - [Forest]: the invariant [forest] of the arcs of a reachable
      configuration (the head of a stack token is below it on the
      stack, the tokens inside an arc are gone, no two arcs cross, every
      chain of heads ends), its preservation by each transition, and
      the sentence [parsed] that a finished configuration stands for;
    - [Costs]: a transition of cost zero keeps every reachable gold arc
      reachable; an example of a cost that counts an arc lost before;
    - [Driver]: the arc-eager engine as an instance of [ArcSystem], the
      static oracle as a policy of the driver, and the correctness of
      the driver with that policy;
    - [DynamicCorrect]: where a transition is legal the dynamic oracle
      returns one; a driver that takes, each time, any transition the
      dynamic oracle returns loses no gold arc and ends with the gold
      tree; the driver of [ArcSystem] with such a policy;
    - [Script]: the script at the end of the source file, on the
      corpus as an argument, with the values Python passes around and
      the lines it prints; the scenario the source keeps in a comment,
      which replays a list of transitions;
    - [Loss]: the set [lost] of the gold arcs a transition makes
      unreachable, which arcs those are for each transition, their
      number against the value of the cost function of the code, what
      the dynamic oracle returns after a mistake, and the
      configurations [builds] from which the gold tree can still be
      built, where the dynamic oracle is exact.

    A configuration is [reachable] when a driver gets to it from the
    initial configuration by taking, each time, a member of
    [get_legal_transitions] with [take_transition]; the abstract machine
    [step] is used in the proofs, through the refinement theorem.

    ** What the theorems show

    - functional behaviour: each handler, [get_legal_transitions],
      [is_not_projective], [static_oracle] and [dynamic_oracle] is
      characterised exactly, on the success and on the error branches;
    - refinement: a legal transition taken through the handler table is
      a step of the abstract machine, and conversely;
    - invariants: well-formedness is preserved by every legal
      transition, from any well-formed configuration; so every
      configuration reachable by legal transitions is well formed; no
      two arcs share a dependent, and no two arcs cross; a finished
      configuration gives every token exactly one head and a chain of
      heads to ROOT, so a parse returns a projective tree;
    - what can be built: a gold annotation is the result of some run of
      legal transitions exactly when it is a projective tree; the
      handlers build no crossing arcs even when the transitions are not
      legal, so a tree that is not projective is the result of no
      sequence of calls of [take_transition]; [is_not_projective]
      reports such a tree unless its only crossings are over a child of
      ROOT;
    - termination: [2 * |buffer| + |stack|] decreases by one at every
      legal transition; a run from the initial configuration of a
      sentence of [n] tokens has at most [2 * n] transitions, a complete
      one exactly [2 * n], of which [n] are SHIFT or RIGHT; the driver
      stops within that bound whatever the policy;
    - oracles: on a sentence whose annotation is a tree without
      crossing arcs, the loop that follows [static_oracle] takes only
      legal transitions and ends, after [2 * n] of them, with exactly
      the gold arcs; at each of its configurations [dynamic_oracle]
      returns the static oracle's transition among the zero-cost ones;
      at any reachable configuration, a gold arc that some run could
      build before a transition the dynamic oracle returns can still
      be built by some run after it; where a transition is legal the
      dynamic oracle returns a list that is not empty, and whichever of
      its transitions a driver takes, from the initial configuration
      on, the parse ends with exactly the gold arcs;
    - bounds: the cost of a legal transition is the number of gold arcs
      it makes unreachable plus, for RIGHT and SHIFT, the number of
      gold dependents of the buffer front that are on the stack with a
      head; LEFT and REDUCE cost exactly what they lose, and no cost is
      below the loss; at a configuration from which the gold tree can
      still be built nothing is counted twice, and the dynamic oracle
      returns exactly the legal transitions after which the gold tree
      can still be built, which are those that lose no gold arc; at
      every other reachable configuration it returns those that lose
      no gold arc and count none twice;
    - round trip: the text [Configuration.__str__] prints is read back
      as the stack, the buffer and the arcs;
    - errors: which calls raise, and with which state left behind;
      what the script prints and how it ends on every corpus: it raises
      TypeError on every sentence it parses; the commented scenario
      raises AssertionError as written, and with the arguments of its
      call in order it builds a tree and never reaches a finished
      configuration;
    - limits of the code: dead ends of the engine, the arcs from ROOT
      that the projectivity test ignores, the write of [reduce_cost] to
      the gold tree whenever the top of the stack is a leaf of it, the
      arcs the costs count although they were lost before.  Each is a
      theorem about every sentence or configuration of its kind; the
      [Example]s next to them evaluate the code on one.

    ** Bounds and fuel

    The loops ([drive], [run_static_oracle], [script_loop]) are
    [Fixpoint]s on a fuel argument, as is the test [rootedb] that a
    token leads to ROOT, for which the number of tokens is enough fuel
    ([well_formedb_spec]).  The reader of a printed list takes the
    length of the text as fuel, which exceeds the number of elements.
    The loop of the script never completes an iteration, so fuel for
    one is enough.  [take_all] is a [Fixpoint] on the list of
    transitions and needs no fuel.  The initial configuration of a
    sentence of [n] tokens has measure [2 * n + 1], and every transition
    decreases the measure by one, so any fuel above [2 * n + 1] is
    enough: the theorems about [drive] are stated for every such fuel,
    show that the fuel does not run out and that the result does not
    depend on it, so they never hold vacuously by exhaustion.  The
    theorem on trees that are not projective is about the runs of the
    handlers that return, whatever their length; its witness is such a
    run.

    ** Not modelled

    The corpus reader [util.read_conll_data] and the modules
    [arc_standard], [parser], [feature_extractor] and [train] that
    [src/transparser.py] imports are not among the sources, and with
    them [src/transparser.py], which only passes objects of those
    modules to one another.  The order in which Python prints the
    elements of a set depends on its hash table: a printed set is kept
    as a set.  The handlers return the configuration object they were
    given; the model returns unit and the mutated state, which is that
    object.

    ** Left for later

    The arc-standard system that [src/transparser.py] uses, which is
    not among the sources. *)

From stdpp Require Import base tactics option list numbers sorting relations.

#[local] Open Scope Z_scope.

(** ** Python exceptions *)

Inductive exn : Type :=
| IndexError
| KeyError (k : Z)
| AssertionError
| TypeError.

#[export] Instance exn_eq_dec : EqDecision exn.
Proof. solve_decision. Defined.

(** ** Results of computations that mutate nothing *)

Inductive result (A : Type) : Type :=
| Ok (a : A)
| Raise (e : exn).
Arguments Ok {A} a.
Arguments Raise {A} e.

#[export] Instance result_eq_dec `{EqDecision A} : EqDecision (result A).
Proof. solve_decision. Defined.

#[export] Instance result_ret : MRet result := @Ok.

#[export] Instance result_bind : MBind result :=
  λ A B f m, match m with Ok a => f a | Raise e => Raise e end.

#[export] Instance result_fmap : FMap result :=
  λ A B f m, match m with Ok a => Ok (f a) | Raise e => Raise e end.

Definition is_Ok {A} (r : result A) : bool :=
  match r with Ok _ => true | Raise _ => false end.

(** [d[k]] on a dict: the value, or KeyError. *)
Definition of_lookup {A} (k : Z) (o : option A) : result A :=
  match o with Some a => Ok a | None => Raise (KeyError k) end.

(** ** Computations on a mutable object

    The final state is part of the outcome on both branches. *)

Definition py (S A : Type) : Type := S → result A * S.

#[export] Instance py_ret {S} : MRet (py S) := λ A a s, (Ok a, s).

#[export] Instance py_bind {S} : MBind (py S) :=
  λ A B f m s,
    match m s with
    | (Ok a, s') => f a s'
    | (Raise e, s') => (Raise e, s')
    end.

Definition raise {S A} (e : exn) : py S A := λ s, (Raise e, s).
Definition gets {S A} (f : S → A) : py S A := λ s, (Ok (f s), s).
Definition modify {S} (f : S → S) : py S unit := λ s, (Ok (), f s).
Definition lift {S A} (r : result A) : py S A := λ s, (r, s).

(** [l[i]] on a list: the element, or IndexError. *)
Definition of_index {A} (o : option A) : result A :=
  match o with Some a => Ok a | None => Raise IndexError end.

(** [assert b] *)
Definition py_assert {S} (b : bool) : py S unit :=
  if b then mret () else raise AssertionError.

(** [for x in l: a = f(a, x)] *)
Fixpoint py_foldl {S A B} (f : A → B → py S A) (a : A) (l : list B) : py S A :=
  match l with
  | [] => mret a
  | x :: l => a' ← f a x; py_foldl f a' l
  end.

(** ** Python list operations, on lists kept in Python's order *)

(** [l[-1]] *)
Definition py_top {A} (l : list A) : option A := last l.

(** [l.pop()]: the last element and the list without it. *)
Definition py_pop {A} (l : list A) : option (A * list A) :=
  match last l with
  | Some x => Some (x, removelast l)
  | None => None
  end.

#[global] Arguments py_top : simpl never.
#[global] Arguments py_pop : simpl never.

(** [enumerate(l)] *)
Definition enumerate {A} (l : list A) : list (Z * A) :=
  zip (seqZ 0 (Z.of_nat (length l))) l.

(** [len(set(xs).intersection(set(ys)))] on lists of integers: the number
    of distinct elements of [xs] that occur in [ys]. *)
Definition count_common (xs ys : list Z) : Z :=
  Z.of_nat (length (filter (λ x, x ∈ ys) (remove_dups xs))).

(** Python's coercion of a bool to an int in a sum. *)
Definition Z_of_bool (b : bool) : Z := if b then 1 else 0.

(** ** The hint database and tactics of the development *)

Create HintDb arc discriminated.
Create Rewrite HintDb pylist.

(** Unfolds the monad operations applied to a state. *)
Ltac py_unfold :=
  unfold mbind, mret, py_bind, py_ret, result_bind, result_ret,
    raise, gets, modify, lift, py_assert, of_lookup, of_index in *.

Ltac py_simpl := py_unfold; simpl in *.

(** ** Monad laws *)

Section monad_laws.
Context {S A B C : Type}.
Implicit Types (s : S) (m : py S A) (f : A → py S B) (g : B → py S C).

Lemma py_bind_ret_l (a : A) f s : (mret a ≫= f) s = f a s.
Proof. reflexivity. Qed.

Lemma py_bind_ret_r m s : (m ≫= mret) s = m s.
Proof. py_unfold. by destruct (m s) as [[]]. Qed.

Lemma py_bind_assoc m f g s : ((m ≫= f) ≫= g) s = (m ≫= (λ a, f a ≫= g)) s.
Proof. py_unfold. by destruct (m s) as [[]]. Qed.

Lemma py_bind_Ok m f s a s' :
  m s = (Ok a, s') → (m ≫= f) s = f a s'.
Proof. py_unfold. by intros ->. Qed.

Lemma py_bind_Raise m f s e s' :
  m s = (Raise e, s') → (m ≫= f) s = (Raise e, s').
Proof. py_unfold. by intros ->. Qed.

End monad_laws.

(** ** Lists viewed from their end *)

Section snoc.
Context {A : Type}.
Implicit Types (l : list A) (x : A).

Lemma snoc_view l : l = [] ∨ ∃ l' x, l = l' ++ [x].
Proof.
  induction l as [|y l _] using rev_ind; [by left|right; eauto].
Qed.

Lemma py_top_nil : py_top (@nil A) = None.
Proof. reflexivity. Qed.

Lemma py_top_snoc l x : py_top (l ++ [x]) = Some x.
Proof. apply last_snoc. Qed.

Lemma py_pop_nil : py_pop (@nil A) = None.
Proof. reflexivity. Qed.

Lemma py_pop_snoc l x : py_pop (l ++ [x]) = Some (x, l).
Proof. unfold py_pop. by rewrite last_snoc, removelast_last. Qed.

Lemma py_pop_Some l x l' : py_pop l = Some (x, l') ↔ l = l' ++ [x].
Proof.
  split; [|intros ->; apply py_pop_snoc].
  destruct (snoc_view l) as [->|(l0 & y & ->)]; [done|].
  rewrite py_pop_snoc. by intros [= -> ->].
Qed.

Lemma py_pop_None l : py_pop l = None ↔ l = [].
Proof.
  destruct (snoc_view l) as [->|(l0 & y & ->)]; [done|].
  rewrite py_pop_snoc. split; [done|]. by intros [_ [=]]%app_nil.
Qed.

Lemma py_top_Some l x : py_top l = Some x ↔ ∃ l', l = l' ++ [x].
Proof.
  destruct (snoc_view l) as [->|(l0 & y & ->)].
  - split; [done|]. by intros [l' [_ [=]]%symmetry%app_nil].
  - rewrite py_top_snoc. split.
    + intros [= ->]. eauto.
    + intros [l' [_ [= ->]]%app_inj_tail]. done.
Qed.

Lemma py_top_None l : py_top l = None ↔ l = [].
Proof.
  destruct (snoc_view l) as [->|(l0 & y & ->)]; [done|].
  rewrite py_top_snoc. split; [done|]. by intros [_ [=]]%app_nil.
Qed.

End snoc.

#[export] Hint Rewrite @py_top_snoc @py_pop_snoc @py_top_nil @py_pop_nil : pylist.

(** Case analysis on a list viewed from its end; [H] names the equation. *)
Ltac snoc_case l x l' H :=
  destruct (snoc_view l) as [H|(l' & x & H)].

(** ** [enumerate] *)

Section enumerate.
Context {A : Type}.
Implicit Types (l : list A) (x : A) (i : Z).

Lemma enumerate_nil : enumerate (@nil A) = [].
Proof. reflexivity. Qed.

Lemma enumerate_snoc l x :
  enumerate (l ++ [x]) = enumerate l ++ [(Z.of_nat (length l), x)].
Proof.
  unfold enumerate. rewrite length_app, Nat.add_1_r, seqZ_S.
  rewrite zip_with_app by (rewrite length_seqZ; lia). done.
Qed.

Lemma elem_of_enumerate l i x :
  (i, x) ∈ enumerate l ↔ 0 ≤ i ∧ l !! Z.to_nat i = Some x.
Proof.
  unfold enumerate. rewrite list_elem_of_lookup. split.
  - intros [n [Hs Hl]%lookup_zip_Some]. apply lookup_seqZ in Hs as [-> _].
    split; [lia|]. by rewrite Z.add_0_l, Nat2Z.id.
  - intros [Hi Hl]. exists (Z.to_nat i). apply lookup_zip_Some. split; [|done].
    apply lookup_seqZ. apply lookup_lt_Some in Hl. lia.
Qed.

Lemma enumerate_fst l : (enumerate l).*1 = seqZ 0 (Z.of_nat (length l)).
Proof. unfold enumerate. apply fst_zip. rewrite length_seqZ. lia. Qed.

End enumerate.

(** ** Shared list facts *)

Lemma cons_snoc_inv {A} (x y : A) (l l0 : list A) :
  x :: l = l0 ++ [y] →
  (l = [] ∧ l0 = [] ∧ y = x) ∨ ∃ l', l = l' ++ [y] ∧ l0 = x :: l'.
Proof.
  destruct l0 as [|x0 l0]; simpl; intros [= -> ->]; [by left|right; eauto].
Qed.

Lemma seqZ_cons_inv k m b β :
  seqZ k m = b :: β → b = k ∧ β = seqZ (k + 1) (m - 1) ∧ 0 < m.
Proof.
  destruct (decide (0 < m)) as [Hm|Hm].
  - rewrite seqZ_cons by done. intros [= <- <-].
    by rewrite <-Z.add_1_r, <-Z.sub_1_r.
  - by rewrite seqZ_nil by lia.
Qed.

Lemma seqZ_nil_inv k m : seqZ k m = [] → m ≤ 0.
Proof.
  intros H. destruct (decide (0 < m)); [|lia]. by rewrite seqZ_cons in H.
Qed.

Lemma StronglySorted_snoc {A} (R : relation A) l x :
  StronglySorted R (l ++ [x]) ↔ StronglySorted R l ∧ Forall (λ y, R y x) l.
Proof.
  rewrite StronglySorted_app, Forall_forall.
  setoid_rewrite list_elem_of_singleton. split.
  - intros (H & ? & _). naive_solver.
  - intros [? H]. split_and!; [naive_solver|done|repeat constructor].
Qed.

Lemma StronglySorted_lt_seqZ k m : StronglySorted Z.lt (seqZ k m).
Proof.
  destruct (decide (0 ≤ m)) as [Hm|]; [|rewrite seqZ_nil by lia; constructor].
  rewrite <-(Z2Nat.id m) by done. clear Hm.
  induction (Z.to_nat m) as [|i IH]; [constructor|].
  rewrite seqZ_S. apply StronglySorted_snoc. split; [done|].
  apply Forall_seqZ. lia.
Qed.

Lemma StronglySorted_lt_NoDup (l : list Z) : StronglySorted Z.lt l → NoDup l.
Proof.
  induction 1 as [|x l _ IH Hx]; constructor; [|done].
  intros Hin. eapply Forall_forall in Hx; [|done]. lia.
Qed.

Lemma NoDup_fmap_snd_functional {A B} (l : list (A * B)) x1 x2 y :
  NoDup l.*2 → (x1, y) ∈ l → (x2, y) ∈ l → x1 = x2.
Proof.
  induction l as [|[x' y'] l IH]; simpl; [by intros _ ?%elem_of_nil|].
  rewrite NoDup_cons, !elem_of_cons. intros [Hy ?] [?|H1] [?|H2]; simplify_eq.
  - done.
  - destruct Hy. apply list_elem_of_fmap. eexists. split; [|eassumption]. done.
  - destruct Hy. apply list_elem_of_fmap. eexists. split; [|eassumption]. done.
  - by apply IH.
Qed.

(** ** Computations that succeed and leave an equivalent state

    [returns m s v]: run on [s], the computation [m] returns [v] and
    leaves a state equivalent to [s].  The rules below compose such
    facts along [≫=], so that a computation that only touches what the
    equivalence ignores can be reasoned about as a function. *)

Definition returns {St : Type} `{Equiv St} {A} (m : py St A) (s : St) (v : A) :
    Prop :=
  ∃ s', m s = (Ok v, s') ∧ s' ≡ s.

Section returns.
Context {St : Type} `{Equiv St, !Equivalence (≡@{St})}.
Implicit Types (s : St).

Lemma returns_ret {A} (v : A) s : returns (mret v) s v.
Proof. by exists s. Qed.

Lemma returns_bind {A B} (m : py St A) (f : A → py St B) s a v :
  returns m s a → (∀ s', s' ≡ s → returns (f a) s' v) →
  returns (m ≫= f) s v.
Proof.
  intros (s1 & Hm & Hs1) Hf. destruct (Hf s1 Hs1) as (s2 & Hf' & Hs2).
  exists s2. split; [by rewrite (py_bind_Ok _ _ _ _ _ Hm)|by etrans].
Qed.

Lemma returns_gets {A} (f : St → A) s : returns (gets f) s (f s).
Proof. by exists s. Qed.

Lemma returns_lift {A} (v : A) s : returns (lift (Ok v)) s v.
Proof. by exists s. Qed.

Lemma returns_assert (b : bool) s : b → returns (py_assert b) s ().
Proof. destruct b; [by exists s|done]. Qed.

Lemma returns_foldl {A B} (f : A → B → py St A) (pure : A → B → A) a l s :
  (∀ s' a x, s' ≡ s → x ∈ l → returns (f a x) s' (pure a x)) →
  returns (py_foldl f a l) s (foldl pure a l).
Proof.
  revert a s. induction l as [|x l IH]; intros a s Hf; simpl.
  - apply returns_ret.
  - eapply returns_bind; [apply Hf; [done|left]|].
    intros s' Hs'. apply IH. intros s'' a' x' Hs'' Hx'.
    apply Hf; [by etrans|by right].
Qed.

Lemma returns_unique {A} (m : py St A) s v v' :
  returns m s v → returns m s v' → v = v'.
Proof. intros (?&?&_) (?&?&_). congruence. Qed.

End returns.

(** Steps through a sequence of binds with the rules above. *)
Ltac returns_step :=
  first [ apply returns_ret
        | eapply returns_bind;
          [ first [ apply returns_assert | apply returns_lift
                  | apply returns_gets ] | intros ??; simpl ] ].

Lemma returns_ret_eq {St : Type} `{Equiv St} {A} (v v' : A) (s : St) :
  Reflexive (≡@{St}) → v = v' → returns (mret v) s v'.
Proof. intros ? <-. by exists s. Qed.

(** [rbind tac]: the first computation of a bind returns by [tac]; the
    state it leaves is introduced with its equivalence to the state at
    the start of the whole computation. *)
Ltac rbind tac :=
  eapply returns_bind;
  [ tac
  | let g' := fresh "g" in
    let Hg := fresh "Hg" in
    intros g' Hg; simpl;
    try match goal with
        | H : ?b ≡ _ |- _ =>
            match type of Hg with
            | _ ≡ b => apply (λ x, transitivity x H) in Hg
            end
        end ].
