(* ===== verification/ArcSystem.v ===== *)
(** * The interface of an arc system, and the driver loop

    [src/transparser.py] and the script of [src/arc_eager.py] use an arc
    system through a handful of methods of the object [arcsys]:
    [get_legal_transitions], [take_transition] and [is_finished].  The
    class [ArcSystem] is that interface, with the one law a driver needs:
    a legal transition is taken without an exception and decreases a
    measure by one.

    The driver of the specification (ask for the legal transitions, let
    a policy pick one, take it, repeat until finished) is written once
    against the interface, as a loop on a fuel argument, and proved
    against it: it never runs out of fuel above the measure, what it
    returns does not depend on the fuel, and the transitions it takes
    form a legal run. *)

From stdpp Require Import base tactics option list numbers.
From S2P Require Import Prelude.

(** ** The interface *)

Class ArcSystem (C : Type) := {
  (** [arcsys.get_legal_transitions(config)] *)
  sys_legal : C → list Z;
  (** [arcsys.take_transition(config, transition)] *)
  sys_take : Z → py C unit;
  (** [arcsys.is_finished(config)] *)
  sys_finished : C → bool;
  (** what is left to do *)
  sys_measure : C → nat;
  sys_take_legal c t :
    t ∈ sys_legal c →
    ∃ c', sys_take t c = (Ok (), c') ∧ sys_measure c = S (sys_measure c')
}.

(** How a run of the driver ends. *)
Inductive outcome (C : Type) : Type :=
| Finished (c : C)
| Stuck (c : C)
| Failed (e : exn) (c : C)
| OutOfFuel (c : C).
Arguments Finished {C} c.
Arguments Stuck {C} c.
Arguments Failed {C} e c.
Arguments OutOfFuel {C} c.

Definition last_config {C} (o : outcome C) : C :=
  match o with
  | Finished c | Stuck c | Failed _ c | OutOfFuel c => c
  end.

Definition out_of_fuel {C} (o : outcome C) : bool :=
  match o with OutOfFuel _ => true | _ => false end.

Section driver.
Context `{ArcSystem C}.

(** The policy: an oracle or a classifier, which names a transition,
    names none, or raises. *)
Variable choose : C → result (option Z).

(** ** The driver *)

(** The transitions taken, and how the run ended: [Finished] when the
    terminal test holds, [Stuck] when the policy names no transition or
    one that is not legal, [Failed] on an exception. *)
Fixpoint drive (fuel : nat) (c : C) : list Z * outcome C :=
  if sys_finished c then ([], Finished c) else
  match fuel with
  | O => ([], OutOfFuel c)
  | S fuel =>
      match choose c with
      | Raise e => ([], Failed e c)
      | Ok None => ([], Stuck c)
      | Ok (Some t) =>
          if bool_decide (t ∈ sys_legal c) then
            match sys_take t c with
            | (Ok _, c') => let '(ts, o) := drive fuel c' in (t :: ts, o)
            | (Raise e, c') => ([], Failed e c')
            end
          else ([], Stuck c)
      end
  end.

(** A run of legal transitions. *)
Inductive sys_run : list Z → C → C → Prop :=
| sys_run_nil c : sys_run [] c c
| sys_run_cons t ts c c1 c2 :
    t ∈ sys_legal c → sys_take t c = (Ok (), c1) → sys_run ts c1 c2 →
    sys_run (t :: ts) c c2.

(** ** The driver against the interface *)

(** One unfolding of the loop at a configuration that is not finished
    and where the policy names a legal transition. *)
Lemma drive_step fuel c t c' :
  sys_finished c = false → choose c = Ok (Some t) → t ∈ sys_legal c →
  sys_take t c = (Ok (), c') →
  drive (S fuel) c = (t :: (drive fuel c').1, (drive fuel c').2).
Proof.
  intros Hf Hc Hl Ht. simpl.
  rewrite Hf, Hc, bool_decide_eq_true_2, Ht by done. by destruct (drive fuel c').
Qed.

(** The case analysis every lemma on the loop starts with. *)
Lemma drive_cases fuel c :
  (sys_finished c = true ∧ drive fuel c = ([], Finished c)) ∨
  (sys_finished c = false ∧ fuel = O ∧ drive fuel c = ([], OutOfFuel c)) ∨
  (sys_finished c = false ∧ ∃ fuel', fuel = S fuel' ∧
     ((∃ e, choose c = Raise e ∧ drive fuel c = ([], Failed e c)) ∨
      (choose c = Ok None ∧ drive fuel c = ([], Stuck c)) ∨
      (∃ t, choose c = Ok (Some t) ∧ (t ∉ sys_legal c) ∧
            drive fuel c = ([], Stuck c)) ∨
      (∃ t c', choose c = Ok (Some t) ∧ t ∈ sys_legal c ∧
               sys_take t c = (Ok (), c') ∧
               sys_measure c = S (sys_measure c') ∧
               drive fuel c = (t :: (drive fuel' c').1, (drive fuel' c').2)))).
Proof.
  destruct (sys_finished c) eqn:Hf; [left; by destruct fuel; simpl; rewrite Hf|].
  right. destruct fuel as [|fuel]; [left; simpl; by rewrite Hf|].
  right. split; [done|]. exists fuel. split; [done|].
  destruct (choose c) as [[t|]|e] eqn:Hc; simpl; rewrite Hf, Hc; [| |eauto 6]; last eauto.
  destruct (decide (t ∈ sys_legal c)) as [Hl|Hl].
  - destruct (sys_take_legal c t Hl) as (c'&Ht&Hm).
    do 3 right. exists t, c'. rewrite <-(drive_step fuel c t c') by done.
    simpl. by rewrite Hf, Hc.
  - right. right. left. exists t. by rewrite bool_decide_eq_false_2.
Qed.

Lemma drive_enough_fuel fuel c :
  sys_measure c < fuel → out_of_fuel (drive fuel c).2 = false.
Proof.
  revert c. induction fuel as [|fuel IH]; intros c Hm; [lia|].
  destruct (drive_cases (S fuel) c)
    as [[_ ->]|[(_&?&_)|(_&fuel'&[= <-]&[(e&_&->)|[[_ ->]|[(t&_&_&->)|
         (t&c'&_&_&_&Hd&->)]]])]]; try done.
  simpl. apply IH. lia.
Qed.

Lemma drive_fuel_irrelevant fuel fuel' c :
  sys_measure c < fuel → fuel ≤ fuel' → drive fuel' c = drive fuel c.
Proof.
  revert fuel' c. induction fuel as [|fuel IH]; intros fuel' c Hm Hle; [lia|].
  destruct fuel' as [|fuel']; [lia|].
  destruct (drive_cases (S fuel) c)
    as [[Hf ->]|[(_&?&_)|(Hf&?&[= <-]&[(e&Hc&->)|[[Hc ->]|[(t&Hc&Hl&->)|
         (t&c'&Hc&Hl&Ht&Hd&->)]]])]]; try done;
    try (simpl; by rewrite Hf, ?Hc, ?bool_decide_eq_false_2).
  rewrite (drive_step fuel' c t c') by done. by rewrite (IH fuel' c') by lia.
Qed.

Lemma drive_run fuel c : sys_run (drive fuel c).1 c (last_config (drive fuel c).2).
Proof.
  revert c. induction fuel as [|fuel IH]; intros c;
    match goal with |- context [drive ?f c] => destruct (drive_cases f c)
      as [[_ ->]|[(_&?&->)|(_&?&?&[(e&_&->)|[[_ ->]|[(t&_&_&->)|
           (t&c'&_&Hl&Ht&_&->)]]])]] end; simplify_eq/=; try constructor.
  econstructor; [done..|apply IH].
Qed.

Lemma sys_run_measure ts c c' :
  sys_run ts c c' → sys_measure c = length ts + sys_measure c'.
Proof.
  induction 1 as [|t ts c c1 c2 Hl Ht _ IH]; [done|].
  destruct (sys_take_legal c t Hl) as (c1'&Ht'&Hm).
  assert (c1' = c1) as -> by congruence. simpl. lia.
Qed.

Lemma drive_finished fuel c c' :
  (drive fuel c).2 = Finished c' → sys_finished c' = true.
Proof.
  revert c. induction fuel as [|fuel IH]; intros c;
    match goal with |- context [drive ?f c] => destruct (drive_cases f c)
      as [[Hf ->]|[(_&?&->)|(_&?&?&[(e&_&->)|[[_ ->]|[(t&_&_&->)|
           (t&c1&_&Hl&Ht&_&->)]]])]] end; simplify_eq/=; try done.
  - by intros [= <-].
  - by intros [= <-].
  - apply IH.
Qed.

Lemma drive_stuck fuel c c' :
  (drive fuel c).2 = Stuck c' →
  sys_finished c' = false ∧
  (choose c' = Ok None ∨ ∃ t, choose c' = Ok (Some t) ∧ (t ∉ sys_legal c')).
Proof.
  revert c. induction fuel as [|fuel IH]; intros c;
    match goal with |- context [drive ?f c] => destruct (drive_cases f c)
      as [[Hf ->]|[(_&?&->)|(Hf&?&?&[(e&_&->)|[[Hc ->]|[(t&Hc&Hl&->)|
           (t&c1&_&Hl&Ht&_&->)]]])]] end; simplify_eq/=; try done.
  - intros [= <-]. eauto.
  - intros [= <-]. eauto.
  - apply IH.
Qed.

Lemma drive_failed fuel c e c' :
  (drive fuel c).2 = Failed e c' → choose c' = Raise e.
Proof.
  revert c. induction fuel as [|fuel IH]; intros c;
    match goal with |- context [drive ?f c] => destruct (drive_cases f c)
      as [[Hf ->]|[(_&?&->)|(Hf&?&?&[(e'&Hc&->)|[[Hc ->]|[(t&Hc&Hl&->)|
           (t&c1&_&Hl&Ht&_&->)]]])]] end; simplify_eq/=; try done.
  - by intros [= <- <-].
  - apply IH.
Qed.

(** A policy that names a legal transition wherever an invariant holds,
    and preserves the invariant, is driven to a finished configuration. *)
Lemma drive_invariant (P : C → Prop) fuel c :
  (∀ c, P c → sys_finished c = false →
        ∃ t c', choose c = Ok (Some t) ∧ t ∈ sys_legal c ∧
                sys_take t c = (Ok (), c') ∧ P c') →
  P c → sys_measure c < fuel →
  ∃ c', (drive fuel c).2 = Finished c' ∧ P c'.
Proof.
  intros Hstep. revert c. induction fuel as [|fuel IH]; intros c HP Hm; [lia|].
  destruct (drive_cases (S fuel) c)
    as [[Hf ->]|[(_&?&_)|(Hf&?&[= <-]&Hc)]]; [by exists c|done|].
  destruct (Hstep c HP Hf) as (t&c'&Hch&Hl&Ht&HP').
  destruct Hc as [(e&?&_)|[[? _]|[(t'&?&?&_)|(t'&c''&?&_&Ht'&Hd&->)]]];
    [congruence..|].
  assert (t' = t) as -> by congruence. assert (c'' = c') as -> by congruence.
  simpl. apply IH; [done|lia].
Qed.

End driver.
