(* ===== verification/Config.v ===== *)
(** * Data of the parser: tokens, configurations, gold trees

    Models the module-level constants, the classes [Configuration] and
    [GoldConfiguration] and the static methods [get_initial_config],
    [get_gold_config] and [is_finished] of [ArcEager]
    (src/arc_eager.py, lines 1-74).  The theorems characterise the
    initial configuration and the gold tree built from a sentence. *)

From stdpp Require Import base tactics option list numbers gmap strings.
From S2P Require Import Prelude.

#[local] Open Scope Z_scope.

(** ** Constants *)

(** Index of the head in a token tuple. *)
Definition HEAD : Z := 2.

(** Index of the virtual root of the tree. *)
Definition ROOT : Z := -1.

(** Linear arithmetic with the value of [ROOT]. *)
Ltac root_lia := unfold ROOT in *; simpl in *; lia.

(** ** Tokens

    A token is the tuple (word, tag, head, label); [t[HEAD]] is
    [tok_head t]. *)
Record Token : Type := mkToken {
  tok_word : string;
  tok_pos : string;
  tok_head : Z;
  tok_label : string
}.

(** ** Configurations *)

Record Configuration : Type := mkConfiguration {
  arcs : list (Z * Z);
  stack : list Z;
  buffer : list Z;
  sentence : list Token
}.

(** [Configuration.__init__(root, buffer, sentence)] *)
Definition Configuration_init (root : Z) (buffer : list Z)
    (sentence : list Token) : Configuration :=
  {| arcs := []; stack := [root]; buffer := buffer; sentence := sentence |}.

Definition set_stack (st : list Z) (c : Configuration) : Configuration :=
  {| arcs := arcs c; stack := st; buffer := buffer c; sentence := sentence c |}.

Definition set_buffer (b : list Z) (c : Configuration) : Configuration :=
  {| arcs := arcs c; stack := stack c; buffer := b; sentence := sentence c |}.

Definition set_arcs (a : list (Z * Z)) (c : Configuration) : Configuration :=
  {| arcs := a; stack := stack c; buffer := buffer c; sentence := sentence c |}.

(** ** Gold trees *)

Module Gold.

Record GoldConfiguration : Type := mkGold {
  head_of : gmap Z Z;
  deps_of : gmap Z (list Z);
  arcs : gset (Z * Z)
}.

(** [GoldConfiguration.__init__()] *)
Definition GoldConfiguration_init : GoldConfiguration :=
  {| head_of := ∅; deps_of := ∅; arcs := ∅ |}.

(** Reading [deps_of[k]] without creating the entry: the list stored,
    or the empty list the default factory would return. *)
Definition deps (g : GoldConfiguration) (k : Z) : list Z :=
  default [] (deps_of g !! k).

(** [deps_of[k]] on the defaultdict: creates the entry when it is
    missing, and returns the list. *)
Definition deps_of_get (k : Z) : py GoldConfiguration (list Z) :=
  λ g, match deps_of g !! k with
       | Some l => (Ok l, g)
       | None => (Ok [], {| head_of := head_of g;
                            deps_of := <[k := []]> (deps_of g);
                            arcs := arcs g |})
       end.

End Gold.

Export Gold (GoldConfiguration, mkGold, head_of, deps_of, GoldConfiguration_init).

(** ** [ArcEager.get_initial_config] *)

Definition get_initial_config (sentence : list Token) : Configuration :=
  let buffer := seqZ 0 (Z.of_nat (length sentence)) in
  Configuration_init ROOT buffer sentence.

(** ** [ArcEager.get_gold_config] *)

(** The body of the loop, for token [i] with head [head]. *)
Definition gold_add (g : GoldConfiguration) (i head : Z) : GoldConfiguration :=
  {| head_of := <[i := head]> (head_of g);
     deps_of := <[head := Gold.deps g head ++ [i]]> (deps_of g);
     Gold.arcs := {[ (head, i) ]} ∪ Gold.arcs g |}.

Definition get_gold_config (sentence : list Token) : GoldConfiguration :=
  foldl (λ g '(i, t), gold_add g i (tok_head t))
        GoldConfiguration_init (enumerate sentence).

(** ** [ArcEager.is_finished] *)

Definition is_finished (config : Configuration) : bool :=
  bool_decide (length (buffer config) = 0%nat)
  && bool_decide (length (stack config) = 1%nat).

(** ** The initial configuration *)

Lemma get_initial_config_stack s : stack (get_initial_config s) = [ROOT].
Proof. reflexivity. Qed.

Lemma get_initial_config_arcs s : arcs (get_initial_config s) = [].
Proof. reflexivity. Qed.

Lemma get_initial_config_buffer s :
  buffer (get_initial_config s) = seqZ 0 (Z.of_nat (length s)).
Proof. reflexivity. Qed.

Lemma is_finished_spec c :
  is_finished c = true ↔ buffer c = [] ∧ ∃ r, stack c = [r].
Proof.
  unfold is_finished. rewrite andb_true_iff, !bool_decide_eq_true.
  destruct (buffer c), (stack c) as [|r [|]]; naive_solver.
Qed.

(** ** The gold tree built from a sentence *)

(** The three structures of a gold tree describe the same relation. *)
Record gold_consistent (g : GoldConfiguration) : Prop := {
  gc_arcs : ∀ h i, (h, i) ∈ Gold.arcs g ↔ head_of g !! i = Some h;
  gc_deps : ∀ h i, i ∈ Gold.deps g h ↔ head_of g !! i = Some h;
  gc_nodup : ∀ h, NoDup (Gold.deps g h)
}.

Lemma gold_init_consistent : gold_consistent GoldConfiguration_init.
Proof.
  split; unfold Gold.deps; simpl; intros.
  - by rewrite elem_of_empty, lookup_empty.
  - by rewrite !lookup_empty, elem_of_nil.
  - rewrite lookup_empty. constructor.
Qed.

Lemma deps_gold_add g i h k :
  Gold.deps (gold_add g i h) k =
  if decide (k = h) then Gold.deps g h ++ [i] else Gold.deps g k.
Proof.
  unfold Gold.deps at 1. simpl. case_decide as Hk.
  - subst. by rewrite lookup_insert_eq.
  - by rewrite lookup_insert_ne.
Qed.

Lemma gold_add_consistent g i h :
  gold_consistent g → head_of g !! i = None →
  gold_consistent (gold_add g i h).
Proof.
  intros [Ha Hd Hn] Hi. split.
  - intros h' i'. simpl. rewrite elem_of_union, elem_of_singleton, Ha.
    destruct (decide (i' = i)) as [->|].
    + rewrite lookup_insert_eq, Hi. naive_solver.
    + rewrite lookup_insert_ne by done. naive_solver.
  - intros h' i'. rewrite deps_gold_add. simpl. case_decide as Hh.
    + subst h'. rewrite elem_of_app, list_elem_of_singleton, Hd.
      destruct (decide (i' = i)) as [->|].
      * rewrite lookup_insert_eq. naive_solver.
      * rewrite lookup_insert_ne by done. naive_solver.
    + rewrite Hd. destruct (decide (i' = i)) as [->|].
      * rewrite lookup_insert_eq, Hi. naive_solver.
      * by rewrite lookup_insert_ne.
  - intros h'. rewrite deps_gold_add. case_decide; [|done].
    apply NoDup_app. split_and!; [done| |apply NoDup_singleton].
    intros x Hx%Hd ->%list_elem_of_singleton. congruence.
Qed.

Lemma get_gold_config_snoc s t :
  get_gold_config (s ++ [t]) =
  gold_add (get_gold_config s) (Z.of_nat (length s)) (tok_head t).
Proof. unfold get_gold_config. by rewrite enumerate_snoc, foldl_snoc. Qed.

(** [head_of] holds the head of every token of the sentence, under its
    index, and nothing else. *)
Lemma get_gold_config_head_of s i :
  head_of (get_gold_config s) !! i =
  if decide (0 ≤ i) then tok_head <$> s !! Z.to_nat i else None.
Proof.
  induction s as [|t s IH] using rev_ind.
  - case_decide; [by rewrite lookup_nil|done].
  - rewrite get_gold_config_snoc. simpl.
    destruct (decide (i = Z.of_nat (length s))) as [->|Hne].
    + rewrite lookup_insert_eq, decide_True by lia.
      by rewrite Nat2Z.id, list_lookup_middle.
    + rewrite lookup_insert_ne, IH by done. case_decide; [|done].
      destruct (decide (Z.to_nat i < length s)%nat).
      * by rewrite lookup_app_l.
      * rewrite !lookup_ge_None_2; [done| |lia].
        rewrite length_app. simpl. lia.
Qed.

Lemma get_gold_config_dom s i :
  is_Some (head_of (get_gold_config s) !! i) ↔ 0 ≤ i < Z.of_nat (length s).
Proof.
  rewrite get_gold_config_head_of. case_decide.
  - rewrite fmap_is_Some, lookup_lt_is_Some. lia.
  - split; [by intros []|lia].
Qed.

Lemma get_gold_config_consistent s : gold_consistent (get_gold_config s).
Proof.
  induction s as [|t s IH] using rev_ind; [apply gold_init_consistent|].
  rewrite get_gold_config_snoc. apply gold_add_consistent; [done|].
  apply eq_None_not_Some. rewrite get_gold_config_dom. lia.
Qed.

(** ** The sentence of the specification's example

    Three tokens with gold heads 1, ROOT, 1. *)
Definition example_sentence : list Token :=
  [ mkToken "a" "N" 1 "x"; mkToken "b" "V" ROOT "x"; mkToken "c" "N" 1 "x" ].

(** ** Gold trees up to the entries a defaultdict creates

    Reading [deps_of[k]] at a missing key stores an empty list under
    [k].  Two gold trees are equivalent when they have the same heads,
    the same arcs, and the same dependents for every key, a missing
    entry counting as an empty list. *)

Definition gold_equiv (g g' : GoldConfiguration) : Prop :=
  head_of g = head_of g' ∧ Gold.arcs g = Gold.arcs g' ∧
  ∀ k, Gold.deps g k = Gold.deps g' k.

#[export] Instance gold_equiv_inst : Equiv GoldConfiguration := gold_equiv.

#[export] Instance gold_equiv_equivalence : Equivalence gold_equiv.
Proof.
  split.
  - by intros g.
  - intros g g' (?&?&?). by split_and!.
  - intros g1 g2 g3 (?&?&H12) (?&?&H23). split_and!; congruence.
Qed.

#[export] Instance head_of_proper : Proper ((≡) ==> (=)) head_of.
Proof. by intros g g' (?&_). Qed.

#[export] Instance gold_arcs_proper : Proper ((≡) ==> (=)) Gold.arcs.
Proof. by intros g g' (_&?&_). Qed.

#[export] Instance deps_proper : Proper ((≡) ==> (=) ==> (=)) Gold.deps.
Proof. intros g g' (_&_&H) k ? <-. apply H. Qed.

(** The gold tree after a read of [deps_of[k]]. *)
Definition touch (k : Z) (g : GoldConfiguration) : GoldConfiguration :=
  (Gold.deps_of_get k g).2.

Lemma deps_of_get_run k g :
  Gold.deps_of_get k g = (Ok (Gold.deps g k), touch k g).
Proof.
  unfold touch, Gold.deps_of_get, Gold.deps.
  by destruct (deps_of g !! k).
Qed.

Lemma touch_equiv k g : touch k g ≡ g.
Proof.
  unfold touch, Gold.deps_of_get. destruct (deps_of g !! k) eqn:Hk; [done|].
  split_and!; [done..|]. intros k'. unfold Gold.deps. simpl.
  destruct (decide (k = k')) as [<-|].
  - by rewrite lookup_insert_eq, Hk.
  - by rewrite lookup_insert_ne.
Qed.

Lemma touch_present k g l : deps_of g !! k = Some l → touch k g = g.
Proof. unfold touch, Gold.deps_of_get. by intros ->. Qed.

Lemma touch_missing k g :
  deps_of g !! k = None →
  touch k g = mkGold (head_of g) (<[k := []]> (deps_of g)) (Gold.arcs g).
Proof. unfold touch, Gold.deps_of_get. by intros ->. Qed.

(** [get_gold_config] stores no empty list: a head has an entry in
    [deps_of] exactly when some token hangs from it. *)
Lemma get_gold_config_deps_of se h :
  deps_of (get_gold_config se) !! h = None ↔
  ∀ d, head_of (get_gold_config se) !! d ≠ Some h.
Proof.
  induction se as [|t se IH] using rev_ind; [by split|].
  rewrite get_gold_config_snoc. simpl.
  destruct (decide (h = tok_head t)) as [->|Hne].
  - rewrite lookup_insert_eq. split; [done|].
    intros Hall. exfalso.
    apply (Hall (Z.of_nat (length se))), lookup_insert_eq.
  - rewrite lookup_insert_ne, IH by done. split; intros Hall d.
    + destruct (decide (d = Z.of_nat (length se))) as [->|].
      * rewrite lookup_insert_eq. congruence.
      * rewrite lookup_insert_ne by done. apply Hall.
    + intros Hd. apply (Hall d).
      rewrite lookup_insert_ne; [done|]. intros <-.
      assert (is_Some (head_of (get_gold_config se) !! Z.of_nat (length se)))
        as ?%get_gold_config_dom by eauto. lia.
Qed.

Lemma gold_consistent_proper g g' :
  g ≡ g' → gold_consistent g → gold_consistent g'.
Proof.
  intros (Hh&Ha&Hd) [H1 H2 H3]. split; intros.
  - by rewrite <-Ha, <-Hh.
  - by rewrite <-Hd, <-Hh.
  - by rewrite <-Hd.
Qed.

Lemma gold_equiv_head_of g g' : g ≡ g' → head_of g = head_of g'.
Proof. by intros (?&_). Qed.

Lemma gold_equiv_arcs g g' : g ≡ g' → Gold.arcs g = Gold.arcs g'.
Proof. by intros (_&?&_). Qed.

Lemma gold_equiv_deps g g' k : g ≡ g' → Gold.deps g k = Gold.deps g' k.
Proof. by intros (_&_&?). Qed.

(** Replaces what is read from a gold tree by what is read from the
    equivalent tree named in a hypothesis. *)
Ltac gold_rw :=
  repeat match goal with
         | H : ?g' ≡ ?g |- _ =>
             progress rewrite ?(gold_equiv_head_of g' g H),
               ?(gold_equiv_arcs g' g H), ?(gold_equiv_deps g' g _ H)
         end.

(** ** The theorem of the gold tree *)

(** C28: The gold tree [get_gold_config] builds from a sentence:
    [head_of] maps the index of every token to the head its annotation
    gives and has no other key; [arcs] is the set of the pairs (head,
    dependent); [deps_of] lists, for every head, exactly its dependents,
    each once. *)
Theorem get_gold_config_spec se :
  (∀ i, head_of (get_gold_config se) !! i
        = if decide (0 ≤ i) then tok_head <$> se !! Z.to_nat i else None) ∧
  (∀ h i, (h, i) ∈ Gold.arcs (get_gold_config se)
          ↔ head_of (get_gold_config se) !! i = Some h) ∧
  (∀ h i, i ∈ Gold.deps (get_gold_config se) h
          ↔ head_of (get_gold_config se) !! i = Some h) ∧
  (∀ h, NoDup (Gold.deps (get_gold_config se) h)).
Proof.
  destruct (get_gold_config_consistent se) as [Ha Hd Hn].
  split_and!; [apply get_gold_config_head_of|done..].
Qed.
