(* ===== verification/Printing.v ===== *)
(** * Printing a configuration

    [Configuration.__str__] (src/arc_eager.py, lines 17-21) prints the
    stack, the buffer and the arcs of a configuration with Python's
    [list.__str__], which prints each element with [repr]: an integer
    in decimal, a tuple between parentheses, a list between brackets,
    the elements separated by a comma and a space.  The integers of a
    configuration are ROOT and indices of tokens of the sentence, which
    Python 2 holds as plain [int]: [repr] prints them without the
    suffix L it gives to a [long], and [repr_int] models that case
    only.

    [repr] is a class with an instance per type of element.  Next to it
    is a reader for the printed form: a function that takes a string,
    returns the value it starts with and the rest of the string, and is
    built from the readers of the elements.  The class [Read] carries
    the law that reading undoes printing; the theorem of the file is
    that the text of a configuration determines its stack, its buffer
    and its arcs (the sentence is not printed). *)

From Stdlib Require Import Ascii.
From stdpp Require Import base tactics option list numbers strings pretty.
From S2P Require Import Prelude Config.

#[local] Open Scope string_scope.

(** ** Python's [repr] *)

Class Repr (A : Type) := repr : A → string.
#[global] Hint Mode Repr ! : typeclass_instances.

(** ['\n'] *)
Definition nl : string := String "010" "".

(** [sep.join(l)] *)
Fixpoint join (sep : string) (l : list string) : string :=
  match l with
  | [] => ""
  | [x] => x
  | x :: l => x +:+ sep +:+ join sep l
  end.

(** [int.__repr__]: decimal digits, a minus sign before a negative
    number. *)
#[export] Instance repr_int : Repr Z := pretty.

(** [tuple.__repr__] for a pair. *)
#[export] Instance repr_tuple `{Repr A, Repr B} : Repr (A * B) := λ p,
  "(" +:+ repr p.1 +:+ ", " +:+ repr p.2 +:+ ")".

(** [list.__repr__], which is also [list.__str__]. *)
#[export] Instance repr_list `{Repr A} : Repr (list A) := λ l,
  "[" +:+ join ", " (repr <$> l) +:+ "]".

(** [Configuration.__str__] *)
Definition Configuration_str (self : Configuration) : string :=
  let ret := "stack: " +:+ repr (stack self) +:+ nl in
  let ret := ret +:+ ("buffer: " +:+ repr (buffer self) +:+ nl) in
  let ret := ret +:+ ("arcs: " +:+ repr (arcs self)) in
  ret.

(** ** Readers *)

(** A reader takes the value a string starts with and returns the rest. *)
Definition reader (A : Type) : Type := string → option (A * string).

(** The string [s] without its prefix [p]. *)
Fixpoint expect (p s : string) : option string :=
  match p, s with
  | "", _ => Some s
  | String a p, String b s => if decide (a = b) then expect p s else None
  | _, _ => None
  end.

(** The value of a decimal digit, from its character code. *)
Definition digit_of (c : ascii) : option N :=
  let code := N_of_ascii c in
  if bool_decide (48 ≤ code < 58)%N then Some (code - 48)%N else None.

(** A string that does not go on with a digit ends a number. *)
Definition no_digit (s : string) : bool :=
  match s with
  | String c _ => bool_decide (digit_of c = None)
  | "" => true
  end.

(** The value of the digits read so far, with one more digit. *)
Definition push_digit (acc : option N) (d : N) : option N :=
  Some (default 0 acc * 10 + d)%N.

(** The longest prefix of digits; [None] when there is no digit. *)
Fixpoint read_digits (s : string) (acc : option N) : option N * string :=
  match s with
  | String c s' =>
      match digit_of c with
      | Some d => read_digits s' (push_digit acc d)
      | None => (acc, s)
      end
  | "" => (acc, "")
  end.

Definition read_nat : reader N := λ s,
  let '(o, rest) := read_digits s None in n ← o; Some (n, rest).

Definition read_int : reader Z := λ s,
  match read_nat s with
  | Some (n, rest) => Some (Z.of_N n, rest)
  | None =>
      s ← expect "-" s; '(n, rest) ← read_nat s; Some (- Z.of_N n, rest)%Z
  end.

Definition read_pair {A B} (ra : reader A) (rb : reader B) : reader (A * B) :=
  λ s,
  s ← expect "(" s; '(a, s) ← ra s;
  s ← expect ", " s; '(b, s) ← rb s;
  s ← expect ")" s; Some ((a, b), s).

(** The elements after the first, up to the closing bracket; the fuel
    bounds their number. *)
Fixpoint read_items {A} (item : reader A) (fuel : nat) (s : string) :
    option (list A * string) :=
  match expect "]" s, fuel with
  | Some rest, _ => Some ([], rest)
  | None, O => None
  | None, S fuel =>
      s ← expect ", " s; '(x, s) ← item s;
      '(xs, rest) ← read_items item fuel s; Some (x :: xs, rest)
  end.

Definition read_list {A} (item : reader A) : reader (list A) := λ s,
  s ← expect "[" s;
  match item s with
  | None => rest ← expect "]" s; Some ([], rest)
  | Some (x, s) =>
      '(xs, rest) ← read_items item (String.length s) s; Some (x :: xs, rest)
  end.

#[global] Arguments expect : simpl never.

(** A reader that undoes [repr]: it reads a printed value back when the
    text does not go on with a digit, and it does not take the bracket
    or the comma that follows an element of a list. *)
Class Read (A : Type) `{Repr A} := {
  read : reader A;
  read_repr x rest :
    no_digit rest = true → read (repr x +:+ rest) = Some (x, rest);
  read_bracket rest : read (String "]" rest) = None
}.
#[global] Hint Mode Read ! - : typeclass_instances.
#[global] Arguments read _ {_ _} _ : simpl never.

(** ** Strings *)

Lemma append_cons a (s1 s2 : string) : String a s1 +:+ s2 = String a (s1 +:+ s2).
Proof. done. Qed.

Lemma append_nil_l (s : string) : "" +:+ s = s.
Proof. done. Qed.

Lemma append_nil_r (s : string) : s +:+ "" = s.
Proof. induction s as [|a s IH]; [done|by rewrite append_cons, IH]. Qed.

Lemma append_assoc (s1 s2 s3 : string) : (s1 +:+ s2) +:+ s3 = s1 +:+ s2 +:+ s3.
Proof. induction s1 as [|a s1 IH]; [done|by rewrite !append_cons, IH]. Qed.

Lemma append_length (s1 s2 : string) :
  String.length (s1 +:+ s2) = (String.length s1 + String.length s2)%nat.
Proof. induction s1 as [|a s1 IH]; [done|by rewrite append_cons; simpl; rewrite IH]. Qed.

Lemma expect_cons a p s : expect (String a p) (String a s) = expect p s.
Proof. unfold expect at 1. by rewrite decide_True. Qed.

Lemma expect_app p s : expect p (p +:+ s) = Some s.
Proof.
  induction p as [|a p IH]; [by destruct s|by rewrite append_cons, expect_cons].
Qed.

Create Rewrite HintDb reader.
#[export] Hint Rewrite append_assoc append_nil_l expect_app : reader.

(** One step of a reader on a text built with [+:+]: the text is
    brought to the form [prefix +:+ rest] and the prefix is taken. *)
Ltac read_step := autorewrite with reader; simpl; autorewrite with reader.

(** ** Integers *)

Lemma read_digits_char d s acc :
  (d < 10)%N →
  read_digits (String (pretty_N_char d) s) acc = read_digits s (push_digit acc d).
Proof.
  intros Hd.
  assert (d = 0 ∨ d = 1 ∨ d = 2 ∨ d = 3 ∨ d = 4 ∨ d = 5 ∨ d = 6 ∨ d = 7
          ∨ d = 8 ∨ d = 9)%N as Hcase by lia.
  by destruct_or! Hcase; subst.
Qed.

Lemma read_digits_end rest acc :
  no_digit rest = true → read_digits rest acc = (acc, rest).
Proof.
  destruct rest as [|c rest]; simpl; [done|].
  intros ->%bool_decide_eq_true. done.
Qed.

Lemma pretty_N_go_app x s rest :
  pretty_N_go x s +:+ rest = pretty_N_go x (s +:+ rest).
Proof.
  revert s. induction (N.lt_wf_0 x) as [x _ IH]; intros s.
  destruct (decide (x = 0)%N) as [->|]; [done|].
  rewrite !(pretty_N_go_step x) by lia.
  rewrite IH by (apply N.div_lt; lia). done.
Qed.

(** The digits of [x] before [s] are read as [x]. *)
Lemma read_digits_pretty x s :
  read_digits (pretty_N_go x s) None
  = read_digits s (if decide (x = 0)%N then None else Some x).
Proof.
  revert s. induction (N.lt_wf_0 x) as [x _ IH]; intros s.
  case_decide as Hx; [by subst|].
  rewrite pretty_N_go_step, IH by (try apply N.div_lt; lia).
  rewrite read_digits_char by (apply N.mod_lt; lia).
  f_equal. unfold push_digit. f_equal.
  pose proof (N.div_mod x 10). case_decide as Hq; simpl; [rewrite Hq in *|]; lia.
Qed.

Lemma read_nat_pretty (x : N) rest :
  no_digit rest = true → read_nat (pretty x +:+ rest) = Some (x, rest).
Proof.
  intros Hrest. unfold read_nat, pretty, pretty_N.
  case_decide as Hx; [subst; simpl; by rewrite read_digits_end|].
  rewrite pretty_N_go_app, read_digits_pretty, decide_False by done.
  simpl. by rewrite read_digits_end.
Qed.

Lemma read_nat_minus s : read_nat ("-" +:+ s) = None.
Proof. done. Qed.

Lemma read_int_repr (z : Z) rest :
  no_digit rest = true → read_int (repr z +:+ rest) = Some (z, rest).
Proof.
  intros Hrest. unfold read_int. destruct z as [|p|p].
  - by rewrite (read_nat_pretty 0).
  - change (repr (Z.pos p)) with (pretty (N.pos p)).
    by rewrite read_nat_pretty.
  - change (repr (Z.neg p)) with ("-" +:+ pretty (N.pos p)).
    rewrite append_assoc, read_nat_minus. read_step.
    by rewrite read_nat_pretty.
Qed.

#[export] Instance read_Z : Read Z :=
  {| read := read_int; read_repr := read_int_repr;
     read_bracket := λ _, eq_refl |}.

(** ** Pairs and lists *)

Section compound.
Context `{Read A, Read B}.

Lemma read_pair_repr (p : A * B) rest :
  read_pair (read A) (read B) (repr p +:+ rest) = Some (p, rest).
Proof.
  destruct p as [a b]. unfold read_pair, repr, repr_tuple.
  read_step. rewrite read_repr by done.
  read_step. rewrite read_repr by done.
  by read_step.
Qed.

#[export] Instance read_tuple : Read (A * B) :=
  {| read := read_pair (read A) (read B);
     read_repr p rest _ := read_pair_repr p rest;
     read_bracket := λ _, eq_refl |}.

(** What [list.__repr__] prints after the first element. *)
Definition items_tail (l : list A) : string :=
  foldr (λ x s, ", " +:+ repr x +:+ s) "]" l.

Lemma join_items x (l : list A) :
  join ", " (repr <$> x :: l) +:+ "]" = repr x +:+ items_tail l.
Proof.
  revert x. induction l as [|y l IH]; intros x; [done|].
  change (join ", " (repr <$> x :: y :: l))
    with (repr x +:+ ", " +:+ join ", " (repr <$> y :: l)).
  by rewrite !append_assoc, IH.
Qed.

Lemma items_tail_length (l : list A) rest :
  (length l ≤ String.length (items_tail l +:+ rest))%nat.
Proof.
  induction l as [|x l IH]; simpl; [lia|].
  rewrite !append_assoc, 2!append_length. simpl. lia.
Qed.

Lemma read_items_tail fuel (l : list A) rest :
  (length l ≤ fuel)%nat →
  read_items (read A) fuel (items_tail l +:+ rest) = Some (l, rest).
Proof.
  revert fuel. induction l as [|x l IH]; intros fuel Hfuel.
  { by destruct fuel. }
  destruct fuel as [|fuel]; [simpl in Hfuel; lia|].
  simpl. read_step. rewrite read_repr by by destruct l.
  simpl. rewrite IH by (simpl in Hfuel; lia). done.
Qed.

Lemma read_list_repr (l : list A) rest :
  read_list (read A) (repr l +:+ rest) = Some (l, rest).
Proof.
  unfold read_list, repr, repr_list. destruct l as [|x l].
  { read_step. by rewrite (read_bracket rest). }
  rewrite <-append_assoc, (append_assoc "["), join_items.
  read_step. rewrite read_repr by by destruct l.
  simpl. rewrite read_items_tail by apply items_tail_length. done.
Qed.

#[export] Instance read_list_inst : Read (list A) :=
  {| read := read_list (read A);
     read_repr l rest _ := read_list_repr l rest;
     read_bracket := λ _, eq_refl |}.

End compound.

(** The stack, the buffer and the arcs of a printed configuration. *)
Definition read_config (s : string) :
    option (list Z * list Z * list (Z * Z)) :=
  s ← expect "stack: " s; '(st, s) ← read (list Z) s;
  s ← expect nl s;
  s ← expect "buffer: " s; '(bf, s) ← read (list Z) s;
  s ← expect nl s;
  s ← expect "arcs: " s; '(ar, s) ← read (list (Z * Z)) s;
  if decide (s = "") then Some (st, bf, ar) else None.

(** ** The theorem of the printed configuration *)

Lemma read_config_str (c : Configuration) :
  read_config (Configuration_str c) = Some (stack c, buffer c, arcs c).
Proof.
  unfold read_config, Configuration_str.
  read_step. rewrite read_repr by done.
  read_step. rewrite read_repr by done.
  read_step. rewrite <-(append_nil_r (repr (arcs c))).
  by rewrite read_repr.
Qed.

(** C27: Reading undoes printing.  The text that [Configuration.__str__]
    returns is read back as the stack, the buffer and the arcs of the
    configuration, whatever they hold: negative indices, indices of
    several digits, empty lists. *)
Theorem Configuration_str_roundtrip (c : Configuration) :
  read_config (Configuration_str c) = Some (stack c, buffer c, arcs c).
Proof. apply read_config_str. Qed.

(** Two configurations print the same text exactly when they have the
    same stack, buffer and arcs: the sentence is not printed. *)
Lemma Configuration_str_inj (c1 c2 : Configuration) :
  Configuration_str c1 = Configuration_str c2 ↔
  stack c1 = stack c2 ∧ buffer c1 = buffer c2 ∧ arcs c1 = arcs c2.
Proof.
  split.
  - intros Heq. pose proof (read_config_str c1) as H1.
    rewrite Heq, read_config_str in H1. by simplify_eq.
  - intros (Hs&Hb&Ha). unfold Configuration_str. by rewrite Hs, Hb, Ha.
Qed.

(** The text of a configuration of a sentence of fourteen tokens. *)
Example Configuration_str_example :
  Configuration_str (mkConfiguration [(ROOT, 3); (12, 11)] [ROOT; 3; 12]
                                     [13] [])%Z
  = "stack: [-1, 3, 12]" +:+ nl +:+ "buffer: [13]" +:+ nl
    +:+ "arcs: [(-1, 3), (12, 11)]".
Proof. vm_compute. reflexivity. Qed.
