(* ===== verification/Transitions.v ===== *)
(** * The transition engine of [ArcEager]

    Models the class constants, [get_legal_transitions], the four
    handlers [left_arc], [right_arc], [shift] and [reduce], the handler
    table [transition_funcs] that the constructor fills, and
    [take_transition] (src/arc_eager.py, lines 32-47 and 98-188).

    The handlers mutate the configuration in place, so they are
    computations of [py Configuration]: when one raises, the
    configuration it leaves behind is part of the outcome. *)

From stdpp Require Import base tactics option list numbers gmap strings.
From S2P Require Import Prelude Config.

#[local] Open Scope Z_scope.

(** ** Class constants *)

Definition LEFT : Z := 0.
Definition RIGHT : Z := 1.
Definition SHIFT : Z := 2.
Definition REDUCE : Z := 3.
Definition TRANSITIONS : list Z := [LEFT; RIGHT; SHIFT; REDUCE].
Definition TRANSITION_NAMES : list string :=
  ["LEFT"; "RIGHT"; "SHIFT"; "REDUCE"]%string.

(** ** [get_legal_transitions] *)

(** [[h for h, t in arcs if t == x]] *)
Definition heads_in (arcs : list (Z * Z)) (x : Z) : list Z :=
  (filter (λ a, a.2 = x) arcs).*1.

(** [len([h for h, t in arcs if t == x]) > 0] *)
Definition has_head (arcs : list (Z * Z)) (x : Z) : bool :=
  bool_decide (0 < length (heads_in arcs x))%nat.

(** [is_legal[t] = v] *)
Definition set_flag (t : Z) (v : bool) (is_legal : list bool) : list bool :=
  <[Z.to_nat t := v]> is_legal.

(** The list [is_legal] when the two [if] statements have run. *)
Definition legal_flags (config : Configuration) : list bool :=
  let is_legal := (λ _, true) <$> TRANSITIONS in
  let is_legal :=
    match buffer config with
    | [] =>
        set_flag SHIFT false (set_flag RIGHT false (set_flag LEFT false is_legal))
    | buffer_first :: _ =>
        let is_legal :=
          if bool_decide (buffer_first = ROOT)
          then set_flag RIGHT false is_legal else is_legal in
        if has_head (arcs config) buffer_first
        then set_flag RIGHT false is_legal else is_legal
    end in
  match py_top (stack config) with
  | None =>
      set_flag REDUCE false (set_flag RIGHT false (set_flag LEFT false is_legal))
  | Some stack_top =>
      let is_legal :=
        if bool_decide (stack_top = ROOT)
        then set_flag LEFT false is_legal else is_legal in
      if has_head (arcs config) stack_top
      then set_flag LEFT false is_legal
      else set_flag REDUCE false is_legal
  end.

Definition get_legal_transitions (config : Configuration) : list Z :=
  (filter (λ p, p.2 = true) (enumerate (legal_flags config))).*1.

(** ** The handlers *)

(** [config.stack.pop()] *)
Definition stack_pop : py Configuration Z :=
  λ c, match py_pop (stack c) with
       | Some (s, st) => (Ok s, set_stack st c)
       | None => (Raise IndexError, c)
       end.

(** [config.stack[-1]] *)
Definition stack_top : py Configuration Z :=
  λ c, match py_top (stack c) with
       | Some s => (Ok s, c)
       | None => (Raise IndexError, c)
       end.

(** [config.buffer[0]] *)
Definition buffer_first : py Configuration Z :=
  λ c, match buffer c with
       | b :: _ => (Ok b, c)
       | [] => (Raise IndexError, c)
       end.

(** [del config.buffer[0]] *)
Definition buffer_del_first : py Configuration unit :=
  λ c, match buffer c with
       | _ :: bs => (Ok (), set_buffer bs c)
       | [] => (Raise IndexError, c)
       end.

(** [config.stack.append(x)] *)
Definition stack_append (x : Z) : py Configuration unit :=
  modify (λ c, set_stack (stack c ++ [x]) c).

(** [config.arcs.append(a)] *)
Definition arcs_append (a : Z * Z) : py Configuration unit :=
  modify (λ c, set_arcs (arcs c ++ [a]) c).

Definition left_arc : py Configuration unit :=
  s ← stack_pop;
  b ← buffer_first;
  arcs_append (b, s).

Definition right_arc : py Configuration unit :=
  s ← stack_top;
  b ← buffer_first;
  buffer_del_first;;
  stack_append b;;
  arcs_append (s, b).

Definition shift : py Configuration unit :=
  b ← buffer_first;
  buffer_del_first;;
  stack_append b.

Definition reduce : py Configuration unit :=
  stack_pop;;
  mret ().

(** ** The handler table and [take_transition] *)

(** The class attribute [transition_funcs], initially the empty dict. *)
Definition transition_funcs : gmap Z (py Configuration unit) := ∅.

(** [ArcEager.__init__]: registers the four handlers in the table. *)
Definition ArcEager_init (funcs : gmap Z (py Configuration unit)) :
    gmap Z (py Configuration unit) :=
  <[REDUCE := reduce]>
    (<[SHIFT := shift]> (<[RIGHT := right_arc]> (<[LEFT := left_arc]> funcs))).

Definition take_transition (funcs : gmap Z (py Configuration unit))
    (transition : Z) : py Configuration unit :=
  py_assert (bool_decide (transition ∈ TRANSITIONS));;
  f ← lift (of_lookup transition (funcs !! transition));
  f.

(** The handler table once an [ArcEager] object has been constructed. *)
Definition the_funcs : gmap Z (py Configuration unit) :=
  ArcEager_init transition_funcs.

(** ** The preconditions of the four transitions, in closed form *)

Definition left_ok (c : Configuration) : bool :=
  match py_top (stack c), buffer c with
  | Some s, _ :: _ => bool_decide (s ≠ ROOT) && negb (has_head (arcs c) s)
  | _, _ => false
  end.

Definition right_ok (c : Configuration) : bool :=
  match py_top (stack c), buffer c with
  | Some _, b :: _ => bool_decide (b ≠ ROOT) && negb (has_head (arcs c) b)
  | _, _ => false
  end.

Definition shift_ok (c : Configuration) : bool :=
  match buffer c with [] => false | _ :: _ => true end.

Definition reduce_ok (c : Configuration) : bool :=
  match py_top (stack c) with
  | Some s => has_head (arcs c) s
  | None => false
  end.

(** ** Incoming arcs *)

Lemma elem_of_heads_in a x h : h ∈ heads_in a x ↔ (h, x) ∈ a.
Proof.
  unfold heads_in. rewrite list_elem_of_fmap. split.
  - intros ([h' x'] & -> & [Hx ?]%list_elem_of_filter). simpl in *. by subst.
  - intros Hin. exists (h, x). split; [done|]. by apply list_elem_of_filter.
Qed.

Lemma has_head_true a x : has_head a x = true ↔ ∃ h, (h, x) ∈ a.
Proof.
  unfold has_head. rewrite bool_decide_eq_true. split.
  - destruct (heads_in a x) as [|h l] eqn:E; simpl; [lia|]. intros _.
    exists h. apply elem_of_heads_in. rewrite E. left.
  - intros [h Hh%elem_of_heads_in].
    destruct (heads_in a x); [by apply elem_of_nil in Hh|simpl; lia].
Qed.

Lemma has_head_false a x : has_head a x = false ↔ ∀ h, (h, x) ∉ a.
Proof.
  rewrite <-not_true_iff_false, has_head_true. naive_solver.
Qed.

Lemma has_head_snoc a h d x :
  has_head (a ++ [(h, d)]) x = has_head a x || bool_decide (d = x).
Proof.
  apply eq_true_iff_eq.
  rewrite orb_true_iff, bool_decide_eq_true, !has_head_true.
  setoid_rewrite elem_of_app. setoid_rewrite list_elem_of_singleton.
  naive_solver.
Qed.

Lemma has_head_nil x : has_head [] x = false.
Proof. reflexivity. Qed.

(** ** [get_legal_transitions], flag by flag *)

Lemma legal_flags_spec c :
  legal_flags c = [left_ok c; right_ok c; shift_ok c; reduce_ok c].
Proof.
  unfold legal_flags, left_ok, right_ok, shift_ok, reduce_ok.
  destruct (buffer c) as [|b β], (py_top (stack c)) as [s|]; simpl;
    repeat case_bool_decide; repeat (destruct (has_head _ _)); done.
Qed.

Lemma get_legal_transitions_spec c :
  get_legal_transitions c =
    (if left_ok c then [LEFT] else []) ++ (if right_ok c then [RIGHT] else [])
    ++ (if shift_ok c then [SHIFT] else [])
    ++ (if reduce_ok c then [REDUCE] else []).
Proof.
  unfold get_legal_transitions. rewrite legal_flags_spec.
  by destruct (left_ok c), (right_ok c), (shift_ok c), (reduce_ok c).
Qed.

Lemma elem_of_get_legal_transitions c t :
  t ∈ get_legal_transitions c ↔
    t = LEFT ∧ left_ok c = true ∨ t = RIGHT ∧ right_ok c = true ∨
    t = SHIFT ∧ shift_ok c = true ∨ t = REDUCE ∧ reduce_ok c = true.
Proof.
  rewrite get_legal_transitions_spec.
  destruct (left_ok c), (right_ok c), (shift_ok c), (reduce_ok c);
    simpl; rewrite ?elem_of_cons, ?elem_of_nil; naive_solver.
Qed.

Lemma get_legal_transitions_sub c : get_legal_transitions c ⊆ TRANSITIONS.
Proof.
  intros t. rewrite elem_of_get_legal_transitions. unfold TRANSITIONS.
  rewrite !elem_of_cons. naive_solver.
Qed.

(** The result lists the legal transitions in the order of
    TRANSITIONS, each once. *)
Lemma get_legal_transitions_ordered c :
  get_legal_transitions c
  = filter (λ t, t ∈ get_legal_transitions c) TRANSITIONS.
Proof.
  rewrite get_legal_transitions_spec.
  by destruct (left_ok c), (right_ok c), (shift_ok c), (reduce_ok c).
Qed.

Lemma get_legal_transitions_NoDup c : NoDup (get_legal_transitions c).
Proof.
  rewrite get_legal_transitions_spec.
  destruct (left_ok c), (right_ok c), (shift_ok c), (reduce_ok c);
    simpl; by apply (bool_decide_unpack _).
Qed.

(** ** The primitive accesses *)

Section primitives.
Implicit Types (c : Configuration) (σ β : list Z) (s b : Z).

Lemma stack_pop_snoc c σ s :
  stack c = σ ++ [s] → stack_pop c = (Ok s, set_stack σ c).
Proof. unfold stack_pop. intros ->. by rewrite py_pop_snoc. Qed.

Lemma stack_pop_nil c : stack c = [] → stack_pop c = (Raise IndexError, c).
Proof. unfold stack_pop. by intros ->. Qed.

Lemma stack_top_snoc c σ s : stack c = σ ++ [s] → stack_top c = (Ok s, c).
Proof. unfold stack_top. intros ->. by rewrite py_top_snoc. Qed.

Lemma stack_top_nil c : stack c = [] → stack_top c = (Raise IndexError, c).
Proof. unfold stack_top. by intros ->. Qed.

Lemma buffer_first_cons c b β : buffer c = b :: β → buffer_first c = (Ok b, c).
Proof. unfold buffer_first. by intros ->. Qed.

Lemma buffer_first_nil c : buffer c = [] → buffer_first c = (Raise IndexError, c).
Proof. unfold buffer_first. by intros ->. Qed.

Lemma buffer_del_first_cons c b β :
  buffer c = b :: β → buffer_del_first c = (Ok (), set_buffer β c).
Proof. unfold buffer_del_first. by intros ->. Qed.

End primitives.

(** Runs a handler on a configuration whose stack and buffer are known
    by equations in the context. *)
Ltac run_handler c :=
  destruct c; simplify_eq/=;
  unfold left_arc, right_arc, shift, reduce; py_unfold;
  unfold stack_pop, stack_top, buffer_first, buffer_del_first,
    stack_append, arcs_append, modify, set_stack, set_buffer, set_arcs;
  repeat (simpl; autorewrite with pylist);
  rewrite <-?app_assoc; try done.

(** ** The handlers, branch by branch *)

Section handlers.
Implicit Types (c : Configuration) (σ β : list Z) (s b : Z).

Lemma left_arc_ok c σ s b β :
  stack c = σ ++ [s] → buffer c = b :: β →
  left_arc c = (Ok (), mkConfiguration (arcs c ++ [(b, s)]) σ (b :: β) (sentence c)).
Proof. intros. run_handler c. Qed.

Lemma left_arc_empty_stack c :
  stack c = [] → left_arc c = (Raise IndexError, c).
Proof. intros. run_handler c. Qed.

Lemma left_arc_empty_buffer c σ s :
  stack c = σ ++ [s] → buffer c = [] →
  left_arc c = (Raise IndexError, set_stack σ c).
Proof. intros. run_handler c. Qed.

Lemma right_arc_ok c σ s b β :
  stack c = σ ++ [s] → buffer c = b :: β →
  right_arc c =
    (Ok (), mkConfiguration (arcs c ++ [(s, b)]) (σ ++ [s; b]) β (sentence c)).
Proof. intros. run_handler c. Qed.

Lemma right_arc_empty_stack c :
  stack c = [] → right_arc c = (Raise IndexError, c).
Proof. intros. run_handler c. Qed.

Lemma right_arc_empty_buffer c :
  buffer c = [] → right_arc c = (Raise IndexError, c).
Proof.
  intros. snoc_case (stack c) s σ Hs; [by apply right_arc_empty_stack|].
  run_handler c.
Qed.

Lemma shift_ok_run c b β :
  buffer c = b :: β →
  shift c = (Ok (), mkConfiguration (arcs c) (stack c ++ [b]) β (sentence c)).
Proof. intros. run_handler c. Qed.

Lemma shift_empty_buffer c : buffer c = [] → shift c = (Raise IndexError, c).
Proof. intros. run_handler c. Qed.

Lemma reduce_ok_run c σ s :
  stack c = σ ++ [s] → reduce c = (Ok (), set_stack σ c).
Proof. intros. run_handler c. Qed.

Lemma reduce_empty_stack c : stack c = [] → reduce c = (Raise IndexError, c).
Proof. intros. run_handler c. Qed.

End handlers.

(** ** When the handlers succeed *)

Section success.
Implicit Types (c : Configuration).

Lemma left_arc_success c :
  is_Ok (left_arc c).1 = true ↔ stack c ≠ [] ∧ buffer c ≠ [].
Proof.
  snoc_case (stack c) s σ Hs.
  { rewrite left_arc_empty_stack by done. naive_solver. }
  destruct (buffer c) as [|b β] eqn:Hb.
  - erewrite left_arc_empty_buffer by done. naive_solver.
  - erewrite left_arc_ok by done. rewrite Hs. split; [|done].
    intros _. split; [|done]. by intros [_ [=]]%app_nil.
Qed.

(** A handler other than [left_arc] that raises has changed nothing. *)
Lemma right_arc_atomic c e c' : right_arc c = (Raise e, c') → c' = c.
Proof.
  snoc_case (stack c) s σ Hs; [rewrite right_arc_empty_stack by done; congruence|].
  destruct (buffer c) as [|b β] eqn:Hb.
  - rewrite right_arc_empty_buffer by done. congruence.
  - by erewrite right_arc_ok.
Qed.

Lemma shift_atomic c e c' : shift c = (Raise e, c') → c' = c.
Proof.
  destruct (buffer c) as [|b β] eqn:Hb.
  - rewrite shift_empty_buffer by done. congruence.
  - by erewrite shift_ok_run.
Qed.

Lemma reduce_atomic c e c' : reduce c = (Raise e, c') → c' = c.
Proof.
  snoc_case (stack c) s σ Hs; [rewrite reduce_empty_stack by done; congruence|].
  by erewrite reduce_ok_run.
Qed.

End success.

(** ** [take_transition] *)

(** The dispatch the handler table implements once the constructor has
    run: a case distinction on the transition. *)
Definition dispatch (transition : Z) : py Configuration unit :=
  if decide (transition = LEFT) then left_arc
  else if decide (transition = RIGHT) then right_arc
  else if decide (transition = SHIFT) then shift
  else if decide (transition = REDUCE) then reduce
  else raise AssertionError.

Section take_transition.
Implicit Types (c : Configuration) (t : Z)
  (funcs : gmap Z (py Configuration unit)).

Lemma elem_of_TRANSITIONS t :
  t ∈ TRANSITIONS ↔ t = LEFT ∨ t = RIGHT ∨ t = SHIFT ∨ t = REDUCE.
Proof. unfold TRANSITIONS. rewrite !elem_of_cons, elem_of_nil. naive_solver. Qed.

Lemma ArcEager_init_lookup funcs t :
  t ∈ TRANSITIONS → ArcEager_init funcs !! t = Some (dispatch t).
Proof.
  unfold ArcEager_init.
  intros [-> | [-> | [-> | ->]]]%elem_of_TRANSITIONS;
    by repeat (rewrite lookup_insert_eq || rewrite lookup_insert_ne by done).
Qed.

Lemma ArcEager_init_lookup_other funcs t :
  t ∉ TRANSITIONS → ArcEager_init funcs !! t = funcs !! t.
Proof.
  rewrite elem_of_TRANSITIONS. intros Ht. unfold ArcEager_init.
  rewrite !lookup_insert_ne; naive_solver.
Qed.

Lemma ArcEager_init_idemp funcs :
  ArcEager_init (ArcEager_init funcs) = ArcEager_init funcs.
Proof.
  apply map_eq. intros t. destruct (decide (t ∈ TRANSITIONS)).
  - by rewrite !ArcEager_init_lookup.
  - by rewrite !ArcEager_init_lookup_other.
Qed.

Lemma take_transition_assert funcs t c :
  t ∉ TRANSITIONS → take_transition funcs t c = (Raise AssertionError, c).
Proof.
  intros Ht. unfold take_transition.
  rewrite bool_decide_eq_false_2 by done. by py_unfold.
Qed.

Lemma take_transition_lookup funcs t c (f : py Configuration unit) :
  t ∈ TRANSITIONS → funcs !! t = Some f → take_transition funcs t c = f c.
Proof.
  intros Ht Hf. unfold take_transition.
  rewrite bool_decide_eq_true_2 by done. rewrite Hf. by py_unfold.
Qed.

Lemma take_transition_missing funcs t c :
  t ∈ TRANSITIONS → funcs !! t = None →
  take_transition funcs t c = (Raise (KeyError t), c).
Proof.
  intros Ht Hf. unfold take_transition.
  rewrite bool_decide_eq_true_2 by done. rewrite Hf. by py_unfold.
Qed.

End take_transition.

(** ** The preconditions, as propositions on stack, buffer and arcs *)

Section preconditions.
Implicit Types (c : Configuration) (σ β : list Z) (s b : Z).

Lemma left_ok_true c :
  left_ok c = true ↔
  ∃ σ s b β, stack c = σ ++ [s] ∧ buffer c = b :: β ∧ s ≠ ROOT ∧
             ∀ h, (h, s) ∉ arcs c.
Proof.
  unfold left_ok. snoc_case (stack c) s σ Hs; rewrite Hs.
  { split; [done|]. by intros (?&?&?&?&[_ [=]]%symmetry%app_nil&_). }
  rewrite py_top_snoc. destruct (buffer c) as [|b β]; [naive_solver|].
  rewrite andb_true_iff, negb_true_iff, bool_decide_eq_true, has_head_false.
  split; [naive_solver|].
  intros (σ'&s'&?&?&[-> ->]%app_inj_tail&_&?&?). done.
Qed.

Lemma right_ok_true c :
  right_ok c = true ↔
  ∃ σ s b β, stack c = σ ++ [s] ∧ buffer c = b :: β ∧ b ≠ ROOT ∧
             ∀ h, (h, b) ∉ arcs c.
Proof.
  unfold right_ok. snoc_case (stack c) s σ Hs; rewrite Hs.
  { split; [done|]. by intros (?&?&?&?&[_ [=]]%symmetry%app_nil&_). }
  rewrite py_top_snoc. destruct (buffer c) as [|b β]; [naive_solver|].
  rewrite andb_true_iff, negb_true_iff, bool_decide_eq_true, has_head_false.
  naive_solver.
Qed.

Lemma shift_ok_true c : shift_ok c = true ↔ ∃ b β, buffer c = b :: β.
Proof. unfold shift_ok. destruct (buffer c); naive_solver. Qed.

Lemma reduce_ok_true c :
  reduce_ok c = true ↔ ∃ σ s h, stack c = σ ++ [s] ∧ (h, s) ∈ arcs c.
Proof.
  unfold reduce_ok. snoc_case (stack c) s σ Hs; rewrite Hs.
  { split; [done|]. by intros (?&?&?&[_ [=]]%symmetry%app_nil&_). }
  rewrite py_top_snoc, has_head_true. split; [naive_solver|].
  intros (σ'&s'&h&[-> ->]%app_inj_tail&?). eauto.
Qed.

End preconditions.

(** ** The theorems of the engine *)

(** C7: Legality.  [get_legal_transitions] returns exactly the
    transitions whose precondition holds: LEFT needs a stack top that is
    not ROOT and has no head, and a non-empty buffer; RIGHT needs a
    non-empty stack and a buffer front that is not ROOT and has no head;
    SHIFT needs a non-empty buffer; REDUCE needs a stack top that has a
    head.  The list is in the order of TRANSITIONS and names no
    transition twice. *)
Theorem legal_transitions_table c :
  (LEFT ∈ get_legal_transitions c ↔
     ∃ σ s b β, stack c = σ ++ [s] ∧ buffer c = b :: β ∧ s ≠ ROOT ∧
                ∀ h, (h, s) ∉ arcs c) ∧
  (RIGHT ∈ get_legal_transitions c ↔
     ∃ σ s b β, stack c = σ ++ [s] ∧ buffer c = b :: β ∧ b ≠ ROOT ∧
                ∀ h, (h, b) ∉ arcs c) ∧
  (SHIFT ∈ get_legal_transitions c ↔ ∃ b β, buffer c = b :: β) ∧
  (REDUCE ∈ get_legal_transitions c ↔
     ∃ σ s h, stack c = σ ++ [s] ∧ (h, s) ∈ arcs c) ∧
  get_legal_transitions c ⊆ TRANSITIONS ∧
  get_legal_transitions c
  = filter (λ t, t ∈ get_legal_transitions c) TRANSITIONS.
Proof.
  rewrite <-left_ok_true, <-right_ok_true, <-shift_ok_true, <-reduce_ok_true.
  rewrite !elem_of_get_legal_transitions.
  split_and!; [naive_solver..|apply get_legal_transitions_sub
              |apply get_legal_transitions_ordered].
Qed.

(** C22: Outcome of [left_arc] on every configuration.  With an empty
    stack it raises IndexError and changes nothing; with an empty buffer
    it raises IndexError AFTER the stack has been popped; otherwise it
    pops the stack top [s] and appends the arc (buffer front, [s]). *)
Theorem left_arc_outcome c :
  left_arc c =
    match py_pop (stack c), buffer c with
    | None, _ => (Raise IndexError, c)
    | Some (s, σ), [] => (Raise IndexError, set_stack σ c)
    | Some (s, σ), b :: β =>
        (Ok (), mkConfiguration (arcs c ++ [(b, s)]) σ (b :: β) (sentence c))
    end.
Proof.
  snoc_case (stack c) s σ Hs; rewrite Hs; autorewrite with pylist.
  { by apply left_arc_empty_stack. }
  destruct (buffer c) as [|b β] eqn:Hb.
  - by eapply left_arc_empty_buffer.
  - by apply left_arc_ok.
Qed.

(** C29: Outcome of [right_arc], [shift] and [reduce] on every
    configuration: IndexError with the configuration unchanged when the
    stack or the buffer they read is empty, the effect of the
    specification otherwise. *)
Theorem handlers_outcome c :
  right_arc c =
    match py_top (stack c), buffer c with
    | Some s, b :: β =>
        (Ok (), mkConfiguration (arcs c ++ [(s, b)]) (stack c ++ [b]) β (sentence c))
    | _, _ => (Raise IndexError, c)
    end ∧
  shift c =
    match buffer c with
    | b :: β => (Ok (), mkConfiguration (arcs c) (stack c ++ [b]) β (sentence c))
    | [] => (Raise IndexError, c)
    end ∧
  reduce c =
    match py_pop (stack c) with
    | Some (_, σ) => (Ok (), set_stack σ c)
    | None => (Raise IndexError, c)
    end.
Proof.
  split_and!.
  - snoc_case (stack c) s σ Hs; rewrite Hs; autorewrite with pylist.
    { by apply right_arc_empty_stack. }
    destruct (buffer c) as [|b β] eqn:Hb; [by apply right_arc_empty_buffer|].
    erewrite right_arc_ok by done. by rewrite <-app_assoc.
  - destruct (buffer c) as [|b β] eqn:Hb;
      [by apply shift_empty_buffer|by apply shift_ok_run].
  - snoc_case (stack c) s σ Hs; rewrite Hs; autorewrite with pylist;
      [by apply reduce_empty_stack|by eapply reduce_ok_run].
Qed.

Lemma take_transition_init funcs t c :
  take_transition (ArcEager_init funcs) t c = dispatch t c.
Proof.
  destruct (decide (t ∈ TRANSITIONS)) as [Ht|Ht].
  - by erewrite take_transition_lookup by eauto using ArcEager_init_lookup.
  - rewrite take_transition_assert by done. unfold dispatch.
    rewrite elem_of_TRANSITIONS in Ht. by repeat case_decide; try naive_solver.
Qed.

(** C30: Dispatch.  Once the constructor has filled the handler table,
    [take_transition] is a case distinction on the transition: the
    handler of a transition in TRANSITIONS, an AssertionError for any
    other integer, whatever the table held before. *)
Theorem take_transition_dispatch funcs t c :
  take_transition (ArcEager_init funcs) t c = dispatch t c.
Proof. apply take_transition_init. Qed.

(** C37: The handler table is a class attribute that only the
    constructor fills: before any [ArcEager] object exists,
    [take_transition] raises KeyError on every transition, and changes
    nothing. *)
Theorem take_transition_before_init t c :
  t ∈ TRANSITIONS →
  take_transition transition_funcs t c = (Raise (KeyError t), c).
Proof. intros Ht. by apply take_transition_missing. Qed.

Lemma take_transition_before_init_witness :
  SHIFT ∈ TRANSITIONS ∧
  take_transition transition_funcs SHIFT (get_initial_config example_sentence)
  = (Raise (KeyError SHIFT), get_initial_config example_sentence).
Proof.
  split; [set_solver|].
  apply (take_transition_before_init SHIFT); set_solver.
Defined.

(** C38: [take_transition] does not consult the legal set: REDUCE pops
    any non-empty stack, with or without a head for its top.  On the
    initial configuration, where REDUCE is not legal, it removes ROOT. *)
Theorem take_transition_unchecked c σ s :
  stack c = σ ++ [s] →
  take_transition the_funcs REDUCE c = (Ok (), set_stack σ c).
Proof.
  intros Hs. unfold the_funcs. rewrite take_transition_init.
  by eapply reduce_ok_run.
Qed.

Lemma take_transition_unchecked_witness :
  (REDUCE ∉ get_legal_transitions (get_initial_config example_sentence)) ∧
  stack (get_initial_config example_sentence) = [] ++ [ROOT] ∧
  take_transition the_funcs REDUCE (get_initial_config example_sentence)
  = (Ok (), set_stack [] (get_initial_config example_sentence)).
Proof.
  split_and!; [by apply (bool_decide_unpack _)|done|].
  by apply (take_transition_unchecked _ [] ROOT).
Defined.
