(* ===== verification/Machine.v ===== *)
(** * The arc-eager transition system and its refinement by the engine

    The abstract machine is the table of the specification: four
    transitions, each with a precondition and an effect on
    (stack, buffer, arcs), as the [Inductive] relation [step].  The
    refinement theorem says that the engine of [Transitions] implements
    it exactly: a transition is legal for [get_legal_transitions] and
    [take_transition] returns a configuration if and only if the
    abstract machine makes that step.

    On top of the step relation: traces and reachability from the
    initial configuration of a sentence, the well-formedness invariant
    of reachable configurations, and the termination measure. *)

From stdpp Require Import base tactics option list numbers gmap strings sorting.
From S2P Require Import Prelude Config Transitions.

#[local] Open Scope Z_scope.

(** ** Transitions as a closed type *)

Inductive Transition : Type := Left_arc | Right_arc | Shift | Reduce.

#[export] Instance Transition_eq_dec : EqDecision Transition.
Proof. solve_decision. Defined.

(** The integer the source uses for a transition. *)
Definition code (t : Transition) : Z :=
  match t with
  | Left_arc => LEFT
  | Right_arc => RIGHT
  | Shift => SHIFT
  | Reduce => REDUCE
  end.

Definition decode (z : Z) : option Transition :=
  if decide (z = LEFT) then Some Left_arc
  else if decide (z = RIGHT) then Some Right_arc
  else if decide (z = SHIFT) then Some Shift
  else if decide (z = REDUCE) then Some Reduce
  else None.

(** ** The step relation *)

Inductive step : Transition → Configuration → Configuration → Prop :=
| step_left a σ s b β se :
    s ≠ ROOT → (∀ h, (h, s) ∉ a) →
    step Left_arc (mkConfiguration a (σ ++ [s]) (b :: β) se)
                  (mkConfiguration (a ++ [(b, s)]) σ (b :: β) se)
| step_right a σ s b β se :
    b ≠ ROOT → (∀ h, (h, b) ∉ a) →
    step Right_arc (mkConfiguration a (σ ++ [s]) (b :: β) se)
                   (mkConfiguration (a ++ [(s, b)]) (σ ++ [s; b]) β se)
| step_shift a σ b β se :
    step Shift (mkConfiguration a σ (b :: β) se)
               (mkConfiguration a (σ ++ [b]) β se)
| step_reduce a σ s β se h :
    (h, s) ∈ a →
    step Reduce (mkConfiguration a (σ ++ [s]) β se)
                (mkConfiguration a σ β se).

(** Sequences of steps, labelled by the transitions taken. *)
Inductive steps : list Transition → Configuration → Configuration → Prop :=
| steps_nil c : steps [] c c
| steps_cons t ts c c' c'' :
    step t c c' → steps ts c' c'' → steps (t :: ts) c c''.

(** ** The engine, as a driver uses it *)

(** One checked transition: the transition is looked up among the legal
    ones, then taken. *)
Definition step_fun (t : Transition) (c : Configuration) : option Configuration :=
  if bool_decide (code t ∈ get_legal_transitions c) then
    match take_transition the_funcs (code t) c with
    | (Ok _, c') => Some c'
    | (Raise _, _) => None
    end
  else None.

Fixpoint steps_fun (ts : list Transition) (c : Configuration) : option Configuration :=
  match ts with
  | [] => Some c
  | t :: ts => c' ← step_fun t c; steps_fun ts c'
  end.

(** A configuration the parser can be in while parsing [s]: one that a
    driver reaches from the initial configuration by taking, each time,
    one of the legal transitions. *)
Definition reachable (s : list Token) (c : Configuration) : Prop :=
  ∃ ts, steps_fun ts (get_initial_config s) = Some c.

(** ** Codes *)

Lemma decode_code t : decode (code t) = Some t.
Proof. by destruct t. Qed.

Lemma code_decode z t : decode z = Some t → code t = z.
Proof. unfold decode. repeat case_decide; naive_solver. Qed.

#[export] Instance code_inj : Inj (=) (=) code.
Proof. intros t1 t2 H. apply (f_equal decode) in H. rewrite !decode_code in H. congruence. Qed.

Lemma code_TRANSITIONS t : code t ∈ TRANSITIONS.
Proof. apply elem_of_TRANSITIONS. destruct t; naive_solver. Qed.

Lemma decode_None z : decode z = None ↔ z ∉ TRANSITIONS.
Proof. rewrite elem_of_TRANSITIONS. unfold decode. repeat case_decide; naive_solver. Qed.

Lemma take_transition_code t c :
  take_transition the_funcs (code t) c = dispatch (code t) c.
Proof.
  apply take_transition_lookup; [apply code_TRANSITIONS|].
  apply ArcEager_init_lookup, code_TRANSITIONS.
Qed.

(** ** Refinement: the engine implements the step relation *)

Definition enabled (t : Transition) (c : Configuration) : bool :=
  match t with
  | Left_arc => left_ok c
  | Right_arc => right_ok c
  | Shift => shift_ok c
  | Reduce => reduce_ok c
  end.

Lemma legal_code t c : code t ∈ get_legal_transitions c ↔ enabled t c = true.
Proof.
  rewrite elem_of_get_legal_transitions. destruct t; simpl; naive_solver.
Qed.

Lemma step_sound t c c' :
  step t c c' →
  code t ∈ get_legal_transitions c ∧
  take_transition the_funcs (code t) c = (Ok (), c').
Proof.
  intros Hstep. rewrite legal_code, take_transition_code.
  destruct Hstep; simpl; unfold dispatch; simpl.
  - split; [apply left_ok_true; naive_solver|by erewrite left_arc_ok].
  - split; [apply right_ok_true; naive_solver|by erewrite right_arc_ok].
  - split; [by apply shift_ok_true; eauto|by erewrite shift_ok_run].
  - split; [apply reduce_ok_true; naive_solver|by erewrite reduce_ok_run].
Qed.

Lemma step_complete t c c' :
  code t ∈ get_legal_transitions c →
  take_transition the_funcs (code t) c = (Ok (), c') →
  step t c c'.
Proof.
  rewrite legal_code, take_transition_code. unfold dispatch.
  destruct t, c as [a st bf se]; simpl.
  - intros (σ&s&b&β&?&?&?&?)%left_ok_true. simplify_eq/=.
    erewrite left_arc_ok by done. intros [= <-]. by constructor.
  - intros (σ&s&b&β&?&?&?&?)%right_ok_true. simplify_eq/=.
    erewrite right_arc_ok by done. intros [= <-]. by constructor.
  - intros (b&β&?)%shift_ok_true. simplify_eq/=.
    erewrite shift_ok_run by done. intros [= <-]. by constructor.
  - intros (σ&s&h&?&?)%reduce_ok_true. simplify_eq/=.
    erewrite reduce_ok_run by done. intros [= <-]. by econstructor.
Qed.

Lemma step_fun_Some t c c' : step_fun t c = Some c' ↔ step t c c'.
Proof.
  unfold step_fun. split.
  - case_bool_decide as Hl; [|done].
    destruct (take_transition _ _ _) as [[[]|] c''] eqn:Ht; [|done].
    intros [= ->]. by apply step_complete.
  - intros [Hl Ht]%step_sound. by rewrite bool_decide_eq_true_2, Ht.
Qed.

Lemma steps_fun_Some ts c c' : steps_fun ts c = Some c' ↔ steps ts c c'.
Proof.
  revert c. induction ts as [|t ts IH]; intros c; simpl.
  - split; [intros [= ->]; constructor|by inversion 1].
  - rewrite bind_Some. setoid_rewrite step_fun_Some. setoid_rewrite IH. split.
    + intros (c1&?&?). by econstructor.
    + inversion 1; subst. eauto.
Qed.

Lemma reachable_steps se c :
  reachable se c ↔ ∃ ts, steps ts (get_initial_config se) c.
Proof. unfold reachable. by setoid_rewrite steps_fun_Some. Qed.

(** The step relation is a function of the transition. *)
Lemma step_deterministic t c c1 c2 : step t c c1 → step t c c2 → c1 = c2.
Proof. rewrite <-!step_fun_Some. congruence. Qed.

(** An enabled transition can be taken. *)
Lemma enabled_step t c : enabled t c = true → ∃ c', step t c c'.
Proof.
  destruct t, c as [a st bf se]; simpl.
  - intros (σ&s&b&β&?&?&?&?)%left_ok_true. simplify_eq/=.
    eexists. by constructor.
  - intros (σ&s&b&β&?&?&?&?)%right_ok_true. simplify_eq/=.
    eexists. by constructor.
  - intros (b&β&?)%shift_ok_true. simplify_eq/=. eexists. by constructor.
  - intros (σ&s&h&?&?)%reduce_ok_true. simplify_eq/=.
    eexists. by econstructor.
Qed.

Lemma step_enabled t c c' : step t c c' → enabled t c = true.
Proof. intros [? _]%step_sound. by apply legal_code. Qed.

(** A legal transition never raises. *)
Lemma legal_take_ok z c :
  z ∈ get_legal_transitions c →
  ∃ c', take_transition the_funcs z c = (Ok (), c').
Proof.
  intros Hz. destruct (decode z) as [t|] eqn:Hd.
  - apply code_decode in Hd as <-.
    apply legal_code, enabled_step in Hz as [c' [_ ?]%step_sound]. eauto.
  - apply decode_None in Hd. by apply get_legal_transitions_sub in Hz.
Qed.

(** ** Well-formed configurations

    [wf_at n k c]: while parsing a sentence of [n] tokens, the tokens
    below [k] have left the buffer.  The buffer holds [k .. n-1]; the
    stack is ROOT followed by strictly increasing token indices below
    [k]; no two arcs share a dependent; the arcs are between tokens in
    range; every token that has left the buffer is on the stack or has
    a head. *)

Record wf_at (n k : Z) (c : Configuration) : Prop := {
  wf_k : 0 ≤ k ≤ n;
  wf_buffer : buffer c = seqZ k (n - k);
  wf_stack : ∃ σ, stack c = ROOT :: σ ∧ StronglySorted Z.lt σ ∧
                  Forall (λ i, 0 ≤ i < k) σ;
  wf_single : NoDup (arcs c).*2;
  wf_arcs : Forall (λ a, 0 ≤ a.2 < k ∧ ROOT ≤ a.1 ≤ k ∧ a.1 < n ∧ a.1 ≠ a.2)
                   (arcs c);
  wf_attached : ∀ i, 0 ≤ i < k → i ∈ stack c ∨ has_head (arcs c) i = true
}.

Definition wf (c : Configuration) : Prop :=
  ∃ k, wf_at (Z.of_nat (length (sentence c))) k c.

Section wf.
Context (n : Z).
Implicit Types (c : Configuration) (σ β : list Z) (a : list (Z * Z)) (k s b : Z).

Lemma wf_initial (se : list Token) :
  wf_at (Z.of_nat (length se)) 0 (get_initial_config se).
Proof.
  split; simpl; [lia|by rewrite Z.sub_0_r| |constructor..|lia].
  exists []. by repeat constructor.
Qed.

(** The dependent of an arc is never ROOT, so ROOT has no head. *)
Lemma wf_no_head_root k c : wf_at n k c → ∀ h, (h, ROOT) ∉ arcs c.
Proof.
  intros Hwf h Hin. apply wf_arcs in Hwf.
  eapply Forall_forall in Hwf; [|done]. root_lia.
Qed.

(** A token still in the buffer has no head. *)
Lemma wf_no_head_buffer k c b : wf_at n k c → k ≤ b → ∀ h, (h, b) ∉ arcs c.
Proof.
  intros Hwf Hb h Hin. apply wf_arcs in Hwf.
  eapply Forall_forall in Hwf; [|done]. simpl in Hwf. lia.
Qed.

(** The stack seen from its top, when the top is a token. *)
Lemma wf_stack_snoc k c σ0 s :
  wf_at n k c → stack c = σ0 ++ [s] → s ≠ ROOT →
  ∃ σ, σ0 = ROOT :: σ ∧ StronglySorted Z.lt σ ∧ Forall (λ i, 0 ≤ i < k) σ ∧
       Forall (λ i, i < s) σ ∧ 0 ≤ s < k.
Proof.
  intros Hwf Hs Hroot. destruct (wf_stack _ _ _ Hwf) as (σ & Hσ & Hsort & Hr).
  rewrite Hs in Hσ. symmetry in Hσ.
  apply cons_snoc_inv in Hσ as [(_&_&?)|(σ'&->&->)]; [done|].
  apply StronglySorted_snoc in Hsort as [??].
  apply Forall_app in Hr as [? [? _]%Forall_cons]. eauto 10.
Qed.

Lemma wf_buffer_cons k c b β :
  wf_at n k c → buffer c = b :: β →
  b = k ∧ β = seqZ (k + 1) (n - (k + 1)) ∧ k < n.
Proof.
  intros Hwf Hb. rewrite (wf_buffer _ _ _ Hwf) in Hb.
  apply seqZ_cons_inv in Hb as (->&->&?). split_and!; [done|f_equal; lia|lia].
Qed.

End wf.

(** ** Every transition preserves well-formedness *)

Lemma elem_of_dependents (a : list (Z * Z)) d : d ∈ a.*2 ↔ ∃ h, (h, d) ∈ a.
Proof.
  rewrite list_elem_of_fmap. split.
  - intros ([h d'] & -> & ?). eauto.
  - intros [h ?]. by exists (h, d).
Qed.

Lemma NoDup_dependents_snoc (a : list (Z * Z)) h d :
  NoDup a.*2 → (∀ h', (h', d) ∉ a) → NoDup (a ++ [(h, d)]).*2.
Proof.
  intros Hnd Hd. rewrite fmap_app. apply NoDup_app.
  split_and!; [done| |apply NoDup_singleton].
  intros x [h' Hx]%elem_of_dependents ->%list_elem_of_singleton. by eapply Hd.
Qed.

Section preservation.
Context (n k : Z).
Implicit Types (σ β : list Z) (a : list (Z * Z)) (s b : Z) (se : list Token).

Lemma wf_step_left a σ0 s b β se :
  wf_at n k (mkConfiguration a (σ0 ++ [s]) (b :: β) se) →
  s ≠ ROOT → (∀ h, (h, s) ∉ a) →
  wf_at n k (mkConfiguration (a ++ [(b, s)]) σ0 (b :: β) se).
Proof.
  intros Hwf Hroot Hnh.
  destruct (wf_stack_snoc _ _ _ _ _ Hwf eq_refl Hroot) as (σ&->&?&?&?&?).
  destruct (wf_buffer_cons _ _ _ _ _ Hwf eq_refl) as (->&_&?).
  destruct Hwf as [? Hbuf _ ? Harcs Hatt]. split; simpl in *; [done..| | | |].
  - by exists σ.
  - by apply NoDup_dependents_snoc.
  - apply Forall_app. split; [done|]. constructor; [root_lia|constructor].
  - intros i Hi. rewrite has_head_snoc.
    destruct (Hatt i Hi) as [Hin| ->]; [|by right].
    assert (i ∈ ROOT :: σ ∨ i = s) as [?| ->] by set_solver; [by left|right].
    by rewrite bool_decide_eq_true_2, orb_true_r.
Qed.

Lemma wf_step_right a σ0 s b β se :
  wf_at n k (mkConfiguration a (σ0 ++ [s]) (b :: β) se) →
  wf_at n (k + 1) (mkConfiguration (a ++ [(s, b)]) (σ0 ++ [s; b]) β se).
Proof.
  intros Hwf.
  destruct (wf_buffer_cons _ _ _ _ _ Hwf eq_refl) as (->&Hβ&?).
  pose proof (wf_no_head_buffer _ _ _ k Hwf (Z.le_refl _)) as Hnh.
  destruct Hwf as [? _ (σ&Hσ&Hsort&Hr) ? Harcs Hatt].
  assert (ROOT ≤ s < k) as Hs.
  { assert (s ∈ ROOT :: σ) as [->|Hin]%elem_of_cons
      by (simpl in Hσ; rewrite <-Hσ; set_solver); [root_lia|].
    eapply Forall_forall in Hr; [|done]. root_lia. }
  split; simpl in *; [lia|done| | | |].
  - exists (σ ++ [k]). split_and!.
    + by rewrite (cons_middle s σ0 [k]), app_assoc, Hσ.
    + apply StronglySorted_snoc. split; [done|].
      eapply Forall_impl; [done|]. simpl. lia.
    + apply Forall_app. split; [|repeat constructor; lia].
      eapply Forall_impl; [done|]. simpl. lia.
  - by apply NoDup_dependents_snoc.
  - apply Forall_app. split; [|repeat constructor; root_lia].
    eapply Forall_impl; [done|]. simpl. lia.
  - intros i Hi. rewrite has_head_snoc.
    destruct (decide (i = k)) as [->|]; [left; set_solver|].
    destruct (Hatt i) as [?| ->]; [lia|left; set_solver|by right].
Qed.

Lemma wf_step_shift a σ0 b β se :
  wf_at n k (mkConfiguration a σ0 (b :: β) se) →
  wf_at n (k + 1) (mkConfiguration a (σ0 ++ [b]) β se).
Proof.
  intros Hwf.
  destruct (wf_buffer_cons _ _ _ _ _ Hwf eq_refl) as (->&Hβ&?).
  destruct Hwf as [? _ (σ&Hσ&Hsort&Hr) ? Harcs Hatt].
  split; simpl in *; [lia|done| |done| |].
  - exists (σ ++ [k]). split_and!.
    + by rewrite Hσ.
    + apply StronglySorted_snoc. split; [done|].
      eapply Forall_impl; [done|]. simpl. lia.
    + apply Forall_app. split; [|repeat constructor; lia].
      eapply Forall_impl; [done|]. simpl. lia.
  - eapply Forall_impl; [done|]. simpl. lia.
  - intros i Hi. destruct (decide (i = k)) as [->|]; [left; set_solver|].
    destruct (Hatt i) as [?| ->]; [lia|left; set_solver|by right].
Qed.

Lemma wf_step_reduce a σ0 s β se h :
  wf_at n k (mkConfiguration a (σ0 ++ [s]) β se) → (h, s) ∈ a →
  wf_at n k (mkConfiguration a σ0 β se).
Proof.
  intros Hwf Hh.
  assert (s ≠ ROOT) as Hroot by (intros ->; by eapply wf_no_head_root).
  destruct (wf_stack_snoc _ _ _ _ _ Hwf eq_refl Hroot) as (σ&->&?&?&?&?).
  destruct Hwf as [? ? _ ? Harcs Hatt]. split; simpl in *; [done..| |done|done|].
  - by exists σ.
  - intros i Hi. destruct (Hatt i Hi) as [Hin| ->]; [|by right].
    assert (i ∈ ROOT :: σ ∨ i = s) as [?| ->] by set_solver; [by left|right].
    apply has_head_true; eauto.
Qed.

End preservation.

Lemma wf_step n k t c c' :
  step t c c' → wf_at n k c →
  wf_at n (if bool_decide (t ∈ [Right_arc; Shift]) then k + 1 else k) c'.
Proof.
  destruct 1; simpl; intros Hwf.
  - by apply wf_step_left.
  - by apply wf_step_right.
  - by apply wf_step_shift.
  - by eapply wf_step_reduce.
Qed.

(** ** Traces *)

(** SHIFT and RIGHT move the front of the buffer onto the stack. *)
Definition consumes (t : Transition) : bool :=
  bool_decide (t ∈ [Right_arc; Shift]).

Definition consumed (ts : list Transition) : nat :=
  length (filter (λ t, consumes t = true) ts).

(** The termination measure. *)
Definition measure (c : Configuration) : nat :=
  (2 * length (buffer c) + length (stack c))%nat.

Section traces.
Implicit Types (c : Configuration) (t : Transition) (ts : list Transition)
  (se : list Token).

Lemma step_sentence t c c' : step t c c' → sentence c' = sentence c.
Proof. by destruct 1. Qed.

Lemma steps_sentence ts c c' : steps ts c c' → sentence c' = sentence c.
Proof.
  induction 1 as [|t ts c c1 c2 Hs _ IH]; [done|].
  by rewrite IH, (step_sentence _ _ _ Hs).
Qed.

Lemma steps_app ts1 ts2 c c1 c2 :
  steps ts1 c c1 → steps ts2 c1 c2 → steps (ts1 ++ ts2) c c2.
Proof. induction 1; simpl; [done|]. intros. econstructor; eauto. Qed.

Lemma steps_snoc ts t c c1 c2 :
  steps ts c c1 → step t c1 c2 → steps (ts ++ [t]) c c2.
Proof. intros ??. eapply steps_app; [done|]. repeat econstructor; done. Qed.

Lemma consumed_cons t ts :
  consumed (t :: ts) = ((if consumes t then 1 else 0) + consumed ts)%nat.
Proof.
  unfold consumed. rewrite filter_cons. by destruct (consumes t).
Qed.

Lemma step_measure t c c' : step t c c' → measure c = S (measure c').
Proof.
  destruct 1; unfold measure; simpl; rewrite ?length_app; simpl; lia.
Qed.

Lemma steps_measure ts c c' :
  steps ts c c' → measure c = (length ts + measure c')%nat.
Proof.
  induction 1 as [|t ts c c1 c2 Hs _ IH]; [done|].
  rewrite (step_measure _ _ _ Hs), IH. simpl. lia.
Qed.

Lemma step_buffer t c c' :
  step t c c' →
  length (buffer c) = ((if consumes t then 1 else 0) + length (buffer c'))%nat.
Proof. by destruct 1. Qed.

Lemma steps_buffer ts c c' :
  steps ts c c' → length (buffer c) = (consumed ts + length (buffer c'))%nat.
Proof.
  induction 1 as [|t ts c c1 c2 Hs _ IH]; [done|].
  rewrite consumed_cons, (step_buffer _ _ _ Hs), IH. lia.
Qed.

Lemma wf_steps n k ts c c' :
  steps ts c c' → wf_at n k c → wf_at n (k + Z.of_nat (consumed ts)) c'.
Proof.
  intros Hs. revert k. induction Hs as [|t ts c c1 c2 Hs _ IH]; intros k Hwf.
  - by rewrite Z.add_0_r.
  - apply (wf_step _ _ _ _ _ Hs), IH in Hwf. rewrite consumed_cons.
    unfold consumes. case_bool_decide; simpl in *; [|done].
    by replace (k + Z.of_nat (S (consumed ts)))
      with (k + 1 + Z.of_nat (consumed ts)) by lia.
Qed.

Lemma reachable_wf_at se c :
  reachable se c →
  wf_at (Z.of_nat (length se)) (Z.of_nat (length se - length (buffer c))) c.
Proof.
  intros [ts Hs]%reachable_steps. pose proof (steps_buffer _ _ _ Hs) as Hb.
  rewrite get_initial_config_buffer, length_seqZ, Nat2Z.id in Hb.
  apply wf_steps with (n := Z.of_nat (length se)) (k := 0) in Hs;
    [|apply wf_initial].
  by replace (length se - length (buffer c))%nat with (consumed ts) by lia.
Qed.

Lemma reachable_wf se c : reachable se c → wf c.
Proof.
  intros Hr. pose proof Hr as [ts Hs%steps_fun_Some%steps_sentence].
  eexists. rewrite Hs. by apply reachable_wf_at.
Qed.

Lemma reachable_initial se : reachable se (get_initial_config se).
Proof. by exists []. Qed.

Lemma reachable_step se t c c' : reachable se c → step t c c' → reachable se c'.
Proof.
  intros [ts Hs]%reachable_steps Hstep. apply reachable_steps.
  exists (ts ++ [t]). by eapply steps_snoc.
Qed.

End traces.

(** ** The example of the specification *)

Definition example_run : list Transition :=
  [Shift; Left_arc; Right_arc; Right_arc; Reduce; Reduce].

Definition example_final : Configuration :=
  mkConfiguration [(1, 0); (ROOT, 1); (1, 2)] [ROOT] [] example_sentence.

Lemma example_steps :
  steps_fun example_run (get_initial_config example_sentence)
  = Some example_final.
Proof. reflexivity. Qed.

Lemma example_reachable : reachable example_sentence example_final.
Proof. eexists. apply example_steps. Qed.

(** ** Reachable configurations *)

Lemma reachable_arcs_functional se c h1 h2 d :
  reachable se c → (h1, d) ∈ arcs c → (h2, d) ∈ arcs c → h1 = h2.
Proof.
  intros Hwf%reachable_wf_at%wf_single H1 H2.
  eapply (NoDup_fmap_snd_functional (arcs c)); eauto.
Qed.

Lemma reachable_sorted se c :
  reachable se c →
  ∃ k σ, 0 ≤ k ≤ Z.of_nat (length se) ∧
    buffer c = seqZ k (Z.of_nat (length se) - k) ∧
    stack c = ROOT :: σ ∧
    StronglySorted Z.lt (stack c ++ buffer c) ∧
    ∀ i, 0 ≤ i < k → i ∈ σ ∨ has_head (arcs c) i = true.
Proof.
  intros [Hk Hb (σ&Hσ&Hsort&Hr) _ _ Hatt]%reachable_wf_at.
  exists (Z.of_nat (length se - length (buffer c))), σ.
  split_and!; [lia|lia|done|done| |].
  - rewrite Hσ, Hb. apply (StronglySorted_app_2 _ (ROOT :: σ)).
    + intros x y [->|Hx]%elem_of_cons Hy%elem_of_seqZ; [root_lia|].
      eapply Forall_forall in Hr; [|done]. lia.
    + constructor; [done|]. eapply Forall_impl; [done|]. root_lia.
    + apply StronglySorted_lt_seqZ.
  - intros i Hi. destruct (Hatt i Hi) as [Hin|?]; [|by right].
    rewrite Hσ in Hin. apply elem_of_cons in Hin as [->|?]; [root_lia|by left].
Qed.

Lemma reachable_stack_root se c : reachable se c → ∃ σ, stack c = ROOT :: σ.
Proof. intros (_&σ&_&_&Hσ&_)%reachable_sorted. eauto. Qed.

Lemma finished_stack se c :
  reachable se c → is_finished c = true → stack c = [ROOT].
Proof.
  intros [σ Hσ]%reachable_stack_root [_ [r Hst]]%is_finished_spec.
  rewrite Hst in Hσ. by injection Hσ as -> <-.
Qed.

(** A legal transition is taken without an exception and decreases the
    measure by one. *)
Lemma legal_take_measure z c :
  z ∈ get_legal_transitions c →
  ∃ c', take_transition the_funcs z c = (Ok (), c') ∧
        measure c = S (measure c').
Proof.
  intros Hz. destruct (decode z) as [t|] eqn:Hd.
  - apply code_decode in Hd as <-.
    apply legal_code, enabled_step in Hz as [c' Hs]. exists c'.
    split; [by apply step_sound|]. apply (step_measure _ _ _ Hs).
  - apply decode_None in Hd. by apply get_legal_transitions_sub in Hz.
Qed.

(** ** The theorems of the transition system *)

(** C1: Refinement.  The engine implements the abstract machine: the
    machine makes the step [t] from [c] to [c'] exactly when [t] is
    among [get_legal_transitions c] and [take_transition], through the
    handler table the constructor fills, returns [c'] without raising. *)
Theorem engine_refines_step t c c' :
  step t c c' ↔
  code t ∈ get_legal_transitions c ∧
  take_transition the_funcs (code t) c = (Ok (), c').
Proof.
  split; [apply step_sound|]. intros [??]. by apply step_complete.
Qed.

(** C15: Single-head invariant.  In every configuration reachable from
    the initial configuration of a sentence by legal transitions, no two
    arcs share a dependent. *)
Theorem reachable_single_head se c h1 h2 d :
  reachable se c → (h1, d) ∈ arcs c → (h2, d) ∈ arcs c → h1 = h2.
Proof. apply reachable_arcs_functional. Qed.

Lemma reachable_single_head_witness :
  reachable example_sentence example_final ∧
  (1, 2) ∈ arcs example_final ∧ (1, 2) ∈ arcs example_final ∧ 1 = 1.
Proof.
  split_and!; [apply example_reachable|set_solver..|].
  apply (reachable_single_head example_sentence example_final 1 1 2);
    [apply example_reachable|set_solver..].
Defined.

(** C16: Shape of reachable configurations.  While parsing a sentence of
    [n] tokens, ROOT is at the bottom of the stack, the stack followed
    by the buffer is strictly increasing, the buffer is the interval
    [k .. n-1] of the tokens not yet consumed, and every token below [k]
    is on the stack or has received a head. *)
Theorem reachable_shape se c :
  reachable se c →
  ∃ k σ, 0 ≤ k ≤ Z.of_nat (length se) ∧
    buffer c = seqZ k (Z.of_nat (length se) - k) ∧
    stack c = ROOT :: σ ∧
    StronglySorted Z.lt (stack c ++ buffer c) ∧
    ∀ i, 0 ≤ i < k → i ∈ σ ∨ has_head (arcs c) i = true.
Proof. apply reachable_sorted. Qed.

Lemma reachable_shape_witness :
  reachable example_sentence example_final ∧
  ∃ k σ, 0 ≤ k ≤ Z.of_nat (length example_sentence) ∧
    buffer example_final = seqZ k (Z.of_nat (length example_sentence) - k) ∧
    stack example_final = ROOT :: σ ∧
    StronglySorted Z.lt (stack example_final ++ buffer example_final) ∧
    ∀ i, 0 ≤ i < k → i ∈ σ ∨ has_head (arcs example_final) i = true.
Proof.
  split; [apply example_reachable|].
  apply (reachable_shape example_sentence example_final example_reachable).
Defined.

(** C25: Termination.  Every transition decreases
    [2 * |buffer| + |stack|] by one, so a run of legal transitions from
    the initial configuration of a sentence of [n] tokens has at most
    [2 * n] transitions. *)
Theorem run_length_bound se ts c :
  steps_fun ts (get_initial_config se) = Some c →
  (length ts ≤ 2 * length se)%nat.
Proof.
  intros Hs. assert (reachable se c) as [σ Hσ]%reachable_stack_root by by exists ts.
  apply steps_fun_Some in Hs. pose proof (steps_measure _ _ _ Hs) as Hm.
  revert Hm. unfold measure. rewrite Hσ. simpl. rewrite length_seqZ. lia.
Qed.

Lemma run_length_bound_witness :
  steps_fun example_run (get_initial_config example_sentence)
  = Some example_final ∧
  (length example_run ≤ 2 * length example_sentence)%nat.
Proof.
  split; [apply example_steps|].
  apply (run_length_bound example_sentence example_run example_final example_steps).
Defined.

(** C24: Length of a complete parse.  A run that ends in a finished
    configuration has exactly [2 * n] transitions, of which exactly [n]
    are SHIFT or RIGHT: each token is moved from the buffer to the stack
    once, and removed from the stack once. *)
Theorem complete_run_counts se ts c :
  steps_fun ts (get_initial_config se) = Some c → is_finished c = true →
  length ts = (2 * length se)%nat ∧ consumed ts = length se.
Proof.
  intros Hs%steps_fun_Some [Hb [r Hr]]%is_finished_spec.
  pose proof (steps_measure _ _ _ Hs) as Hm.
  pose proof (steps_buffer _ _ _ Hs) as Hc. revert Hm Hc.
  unfold measure. rewrite Hb, Hr. simpl. rewrite length_seqZ. lia.
Qed.

Lemma complete_run_counts_witness :
  steps_fun example_run (get_initial_config example_sentence)
  = Some example_final ∧
  is_finished example_final = true ∧
  length example_run = (2 * length example_sentence)%nat ∧
  consumed example_run = length example_sentence.
Proof.
  split_and!; [apply example_steps|done|..];
    apply (complete_run_counts example_sentence example_run example_final
             example_steps eq_refl).
Defined.

(** Result of a complete parse.  In a finished configuration
    reached by legal transitions the stack is [[ROOT]] and every token of
    the sentence has exactly one head among the arcs. *)
Theorem finished_all_attached se c :
  reachable se c → is_finished c = true →
  stack c = [ROOT] ∧
  ∀ i, 0 ≤ i < Z.of_nat (length se) →
       ∃ h, (h, i) ∈ arcs c ∧ ∀ h', (h', i) ∈ arcs c → h' = h.
Proof.
  intros Hr [Hb [r Hst]]%is_finished_spec.
  destruct (reachable_sorted _ _ Hr) as (k&σ&Hk&Hbuf&Hσ&_&Hatt).
  rewrite Hst in Hσ. injection Hσ as -> <-. split; [done|].
  rewrite Hb in Hbuf. symmetry in Hbuf. apply seqZ_nil_inv in Hbuf.
  intros i Hi. destruct (Hatt i) as [[]%elem_of_nil|[h Hh]%has_head_true]; [lia|].
  exists h. split; [done|]. intros h' Hh'. by eapply reachable_arcs_functional.
Qed.

Lemma finished_all_attached_witness :
  reachable example_sentence example_final ∧
  is_finished example_final = true ∧
  stack example_final = [ROOT] ∧
  ∀ i, 0 ≤ i < Z.of_nat (length example_sentence) →
       ∃ h, (h, i) ∈ arcs example_final ∧
            ∀ h', (h', i) ∈ arcs example_final → h' = h.
Proof.
  split_and!; [apply example_reachable|done|..];
    apply (finished_all_attached example_sentence example_final
             example_reachable eq_refl).
Defined.

(** C26: A legal transition never raises, and it decreases the
    measure [2 * |buffer| + |stack|]: whatever member of
    [get_legal_transitions c] a driver passes to [take_transition], the
    call returns a configuration that is strictly closer to the end. *)
Theorem legal_transition_succeeds z c :
  z ∈ get_legal_transitions c →
  ∃ c', take_transition the_funcs z c = (Ok (), c') ∧
        (measure c' < measure c)%nat.
Proof.
  intros (c'&?&Hm)%legal_take_measure. exists c'. split; [done|]. lia.
Qed.

Lemma legal_transition_succeeds_witness :
  SHIFT ∈ get_legal_transitions (get_initial_config example_sentence) ∧
  ∃ c', take_transition the_funcs SHIFT (get_initial_config example_sentence)
        = (Ok (), c') ∧
        (measure c' < measure (get_initial_config example_sentence))%nat.
Proof.
  split; [by apply (bool_decide_unpack _)|].
  apply (legal_transition_succeeds SHIFT). by apply (bool_decide_unpack _).
Defined.

(** Legal transitions keep a configuration well formed, whether it is
    reachable or not. *)
Lemma legal_take_wf z c c' :
  wf c → z ∈ get_legal_transitions c →
  take_transition the_funcs z c = (Ok (), c') → wf c'.
Proof.
  intros [k Hwf] Hl Htake. destruct (decode z) as [t|] eqn:Hd.
  - apply code_decode in Hd as <-.
    pose proof (step_complete _ _ _ Hl Htake) as Hstep.
    eexists. rewrite (step_sentence _ _ _ Hstep). by eapply wf_step.
  - apply decode_None in Hd. by apply get_legal_transitions_sub in Hl.
Qed.

(** A well-formed configuration that no run reaches: token 0 hangs
    from token 2 while token 1, shifted after it, is still on the
    stack. *)
Definition unreached : Configuration :=
  mkConfiguration [(2, 0)] [ROOT; 1] [2] example_sentence.

Lemma unreached_wf : wf unreached.
Proof.
  exists 2. split; simpl; [lia|done| |apply NoDup_singleton| |].
  - exists [1]. split_and!; [done|by repeat constructor|].
    repeat constructor; lia.
  - repeat constructor; simpl; root_lia.
  - intros i Hi. assert (i = 0 ∨ i = 1) as [->| ->] by lia;
      [by right|left; set_solver].
Qed.

Lemma unreached_not_reachable : ¬ reachable example_sentence unreached.
Proof.
  intros [ts Hs]. pose proof (proj1 (steps_fun_Some _ _ _) Hs) as Hm.
  apply steps_measure in Hm.
  assert (length ts = 3%nat) as Hlen by (unfold measure in Hm; simpl in Hm; lia).
  destruct ts as [|t1 [|t2 [|t3 [|t4 ts]]]]; try done.
  destruct t1, t2, t3; by vm_compute in Hs.
Qed.

(** C17: Well-formedness is a type of configurations that the engine
    preserves.  Whatever member of [get_legal_transitions c] a driver
    passes to [take_transition] on a well-formed [c], reachable or not,
    the configuration it returns is well formed: ROOT at the bottom of
    an increasing stack, the buffer an interval of token indices, one
    head per dependent, arcs between tokens in range. *)
Theorem take_transition_preserves_wf z c c' :
  wf c → z ∈ get_legal_transitions c →
  take_transition the_funcs z c = (Ok (), c') → wf c'.
Proof. apply legal_take_wf. Qed.

Lemma take_transition_preserves_wf_witness :
  wf unreached ∧
  RIGHT ∈ get_legal_transitions unreached ∧
  take_transition the_funcs RIGHT unreached
  = (Ok (), mkConfiguration [(2, 0); (1, 2)] [ROOT; 1; 2] [] example_sentence) ∧
  wf (mkConfiguration [(2, 0); (1, 2)] [ROOT; 1; 2] [] example_sentence).
Proof.
  assert (RIGHT ∈ get_legal_transitions unreached) as Hl
    by by apply (bool_decide_unpack _).
  split_and!; [apply unreached_wf|done..|].
  by apply (take_transition_preserves_wf RIGHT unreached _ unreached_wf Hl).
Defined.

(** C32: Dead ends.  A reachable configuration that is not finished
    has no legal transition exactly when the buffer is empty and the top
    of the stack is a token without a head: such a token can be neither
    reduced nor attached, so the parse cannot be completed. *)
Theorem dead_end_iff se c :
  reachable se c → is_finished c = false →
  (get_legal_transitions c = [] ↔
   buffer c = [] ∧ ∃ σ s, stack c = σ ++ [s] ∧ ∀ h, (h, s) ∉ arcs c).
Proof.
  intros [σ Hσ]%reachable_stack_root Hfin.
  rewrite get_legal_transitions_spec. unfold left_ok, right_ok, shift_ok, reduce_ok.
  snoc_case (stack c) s σ0 Hs; [by rewrite Hs in Hσ|].
  rewrite Hs, py_top_snoc. destruct (buffer c) as [|b β]; simpl.
  - destruct (has_head (arcs c) s) eqn:Hh; simpl.
    + apply has_head_true in Hh as [h Hh]. split; [done|].
      intros (_&?&?&[-> ->]%app_inj_tail&Hno). by destruct (Hno h).
    + split; [|done]. intros _. split; [done|]. exists σ0, s.
      by rewrite <-has_head_false.
  - split; [|by intros [[=] _]].
    repeat (case_match; simpl); intros ?; simplify_list_eq.
Qed.

Definition dead_end_sentence : list Token := [mkToken "a" "N" ROOT "x"].

Definition dead_end : Configuration :=
  mkConfiguration [] [ROOT; 0] [] dead_end_sentence.

Lemma dead_end_reachable : reachable dead_end_sentence dead_end.
Proof. by exists [Shift]. Qed.

Lemma dead_end_iff_witness :
  reachable dead_end_sentence dead_end ∧ is_finished dead_end = false ∧
  (get_legal_transitions dead_end = [] ↔
   buffer dead_end = [] ∧
   ∃ σ s, stack dead_end = σ ++ [s] ∧ ∀ h, (h, s) ∉ arcs dead_end).
Proof.
  split_and!; [apply dead_end_reachable|done|].
  apply (dead_end_iff dead_end_sentence dead_end dead_end_reachable eq_refl).
Defined.

(** Shifting the first [m] tokens. *)
Lemma shift_run se (m : nat) :
  (m ≤ length se)%nat →
  steps (replicate m Shift) (get_initial_config se)
    (mkConfiguration [] (ROOT :: seqZ 0 (Z.of_nat m))
       (seqZ (Z.of_nat m) (Z.of_nat (length se) - Z.of_nat m)) se).
Proof.
  induction m as [|m IH]; intros Hm.
  - rewrite Z.sub_0_r. constructor.
  - rewrite replicate_S_end. eapply steps_snoc; [apply IH; lia|].
    rewrite (seqZ_cons (Z.of_nat m)) by lia.
    replace (ROOT :: seqZ 0 (Z.of_nat (S m)))
      with ((ROOT :: seqZ 0 (Z.of_nat m)) ++ [Z.of_nat m]) by by rewrite seqZ_S.
    replace (seqZ (Z.of_nat (S m)) (Z.of_nat (length se) - Z.of_nat (S m)))
      with (seqZ (Z.succ (Z.of_nat m)) (Z.pred (Z.of_nat (length se) - Z.of_nat m)))
      by (f_equal; lia).
    constructor.
Qed.

(** C33: A dead end exists for every non-empty sentence: shifting every
    token leaves a configuration that is reachable, not finished, and
    without any legal transition. *)
Theorem shift_all_dead_end se :
  se ≠ [] →
  ∃ c, reachable se c ∧ is_finished c = false ∧ get_legal_transitions c = [].
Proof.
  intros Hne.
  exists (mkConfiguration [] (ROOT :: seqZ 0 (Z.of_nat (length se))) [] se).
  destruct se as [|t se _] using rev_ind; [done|]. split_and!.
  - apply reachable_steps. exists (replicate (length (se ++ [t])) Shift).
    pose proof (shift_run (se ++ [t]) _ (le_n _)) as Hrun.
    by rewrite Z.sub_diag in Hrun.
  - rewrite length_app, Nat.add_1_r, seqZ_S. unfold is_finished. simpl.
    rewrite length_app. simpl. apply bool_decide_eq_false. lia.
  - rewrite get_legal_transitions_spec, length_app, Nat.add_1_r, seqZ_S.
    unfold left_ok, right_ok, shift_ok, reduce_ok. simpl.
    by rewrite app_comm_cons, py_top_snoc.
Qed.

Lemma shift_all_dead_end_witness :
  dead_end_sentence ≠ [] ∧
  ∃ c, reachable dead_end_sentence c ∧ is_finished c = false ∧
       get_legal_transitions c = [].
Proof. split; [done|]. by apply (shift_all_dead_end dead_end_sentence). Defined.
