(* ===== verification/Projectivity.v ===== *)
(** * The projectivity test

    Models [ArcEager.is_not_projective] (src/arc_eager.py, lines
    76-96): two nested loops over the entries of [head_of] that return
    [True] at the first pair of arcs matching one of four crossing
    patterns, and skip every pair in which one head is ROOT.

    The theorems characterise the result by the existence of two
    crossing arcs between tokens, compare it with projectivity of the
    whole tree (ROOT placed at index -1, left of every token), and show
    the two examples of the specification.  Which trees that are not
    projective pass the test is the subject of [Planar]. *)

From Stdlib Require Import ZifyBool.
From stdpp Require Import base tactics option list numbers gmap strings.
From S2P Require Import Prelude Config.

#[local] Open Scope Z_scope.

(** ** The model *)

(** The body of the inner loop, for the arcs [(h1, d1)] and [(h2, d2)]:
    [true] when it returns [True], [false] when it goes on to the next
    pair. *)
Definition crossing_test (d1 h1 d2 h2 : Z) : bool :=
  if bool_decide (h1 = ROOT) || bool_decide (h2 = ROOT) then false
  else if (h1 <? h2) && (h2 <? d1) && (d1 <? d2) then true
  else if (d1 <? h2) && (h2 <? h1) && (h1 <? d2) then true
  else if (h1 <? d2) && (d2 <? d1) && (d1 <? h2) then true
  else if (d1 <? d2) && (d2 <? h1) && (h1 <? h2) then true
  else false.

Definition is_not_projective (config : GoldConfiguration) : bool :=
  let items := map_to_list (head_of config) in
  existsb (λ '(d1, h1),
    existsb (λ '(d2, h2), crossing_test d1 h1 d2 h2) items) items.

(** ** Crossing arcs *)

(** The arc [(h1, d1)] starts first and crosses the arc [(h2, d2)]:
    exactly one end of the second arc is strictly inside the first. *)
Definition crosses (h1 d1 h2 d2 : Z) : Prop :=
  Z.min h1 d1 < Z.min h2 d2 < Z.max h1 d1 ∧ Z.max h1 d1 < Z.max h2 d2.

#[export] Instance crosses_dec h1 d1 h2 d2 : Decision (crosses h1 d1 h2 d2).
Proof. unfold crosses. apply _. Defined.

(** A gold tree is projective when no two of its arcs cross, the arcs
    from ROOT included. *)
Definition projective (g : GoldConfiguration) : Prop :=
  ∀ d1 h1 d2 h2, head_of g !! d1 = Some h1 → head_of g !! d2 = Some h2 →
                 ¬ crosses h1 d1 h2 d2.

(** [projective], decided by the two loops of [is_not_projective]
    without the test on ROOT. *)
Definition projectiveb (g : GoldConfiguration) : bool :=
  let items := map_to_list (head_of g) in
  forallb (λ '(d1, h1),
    forallb (λ '(d2, h2), negb (bool_decide (crosses h1 d1 h2 d2))) items) items.

(** ** Characterisation *)

Lemma crossing_test_true d1 h1 d2 h2 :
  crossing_test d1 h1 d2 h2 = true ↔
  h1 ≠ ROOT ∧ h2 ≠ ROOT ∧ crosses h1 d1 h2 d2.
Proof.
  unfold crossing_test, crosses.
  repeat case_bool_decide; simpl; try (split; [done|tauto]).
  repeat case_match; lia.
Qed.

Lemma existsb_elem_of {A} (f : A → bool) (l : list A) :
  existsb f l = true ↔ ∃ x, x ∈ l ∧ f x = true.
Proof. rewrite existsb_exists. by setoid_rewrite list_elem_of_In. Qed.

Lemma is_not_projective_true g :
  is_not_projective g = true ↔
  ∃ d1 h1 d2 h2, head_of g !! d1 = Some h1 ∧ head_of g !! d2 = Some h2 ∧
                 h1 ≠ ROOT ∧ h2 ≠ ROOT ∧ crosses h1 d1 h2 d2.
Proof.
  unfold is_not_projective. rewrite existsb_elem_of. split.
  - intros ([d1 h1] & H1%elem_of_map_to_list & H).
    apply existsb_elem_of in H as ([d2 h2] & H2%elem_of_map_to_list & H).
    apply crossing_test_true in H. exists d1, h1, d2, h2. tauto.
  - intros (d1&h1&d2&h2&H1&H2&H). exists (d1, h1).
    split; [by apply elem_of_map_to_list|]. apply existsb_elem_of.
    exists (d2, h2). split; [by apply elem_of_map_to_list|].
    by apply crossing_test_true.
Qed.

Lemma forallb_elem_of {A} (f : A → bool) (l : list A) :
  forallb f l = true ↔ ∀ x, x ∈ l → f x = true.
Proof. rewrite forallb_forall. by setoid_rewrite list_elem_of_In. Qed.

Lemma projectiveb_spec g : projectiveb g = true ↔ projective g.
Proof.
  unfold projectiveb, projective. rewrite forallb_elem_of. split.
  - intros Hall d1 h1 d2 h2 H1%elem_of_map_to_list H2%elem_of_map_to_list.
    specialize (Hall _ H1). simpl in Hall. rewrite forallb_elem_of in Hall.
    specialize (Hall _ H2). simpl in Hall.
    by apply negb_true_iff, bool_decide_eq_false in Hall.
  - intros Hp [d1 h1] H1%elem_of_map_to_list. apply forallb_elem_of.
    intros [d2 h2] H2%elem_of_map_to_list.
    apply negb_true_iff, bool_decide_eq_false. eauto.
Qed.

#[export] Instance projective_dec g : Decision (projective g).
Proof.
  refine (cast_if (decide (projectiveb g = true)));
    by rewrite <-projectiveb_spec.
Defined.

(** ** The examples of the specification *)

(** Four tokens whose only arcs between tokens are (0,2) and (1,3). *)
Definition crossing_gold : GoldConfiguration :=
  get_gold_config
    [ mkToken "a" "N" ROOT "x"; mkToken "b" "N" ROOT "x";
      mkToken "c" "N" 0 "x"; mkToken "d" "N" 1 "x" ].

(** Four tokens with the arcs (0,1), (1,2) and (1,3). *)
Definition nested_gold : GoldConfiguration :=
  get_gold_config
    [ mkToken "a" "N" ROOT "x"; mkToken "b" "N" 0 "x";
      mkToken "c" "N" 1 "x"; mkToken "d" "N" 1 "x" ].

(** A tree whose arc (2,0) passes over token 1, the child of ROOT. *)
Definition covered_root_sentence : list Token :=
  [ mkToken "a" "N" 2 "x"; mkToken "b" "V" ROOT "x"; mkToken "c" "N" 1 "x" ].

(** ** The theorems of the projectivity test *)

(** C14: [is_not_projective] returns [True] exactly when two arcs of
    the gold tree whose heads are tokens cross: one end of one arc lies
    strictly inside the other arc and its other end strictly outside.
    The iteration order of the dict does not matter. *)
Theorem is_not_projective_spec g :
  is_not_projective g = true ↔
  ∃ d1 h1 d2 h2, head_of g !! d1 = Some h1 ∧ head_of g !! d2 = Some h2 ∧
                 h1 ≠ ROOT ∧ h2 ≠ ROOT ∧
                 Z.min h1 d1 < Z.min h2 d2 < Z.max h1 d1 ∧
                 Z.max h1 d1 < Z.max h2 d2.
Proof. apply is_not_projective_true. Qed.

(** The two examples of the specification: the test is [True]
    on the tree with arcs (0,2) and (1,3), and [False] on the tree with
    arcs (0,1), (1,2) and (1,3). *)
Theorem is_not_projective_examples :
  is_not_projective crossing_gold = true ∧
  is_not_projective nested_gold = false.
Proof. split; vm_compute; reflexivity. Qed.

(** A projective tree passes the test: when no two arcs cross,
    ROOT arcs included, [is_not_projective] returns [False]. *)
Theorem projective_passes g :
  projective g → is_not_projective g = false.
Proof.
  intros Hp. apply not_true_iff_false.
  intros (d1&h1&d2&h2&H1&H2&_&_&Hc)%is_not_projective_true.
  exact (Hp _ _ _ _ H1 H2 Hc).
Qed.

Lemma nested_gold_projective : projective nested_gold.
Proof.
  intros d1 h1 d2 h2 H1 H2. unfold nested_gold in *.
  rewrite get_gold_config_head_of in H1, H2. unfold crosses.
  repeat case_decide; [|done..].
  destruct (Z.to_nat d1) as [|[|[|[|]]]] eqn:E1; simplify_eq/=;
  destruct (Z.to_nat d2) as [|[|[|[|]]]] eqn:E2; simplify_eq/=; root_lia.
Qed.

Lemma projective_passes_witness :
  projective nested_gold ∧ is_not_projective nested_gold = false.
Proof.
  split; [apply nested_gold_projective|].
  apply (projective_passes nested_gold nested_gold_projective).
Defined.

(** The test is incomplete: it skips every pair in which one head
    is ROOT, so a tree in which an arc passes over a child of ROOT is
    not projective and still passes the test. *)
Theorem is_not_projective_misses_root :
  is_not_projective (get_gold_config covered_root_sentence) = false ∧
  ¬ projective (get_gold_config covered_root_sentence).
Proof.
  split; [vm_compute; reflexivity|]. intros Hp.
  apply (Hp 1 ROOT 0 2); [vm_compute; reflexivity..|]. unfold crosses. root_lia.
Qed.
