(* ===== verification/Tree.v ===== *)
(** * Gold trees

    [get_gold_config] (src/arc_eager.py, lines 58-66) stores whatever
    heads the annotation gives; the oracles are meant for annotations
    that describe a projective tree.  This file says what that means for
    a [GoldConfiguration]: every token leads to ROOT by following
    [head_of] (so there is no cycle), and no two arcs cross.  Its main
    lemma is the property of projective trees the oracles rest on: a
    token strictly inside an arc descends from the head of that arc. *)

From stdpp Require Import base tactics option list numbers gmap strings.
From S2P Require Import Prelude Config Projectivity.

#[local] Open Scope Z_scope.

Section tree.
Context (g : GoldConfiguration).
Implicit Types (d h a x y : Z).

(** [rooted d]: following [head_of] from [d] leads to ROOT. *)
Inductive rooted : Z → Prop :=
| rooted_root : rooted ROOT
| rooted_token d h : head_of g !! d = Some h → rooted h → rooted d.

(** [anc d a]: [a] is the head of [d], or the head of its head, ... *)
Inductive anc : Z → Z → Prop :=
| anc_head d h : head_of g !! d = Some h → anc d h
| anc_step d h a : head_of g !! d = Some h → anc h a → anc d a.

(** The keys of [head_of] are token indices, and every token leads to
    ROOT. *)
Record tree : Prop := {
  tree_keys : ∀ d, is_Some (head_of g !! d) → 0 ≤ d;
  tree_rooted : ∀ d, is_Some (head_of g !! d) → rooted d
}.

Lemma anc_snoc d a h : anc d a → head_of g !! a = Some h → anc d h.
Proof.
  induction 1 as [d a Hd|d h' a Hd _ IH]; intros Ha.
  - by eapply anc_step, anc_head.
  - by eapply anc_step, IH.
Qed.

Lemma anc_trans d a b : anc d a → anc a b → anc d b.
Proof.
  induction 1 as [d a Hd|d h a Hd _ IH]; intros Hb;
    eapply anc_step; eauto.
Qed.

Section facts.
Context (Htree : tree).

Lemma tree_root_no_head : head_of g !! ROOT = None.
Proof.
  apply eq_None_not_Some. intros Hs%(tree_keys Htree). root_lia.
Qed.

Lemma rooted_ge d : rooted d → ROOT ≤ d.
Proof.
  destruct 1 as [|d h Hd _]; [done|].
  assert (0 ≤ d) by by apply (tree_keys Htree). root_lia.
Qed.

Lemma tree_head_rooted d h : head_of g !! d = Some h → rooted h ∧ ROOT ≤ h.
Proof.
  intros Hd. assert (rooted d) as Hr by by apply (tree_rooted Htree).
  destruct Hr as [|d h' Hd' Hr]; [by rewrite tree_root_no_head in Hd|].
  simplify_eq. split; [done|by apply rooted_ge].
Qed.

Lemma tree_head_range d h :
  head_of g !! d = Some h → h = ROOT ∨ is_Some (head_of g !! h).
Proof.
  intros [Hr _]%tree_head_rooted. destruct Hr; [by left|right; eauto].
Qed.

(** No token is its own ancestor. *)
Lemma rooted_acyclic d : rooted d → ¬ anc d d.
Proof.
  induction 1 as [|d h Hd _ IH]; intros Ha.
  - inversion Ha; simplify_eq; by rewrite tree_root_no_head in *.
  - apply IH. inversion Ha as [? ? Hd'|? h' ? Hd' Hh]; simplify_eq.
    + by apply anc_head.
    + by eapply anc_snoc.
Qed.

Lemma tree_acyclic d : ¬ anc d d.
Proof.
  intros Ha. assert (is_Some (head_of g !! d)) as Hs by (inversion Ha; eauto).
  by eapply rooted_acyclic; [apply (tree_rooted Htree)|].
Qed.

Lemma tree_no_loop d : head_of g !! d ≠ Some d.
Proof. intros Hd. by eapply tree_acyclic, anc_head. Qed.

Lemma tree_no_2cycle d h : head_of g !! d = Some h → head_of g !! h ≠ Some d.
Proof. intros Hd Hh. by eapply tree_acyclic, anc_step, anc_head. Qed.

Context (Hproj : projective g).

(** The head of a token strictly inside an arc is inside the arc, its
    ends included. *)
Lemma inside_head h d x y :
  head_of g !! d = Some h → head_of g !! x = Some y →
  Z.min h d < x < Z.max h d → Z.min h d ≤ y ≤ Z.max h d.
Proof.
  intros Hd Hx Hin.
  pose proof (Hproj _ _ _ _ Hd Hx) as H1.
  pose proof (Hproj _ _ _ _ Hx Hd) as H2.
  unfold crosses in *. lia.
Qed.

(** A token strictly inside an arc descends from the head of the arc. *)
Lemma inside_anc h d x :
  head_of g !! d = Some h → rooted x → Z.min h d < x < Z.max h d → anc x h.
Proof.
  intros Hd Hr. induction Hr as [|x y Hx Hy IH]; intros Hin.
  - destruct (tree_head_rooted _ _ Hd) as [_ ?].
    assert (0 ≤ d) by by apply (tree_keys Htree). root_lia.
  - pose proof (inside_head _ _ _ _ Hd Hx Hin) as Hy'.
    destruct (decide (y = h)) as [->|]; [by apply anc_head|].
    destruct (decide (y = d)) as [->|]; [by eapply anc_step, anc_head|].
    eapply anc_step; [done|]. apply IH. lia.
Qed.

(** An arc that starts strictly inside another arc, with the other
    arc's dependent as its head, closes a cycle. *)
Lemma no_arc_back h d x :
  head_of g !! d = Some h → head_of g !! h = Some x →
  ¬ (Z.min h d < x < Z.max h d).
Proof.
  intros Hd Hh Hin. apply (tree_acyclic h).
  eapply anc_step; [done|]. apply (inside_anc h d); [done| |done].
  by apply (tree_head_rooted h).
Qed.

End facts.
End tree.

(** ** The gold tree of a sentence *)

(** An annotated sentence describes a tree when every token leads to
    ROOT. *)
Definition well_formed (se : list Token) : Prop :=
  ∀ d, 0 ≤ d < Z.of_nat (length se) → rooted (get_gold_config se) d.

Lemma well_formed_tree se : well_formed se → tree (get_gold_config se).
Proof.
  intros Hwf. split; intros d Hd%get_gold_config_dom; [lia|by apply Hwf].
Qed.

(** [rooted], decided by following the heads at most [fuel] times. *)
Fixpoint rootedb (g : GoldConfiguration) (fuel : nat) (d : Z) : bool :=
  if bool_decide (d = ROOT) then true else
  match fuel with
  | O => false
  | S fuel =>
      match head_of g !! d with
      | Some h => rootedb g fuel h
      | None => false
      end
  end.

Definition well_formedb (se : list Token) : bool :=
  forallb (rootedb (get_gold_config se) (length se))
          (seqZ 0 (Z.of_nat (length se))).

Lemma rootedb_sound g fuel d : rootedb g fuel d = true → rooted g d.
Proof.
  revert d. induction fuel as [|fuel IH]; intros d; simpl;
    case_bool_decide as Hd; subst; try (intros; by constructor); [done|].
  destruct (head_of g !! d) as [h|] eqn:Hh; [|done].
  intros Hr%IH. by econstructor.
Qed.

Lemma well_formedb_sound se : well_formedb se = true → well_formed se.
Proof.
  unfold well_formedb. rewrite forallb_forall. intros Hall d Hd.
  eapply rootedb_sound, Hall, list_elem_of_In, elem_of_seqZ. lia.
Qed.

(** Enough fuel: a token that leads to ROOT does so through distinct
    tokens, so in at most as many steps as there are tokens. *)
Lemma rootedb_mono g fuel fuel' d :
  rootedb g fuel d = true → (fuel ≤ fuel')%nat → rootedb g fuel' d = true.
Proof.
  revert fuel' d. induction fuel as [|fuel IH]; intros fuel' d; simpl;
    case_bool_decide as Hd; try done.
  - intros _ _. destruct fuel'; simpl; by rewrite bool_decide_eq_true_2.
  - intros _ _. destruct fuel'; simpl; by rewrite bool_decide_eq_true_2.
  - destruct fuel' as [|fuel']; [lia|]. simpl.
    rewrite bool_decide_eq_false_2 by done.
    destruct (head_of g !! d); [|done]. intros ??. apply IH; [done|lia].
Qed.

Lemma rooted_chain g d :
  tree g → rooted g d →
  ∃ l, NoDup l ∧ (∀ x, x ∈ l → is_Some (head_of g !! x)) ∧
       (∀ x, x ∈ l → x = d ∨ anc g d x) ∧
       rootedb g (length l) d = true.
Proof.
  intros Htree. induction 1 as [|d h Hd Hh (l&Hnd&Hdom&Hanc&Hb)].
  { exists []. split_and!; [constructor|by intros ? ?%elem_of_nil..|done]. }
  exists (d :: l). split_and!.
  - constructor; [|done]. intros [->|Ha]%Hanc.
    + by eapply tree_no_loop.
    + eapply tree_acyclic; [done|]. by eapply anc_step.
  - intros x [->|?]%elem_of_cons; eauto.
  - intros x [->|[->|?]%Hanc]%elem_of_cons; [by left|right..].
    + by apply anc_head.
    + by eapply anc_step.
  - simpl. rewrite bool_decide_eq_false_2, Hd; [done|]. intros ->.
    by rewrite tree_root_no_head in Hd.
Qed.

Lemma well_formedb_spec se : well_formedb se = true ↔ well_formed se.
Proof.
  split; [apply well_formedb_sound|]. intros Hwf.
  apply forallb_forall. intros d Hd%list_elem_of_In%elem_of_seqZ.
  destruct (rooted_chain _ d (well_formed_tree _ Hwf)) as (l&Hnd&Hdom&_&Hb);
    [apply Hwf; lia|].
  eapply rootedb_mono; [done|].
  assert (l ⊆+ seqZ 0 (Z.of_nat (length se))) as Hsub.
  { apply NoDup_submseteq; [done|]. intros x Hx%Hdom%get_gold_config_dom.
    apply elem_of_seqZ. lia. }
  apply submseteq_length in Hsub. by rewrite length_seqZ, Nat2Z.id in Hsub.
Qed.

#[export] Instance well_formed_dec se : Decision (well_formed se).
Proof.
  refine (cast_if (decide (well_formedb se = true)));
    by rewrite <-well_formedb_spec.
Defined.
