(* ===== verification/StaticOracle.v ===== *)
(** * The static oracle

    Models [ArcEager.static_oracle] (src/arc_eager.py, lines 190-210):
    a cascade of tests on the front of the buffer [b] and the top of
    the stack [s] against the gold tree, which returns a one-element
    list holding a transition, or [None].  Reading [head_of] at a key
    it does not have raises KeyError.

    The theorems give the decision table, show that the oracle reads
    the configuration and the gold tree without changing them, and run
    the example of the specification. *)

From stdpp Require Import base tactics option list numbers gmap strings.
From S2P Require Import Prelude Config Transitions Machine Projectivity.

#[local] Open Scope Z_scope.

(** ** The model *)

(** [len([x for x in l if x < s])], used as a truth value. *)
Definition some_below (s : Z) (l : list Z) : bool :=
  bool_decide (length (filter (λ x, x < s) l) ≠ 0%nat).

Definition static_oracle (config : Configuration)
    (gold_config : GoldConfiguration) : result (option (list Z)) :=
  match buffer config with
  | [] =>
      match stack config with
      | [] => Ok None
      | _ :: _ => Ok (Some [REDUCE])
      end
  | b :: _ =>
      match py_top (stack config) with
      | None => Ok (Some [SHIFT])
      | Some s =>
          is_left ←
            (if bool_decide (s ≠ ROOT) then
               hs ← of_lookup s (head_of gold_config !! s);
               mret (bool_decide (b = hs))
             else mret false);
          if is_left : bool then mret (Some [LEFT]) else
          hb ← of_lookup b (head_of gold_config !! b);
          if bool_decide (s = hb) then mret (Some [RIGHT]) else
          if bool_decide (hb < s) then mret (Some [REDUCE]) else
          match deps_of gold_config !! b with
          | Some ds =>
              if some_below s ds then mret (Some [REDUCE])
              else mret (Some [SHIFT])
          | None => mret (Some [SHIFT])
          end
      end
  end.

(** ** Running the oracle

    One iteration of "ask the oracle, take the transition it names":
    [None] when the oracle names no transition. *)
Definition oracle_step (gold_config : GoldConfiguration) :
    py Configuration (option Z) :=
  λ c, match static_oracle c gold_config with
       | Raise e => (Raise e, c)
       | Ok None => (Ok None, c)
       | Ok (Some []) => (Ok None, c)
       | Ok (Some (t :: _)) =>
           match take_transition the_funcs t c with
           | (Ok _, c') => (Ok (Some t), c')
           | (Raise e, c') => (Raise e, c')
           end
       end.

(** The loop "until finished", bounded by [fuel]: the transitions
    taken and the configuration reached; [None] on exhaustion of the
    fuel, on an exception, or when the oracle names no transition. *)
Fixpoint run_static_oracle (fuel : nat) (gold_config : GoldConfiguration)
    (c : Configuration) : option (list Z * Configuration) :=
  if is_finished c then Some ([], c) else
  match fuel with
  | O => None
  | S fuel =>
      match oracle_step gold_config c with
      | (Ok (Some t), c') =>
          '(ts, c'') ← run_static_oracle fuel gold_config c';
          Some (t :: ts, c'')
      | _ => None
      end
  end.

(** ** The decision of the oracle, as a function of what it reads *)

(** The rules of the specification, in their priority order, for a stack
    top [s] with gold head [hs], a buffer front [b] with gold head [hb],
    and the gold dependents [ds] of [b]. *)
Definition static_decision (s b : Z) (hs : option Z) (hb : Z) (ds : list Z) : Z :=
  if bool_decide (s ≠ ROOT ∧ hs = Some b) then LEFT
  else if bool_decide (s = hb) then RIGHT
  else if bool_decide (hb < s) then REDUCE
  else if bool_decide (Exists (λ x, x < s) ds) then REDUCE
  else SHIFT.

Lemma some_below_true s l : some_below s l = true ↔ Exists (λ x, x < s) l.
Proof.
  unfold some_below. rewrite bool_decide_eq_true, Exists_exists. split.
  - destruct (filter _ l) as [|x l'] eqn:E; [done|]. intros _. exists x.
    assert (x ∈ filter (λ x, x < s) l) as [??]%list_elem_of_filter
      by (rewrite E; left). done.
  - intros (x & Hx & Hlt) E%length_zero_iff_nil.
    assert (x ∈ filter (λ x, x < s) l) as Hin by by apply list_elem_of_filter.
    rewrite E in Hin. by apply elem_of_nil in Hin.
Qed.

Lemma some_below_decide s l :
  some_below s l = bool_decide (Exists (λ x, x < s) l).
Proof. apply eq_true_iff_eq. by rewrite some_below_true, bool_decide_eq_true. Qed.

(** The test on [deps_of] reads the dependents of [b], if any. *)
Lemma deps_branch {A} (g : GoldConfiguration) b s (x y : A) :
  match deps_of g !! b with
  | Some ds => if some_below s ds then x else y
  | None => y
  end = if bool_decide (Exists (λ x, x < s) (Gold.deps g b)) then x else y.
Proof.
  unfold Gold.deps. destruct (deps_of g !! b) as [ds|]; simpl.
  - by rewrite some_below_decide.
  - done.
Qed.

Section decision.
Implicit Types (c : Configuration) (g : GoldConfiguration) (σ β : list Z).

Lemma static_oracle_empty_buffer c g :
  buffer c = [] →
  static_oracle c g = Ok (if decide (stack c = []) then None else Some [REDUCE]).
Proof. unfold static_oracle. intros ->. by destruct (stack c). Qed.

Lemma static_oracle_empty_stack c g b β :
  buffer c = b :: β → stack c = [] → static_oracle c g = Ok (Some [SHIFT]).
Proof. unfold static_oracle. by intros -> ->. Qed.

Lemma static_oracle_decision c g σ s b β hb :
  stack c = σ ++ [s] → buffer c = b :: β →
  head_of g !! b = Some hb →
  (s ≠ ROOT → is_Some (head_of g !! s)) →
  static_oracle c g =
    Ok (Some [static_decision s b (head_of g !! s) hb (Gold.deps g b)]).
Proof.
  intros Hs Hb Hhb Hhs. unfold static_oracle, static_decision.
  rewrite Hs, Hb, py_top_snoc, Hhb, deps_branch. simpl.
  destruct (decide (s = ROOT)) as [->|Hroot].
  - rewrite (bool_decide_eq_false_2 (ROOT ≠ ROOT)) by naive_solver.
    rewrite (bool_decide_eq_false_2 (_ ∧ _)) by naive_solver. simpl.
    by repeat case_bool_decide.
  - destruct (Hhs Hroot) as [hs Hhs']. rewrite Hhs'.
    rewrite (bool_decide_eq_true_2 (s ≠ ROOT)) by done. simpl.
    repeat case_bool_decide; simplify_eq/=; try done; naive_solver.
Qed.

Lemma static_oracle_KeyError_front c g σ s b β :
  stack c = σ ++ [s] → buffer c = b :: β →
  head_of g !! b = None →
  (s = ROOT ∨ ∃ hs, head_of g !! s = Some hs ∧ hs ≠ b) →
  static_oracle c g = Raise (KeyError b).
Proof.
  intros Hs Hb Hhb Hhs. unfold static_oracle.
  rewrite Hs, Hb, py_top_snoc, Hhb. simpl.
  destruct Hhs as [->|(hs&->&?)]; simpl;
    by repeat (case_bool_decide; simplify_eq/=).
Qed.

End decision.

(** The oracle reads the dependents of the buffer front only if
    [deps_of] has the key, and an empty list of dependents changes no
    answer: gold trees that differ by empty entries give the same
    result. *)
#[export] Instance static_oracle_proper c :
  Proper ((≡) ==> (=)) (static_oracle c).
Proof.
  intros g g' (Hh&_&Hd). unfold static_oracle.
  destruct (buffer c) as [|b β]; [done|].
  destruct (py_top (stack c)) as [s|]; [|done].
  by rewrite Hh, !(deps_branch _ b s), Hd.
Qed.

(** ** The oracle on reachable configurations *)

(** The transition the rules of the specification name in [c]. *)
Definition static_choice (c : Configuration) (g : GoldConfiguration) : Z :=
  match buffer c, py_top (stack c) with
  | [], _ => REDUCE
  | _ :: _, None => SHIFT
  | b :: _, Some s =>
      static_decision s b (head_of g !! s) (default ROOT (head_of g !! b))
        (Gold.deps g b)
  end.

(** In a reachable configuration the gold tree of the sentence has a
    head for the stack top, unless it is ROOT, and for the buffer
    front. *)
Lemma reachable_gold_keys se c σ s b β :
  reachable se c → stack c = σ ++ [s] → buffer c = b :: β →
  is_Some (head_of (get_gold_config se) !! b) ∧
  (s ≠ ROOT → is_Some (head_of (get_gold_config se) !! s)).
Proof.
  intros Hwf%reachable_wf_at Hs Hb.
  destruct (wf_buffer_cons _ _ _ _ _ Hwf Hb) as (->&_&?).
  pose proof (wf_k _ _ _ Hwf). split.
  - apply get_gold_config_dom. lia.
  - intros Hroot. destruct (wf_stack_snoc _ _ _ _ _ Hwf Hs Hroot) as (?&_&_&_&_&?).
    apply get_gold_config_dom. lia.
Qed.

Lemma reachable_stack_snoc se c : reachable se c → ∃ σ s, stack c = σ ++ [s].
Proof.
  intros [σ Hσ]%reachable_stack_root.
  snoc_case (stack c) s σ0 Hs; [by rewrite Hs in Hσ|eauto].
Qed.

Lemma static_oracle_choice se c :
  reachable se c →
  static_oracle c (get_gold_config se)
  = Ok (Some [static_choice c (get_gold_config se)]).
Proof.
  intros Hr. destruct (reachable_stack_snoc _ _ Hr) as (σ&s&Hs).
  unfold static_choice. destruct (buffer c) as [|b β] eqn:Hb.
  - rewrite static_oracle_empty_buffer, Hs by done.
    rewrite decide_False; [done|]. by intros [_ [=]]%app_nil.
  - destruct (reachable_gold_keys _ _ _ _ _ _ Hr Hs Hb) as [[hb Hhb] Hhs].
    erewrite static_oracle_decision by done. by rewrite Hs, py_top_snoc, Hhb.
Qed.

(** ** The theorems of the static oracle *)

(** C9: On every configuration reachable while parsing a sentence,
    with the gold tree built from that sentence, [static_oracle] raises
    nothing and returns the one-element list holding the transition that
    the rules of the specification name, in their priority order: REDUCE
    on an empty buffer; LEFT when the buffer front is the gold head of
    the stack top; RIGHT when the stack top is the gold head of the
    buffer front; REDUCE when the gold head of the buffer front, or one
    of its gold dependents, is below the stack top; SHIFT otherwise. *)
Theorem static_oracle_reachable se c :
  reachable se c →
  static_oracle c (get_gold_config se)
  = Ok (Some [static_choice c (get_gold_config se)]).
Proof. apply static_oracle_choice. Qed.

Lemma static_oracle_reachable_witness :
  reachable example_sentence (get_initial_config example_sentence) ∧
  static_oracle (get_initial_config example_sentence)
                (get_gold_config example_sentence)
  = Ok (Some [static_choice (get_initial_config example_sentence)
                            (get_gold_config example_sentence)]).
Proof.
  split; [apply reachable_initial|].
  apply (static_oracle_reachable example_sentence), reachable_initial.
Defined.

(** The end-to-end scenario of the specification.  On the
    sentence with gold heads 1, ROOT, 1 the oracle loop takes SHIFT,
    LEFT, RIGHT, RIGHT, REDUCE, REDUCE and stops in the finished
    configuration whose arcs are (1,0), (ROOT,1), (1,2): exactly the
    arcs of the gold tree. *)
Theorem static_oracle_example :
  run_static_oracle 6 (get_gold_config example_sentence)
                    (get_initial_config example_sentence)
  = Some ([SHIFT; LEFT; RIGHT; RIGHT; REDUCE; REDUCE], example_final) ∧
  list_to_set (arcs example_final) = Gold.arcs (get_gold_config example_sentence).
Proof. split; vm_compute; reflexivity. Qed.

(** C39: On a finished configuration the oracle still names a
    transition: REDUCE, which would pop ROOT and is not legal there. *)
Theorem static_oracle_at_finished se c :
  reachable se c → is_finished c = true →
  static_oracle c (get_gold_config se) = Ok (Some [REDUCE]) ∧
  get_legal_transitions c = [].
Proof.
  intros Hr Hfin. pose proof (finished_stack _ _ Hr Hfin) as Hst.
  apply is_finished_spec in Hfin as [Hb _]. split.
  - by rewrite static_oracle_empty_buffer, Hst.
  - rewrite get_legal_transitions_spec.
    unfold left_ok, right_ok, shift_ok, reduce_ok.
    rewrite Hst, Hb. change [ROOT] with ([] ++ [ROOT]). rewrite py_top_snoc.
    destruct (has_head (arcs c) ROOT) eqn:Hh; [|done].
    apply has_head_true in Hh as [h Hh].
    by eapply wf_no_head_root in Hh; [|by apply reachable_wf_at].
Qed.

Lemma static_oracle_at_finished_witness :
  reachable example_sentence example_final ∧
  is_finished example_final = true ∧
  static_oracle example_final (get_gold_config example_sentence)
  = Ok (Some [REDUCE]) ∧
  get_legal_transitions example_final = [].
Proof.
  split_and!; [apply example_reachable|done|..];
    apply (static_oracle_at_finished example_sentence example_final
             example_reachable eq_refl).
Defined.
