(* ===== verification/OracleCorrect.v ===== *)
(** * Correctness of the static oracle

    The first testable property of the specification: on a sentence
    whose annotation is a projective tree, following [static_oracle]
    (src/arc_eager.py, lines 190-210) from the initial configuration
    takes only legal transitions and ends in the finished configuration
    whose arcs are exactly the gold arcs.

    The proof is an invariant of the configurations the oracle leads
    to, [oracle_inv]: the arcs built are gold arcs; every gold arc
    between two tokens already moved out of the buffer is built; a token
    on the stack was attached from its left; a token removed from the
    stack has no dependent left in the buffer.  Each rule of the oracle
    preserves it, by the absence of crossing arcs and of cycles. *)

From stdpp Require Import base tactics option list numbers gmap strings sorting.
From S2P Require Import Prelude Config Transitions Machine.
From S2P Require Import Projectivity Tree StaticOracle.

#[local] Open Scope Z_scope.

(** ** Stacks of well-formed configurations *)

Section stacks.
Context (n k : Z) (c : Configuration) (Hwf : wf_at n k c).
Implicit Types (σ : list Z) (s d : Z).

Lemma wf_stack_mem d : d ∈ stack c → d = ROOT ∨ 0 ≤ d < k.
Proof.
  destruct (wf_stack _ _ _ Hwf) as (σ&->&_&Hr).
  intros [->|Hd]%elem_of_cons; [by left|right].
  by eapply Forall_forall in Hr.
Qed.

Lemma wf_stack_sorted : StronglySorted Z.lt (stack c).
Proof.
  destruct (wf_stack _ _ _ Hwf) as (σ&->&Hs&Hr). constructor; [done|].
  eapply Forall_impl; [done|]. root_lia.
Qed.

Lemma wf_stack_below σ s d : stack c = σ ++ [s] → d ∈ σ → d < s.
Proof.
  intros Hs Hd. pose proof wf_stack_sorted as Hsort. rewrite Hs in Hsort.
  eapply (StronglySorted_app_1_elem_of Z.lt); [done..|set_solver].
Qed.

Lemma wf_stack_not_below σ s : stack c = σ ++ [s] → s ∉ σ.
Proof. intros Hs Hd. pose proof (wf_stack_below _ _ _ Hs Hd). lia. Qed.

Lemma wf_stack_top_root σ : stack c = σ ++ [ROOT] → σ = [].
Proof.
  intros Hs. destruct σ as [|d σ]; [done|].
  assert (d ∈ stack c) as Hd by (rewrite Hs; set_solver).
  assert (d < ROOT) by (eapply wf_stack_below; [done|set_solver]).
  apply wf_stack_mem in Hd. root_lia.
Qed.

Lemma wf_stack_top σ s : stack c = σ ++ [s] → s = ROOT ∨ 0 ≤ s < k.
Proof. intros Hs. apply wf_stack_mem. rewrite Hs. set_solver. Qed.

Lemma wf_arc_dep h d : (h, d) ∈ arcs c → 0 ≤ d < k.
Proof.
  intros Ha. pose proof (wf_arcs _ _ _ Hwf) as Hall.
  eapply Forall_forall in Hall; [|done]. simpl in Hall. lia.
Qed.

Lemma wf_has_head d :
  0 ≤ d < k → d ∉ stack c → ∃ h, (h, d) ∈ arcs c.
Proof.
  intros Hd Hn. destruct (wf_attached _ _ _ Hwf d Hd) as [?|Hh]; [done|].
  by apply has_head_true.
Qed.

End stacks.

(** ** The invariant *)

Section oracle.
Context (se : list Token).
#[local] Abbreviation g := (get_gold_config se).
#[local] Abbreviation n := (Z.of_nat (length se)).
Implicit Types (c : Configuration) (a : list (Z * Z)) (σ β : list Z)
  (k s b d h i : Z).

Record oracle_inv (k : Z) (c : Configuration) : Prop := {
  oi_wf : wf_at n k c;
  oi_sound : ∀ h d, (h, d) ∈ arcs c → head_of g !! d = Some h;
  oi_complete : ∀ h d,
    head_of g !! d = Some h → d < k → h < k → (h, d) ∈ arcs c;
  oi_left : ∀ h d, (h, d) ∈ arcs c → d ∈ stack c → h < d;
  oi_removed : ∀ i d,
    0 ≤ i < k → i ∉ stack c → head_of g !! d = Some i → d < k
}.

Lemma gold_key_range d h : head_of g !! d = Some h → 0 ≤ d < n.
Proof. intros Hd. by apply get_gold_config_dom. Qed.

Lemma oracle_inv_initial : oracle_inv 0 (get_initial_config se).
Proof.
  split; simpl.
  - apply wf_initial.
  - by intros h d ?%elem_of_nil.
  - intros h d Hd%gold_key_range. lia.
  - by intros h d ?%elem_of_nil.
  - lia.
Qed.

(** A token below [k] that is not on the stack has its gold head among
    the arcs. *)
Lemma oi_attached k c d :
  oracle_inv k c → 0 ≤ d < k → d ∉ stack c →
  ∃ h, head_of g !! d = Some h ∧ (h, d) ∈ arcs c.
Proof.
  intros Hinv Hd Hn. destruct (wf_has_head _ _ _ (oi_wf _ _ Hinv) d Hd Hn) as [h Hh].
  exists h. split; [by eapply oi_sound|done].
Qed.

(** A gold dependent of the buffer front that is below [k] and not
    attached is on the stack. *)
Lemma oi_dependent_on_stack k c d :
  oracle_inv k c → head_of g !! d = Some k → d < k →
  (k, d) ∈ arcs c ∨ d ∈ stack c.
Proof.
  intros Hinv Hd Hlt. destruct (decide (d ∈ stack c)); [by right|left].
  apply gold_key_range in Hd as Hr.
  destruct (oi_attached k c d) as (h&Hh&?); [done|lia|done|]. congruence.
Qed.

(** ** The rules of the oracle

    Which rule of [static_oracle] applies in a configuration, with what
    it has tested; the two REDUCE rules with a non-empty buffer are one
    case: the stack top is strictly inside a gold arc that ends at the
    buffer front. *)
Inductive oracle_case (c : Configuration) : Transition → Prop :=
| oc_end σ s :
    stack c = σ ++ [s] → buffer c = [] → s ≠ ROOT → oracle_case c Reduce
| oc_left σ s b β :
    stack c = σ ++ [s] → buffer c = b :: β →
    s ≠ ROOT → head_of g !! s = Some b → oracle_case c Left_arc
| oc_right σ s b β :
    stack c = σ ++ [s] → buffer c = b :: β →
    ¬ (s ≠ ROOT ∧ head_of g !! s = Some b) → head_of g !! b = Some s →
    oracle_case c Right_arc
| oc_covered σ s b β x y :
    stack c = σ ++ [s] → buffer c = b :: β →
    head_of g !! y = Some x → Z.min x y < s → Z.max x y = b →
    head_of g !! s ≠ Some b → head_of g !! b ≠ Some s →
    oracle_case c Reduce
| oc_shift σ s b β hb :
    stack c = σ ++ [s] → buffer c = b :: β →
    ¬ (s ≠ ROOT ∧ head_of g !! s = Some b) →
    head_of g !! b = Some hb → hb ≠ s → ¬ hb < s →
    (∀ d, head_of g !! d = Some b → ¬ d < s) →
    oracle_case c Shift.

Lemma static_choice_case k c :
  wf_at n k c → is_finished c = false →
  ∃ t, static_choice c g = code t ∧ oracle_case c t.
Proof.
  intros Hwf Hfin. unfold static_choice.
  snoc_case (stack c) s σ Hst.
  { destruct (wf_stack _ _ _ Hwf) as (?&?&_). congruence. }
  rewrite Hst, py_top_snoc. destruct (buffer c) as [|b β] eqn:Hbf.
  - exists Reduce. split; [done|]. eapply oc_end; [done..|]. intros ->.
    rewrite (wf_stack_top_root _ _ _ Hwf σ Hst) in Hst.
    apply not_true_iff_false in Hfin. apply Hfin, is_finished_spec. eauto.
  - destruct (wf_buffer_cons _ _ _ _ _ Hwf Hbf) as (->&_&Hkn).
    pose proof (wf_k _ _ _ Hwf) as Hk.
    pose proof (wf_stack_top _ _ _ Hwf σ s Hst) as Hsr.
    assert (is_Some (head_of g !! k)) as [hb Hb] by (apply get_gold_config_dom; lia).
    rewrite Hb. unfold static_decision. simpl.
    case_bool_decide as Hl;
      [exists Left_arc; split; [done|]; destruct Hl; by eapply oc_left|].
    case_bool_decide as Hr;
      [subst hb; exists Right_arc; split; [done|]; by eapply oc_right|].
    assert (head_of g !! s ≠ Some k) as Hsk.
    { intros Hs. apply Hl. split; [|done]. apply gold_key_range in Hs. root_lia. }
    assert (head_of g !! k ≠ Some s) as Hks by congruence.
    case_bool_decide as Hlt;
      [exists Reduce; split; [done|];
       eapply (oc_covered _ _ _ _ _ hb k); eauto; root_lia|].
    case_bool_decide as Hex.
    + apply Exists_exists in Hex as (e&He&Hes).
      apply (gc_deps _ (get_gold_config_consistent se)) in He.
      apply gold_key_range in He as Her.
      exists Reduce. split; [done|].
      eapply (oc_covered _ _ _ _ _ k e); eauto; root_lia.
    + exists Shift. split; [done|]. eapply oc_shift; eauto.
      intros d Hd Hds. apply Hex, Exists_exists. exists d. split; [|done].
      by apply (gc_deps _ (get_gold_config_consistent se)).
Qed.

(** ** Each rule of the oracle preserves the invariant *)

Section rules.
Context (Htree : tree g) (Hproj : projective g).

(** LEFT: the buffer front is the gold head of the stack top. *)
Lemma inv_left k a σ s b β se' :
  oracle_inv k (mkConfiguration a (σ ++ [s]) (b :: β) se') →
  s ≠ ROOT → head_of g !! s = Some b →
  (∀ h, (h, s) ∉ a) ∧
  oracle_inv k (mkConfiguration (a ++ [(b, s)]) σ (b :: β) se').
Proof.
  intros Hinv Hroot Hs. pose proof (oi_wf _ _ Hinv) as Hwf.
  destruct (wf_buffer_cons _ _ _ _ _ Hwf eq_refl) as (->&_&Hkn).
  destruct (wf_stack_top _ _ _ Hwf σ s eq_refl) as [?|Hsk]; [done|].
  assert (∀ h, (h, s) ∉ a) as Hleg.
  { intros h Ha. pose proof (oi_sound _ _ Hinv h s Ha) as Hh.
    pose proof (oi_left _ _ Hinv h s Ha) as Hlt. simpl in *.
    assert (h < s) by (apply Hlt; set_solver). simplify_eq. lia. }
  split; [done|]. split; simpl.
  - by apply wf_step_left.
  - intros h d [Ha|[= -> ->]%list_elem_of_singleton]%elem_of_app; [|done].
    by apply (oi_sound _ _ Hinv).
  - intros h d Hd ??. apply elem_of_app. left. by apply (oi_complete _ _ Hinv).
  - intros h d [Ha|[= -> ->]%list_elem_of_singleton]%elem_of_app Hin.
    + apply (oi_left _ _ Hinv h d Ha). simpl. set_solver.
    + by apply (wf_stack_not_below _ _ _ Hwf σ s) in Hin.
  - intros i d Hi Hn Hd. destruct (decide (i = s)) as [->|Hne].
    + apply gold_key_range in Hd as Hr.
      destruct (decide (d < k)) as [|Hge]; [done|]. exfalso.
      destruct (decide (d = k)) as [->|]; [by eapply tree_no_2cycle|].
      apply (no_arc_back g Htree Hproj s d k); [done..|lia].
    + apply (oi_removed _ _ Hinv i d); [done| |done]. simpl. set_solver.
Qed.

(** REDUCE: the stack top is a token whose gold head is below [k] and
    whose gold dependents are all below [k]. *)
Lemma inv_reduce k a σ s β se' :
  oracle_inv k (mkConfiguration a (σ ++ [s]) β se') →
  s ≠ ROOT →
  (∀ hs, head_of g !! s = Some hs → hs < k) →
  (∀ d, head_of g !! d = Some s → d < k) →
  (∃ h, (h, s) ∈ a) ∧ oracle_inv k (mkConfiguration a σ β se').
Proof.
  intros Hinv Hroot Hhead Hdeps. pose proof (oi_wf _ _ Hinv) as Hwf.
  destruct (wf_stack_top _ _ _ Hwf σ s eq_refl) as [?|Hsk]; [done|].
  pose proof (wf_k _ _ _ Hwf).
  assert (is_Some (head_of g !! s)) as [hs Hhs] by (apply get_gold_config_dom; lia).
  assert ((hs, s) ∈ a) as Ha by (apply (oi_complete _ _ Hinv); [done|lia|eauto]).
  split; [eauto|]. split; simpl.
  - by eapply wf_step_reduce.
  - apply (oi_sound _ _ Hinv).
  - apply (oi_complete _ _ Hinv).
  - intros h d Hd Hin. apply (oi_left _ _ Hinv h d Hd). simpl. set_solver.
  - intros i d Hi Hn Hd. destruct (decide (i = s)) as [->|Hne]; [eauto|].
    apply (oi_removed _ _ Hinv i d); [done| |done]. simpl. set_solver.
Qed.

(** RIGHT: the stack top is the gold head of the buffer front. *)
Lemma inv_right k a σ s b β se' :
  oracle_inv k (mkConfiguration a (σ ++ [s]) (b :: β) se') →
  ¬ (s ≠ ROOT ∧ head_of g !! s = Some b) → head_of g !! b = Some s →
  (b ≠ ROOT ∧ ∀ h, (h, b) ∉ a) ∧
  oracle_inv (k + 1) (mkConfiguration (a ++ [(s, b)]) (σ ++ [s; b]) β se').
Proof.
  intros Hinv Hnl Hb. pose proof (oi_wf _ _ Hinv) as Hwf.
  destruct (wf_buffer_cons _ _ _ _ _ Hwf eq_refl) as (->&_&Hkn).
  pose proof (wf_k _ _ _ Hwf) as Hk.
  pose proof (wf_stack_top _ _ _ Hwf σ s eq_refl) as Hsk.
  assert (∀ h, (h, k) ∉ a) as Hleg.
  { intros h Ha%(wf_arc_dep _ _ _ Hwf). lia. }
  split; [split; [root_lia|done]|]. split; simpl.
  - by apply wf_step_right.
  - intros h d [Ha|[= -> ->]%list_elem_of_singleton]%elem_of_app; [|done].
    by apply (oi_sound _ _ Hinv).
  - intros h d Hd Hdk Hhk. apply elem_of_app.
    destruct (decide (d = k)) as [->|]; [right; simplify_eq; set_solver|left].
    destruct (decide (h = k)) as [->|]; [|apply (oi_complete _ _ Hinv); [done|lia..]].
    destruct (oi_dependent_on_stack k _ d Hinv) as [?|Hin]; [done|lia|done|].
    exfalso. simpl in Hin. apply elem_of_app in Hin as [Hin| ->%list_elem_of_singleton].
    + apply (wf_stack_below _ _ _ Hwf σ s) in Hin; [|done].
      apply gold_key_range in Hd as Hr.
      apply (no_arc_back g Htree Hproj k d s); [done..|root_lia].
    + apply Hnl. split; [|done]. apply gold_key_range in Hd. root_lia.
  - intros h d [Ha|[= -> ->]%list_elem_of_singleton]%elem_of_app Hin.
    + apply (oi_left _ _ Hinv h d Ha). simpl.
      apply (wf_arc_dep _ _ _ Hwf) in Ha. set_solver by lia.
    + root_lia.
  - intros i d Hi Hn Hd. destruct (decide (i = k)) as [->|]; [set_solver|].
    assert (d < k); [|lia]. apply (oi_removed _ _ Hinv i d); [lia| |done].
    simpl. set_solver.
Qed.

(** SHIFT: the gold head of the buffer front is neither the stack top
    nor below it, and no gold dependent of the buffer front is on the
    stack.  Then the gold head of the buffer front is still in the
    buffer. *)
Lemma inv_shift k a σ s b β se' hb :
  oracle_inv k (mkConfiguration a (σ ++ [s]) (b :: β) se') →
  ¬ (s ≠ ROOT ∧ head_of g !! s = Some b) →
  head_of g !! b = Some hb → hb ≠ s → ¬ hb < s →
  (∀ d, head_of g !! d = Some b → ¬ d < s) →
  b < hb ∧
  oracle_inv (k + 1) (mkConfiguration a ((σ ++ [s]) ++ [b]) β se').
Proof.
  intros Hinv Hnl Hb Hne Hge Hdeps. pose proof (oi_wf _ _ Hinv) as Hwf.
  destruct (wf_buffer_cons _ _ _ _ _ Hwf eq_refl) as (->&_&Hkn).
  pose proof (wf_k _ _ _ Hwf) as Hk.
  pose proof (wf_stack_top _ _ _ Hwf σ s eq_refl) as Hsk.
  assert (k < hb) as Hlt.
  { destruct (decide (hb = k)) as [->|]; [by apply tree_no_loop in Hb|].
    destruct (decide (k < hb)) as [|Hle]; [done|]. exfalso.
    assert (k < k); [|lia]. apply (oi_removed _ _ Hinv hb k); [root_lia| |done].
    simpl. intros [Hin%(wf_stack_below _ _ _ Hwf σ s)| ->%list_elem_of_singleton]%elem_of_app;
      [lia|done|done]. }
  split; [done|]. split; simpl.
  - by apply wf_step_shift.
  - apply (oi_sound _ _ Hinv).
  - intros h d Hd Hdk Hhk.
    destruct (decide (d = k)) as [->|]; [simplify_eq; lia|].
    destruct (decide (h = k)) as [->|]; [|apply (oi_complete _ _ Hinv); [done|lia..]].
    destruct (oi_dependent_on_stack k _ d Hinv) as [?|Hin]; [done|lia|done|].
    exfalso. simpl in Hin. apply elem_of_app in Hin as [Hin| ->%list_elem_of_singleton].
    + apply (wf_stack_below _ _ _ Hwf σ s) in Hin; [|done]. by apply (Hdeps d).
    + apply Hnl. split; [|done]. apply gold_key_range in Hd. root_lia.
  - intros h d Ha Hin. apply (oi_left _ _ Hinv h d Ha). simpl.
    apply (wf_arc_dep _ _ _ Hwf) in Ha. set_solver by lia.
  - intros i d Hi Hn Hd. destruct (decide (i = k)) as [->|]; [set_solver|].
    assert (d < k); [|lia]. apply (oi_removed _ _ Hinv i d); [lia| |done].
    simpl. set_solver.
Qed.

(** A stack top strictly inside a gold arc that ends at the buffer
    front, and neither its head nor its dependent, is a token whose gold
    head and gold dependents are all below [k]. *)
Lemma covered_bounds k c σ s b β x y :
  wf_at n k c → stack c = σ ++ [s] → buffer c = b :: β →
  head_of g !! y = Some x → Z.min x y < s → Z.max x y = b →
  head_of g !! s ≠ Some b → head_of g !! b ≠ Some s →
  s ≠ ROOT ∧
  (∀ hs, head_of g !! s = Some hs → hs < k) ∧
  (∀ d, head_of g !! d = Some s → d < k).
Proof.
  intros Hwf Hst Hbf Hy Hmin Hmax Hsb Hbs.
  destruct (wf_buffer_cons _ _ _ _ _ Hwf Hbf) as (->&_&Hkn).
  pose proof (wf_stack_top _ _ _ Hwf σ s Hst) as Hsk.
  destruct (tree_head_rooted g Htree _ _ Hy) as [_ Hx].
  apply gold_key_range in Hy as Hyr. split_and!; [root_lia|..].
  - intros hs Hs. destruct (decide (hs = k)) as [->|]; [done|].
    pose proof (Hproj _ _ _ _ Hy Hs) as Hc. unfold crosses in Hc. root_lia.
  - intros d Hd. destruct (decide (d = k)) as [->|]; [done|].
    pose proof (Hproj _ _ _ _ Hy Hd) as Hc. unfold crosses in Hc. root_lia.
Qed.

Lemma inv_reduce_covered k a σ s b β se' x y :
  oracle_inv k (mkConfiguration a (σ ++ [s]) (b :: β) se') →
  head_of g !! y = Some x → Z.min x y < s → Z.max x y = b →
  head_of g !! s ≠ Some b → head_of g !! b ≠ Some s →
  (∃ h, (h, s) ∈ a) ∧ oracle_inv k (mkConfiguration a σ (b :: β) se').
Proof.
  intros Hinv Hy Hmin Hmax Hsb Hbs.
  destruct (covered_bounds k _ σ s b β x y (oi_wf _ _ Hinv)) as (?&?&?);
    [done..|].
  by apply inv_reduce.
Qed.

(** REDUCE on an empty buffer, the stack top being a token. *)
Lemma inv_reduce_end k a σ s se' :
  oracle_inv k (mkConfiguration a (σ ++ [s]) [] se') → s ≠ ROOT →
  (∃ h, (h, s) ∈ a) ∧ oracle_inv k (mkConfiguration a σ [] se').
Proof.
  intros Hinv Hroot. pose proof (oi_wf _ _ Hinv) as Hwf.
  pose proof (wf_k _ _ _ Hwf) as Hk.
  pose proof (wf_buffer _ _ _ Hwf) as Hb. simpl in Hb. symmetry in Hb.
  apply seqZ_nil_inv in Hb.
  apply inv_reduce; [done..| |].
  - intros hs [->|Hs%get_gold_config_dom]%(tree_head_range g Htree); root_lia.
  - intros d Hd%gold_key_range. lia.
Qed.

(** ** One iteration of the oracle loop *)

Lemma oracle_case_step k c t :
  oracle_inv k c → oracle_case c t →
  ∃ c', step t c c' ∧ oracle_inv (if consumes t then k + 1 else k) c'.
Proof.
  intros Hinv Hcase. destruct c as [a st bf se'].
  destruct Hcase as [σ s ?? Hroot|σ s b β ?? Hroot Hs|σ s b β ?? Hl Hb
                    |σ s b β x y ?? Hy ????|σ s b β hb ?? Hl Hb ???];
    simplify_eq/=.
  - destruct (inv_reduce_end _ _ _ _ _ Hinv Hroot) as [[h Hh] Hinv'].
    eexists. split; [by econstructor|done].
  - destruct (inv_left _ _ _ _ _ _ _ Hinv Hroot Hs) as [Hleg Hinv'].
    eexists. split; [by constructor|done].
  - destruct (inv_right _ _ _ _ _ _ _ Hinv Hl Hb) as [[??] Hinv'].
    eexists. split; [by constructor|done].
  - destruct (inv_reduce_covered _ _ _ _ _ _ _ x y Hinv) as [[h Hh] Hinv'];
      [done..|].
    eexists. split; [by econstructor|done].
  - destruct (inv_shift _ _ _ _ _ _ _ hb Hinv) as [_ Hinv']; [done..|].
    eexists. split; [by constructor|done].
Qed.

Lemma oracle_inv_step k c :
  oracle_inv k c → is_finished c = false →
  ∃ t c', static_choice c g = code t ∧ step t c c' ∧
          oracle_inv (if consumes t then k + 1 else k) c'.
Proof.
  intros Hinv Hfin.
  destruct (static_choice_case k c (oi_wf _ _ Hinv) Hfin) as (t&Ht&Hcase).
  destruct (oracle_case_step k c t Hinv Hcase) as (c'&?&?). eauto.
Qed.

(** ** The run of the oracle *)

(** The configurations of the loop that follows the oracle: while the
    configuration is not finished, ask [static_oracle] and take the
    transition it names. *)
Inductive oracle_path : Configuration → Prop :=
| op_initial : oracle_path (get_initial_config se)
| op_step c z c' :
    oracle_path c → is_finished c = false →
    static_oracle c g = Ok (Some [z]) →
    take_transition the_funcs z c = (Ok (), c') →
    oracle_path c'.

Lemma step_not_finished k c t c' :
  wf_at n k c → step t c c' → is_finished c = false.
Proof.
  intros Hwf Hstep. apply not_true_iff_false.
  intros [Hb [r Hr]]%is_finished_spec.
  destruct (wf_stack _ _ _ Hwf) as (σ&Hσ&_).
  destruct Hstep; simplify_eq/=; try by destruct σ.
  destruct σ0 as [|? [|??]]; simplify_eq/=. by eapply wf_no_head_root.
Qed.

Lemma wf_measure_finished k c :
  wf_at n k c → (measure c ≤ 1)%nat → is_finished c = true.
Proof.
  intros (σ&Hσ&_)%wf_stack Hm. apply is_finished_spec. revert Hm.
  unfold measure. rewrite Hσ. destruct (buffer c), σ; simpl; [eauto|lia..].
Qed.

Lemma oracle_path_inv_reachable c :
  oracle_path c → reachable se c ∧ ∃ k, oracle_inv k c.
Proof.
  induction 1 as [|c z c' _ [Hr [k Hinv]] Hfin Ho Htake].
  { split; [apply reachable_initial|exists 0; apply oracle_inv_initial]. }
  destruct (oracle_inv_step k c Hinv Hfin) as (t&c''&Ht&Hstep&Hinv').
  rewrite (static_oracle_choice se), Ht in Ho by done. simplify_eq.
  destruct (step_sound _ _ _ Hstep) as [_ Htake'].
  assert (c'' = c') as -> by congruence.
  split; [by eapply reachable_step|eauto].
Qed.

Lemma oracle_path_reachable c : oracle_path c → reachable se c.
Proof. by intros [? _]%oracle_path_inv_reachable. Qed.

Lemma oracle_path_inv c : oracle_path c → ∃ k, oracle_inv k c.
Proof. by intros [_ ?]%oracle_path_inv_reachable. Qed.

Lemma oracle_path_next c t c' :
  oracle_path c → is_finished c = false →
  static_choice c g = code t → step t c c' → oracle_path c'.
Proof.
  intros Hp Hfin Ht [_ Htake]%step_sound. eapply op_step; [done..| |done].
  by rewrite (static_oracle_choice se), Ht by by apply oracle_path_reachable.
Qed.

(** At the end, the arcs are the gold arcs. *)
Lemma oracle_inv_finished k c :
  oracle_inv k c → is_finished c = true →
  list_to_set (arcs c) =@{gset (Z * Z)} Gold.arcs g.
Proof.
  intros Hinv [Hb _]%is_finished_spec. pose proof (oi_wf _ _ Hinv) as Hwf.
  pose proof (wf_k _ _ _ Hwf) as Hk.
  pose proof (wf_buffer _ _ _ Hwf) as Hbuf. rewrite Hb in Hbuf.
  symmetry in Hbuf. apply seqZ_nil_inv in Hbuf.
  apply set_eq. intros [h d].
  rewrite elem_of_list_to_set, (gc_arcs _ (get_gold_config_consistent se)).
  split; [apply (oi_sound _ _ Hinv)|]. intros Hd.
  apply (oi_complete _ _ Hinv); [done|apply gold_key_range in Hd; lia|].
  destruct (tree_head_range g Htree _ _ Hd) as [->|Hh%get_gold_config_dom];
    root_lia.
Qed.

(** One iteration of the loop that follows the oracle. *)
Lemma oracle_step_run c t c' :
  reachable se c → static_choice c g = code t → step t c c' →
  oracle_step g c = (Ok (Some (code t)), c').
Proof.
  intros Hr Ht [_ Htake]%step_sound. unfold oracle_step.
  by rewrite (static_oracle_choice se), Ht, Htake.
Qed.

Lemma run_static_oracle_inv fuel k c :
  oracle_inv k c → oracle_path c → (measure c ≤ S fuel)%nat →
  ∃ ts c', run_static_oracle fuel g c = Some (code <$> ts, c') ∧
           steps_fun ts c = Some c' ∧ oracle_path c' ∧ is_finished c' = true.
Proof.
  revert k c. induction fuel as [|fuel IH]; intros k c Hinv Hp Hm;
    destruct (is_finished c) eqn:Hfin.
  - exists [], c. simpl. by rewrite Hfin.
  - by rewrite (wf_measure_finished k c (oi_wf _ _ Hinv)) in Hfin.
  - exists [], c. simpl. by rewrite Hfin.
  - destruct (oracle_inv_step k c Hinv Hfin) as (t&c'&Ht&Hstep&Hinv').
    assert (oracle_path c') as Hp' by by eapply oracle_path_next.
    destruct (IH _ c' Hinv' Hp') as (ts&c''&Hrun&Hsteps&?&?).
    { apply step_measure in Hstep. lia. }
    exists (t :: ts), c''. simpl. rewrite Hfin.
    rewrite (oracle_step_run c t c') by eauto using oracle_path_reachable.
    rewrite Hrun. split_and!; [done| |done..].
    apply steps_fun_Some in Hsteps.
    apply (proj2 (steps_fun_Some (t :: ts) c c'')). by econstructor.
Qed.

End rules.

End oracle.

(** ** The theorems of the static oracle's run *)

(** The run of the static oracle on a projective tree. *)
Lemma static_oracle_run se :
  well_formed se → projective (get_gold_config se) →
  ∃ ts c,
    run_static_oracle (2 * length se) (get_gold_config se)
                      (get_initial_config se) = Some (code <$> ts, c) ∧
    steps_fun ts (get_initial_config se) = Some c ∧
    is_finished c = true ∧
    list_to_set (arcs c) =@{gset (Z * Z)} Gold.arcs (get_gold_config se).
Proof.
  intros Htree%well_formed_tree Hproj.
  destruct (run_static_oracle_inv se Htree Hproj (2 * length se) 0
              (get_initial_config se)) as (ts&c&Hrun&Hsteps&Hp&Hfin).
  { apply oracle_inv_initial. }
  { constructor. }
  { unfold measure. simpl. rewrite length_seqZ. lia. }
  destruct (oracle_path_inv se Htree Hproj c Hp) as [k Hinv].
  exists ts, c. split_and!; [done..|]. by eapply oracle_inv_finished.
Qed.

(** C2: Correctness of the static oracle.  On a sentence whose
    annotation is a tree (every token leads to ROOT) in which no two
    arcs cross, ROOT arcs included, the loop that asks [static_oracle]
    and takes the transition it names reaches a finished configuration
    within [2 * n] iterations; every transition it takes is legal, and
    the arcs of the final configuration are exactly the gold arcs. *)
Theorem static_oracle_correct se :
  well_formed se → projective (get_gold_config se) →
  ∃ ts c,
    run_static_oracle (2 * length se) (get_gold_config se)
                      (get_initial_config se) = Some (code <$> ts, c) ∧
    steps_fun ts (get_initial_config se) = Some c ∧
    is_finished c = true ∧
    list_to_set (arcs c) =@{gset (Z * Z)} Gold.arcs (get_gold_config se).
Proof. apply static_oracle_run. Qed.

Lemma example_well_formed : well_formed example_sentence.
Proof. by apply well_formedb_sound. Qed.

Lemma example_projective : projective (get_gold_config example_sentence).
Proof. by apply projectiveb_spec. Qed.

Lemma static_oracle_correct_witness :
  well_formed example_sentence ∧
  projective (get_gold_config example_sentence) ∧
  ∃ ts c,
    run_static_oracle (2 * length example_sentence)
      (get_gold_config example_sentence)
      (get_initial_config example_sentence) = Some (code <$> ts, c) ∧
    steps_fun ts (get_initial_config example_sentence) = Some c ∧
    is_finished c = true ∧
    list_to_set (arcs c)
    =@{gset (Z * Z)} Gold.arcs (get_gold_config example_sentence).
Proof.
  split; [apply example_well_formed|]. split; [apply example_projective|].
  apply (static_oracle_correct example_sentence example_well_formed
           example_projective).
Defined.

(** The static oracle never names an illegal transition on its own
    path.  At every configuration reached from the initial one by
    following the oracle on a projective tree, and not yet finished,
    [static_oracle] returns a one-element list whose transition is in
    [get_legal_transitions]. *)
Theorem static_oracle_legal se c :
  well_formed se → projective (get_gold_config se) →
  oracle_path se c → is_finished c = false →
  ∃ z, static_oracle c (get_gold_config se) = Ok (Some [z]) ∧
       z ∈ get_legal_transitions c.
Proof.
  intros Htree%well_formed_tree Hproj Hp Hfin.
  destruct (oracle_path_inv se Htree Hproj c Hp) as [k Hinv].
  destruct (oracle_inv_step se Htree Hproj k c Hinv Hfin) as (t&c'&Ht&Hstep&_).
  apply step_sound in Hstep as [Hl _]. exists (code t). split; [|done].
  rewrite (static_oracle_choice se) by by apply oracle_path_reachable.
  by rewrite Ht.
Qed.

Lemma static_oracle_legal_witness :
  well_formed example_sentence ∧
  projective (get_gold_config example_sentence) ∧
  oracle_path example_sentence (get_initial_config example_sentence) ∧
  is_finished (get_initial_config example_sentence) = false ∧
  ∃ z, static_oracle (get_initial_config example_sentence)
         (get_gold_config example_sentence) = Ok (Some [z]) ∧
       z ∈ get_legal_transitions (get_initial_config example_sentence).
Proof.
  split; [apply example_well_formed|]. split; [apply example_projective|].
  split; [constructor|]. split; [reflexivity|].
  apply (static_oracle_legal example_sentence _ example_well_formed
           example_projective (op_initial _) eq_refl).
Defined.
