(* ===== verification/Reach.v ===== *)
(** * The arcs a configuration can still build

    An arc (h, d) that is not built can still be built when [d] has no
    head and the two tokens are placed so that a later RIGHT or LEFT can
    join them: [h] on the stack and [d] in the buffer; [h] in the buffer
    and [d], a token, on the stack; or both in the buffer.  This file
    shows that this is exact for the engine of src/arc_eager.py: in a
    well-formed configuration the arc is reachable in this sense exactly
    when some run of legal transitions builds it. *)

From stdpp Require Import base tactics option list numbers gmap strings sorting.
From S2P Require Import Prelude Config Transitions Machine OracleCorrect.

#[local] Open Scope Z_scope.

Definition arc_reachable (c : Configuration) (h d : Z) : Prop :=
  (h, d) ∈ arcs c ∨
  ((∀ h', (h', d) ∉ arcs c) ∧
   ((h ∈ stack c ∧ d ∈ buffer c) ∨
    (h ∈ buffer c ∧ d ∈ stack c ∧ d ≠ ROOT) ∨
    (h ∈ buffer c ∧ d ∈ buffer c ∧ h ≠ d))).

(** [leads c c']: some run of the machine goes from [c] to [c']. *)
Definition leads (c c' : Configuration) : Prop := ∃ ts, steps ts c c'.

#[export] Instance leads_refl : Reflexive leads.
Proof. intros c. exists []. constructor. Qed.

#[export] Instance leads_trans : Transitive leads.
Proof. intros c1 c2 c3 [ts1 H1] [ts2 H2]. eexists. by eapply steps_app. Qed.

Lemma leads_step t c c' : step t c c' → leads c c'.
Proof. intros Hs. exists [t]. by repeat econstructor. Qed.

Lemma leads_wf n k c c' : leads c c' → wf_at n k c → ∃ k', wf_at n k' c'.
Proof. intros [ts Hs] Hwf. eexists. by eapply wf_steps. Qed.

(** ** Clearing the way *)

Section runs.
Context (se : list Token).
Implicit Types (a : list (Z * Z)) (σ τ π β : list Z) (b h d x : Z).

(** The stack elements above a position are removed, each by REDUCE if
    it has a head and by LEFT otherwise. *)
Lemma pop_above bf τ a σ :
  bf ≠ [] → Forall (λ x, x ≠ ROOT) τ →
  ∃ a', leads (mkConfiguration a (σ ++ τ) bf se)
              (mkConfiguration (a ++ a') σ bf se) ∧
        Forall (λ p, p.2 ∈ τ) a'.
Proof.
  destruct bf as [|b β]; [done|]. intros _.
  revert a. induction τ as [|x τ IH] using rev_ind; intros a Hτ.
  { exists []. by rewrite !app_nil_r. }
  apply Forall_app in Hτ as [Hτ [Hx _]%Forall_cons]. rewrite app_assoc.
  destruct (has_head a x) eqn:Hh.
  - apply has_head_true in Hh as [hx Hhx].
    destruct (IH a Hτ) as (a'&Hrun&Ha'). exists a'. split.
    + etrans; [|done]. eapply leads_step. by econstructor.
    + eapply Forall_impl; [done|]. set_solver.
  - destruct (IH (a ++ [(b, x)]) Hτ) as (a'&Hrun&Ha').
    exists ((b, x) :: a'). rewrite (cons_middle _ a a'), app_assoc. split.
    + etrans; [|done]. eapply leads_step. constructor; [done|].
      by apply has_head_false.
    + constructor; [set_solver|]. eapply Forall_impl; [done|]. set_solver.
Qed.

(** The buffer elements before a position are removed, each by SHIFT
    followed by LEFT. *)
Lemma skip_front σ b β π a :
  NoDup π → Forall (λ x, x ≠ ROOT ∧ ∀ h, (h, x) ∉ a) π →
  ∃ a', leads (mkConfiguration a σ (π ++ b :: β) se)
              (mkConfiguration (a ++ a') σ (b :: β) se) ∧
        Forall (λ p, p.2 ∈ π) a'.
Proof.
  revert a. induction π as [|p π IH]; intros a Hnd Hπ.
  { exists []. by rewrite app_nil_r. }
  apply NoDup_cons in Hnd as [Hp Hnd].
  apply Forall_cons in Hπ as [[Hroot Hnh] Hπ].
  destruct (IH (a ++ [(default b (head π), p)]) Hnd) as (a'&Hrun&Ha').
  { apply Forall_forall. intros x Hin. rewrite Forall_forall in Hπ.
    destruct (Hπ x Hin) as [? Hx]. split; [done|].
    intros h [?|[= -> ->]%list_elem_of_singleton]%elem_of_app; [by eapply Hx|done]. }
  exists ((default b (head π), p) :: a').
  rewrite (cons_middle _ a a'), app_assoc. split.
  - etrans; [|done]. etrans; [eapply leads_step; apply step_shift|].
    eapply leads_step. destruct π; simpl; by constructor.
  - constructor; [set_solver|]. eapply Forall_impl; [done|]. set_solver.
Qed.

(** The buffer up to a position is shifted onto the stack. *)
Lemma shift_prefix π a σ x β :
  leads (mkConfiguration a σ (π ++ x :: β) se)
        (mkConfiguration a (σ ++ π ++ [x]) β se).
Proof.
  revert σ. induction π as [|p π IH]; intros σ; simpl.
  - eapply leads_step. constructor.
  - replace (σ ++ p :: π ++ [x]) with ((σ ++ [p]) ++ π ++ [x])
      by by rewrite <-app_assoc.
    etrans; [eapply leads_step; apply step_shift|apply IH].
Qed.

End runs.

(** ** Building a reachable arc *)

Section build.
Context (n : Z).
Implicit Types (c : Configuration) (se : list Token) (k : Z).

Lemma wf_buffer_mem k c x : wf_at n k c → x ∈ buffer c → k ≤ x < n.
Proof. intros Hwf. rewrite (wf_buffer _ _ _ Hwf), elem_of_seqZ. lia. Qed.

Lemma wf_buffer_NoDup k c : wf_at n k c → NoDup (buffer c).
Proof.
  intros Hwf. rewrite (wf_buffer _ _ _ Hwf).
  apply StronglySorted_lt_NoDup, StronglySorted_lt_seqZ.
Qed.

Lemma wf_disjoint k c x : wf_at n k c → x ∈ stack c → x ∈ buffer c → False.
Proof.
  intros Hwf Hs Hb%(wf_buffer_mem _ _ _ Hwf). pose proof (wf_k _ _ _ Hwf).
  apply (wf_stack_mem _ _ _ Hwf) in Hs. root_lia.
Qed.

(** Everything above [x] on the stack and before [y] in the buffer is
    removed; the arcs added attach the removed tokens. *)
Lemma clear_way k se a σ x τ π y β :
  wf_at n k (mkConfiguration a (σ ++ x :: τ) (π ++ y :: β) se) →
  ∃ a', leads (mkConfiguration a (σ ++ x :: τ) (π ++ y :: β) se)
              (mkConfiguration (a ++ a') (σ ++ [x]) (y :: β) se) ∧
        Forall (λ p, p.2 ∈ τ ++ π) a'.
Proof.
  intros Hwf. pose proof (wf_k _ _ _ Hwf) as Hk.
  pose proof (wf_stack_sorted _ _ _ Hwf) as Hsort.
  pose proof (wf_buffer_NoDup _ _ Hwf) as Hnd. simpl in Hsort, Hnd.
  rewrite (cons_middle x σ τ), app_assoc in Hsort |- *.
  destruct (pop_above se (π ++ y :: β) τ a (σ ++ [x])) as (a1&Hrun1&Ha1);
    [by destruct π| |].
  { apply Forall_forall. intros z Hz.
    assert (x < z) by (eapply (StronglySorted_app_1_elem_of Z.lt);
                       [done|set_solver|done]).
    destruct (wf_stack_mem _ _ _ Hwf x); [simpl; set_solver|..]; root_lia. }
  destruct (skip_front se (σ ++ [x]) y β π (a ++ a1)) as (a2&Hrun2&Ha2).
  { by apply NoDup_app in Hnd as [? _]. }
  { apply Forall_forall. intros z Hz.
    assert (k ≤ z < n) by (apply (wf_buffer_mem _ _ z Hwf); simpl; set_solver).
    split; [root_lia|]. intros h [Hin|Hin]%elem_of_app.
    - by eapply (wf_no_head_buffer _ _ _ z Hwf); [lia|].
    - eapply Forall_forall in Ha1; [|done]. simpl in Ha1.
      apply (wf_disjoint _ _ z Hwf); simpl; set_solver. }
  exists (a1 ++ a2). rewrite app_assoc. split; [by etrans|].
  apply Forall_app. split; (eapply Forall_impl; [done|]); set_solver.
Qed.

Lemma build_right k c h d :
  wf_at n k c → h ∈ stack c → d ∈ buffer c →
  ∃ c', leads c c' ∧ (h, d) ∈ arcs c'.
Proof.
  intros Hwf Hh Hd. destruct c as [a st bf se]. simpl in *.
  apply list_elem_of_split in Hh as (σ&τ&->), Hd as (π&β&->).
  destruct (clear_way k se a σ h τ π d β Hwf) as (a'&Hrun&Ha').
  eexists. split; [etrans; [done|]; eapply leads_step, step_right|set_solver].
  - pose proof (wf_buffer_mem _ _ d Hwf). simpl in *.
    assert (k ≤ d < n) by set_solver. pose proof (wf_k _ _ _ Hwf). root_lia.
  - intros h' [Hin|Hin]%elem_of_app.
    + assert (k ≤ d < n) by (apply (wf_buffer_mem _ _ d Hwf); simpl; set_solver).
      by eapply (wf_no_head_buffer _ _ _ d Hwf); [lia|].
    + eapply Forall_forall in Ha'; [|done]. simpl in Ha'.
      pose proof (wf_buffer_NoDup _ _ Hwf) as Hnd. simpl in Hnd.
      apply NoDup_app in Hnd as (_&Hnd&_).
      apply elem_of_app in Ha' as [?|?]; [|by apply (Hnd d); [|left]].
      apply (wf_disjoint _ _ d Hwf); simpl; set_solver.
Qed.

Lemma build_left k c h d :
  wf_at n k c → h ∈ buffer c → d ∈ stack c → d ≠ ROOT →
  (∀ h', (h', d) ∉ arcs c) →
  ∃ c', leads c c' ∧ (h, d) ∈ arcs c'.
Proof.
  intros Hwf Hh Hd Hroot Hp. destruct c as [a st bf se]. simpl in *.
  apply list_elem_of_split in Hh as (π&β&->), Hd as (σ&τ&->).
  destruct (clear_way k se a σ d τ π h β Hwf) as (a'&Hrun&Ha').
  eexists. split; [etrans; [done|]; eapply leads_step, step_left|set_solver];
    [done|].
  intros h' [Hin|Hin]%elem_of_app; [by eapply Hp|].
  eapply Forall_forall in Ha'; [|done]. simpl in Ha'.
  pose proof (wf_stack_sorted _ _ _ Hwf) as Hsort. simpl in Hsort.
  apply elem_of_app in Ha' as [Hτ|?].
  - rewrite (cons_middle d σ τ), app_assoc in Hsort.
    assert (d < d); [|lia].
    eapply (StronglySorted_app_1_elem_of Z.lt); [done|set_solver|done].
  - apply (wf_disjoint _ _ d Hwf); simpl; set_solver.
Qed.

Lemma build_buffer k c h d :
  wf_at n k c → h ∈ buffer c → d ∈ buffer c → h ≠ d →
  ∃ c', leads c c' ∧ (h, d) ∈ arcs c'.
Proof.
  intros Hwf Hh Hd Hne. destruct c as [a st bf se]. simpl in *.
  pose proof (wf_buffer_NoDup _ _ Hwf) as Hnd. simpl in Hnd.
  assert (∀ x y, x ∈ bf → y ∈ bf → x < y →
            ∃ π β, bf = π ++ x :: β ∧ y ∈ β) as Hsplit.
  { intros x y (π&β&->)%list_elem_of_split Hy Hlt. exists π, β. split; [done|].
    pose proof (wf_buffer _ _ _ Hwf) as Hsort. simpl in Hsort.
    pose proof (StronglySorted_lt_seqZ k (n - k)) as Hs. rewrite <-Hsort in Hs.
    apply elem_of_app in Hy as [Hy|[->|?]%elem_of_cons]; [|lia|done].
    assert (y < x); [|lia].
    eapply (StronglySorted_app_1_elem_of Z.lt); [done..|set_solver]. }
  assert (∀ h', (h', d) ∉ a) as Hp.
  { apply (wf_no_head_buffer _ _ _ d Hwf), (wf_buffer_mem _ _ d Hwf Hd). }
  assert (d ≠ ROOT) as Hroot.
  { pose proof (wf_buffer_mem _ _ d Hwf Hd). pose proof (wf_k _ _ _ Hwf). root_lia. }
  destruct (decide (h < d)) as [Hlt|Hge].
  - destruct (Hsplit h d) as (π&β&->&Hβ); [done..|].
    pose proof (shift_prefix se π a st h β) as Hrun.
    destruct (leads_wf n k _ _ Hrun Hwf) as [k' Hwf'].
    destruct (build_right k' _ h d Hwf') as (c'&?&?); simpl; [set_solver..|].
    exists c'. split; [by etrans|done].
  - destruct (Hsplit d h) as (π&β&->&Hβ); [done|done|lia|].
    pose proof (shift_prefix se π a st d β) as Hrun.
    destruct (leads_wf n k _ _ Hrun Hwf) as [k' Hwf'].
    destruct (build_left k' _ h d Hwf') as (c'&?&?); simpl; [set_solver..|].
    exists c'. split; [by etrans|done].
Qed.

(** A reachable arc can be built. *)
Lemma arc_buildable k c h d :
  wf_at n k c → arc_reachable c h d → ∃ c', leads c c' ∧ (h, d) ∈ arcs c'.
Proof.
  intros Hwf [?|[Hp [[??]|[(?&?&?)|(?&?&?)]]]].
  - by exists c.
  - by eapply build_right.
  - by eapply build_left.
  - by eapply build_buffer.
Qed.

(** The reachable arcs only shrink along a transition. *)
Lemma step_arc_reachable k t c c' h d :
  wf_at n k c → step t c c' → arc_reachable c' h d → arc_reachable c h d.
Proof.
  unfold arc_reachable. intros Hwf Hstep.
  pose proof (wf_buffer_NoDup _ _ Hwf) as Hnd.
  destruct Hstep as [a σ s b β se Hroot Hnh|a σ s b β se Hroot Hnh|a σ b β se
                    |a σ s β se hs Hhs]; simpl in *.
  - intros [[?|[= -> ->]%list_elem_of_singleton]%elem_of_app|[Hp Hpos]];
      [by left|right; split; [done|set_solver]|].
    right. split; [intros h' ?; apply (Hp h'); set_solver|set_solver].
  - apply NoDup_cons in Hnd as [Hb _].
    intros [[?|[= -> ->]%list_elem_of_singleton]%elem_of_app|[Hp Hpos]];
      [by left|right; split; [done|set_solver]|].
    right. split; [intros h' ?; apply (Hp h'); set_solver|].
    destruct (decide (d = b)) as [->|]; [destruct (Hp s); set_solver|].
    set_solver.
  - apply NoDup_cons in Hnd as [Hb _].
    assert (b ≠ ROOT).
    { pose proof (wf_buffer_mem _ _ b Hwf). pose proof (wf_k _ _ _ Hwf).
      simpl in *. assert (k ≤ b < n) by set_solver. root_lia. }
    intros [?|[Hp Hpos]]; [by left|right]. split; [done|set_solver].
  - intros [?|[Hp Hpos]]; [by left|right]. split; [done|set_solver].
Qed.

Lemma steps_arc_reachable k ts c c' h d :
  wf_at n k c → steps ts c c' → arc_reachable c' h d → arc_reachable c h d.
Proof.
  intros Hwf Hs. revert k Hwf. induction Hs as [|t ts c c1 c2 Hs _ IH];
    intros k Hwf Hr; [done|].
  eapply step_arc_reachable; [done..|]. eapply IH; [|done].
  by eapply wf_step.
Qed.

End build.

Lemma arc_reachable_runs se c h d :
  reachable se c →
  (arc_reachable c h d ↔
   ∃ ts c', steps_fun ts c = Some c' ∧ (h, d) ∈ arcs c').
Proof.
  intros Hwf%reachable_wf_at. split.
  - intros (c'&[ts Hs]&Ha)%(arc_buildable _ _ _ _ _ Hwf).
    exists ts, c'. by rewrite steps_fun_Some.
  - intros (ts&c'&Hs%steps_fun_Some&Ha).
    eapply steps_arc_reachable; [done..|by left].
Qed.

(** ** The theorem of reachable arcs *)

(** C21: Exactly the reachable arcs can be built.  In a reachable
    configuration, some run of legal transitions from it ends with the
    arc (h, d) exactly when the arc is already built, or [d] has no head
    and [h] is on the stack and [d] in the buffer, or [h] is in the
    buffer and [d] is a token on the stack, or both are in the buffer. *)
Theorem arc_reachable_iff se c h d :
  reachable se c →
  (arc_reachable c h d ↔
   ∃ ts c', steps_fun ts c = Some c' ∧ (h, d) ∈ arcs c').
Proof. apply arc_reachable_runs. Qed.

Lemma arc_reachable_iff_witness :
  reachable example_sentence (get_initial_config example_sentence) ∧
  (arc_reachable (get_initial_config example_sentence) 1 0 ↔
   ∃ ts c', steps_fun ts (get_initial_config example_sentence) = Some c' ∧
            (1, 0) ∈ arcs c').
Proof.
  split; [apply reachable_initial|].
  apply (arc_reachable_iff example_sentence), reachable_initial.
Defined.
