(* ===== verification/Planar.v ===== *)
(** * What the handlers can build, legal or not

    [take_transition] (src/arc_eager.py, lines 181-187) does not test
    that the transition is legal, and the loop of the script passes it
    whatever the oracle names.  This file follows the handlers without
    the legality test: [moves] is one call of a handler that returns,
    [take_all] a sequence of calls of [take_transition].  Whatever
    transitions are taken from the initial configuration, no two arcs
    of the result cross ([planar_at]): an arc is created between the
    top of the stack and the front of the buffer, and every token
    between the two has left both.

    Two consequences for gold trees that are not projective.  First,
    [is_not_projective] lets through exactly the trees whose only
    crossings are over a child of ROOT ([covered_root]).  Second, on
    every tree with a crossing, reported or not, a run of the handlers,
    and so the loop of the static oracle when it ends, leaves out one
    of the gold arcs. *)

From stdpp Require Import base tactics option list numbers gmap sorting.
From S2P Require Import Prelude Config Transitions Machine Projectivity Tree.
From S2P Require Import StaticOracle.

#[local] Open Scope Z_scope.

(** ** Definitions *)

(** One call of a handler that returns: the effect of [left_arc],
    [right_arc], [shift] or [reduce] on a stack and a buffer that hold
    what the handler reads, with no condition on heads or on ROOT. *)
Inductive moves : Configuration → Configuration → Prop :=
| moves_left a σ s b β se :
    moves (mkConfiguration a (σ ++ [s]) (b :: β) se)
          (mkConfiguration (a ++ [(b, s)]) σ (b :: β) se)
| moves_right a σ s b β se :
    moves (mkConfiguration a (σ ++ [s]) (b :: β) se)
          (mkConfiguration (a ++ [(s, b)]) (σ ++ [s; b]) β se)
| moves_shift a σ b β se :
    moves (mkConfiguration a σ (b :: β) se)
          (mkConfiguration a (σ ++ [b]) β se)
| moves_reduce a σ s β se :
    moves (mkConfiguration a (σ ++ [s]) β se)
          (mkConfiguration a σ β se).

(** [take_transition] called on each transition of a list in turn, as
    long as no call raises. *)
Fixpoint take_all (transitions : list Z) (config : Configuration) :
    option Configuration :=
  match transitions with
  | [] => Some config
  | t :: transitions =>
      match take_transition the_funcs t config with
      | (Ok _, config) => take_all transitions config
      | (Raise _, _) => None
      end
  end.

(** The arcs lie between the tokens that have left the buffer, whose
    front is [k]; the tokens strictly inside an arc have left the stack
    and the buffer; no two arcs cross. *)
Record planar_at (n k : Z) (c : Configuration) : Prop := {
  pl_buffer : buffer c = seqZ k (n - k);
  pl_sorted : StronglySorted Z.lt (stack c);
  pl_stack : ∀ x, x ∈ stack c → x < k;
  pl_arcs : ∀ h d, (h, d) ∈ arcs c → h ≤ k ∧ d ≤ k;
  pl_inside : ∀ h d x,
    (h, d) ∈ arcs c → Z.min h d < x < Z.max h d →
    (x ∉ stack c) ∧ (x ∉ buffer c);
  pl_planar : ∀ h1 d1 h2 d2,
    (h1, d1) ∈ arcs c → (h2, d2) ∈ arcs c → ¬ crosses h1 d1 h2 d2
}.

(** A child of ROOT strictly inside an arc between two tokens. *)
Definition covered_root (g : GoldConfiguration) : Prop :=
  ∃ r d h, head_of g !! r = Some ROOT ∧ head_of g !! d = Some h ∧
           h ≠ ROOT ∧ Z.min h d < r < Z.max h d.

(** ** The handlers that return *)

Lemma step_moves t c c' : step t c c' → moves c c'.
Proof. destruct 1; constructor. Qed.

Section moves.
Implicit Types (c : Configuration).

Lemma left_arc_moves c c' : left_arc c = (Ok (), c') → moves c c'.
Proof.
  destruct c as [a st bf se]. snoc_case st s σ Hs; subst st.
  { by rewrite left_arc_empty_stack. }
  destruct bf as [|b β]; [by erewrite left_arc_empty_buffer|].
  erewrite left_arc_ok by done. intros [= <-]. constructor.
Qed.

Lemma right_arc_moves c c' : right_arc c = (Ok (), c') → moves c c'.
Proof.
  destruct c as [a st bf se]. snoc_case st s σ Hs; subst st.
  { by rewrite right_arc_empty_stack. }
  destruct bf as [|b β]; [by rewrite right_arc_empty_buffer|].
  erewrite right_arc_ok by done. intros [= <-]. constructor.
Qed.

Lemma shift_moves c c' : shift c = (Ok (), c') → moves c c'.
Proof.
  destruct c as [a st [|b β] se]; [by rewrite shift_empty_buffer|].
  erewrite shift_ok_run by done. intros [= <-]. constructor.
Qed.

Lemma reduce_moves c c' : reduce c = (Ok (), c') → moves c c'.
Proof.
  destruct c as [a st bf se]. snoc_case st s σ Hs; subst st.
  { by rewrite reduce_empty_stack. }
  erewrite reduce_ok_run by done. intros [= <-]. constructor.
Qed.

(** A call of [take_transition] that returns has made a move. *)
Lemma take_moves z c c' :
  take_transition the_funcs z c = (Ok (), c') → moves c c'.
Proof.
  unfold the_funcs. rewrite take_transition_init. unfold dispatch.
  repeat case_decide; [apply left_arc_moves|apply right_arc_moves
                      |apply shift_moves|apply reduce_moves|done].
Qed.

End moves.

(** ** The invariant *)

Section planar.
Context (n : Z).
Implicit Types (c : Configuration) (a : list (Z * Z)) (σ β : list Z)
  (k s b d h x : Z).

Lemma planar_initial se :
  planar_at (Z.of_nat (length se)) 0 (get_initial_config se).
Proof.
  split; simpl; try (intros; by set_solver).
  - by rewrite Z.sub_0_r.
  - repeat constructor.
Qed.

(** The top of the stack is below the front of the buffer, and no
    token of the stack or the buffer is between them. *)
Lemma planar_top_front k c σ s b β :
  planar_at n k c → stack c = σ ++ [s] → buffer c = b :: β →
  s < b ∧ b = k ∧ β = seqZ (k + 1) (n - (k + 1)) ∧
  (∀ x, x ∈ σ → x < s) ∧ (∀ x, x ∈ β → k < x).
Proof.
  intros Hp Hs Hb. pose proof (pl_buffer _ _ _ Hp) as Hbuf.
  rewrite Hb in Hbuf. symmetry in Hbuf.
  apply seqZ_cons_inv in Hbuf as (->&->&?).
  pose proof (pl_sorted _ _ _ Hp) as Hsort. rewrite Hs in Hsort.
  split_and!; [|done|f_equal; lia| |].
  - apply (pl_stack _ _ _ Hp). rewrite Hs. set_solver.
  - intros x Hx.
    eapply (StronglySorted_app_1_elem_of Z.lt); [done..|set_solver].
  - intros x Hx%elem_of_seqZ. lia.
Qed.

(** A move brings no token back to the stack or the buffer. *)
Lemma moves_tokens c c' x :
  moves c c' → x ∈ stack c' ∨ x ∈ buffer c' → x ∈ stack c ∨ x ∈ buffer c.
Proof. destruct 1; simpl; set_solver. Qed.

(** The arcs after a move: those before it, or an arc between the top
    of the stack and the front of the buffer. *)
Lemma moves_arcs c c' h d :
  moves c c' → (h, d) ∈ arcs c' →
  (h, d) ∈ arcs c ∨
  ∃ σ s b β, stack c = σ ++ [s] ∧ buffer c = b :: β ∧
             ((h = b ∧ d = s) ∨ (h = s ∧ d = b)).
Proof.
  destruct 1; simpl; [| |by left..];
    (intros [?|[= -> ->]%list_elem_of_singleton]%elem_of_app; [by left|right]);
    eexists _, _, _, _; split_and!; eauto.
Qed.

Section move.
Context (k : Z) (c c' : Configuration).
Context (Hp : planar_at n k c) (Hm : moves c c').

(** The front of the buffer after the move. *)
Definition front_after : Z :=
  k + Z.of_nat (length (buffer c) - length (buffer c')).

Lemma shape_move :
  buffer c' = seqZ front_after (n - front_after) ∧
  StronglySorted Z.lt (stack c') ∧ (∀ x, x ∈ stack c' → x < front_after) ∧
  k ≤ front_after.
Proof.
  unfold front_after. pose proof (pl_sorted _ _ _ Hp) as Hsort.
  pose proof (pl_stack _ _ _ Hp) as Hlt.
  destruct Hm as [a σ s b β se|a σ s b β se|a σ b β se|a σ s β se];
    simpl in *.
  - rewrite Nat.sub_diag, Z.add_0_r.
    apply StronglySorted_app_1_l in Hsort.
    split_and!; [apply (pl_buffer _ _ _ Hp)|done|set_solver|lia].
  - destruct (planar_top_front k _ σ s b β Hp eq_refl eq_refl)
      as (?&->&->&Hσ&_).
    replace (k + Z.of_nat (S _ - _)) with (k + 1) by lia.
    split_and!; [done| |set_solver by lia|lia].
    change (σ ++ [s; k]) with (σ ++ [s] ++ [k]).
    rewrite (assoc_L (++)). apply StronglySorted_snoc. split; [done|].
    apply Forall_forall. intros x Hx%Hlt. lia.
  - pose proof (pl_buffer _ _ _ Hp) as Hb. simpl in Hb. symmetry in Hb.
    apply seqZ_cons_inv in Hb as (->&->&?).
    replace (k + Z.of_nat (S _ - _)) with (k + 1) by lia.
    split_and!; [f_equal; lia| |set_solver by lia|lia].
    apply StronglySorted_snoc. split; [done|]. by apply Forall_forall.
  - rewrite Nat.sub_diag, Z.add_0_r.
    apply StronglySorted_app_1_l in Hsort.
    split_and!; [apply (pl_buffer _ _ _ Hp)|done|set_solver|lia].
Qed.

(** The tokens strictly inside an arc, old or new, are on neither the
    stack nor the buffer before the move. *)
Lemma inside_before_move h d x :
  (h, d) ∈ arcs c' → Z.min h d < x < Z.max h d →
  (x ∉ stack c) ∧ (x ∉ buffer c).
Proof.
  intros [Ha|(σ&s&b&β&Hs&Hb&Hnew)]%(moves_arcs _ _ _ _ Hm) Hx;
    [by eapply pl_inside|].
  destruct (planar_top_front k c σ s b β Hp Hs Hb) as (?&->&->&Hσ&Hβ).
  assert (s < x < k) as Hx' by (destruct Hnew as [[-> ->]|[-> ->]]; lia).
  rewrite Hs, Hb. split.
  - intros [Hin%Hσ| ->%list_elem_of_singleton]%elem_of_app; lia.
  - intros [->|Hin%Hβ]%elem_of_cons; lia.
Qed.

Lemma arcs_move h d : (h, d) ∈ arcs c' → h ≤ front_after ∧ d ≤ front_after.
Proof.
  destruct shape_move as (_&_&_&?).
  intros [Ha|(σ&s&b&β&Hs&Hb&Hnew)]%(moves_arcs _ _ _ _ Hm).
  - destruct (pl_arcs _ _ _ Hp h d Ha). lia.
  - destruct (planar_top_front k c σ s b β Hp Hs Hb) as (?&->&_).
    destruct Hnew as [[-> ->]|[-> ->]]; lia.
Qed.

Lemma planar_move_arcs h1 d1 h2 d2 :
  (h1, d1) ∈ arcs c' → (h2, d2) ∈ arcs c' → ¬ crosses h1 d1 h2 d2.
Proof.
  intros H1 H2 Hc. unfold crosses in Hc.
  destruct (moves_arcs _ _ _ _ Hm H1) as [Ha1|(σ&s&b&β&Hs&Hb&Hn1)],
    (moves_arcs _ _ _ _ Hm H2) as [Ha2|(σ'&s'&b'&β'&Hs'&Hb'&Hn2)].
  - by apply (pl_planar _ _ _ Hp h1 d1 h2 d2).
  - destruct (planar_top_front k c σ' s' b' β' Hp Hs' Hb') as (?&->&_).
    destruct (pl_arcs _ _ _ Hp h1 d1 Ha1).
    destruct (pl_inside _ _ _ Hp h1 d1 s' Ha1) as [[] _];
      [|rewrite Hs'; set_solver].
    destruct Hn2 as [[-> ->]|[-> ->]]; lia.
  - destruct (planar_top_front k c σ s b β Hp Hs Hb) as (?&->&_).
    destruct (pl_arcs _ _ _ Hp h2 d2 Ha2).
    destruct Hn1 as [[-> ->]|[-> ->]]; lia.
  - rewrite Hs' in Hs. apply app_inj_tail in Hs as [_ ->].
    rewrite Hb' in Hb. injection Hb as -> _.
    destruct Hn1 as [[-> ->]|[-> ->]], Hn2 as [[-> ->]|[-> ->]]; lia.
Qed.

Lemma planar_move : planar_at n front_after c'.
Proof.
  destruct shape_move as (?&?&?&?).
  split; [done..|apply arcs_move| |apply planar_move_arcs].
  intros h d x Ha Hx. destruct (inside_before_move h d x Ha Hx).
  pose proof (moves_tokens c c' x Hm). tauto.
Qed.

End move.

End planar.

(** ** Runs of the handlers *)

Lemma take_all_planar n k zs c c' :
  planar_at n k c → take_all zs c = Some c' → ∃ k', planar_at n k' c'.
Proof.
  revert k c. induction zs as [|z zs IH]; intros k c Hp; simpl.
  { intros [= <-]. eauto. }
  destruct (take_transition _ _ _) as [[[]|] c1] eqn:Ht; [|done].
  apply take_moves in Ht. eapply IH, planar_move; eauto.
Qed.

(** The transitions the loop of the static oracle takes are calls of
    [take_transition] that all return. *)
Lemma run_static_oracle_takes fuel g c ts c' :
  run_static_oracle fuel g c = Some (ts, c') → take_all ts c = Some c'.
Proof.
  revert c ts. induction fuel as [|fuel IH]; intros c ts; simpl;
    (destruct (is_finished c); [by intros [= <- <-]|]); [done|].
  unfold oracle_step.
  destruct (static_oracle c g) as [[[|t l]|]|]; try done.
  destruct (take_transition _ _ _) as [[[]|] c1] eqn:Ht; [|done].
  destruct (run_static_oracle _ _ _) as [[ts1 c2]|] eqn:Hrun; [|done].
  simpl. intros [= <- <-]. simpl. rewrite Ht. by apply IH.
Qed.

(** ** Trees with a crossing *)

Lemma forallb_false {A} (f : A → bool) (l : list A) :
  forallb f l = false → ∃ x, x ∈ l ∧ f x = false.
Proof.
  induction l as [|x l IH]; simpl; [done|].
  intros [Hx|Hl%IH]%andb_false_iff; set_solver.
Qed.

(** A gold tree that is not projective has two arcs that cross. *)
Lemma not_projective_crossing g :
  ¬ projective g →
  ∃ d1 h1 d2 h2, head_of g !! d1 = Some h1 ∧ head_of g !! d2 = Some h2 ∧
                 crosses h1 d1 h2 d2.
Proof.
  rewrite <-projectiveb_spec, not_true_iff_false.
  intros ([d1 h1]&H1%elem_of_map_to_list&Hin)%forallb_false.
  apply forallb_false in Hin as ([d2 h2]&H2%elem_of_map_to_list&Hc).
  apply negb_false_iff, bool_decide_eq_true in Hc. eauto 10.
Qed.

Section gap.
Context (g : GoldConfiguration) (Htree : tree g).

Lemma tree_arc_range d h : head_of g !! d = Some h → 0 ≤ d ∧ ROOT ≤ h.
Proof.
  intros Hd. split; [by apply (tree_keys g Htree)|].
  by apply (tree_head_rooted g Htree d).
Qed.

Lemma covered_root_crosses : covered_root g → ¬ projective g.
Proof.
  intros (r&d&h&Hr&Hd&Hh&Hin) Hp. apply (Hp r ROOT d h Hr Hd).
  destruct (tree_arc_range _ _ Hr), (tree_arc_range _ _ Hd).
  unfold crosses. root_lia.
Qed.

Lemma crossing_cases d1 h1 d2 h2 :
  head_of g !! d1 = Some h1 → head_of g !! d2 = Some h2 →
  crosses h1 d1 h2 d2 →
  (h1 ≠ ROOT ∧ h2 ≠ ROOT) ∨ covered_root g.
Proof.
  intros H1 H2 Hc. unfold crosses in Hc.
  destruct (tree_arc_range _ _ H1), (tree_arc_range _ _ H2).
  destruct (decide (h2 = ROOT)) as [->|]; [root_lia|].
  destruct (decide (h1 = ROOT)) as [->|]; [right|left; by split].
  exists d1, d2, h2. split_and!; try done; root_lia.
Qed.

Lemma projective_iff_test :
  projective g ↔ is_not_projective g = false ∧ ¬ covered_root g.
Proof.
  split.
  - intros Hp. split; [by apply projective_passes|].
    by intros ?%covered_root_crosses.
  - intros [Htest Hcov] d1 h1 d2 h2 H1 H2 Hc.
    destruct (crossing_cases _ _ _ _ H1 H2 Hc) as [[??]|?]; [|done].
    apply not_true_iff_false in Htest. apply Htest, is_not_projective_true.
    eauto 10.
Qed.

End gap.

(** No two arcs of a run of the handlers cross. *)
Lemma take_all_no_crossing se zs c h1 d1 h2 d2 :
  take_all zs (get_initial_config se) = Some c →
  (h1, d1) ∈ arcs c → (h2, d2) ∈ arcs c → ¬ crosses h1 d1 h2 d2.
Proof.
  intros Hrun.
  destruct (take_all_planar _ _ _ _ _ (planar_initial se) Hrun) as [k Hp].
  apply (pl_planar _ _ _ Hp).
Qed.

(** So a run leaves out an arc of every gold tree that is not
    projective. *)
Lemma take_all_misses se zs c :
  ¬ projective (get_gold_config se) →
  take_all zs (get_initial_config se) = Some c →
  ∃ h d, (h, d) ∈ Gold.arcs (get_gold_config se) ∧ (h, d) ∉ arcs c.
Proof.
  intros (d1&h1&d2&h2&H1&H2&Hc)%not_projective_crossing Hrun.
  destruct (get_gold_config_consistent se) as [Harcs _ _].
  destruct (decide ((h1, d1) ∈ arcs c)) as [Hin1|];
    [|exists h1, d1; by rewrite Harcs].
  destruct (decide ((h2, d2) ∈ arcs c)) as [Hin2|];
    [|exists h2, d2; by rewrite Harcs].
  destruct (take_all_no_crossing se zs c h1 d1 h2 d2 Hrun Hin1 Hin2 Hc).
Qed.

(** ** The theorems of trees that are not projective *)

(** C34: The handlers build no crossing arcs, with or without the
    legality test.  Whatever transitions are passed to
    [take_transition], one call after the other from the initial
    configuration of a sentence, legal or not, if no call raises then
    no two arcs of the configuration reached cross; so when the gold
    tree of the sentence is not projective, whether
    [is_not_projective] reports it or not, one of its arcs is
    missing. *)
Theorem unchecked_run_planar se zs c :
  take_all zs (get_initial_config se) = Some c →
  (∀ h1 d1 h2 d2,
     (h1, d1) ∈ arcs c → (h2, d2) ∈ arcs c → ¬ crosses h1 d1 h2 d2) ∧
  (¬ projective (get_gold_config se) →
   ∃ h d, (h, d) ∈ Gold.arcs (get_gold_config se) ∧ (h, d) ∉ arcs c).
Proof.
  intros Hrun. split.
  - intros h1 d1 h2 d2. by apply (take_all_no_crossing se zs).
  - intros Hp. by apply (take_all_misses se zs).
Qed.

Lemma unchecked_run_planar_witness :
  take_all [SHIFT; REDUCE; RIGHT; RIGHT; REDUCE; REDUCE]
           (get_initial_config covered_root_sentence)
  = Some (mkConfiguration [(ROOT, 1); (1, 2)] [ROOT] [] covered_root_sentence) ∧
  (∀ h1 d1 h2 d2,
     (h1, d1) ∈ [(ROOT, 1); (1, 2)] → (h2, d2) ∈ [(ROOT, 1); (1, 2)] →
     ¬ crosses h1 d1 h2 d2) ∧
  (¬ projective (get_gold_config covered_root_sentence) →
   ∃ h d, (h, d) ∈ Gold.arcs (get_gold_config covered_root_sentence) ∧
          (h, d) ∉ [(ROOT, 1); (1, 2)]).
Proof.
  split; [reflexivity|].
  by apply (unchecked_run_planar covered_root_sentence
              [SHIFT; REDUCE; RIGHT; RIGHT; REDUCE; REDUCE]
              (mkConfiguration [(ROOT, 1); (1, 2)] [ROOT] []
                 covered_root_sentence)).
Defined.

(** C35: What [is_not_projective] reports and what it lets through.  On
    a sentence whose annotation is a tree, the gold tree is projective
    exactly when the test returns [False] and no child of ROOT lies
    strictly inside an arc between two tokens: the test skips the pairs
    in which one head is ROOT, so a tree whose only crossings are over
    a child of ROOT passes it. *)
Theorem is_not_projective_gap se :
  well_formed se →
  (projective (get_gold_config se) ↔
   is_not_projective (get_gold_config se) = false ∧
   ¬ covered_root (get_gold_config se)).
Proof. intros Htree%well_formed_tree. by apply projective_iff_test. Qed.

Lemma is_not_projective_gap_witness :
  well_formed covered_root_sentence ∧
  (projective (get_gold_config covered_root_sentence) ↔
   is_not_projective (get_gold_config covered_root_sentence) = false ∧
   ¬ covered_root (get_gold_config covered_root_sentence)).
Proof.
  split; [by apply well_formedb_sound|].
  apply (is_not_projective_gap covered_root_sentence).
  by apply well_formedb_sound.
Defined.

(** In the tree with heads 2, ROOT, 1, which passes the test, token 1
    is a child of ROOT inside the arc (2,0). *)
Example covered_root_example :
  covered_root (get_gold_config covered_root_sentence).
Proof. exists 1, 0, 2. split_and!; try done; lia. Qed.

(** ** The loop of the static oracle on such a tree *)

(** A run of the loop that ends has left out a gold arc. *)
Corollary static_oracle_misses_arc se fuel ts c :
  ¬ projective (get_gold_config se) →
  run_static_oracle fuel (get_gold_config se) (get_initial_config se)
  = Some (ts, c) →
  ∃ h d, (h, d) ∈ Gold.arcs (get_gold_config se) ∧ (h, d) ∉ arcs c.
Proof.
  intros Hp Hrun%run_static_oracle_takes. by eapply take_all_misses.
Qed.

(** On the tree with heads 2, ROOT, 1 the loop ends after six
    transitions in a finished configuration without the gold arc (2,0).
    The transition that loses it is the REDUCE the oracle names when
    token 0 is on the stack without a head, which
    [get_legal_transitions] does not allow. *)
Example static_oracle_illegal_reduce :
  run_static_oracle 6 (get_gold_config covered_root_sentence)
    (get_initial_config covered_root_sentence)
  = Some ([SHIFT; REDUCE; RIGHT; RIGHT; REDUCE; REDUCE],
          mkConfiguration [(ROOT, 1); (1, 2)] [ROOT] [] covered_root_sentence) ∧
  static_oracle (mkConfiguration [] [ROOT; 0] [1; 2] covered_root_sentence)
    (get_gold_config covered_root_sentence) = Ok (Some [REDUCE]) ∧
  (REDUCE ∉ get_legal_transitions
     (mkConfiguration [] [ROOT; 0] [1; 2] covered_root_sentence)) ∧
  (2, 0) ∈ Gold.arcs (get_gold_config covered_root_sentence).
Proof.
  split_and!; [vm_compute; reflexivity|done|by apply (bool_decide_unpack _)..].
Qed.
