(* ===== verification/Forest.v ===== *)
(** * The trees the parser builds

    The arcs of a configuration reached by legal transitions form a
    projective forest: no two arcs cross, and following the heads from
    any token ends at a token without a head.  In a finished
    configuration the forest is a tree under ROOT.

    The invariant [forest] says where the arcs are with respect to the
    stack and the buffer; every transition preserves it.  That the
    tokens inside an arc are gone and that no two arcs cross holds for
    the handlers without the legality test ([Planar]); that the head of
    a token on the stack is on the stack and that the chains of heads
    end needs the preconditions of the transitions.  [parsed] is
    the sentence annotated with the heads the parser gave, and the
    theorems say that it is a well-formed projective annotation with
    the arcs of the configuration, and that the gold trees the system
    can build are exactly the well-formed projective ones. *)

From stdpp Require Import base tactics option list numbers gmap relations.
From stdpp Require Import sorting.
From S2P Require Import Prelude Config Transitions Machine Projectivity Tree.
From S2P Require Import StaticOracle OracleCorrect Reach Planar.

#[local] Open Scope Z_scope.

(** ** Definitions *)

(** [parent a d h]: among the arcs [a], the token [d] has the head [h]. *)
Definition parent (a : list (Z * Z)) : relation Z := λ d h, (h, d) ∈ a.

(** [root_of a x r]: following the heads from [x] ends at [r], which
    has no head. *)
Definition root_of (a : list (Z * Z)) (x r : Z) : Prop :=
  rtc (parent a) x r ∧ nf (parent a) r.

(** The arcs of a configuration with respect to its stack and buffer:
    the head of a token on the stack is on the stack, below it; the
    tokens strictly inside an arc have left the stack and the buffer;
    no two arcs cross; every chain of heads ends. *)
Record forest (c : Configuration) : Prop := {
  forest_below : ∀ h d, (h, d) ∈ arcs c → d ∈ stack c → h ∈ stack c ∧ h < d;
  forest_inside : ∀ h d x,
    (h, d) ∈ arcs c → Z.min h d < x < Z.max h d →
    (x ∉ stack c) ∧ (x ∉ buffer c);
  forest_planar : ∀ h1 d1 h2 d2,
    (h1, d1) ∈ arcs c → (h2, d2) ∈ arcs c → ¬ crosses h1 d1 h2 d2;
  forest_rooted : ∀ x, ∃ r, root_of (arcs c) x r
}.

(** The head the arcs give to a token, ROOT when they give none. *)
Definition parse_head (a : list (Z * Z)) (i : Z) : Z :=
  default ROOT (head (heads_in a i)).

(** The sentence with the heads of the arcs [a]. *)
Definition annotate (a : list (Z * Z)) (se : list Token) : list Token :=
  imap (λ i t, mkToken (tok_word t) (tok_pos t) (parse_head a (Z.of_nat i))
                       (tok_label t)) se.

(** The result of a parse: the sentence of the configuration, annotated
    with its arcs. *)
Definition parsed (c : Configuration) : list Token :=
  annotate (arcs c) (sentence c).

(** ** Chains of heads *)

Lemma nf_parent a r : nf (parent a) r ↔ ∀ h, (h, r) ∉ a.
Proof. unfold nf, red, parent. naive_solver. Qed.

Lemma root_of_free a x : (∀ h, (h, x) ∉ a) → root_of a x x.
Proof. intros Hx. split; [done|by apply nf_parent]. Qed.

Lemma root_of_step a x h r : (h, x) ∈ a → root_of a h r → root_of a x r.
Proof. intros Hx [??]. split; [by eapply rtc_l|done]. Qed.

(** A new arc into [d] leaves the chains that do not end at [d]. *)
Lemma root_of_snoc_other a h d x r :
  root_of a x r → r ≠ d → root_of (a ++ [(h, d)]) x r.
Proof.
  intros [Hx Hr] Hne. split.
  - eapply rtc_subrel; [|done]. unfold parent. set_solver.
  - rewrite nf_parent in *. set_solver.
Qed.

(** The chains that end at [d] go on to the root of its new head. *)
Lemma root_of_snoc_into a h d x r :
  rtc (parent a) x d → root_of (a ++ [(h, d)]) h r →
  root_of (a ++ [(h, d)]) x r.
Proof.
  intros Hx [Hh Hr]. split; [|done]. trans d.
  - eapply rtc_subrel; [|done]. unfold parent. set_solver.
  - eapply rtc_l; [|done]. unfold parent. set_solver.
Qed.

(** An arc into a token without a head, from a token whose chain does
    not end there, keeps every chain finite. *)
Lemma root_of_snoc a h d rh :
  root_of a h rh → rh ≠ d →
  (∀ x, ∃ r, root_of a x r) → ∀ x, ∃ r, root_of (a ++ [(h, d)]) x r.
Proof.
  intros Hh Hne Hall x. destruct (Hall x) as [r Hx].
  destruct (decide (r = d)) as [->|];
    [|by eauto using root_of_snoc_other].
  exists rh. apply root_of_snoc_into; [apply Hx|by apply root_of_snoc_other].
Qed.

(** ** The invariant is preserved *)

Section forest.
Context (n : Z).
Implicit Types (c : Configuration) (a : list (Z * Z)) (σ β : list Z)
  (k s b d h x : Z).

Lemma forest_initial se : forest (get_initial_config se).
Proof.
  split; simpl; try (intros; by set_solver).
  intros x. exists x. apply root_of_free. set_solver.
Qed.

(** The top of the stack is below the front of the buffer, and no
    token of the stack or the buffer is between them. *)
Lemma top_front k c σ s b β :
  wf_at n k c → stack c = σ ++ [s] → buffer c = b :: β →
  s < b ∧ b = k ∧ ∀ x, s < x < b → (x ∉ stack c) ∧ (x ∉ buffer c).
Proof.
  intros Hwf Hs Hb. destruct (wf_buffer_cons _ _ _ _ _ Hwf Hb) as (->&_).
  pose proof (wf_k _ _ _ Hwf).
  split; [destruct (wf_stack_top _ _ _ Hwf σ s Hs); root_lia|].
  split; [done|]. intros x Hx. split.
  - rewrite Hs. intros [Hin| ->%list_elem_of_singleton]%elem_of_app; [|lia].
    pose proof (wf_stack_below _ _ _ Hwf σ s x Hs Hin). lia.
  - intros ?%(wf_buffer_mem _ _ _ _ Hwf). lia.
Qed.

(** A well-formed configuration with a forest satisfies the invariant
    of the handlers. *)
Lemma forest_planar_at k c : wf_at n k c → forest c → planar_at n k c.
Proof.
  intros Hwf Hf. pose proof (wf_k _ _ _ Hwf).
  split; [apply (wf_buffer _ _ _ Hwf)|by eapply wf_stack_sorted| |
         |apply (forest_inside c Hf)|apply (forest_planar c Hf)].
  - intros x [->|?]%(wf_stack_mem _ _ _ Hwf); root_lia.
  - intros h d Ha. pose proof (wf_arcs _ _ _ Hwf) as Hall.
    eapply Forall_forall in Hall; [|done]. simpl in Hall. lia.
Qed.

(** Following the heads from a token of the stack stays on the stack. *)
Lemma rtc_parent_stack c x r :
  forest c → rtc (parent (arcs c)) x r → x ∈ stack c → r ∈ stack c.
Proof.
  intros Hf. induction 1 as [|x h r Hx _ IH]; [done|].
  intros Hin. by apply IH, (forest_below c Hf h x).
Qed.

Section step.
Context (k : Z) (t : Transition) (c c' : Configuration).
Context (Hwf : wf_at n k c) (Hstep : step t c c') (Hf : forest c).

Lemma below_step h d :
  (h, d) ∈ arcs c' → d ∈ stack c' → h ∈ stack c' ∧ h < d.
Proof.
  pose proof (forest_below c Hf) as Hinv.
  destruct Hstep as [a σ s b β se' Hs Hfree|a σ s b β se' Hb Hfree
                    |a σ b β se'|a σ s β se' hs Hhs]; simpl in *.
  - intros [Ha|[= -> ->]%list_elem_of_singleton]%elem_of_app Hd.
    + destruct (Hinv h d Ha) as [Hh ?]; [set_solver|]. split; [|done].
      pose proof (wf_stack_below _ _ _ Hwf σ s d eq_refl Hd). set_solver by lia.
    + by destruct (wf_stack_not_below _ _ _ Hwf σ s eq_refl).
  - destruct (top_front k _ σ s b β Hwf eq_refl eq_refl) as (?&->&_).
    intros [Ha|[= -> ->]%list_elem_of_singleton]%elem_of_app Hd.
    + assert (d ≠ k) by (intros ->; by destruct (Hfree h)).
      destruct (Hinv h d Ha) as [Hh ?]; set_solver.
    + split; [set_solver|done].
  - intros Ha Hd. destruct (wf_buffer_cons _ _ _ _ _ Hwf eq_refl) as (->&_).
    assert (d ≠ k)
      by (intros ->; by eapply (wf_no_head_buffer _ _ _ k Hwf), Ha).
    destruct (Hinv h d Ha) as [Hh ?]; set_solver.
  - intros Ha Hd. destruct (Hinv h d Ha) as [Hh ?]; [set_solver|].
    split; [|done].
    pose proof (wf_stack_below _ _ _ Hwf σ s d eq_refl Hd). set_solver by lia.
Qed.

(** The invariant of the handlers holds, so it holds after the
    transition: the tokens inside an arc are gone, no two arcs cross. *)
Lemma planar_step : ∃ k', planar_at n k' c'.
Proof.
  eexists. apply (planar_move n k c c');
    [by apply forest_planar_at|by eapply step_moves].
Qed.

Lemma rooted_step x : ∃ r, root_of (arcs c') x r.
Proof.
  pose proof (forest_rooted c Hf) as Hall.
  destruct Hstep as [a σ s b β se' Hs Hfree|a σ s b β se' Hb Hfree
                    |a σ b β se'|a σ s β se' hs Hhs]; simpl in *; [| |done..].
  - destruct (top_front k _ σ s b β Hwf eq_refl eq_refl) as (?&->&_).
    apply (root_of_snoc a k s k); [|lia|done].
    apply root_of_free, (wf_no_head_buffer _ _ _ k Hwf). lia.
  - destruct (Hall s) as [r Hr].
    apply (root_of_snoc a s b r); [done| |done].
    intros ->. destruct Hr as [Hr _].
    apply (rtc_parent_stack _ s b Hf) in Hr; [|simpl; set_solver].
    eapply (wf_disjoint _ k _ b Hwf); [done|simpl; set_solver].
Qed.

Lemma forest_step : forest c'.
Proof.
  destruct planar_step as [k' Hp].
  split; [apply below_step|apply (pl_inside _ _ _ Hp)
         |apply (pl_planar _ _ _ Hp)|apply rooted_step].
Qed.

End step.

End forest.

(** ** Reachable configurations *)

Lemma steps_forest n k ts c c' :
  steps ts c c' → wf_at n k c → forest c → forest c'.
Proof.
  intros Hs. revert k. induction Hs as [|t ts c c1 c2 Hstep _ IH];
    intros k Hwf Hf; [done|].
  eapply IH; [by eapply wf_step|by eapply forest_step].
Qed.

Lemma reachable_forest se c : reachable se c → forest c.
Proof.
  intros [ts Hs]%reachable_steps.
  eapply steps_forest; [done|apply wf_initial|apply forest_initial].
Qed.

(** ** The heads of the parse *)

Lemma parse_head_arc a h i : NoDup a.*2 → (h, i) ∈ a → parse_head a i = h.
Proof.
  intros Hnd Hin. unfold parse_head.
  destruct (heads_in a i) as [|h' l] eqn:E.
  - apply elem_of_heads_in in Hin. rewrite E in Hin. by apply elem_of_nil in Hin.
  - simpl. assert ((h', i) ∈ a) by (apply elem_of_heads_in; rewrite E; left).
    by eapply NoDup_fmap_snd_functional.
Qed.

Lemma annotate_length a se : length (annotate a se) = length se.
Proof. apply length_imap. Qed.

Lemma annotate_head_of a se i :
  head_of (get_gold_config (annotate a se)) !! i
  = if decide (0 ≤ i < Z.of_nat (length se)) then Some (parse_head a i)
    else None.
Proof.
  rewrite get_gold_config_head_of. unfold annotate. rewrite list_lookup_imap.
  repeat case_decide; try lia.
  - destruct (lookup_lt_is_Some_2 se (Z.to_nat i)) as [t ->]; [lia|].
    simpl. by rewrite Z2Nat.id by lia.
  - rewrite lookup_ge_None_2 by lia. done.
  - done.
Qed.

(** The annotations with the same heads have the same trees. *)
Lemma rooted_ext g g' d :
  (∀ i, head_of g !! i = head_of g' !! i) → rooted g d → rooted g' d.
Proof.
  intros Heq. induction 1 as [|d h Hd _ IH]; [constructor|].
  rewrite Heq in Hd. by econstructor.
Qed.

Lemma projective_ext g g' :
  (∀ i, head_of g !! i = head_of g' !! i) → projective g → projective g'.
Proof. intros Heq Hp d1 h1 d2 h2. rewrite <-!Heq. apply Hp. Qed.

(** ** Finished configurations *)

Section finished.
Context (se : list Token) (c : Configuration).
Context (Hr : reachable se c) (Hfin : is_finished c = true).
#[local] Abbreviation n := (Z.of_nat (length se)).

Lemma finished_wf : wf_at n n c.
Proof.
  pose proof (reachable_wf_at _ _ Hr) as Hwf.
  apply is_finished_spec in Hfin as [Hb _]. rewrite Hb in Hwf. simpl in Hwf.
  by rewrite Nat.sub_0_r in Hwf.
Qed.

Lemma finished_head i : 0 ≤ i < n → ∃ h, (h, i) ∈ arcs c.
Proof.
  intros Hi. apply (wf_has_head _ _ _ finished_wf); [done|].
  rewrite (finished_stack _ _ Hr Hfin). set_solver by root_lia.
Qed.

Lemma parsed_head_of h i :
  head_of (get_gold_config (parsed c)) !! i = Some h ↔ (h, i) ∈ arcs c.
Proof.
  unfold parsed. pose proof Hr as [ts Hs%steps_fun_Some%steps_sentence].
  rewrite Hs, annotate_head_of. simpl.
  pose proof (wf_single _ _ _ finished_wf) as Hnd. split.
  - case_decide as Hi; [|done]. intros [= <-].
    destruct (finished_head i Hi) as [h Hh].
    by rewrite (parse_head_arc _ h).
  - intros Ha. pose proof (wf_arc_dep _ _ _ finished_wf _ _ Ha).
    rewrite decide_True by done. by rewrite (parse_head_arc _ h).
Qed.

(** The chain of heads of a token ends at ROOT. *)
Lemma finished_root x r :
  rtc (parent (arcs c)) x r → ROOT ≤ x < n → nf (parent (arcs c)) r →
  r = ROOT.
Proof.
  intros Hx Hrange Hnf. rewrite nf_parent in Hnf.
  assert (ROOT ≤ r < n) as Hr'.
  { induction Hx as [|x h r Ha _ IH]; [done|]. apply IH; [|done].
    pose proof (wf_arcs _ _ _ finished_wf) as Hall.
    rewrite Forall_forall in Hall. specialize (Hall _ Ha). simpl in *. lia. }
  destruct (decide (r = ROOT)) as [|Hne]; [done|].
  destruct (finished_head r) as [h Hh]; [root_lia|]. by destruct (Hnf h).
Qed.

Lemma finished_rooted x :
  ROOT ≤ x < n → rooted (get_gold_config (parsed c)) x.
Proof.
  intros Hx. destruct (forest_rooted c (reachable_forest _ _ Hr) x) as [r [Hp Hnf]].
  pose proof (finished_root x r Hp Hx Hnf) as Hroot. clear Hx Hnf.
  induction Hp as [|x h r Ha _ IH]; [rewrite Hroot; constructor|].
  econstructor; [by apply parsed_head_of|by apply IH].
Qed.

Lemma finished_parse :
  well_formed (parsed c) ∧ projective (get_gold_config (parsed c)) ∧
  Gold.arcs (get_gold_config (parsed c)) = list_to_set (arcs c).
Proof.
  split_and!.
  - intros d Hd. apply finished_rooted. unfold parsed in Hd.
    pose proof Hr as [ts Hs%steps_fun_Some%steps_sentence].
    rewrite annotate_length, Hs in Hd. simpl in Hd. root_lia.
  - intros d1 h1 d2 h2 H1%parsed_head_of H2%parsed_head_of.
    by apply (forest_planar c (reachable_forest _ _ Hr)).
  - apply set_eq. intros [h d].
    rewrite (gc_arcs _ (get_gold_config_consistent _)), parsed_head_of.
    by rewrite elem_of_list_to_set.
Qed.

End finished.

(** ** The theorems of the parse *)

(** A finished configuration with the arcs of an annotation gives the
    tokens the heads of the annotation. *)
Lemma built_head_of se c i :
  reachable se c → is_finished c = true →
  list_to_set (arcs c) =@{gset (Z * Z)} Gold.arcs (get_gold_config se) →
  head_of (get_gold_config (parsed c)) !! i
  = head_of (get_gold_config se) !! i.
Proof.
  intros Hr Hfin Harcs. apply option_eq. intros h.
  rewrite (parsed_head_of se c Hr Hfin).
  rewrite <-(gc_arcs _ (get_gold_config_consistent se)), <-Harcs.
  by rewrite elem_of_list_to_set.
Qed.

Lemma built_tree se c :
  reachable se c → is_finished c = true →
  list_to_set (arcs c) =@{gset (Z * Z)} Gold.arcs (get_gold_config se) →
  well_formed se ∧ projective (get_gold_config se).
Proof.
  intros Hr Hfin Harcs.
  destruct (finished_parse se c Hr Hfin) as (Hwf&Hproj&_).
  pose proof (λ i, built_head_of se c i Hr Hfin Harcs) as Heq. split.
  - intros d Hd. apply (rooted_ext _ _ d Heq), Hwf. unfold parsed.
    pose proof Hr as [ts Hs%steps_fun_Some%steps_sentence].
    by rewrite annotate_length, Hs.
  - by apply (projective_ext _ _ Heq).
Qed.

(** C5: The parser builds projective trees.  The arcs of a finished
    configuration reached by legal transitions are those of a
    well-formed projective annotation of the sentence: every token
    leads to ROOT by following the heads the parser gave, and no two
    arcs cross. *)
Theorem parser_builds_tree se c :
  reachable se c → is_finished c = true →
  well_formed (parsed c) ∧ projective (get_gold_config (parsed c)) ∧
  Gold.arcs (get_gold_config (parsed c)) = list_to_set (arcs c).
Proof. apply finished_parse. Qed.

Lemma parser_builds_tree_witness :
  reachable example_sentence example_final ∧
  is_finished example_final = true ∧
  well_formed (parsed example_final) ∧
  projective (get_gold_config (parsed example_final)) ∧
  Gold.arcs (get_gold_config (parsed example_final))
  = list_to_set (arcs example_final).
Proof.
  split; [apply example_reachable|]. split; [done|].
  apply (parser_builds_tree example_sentence example_final);
    [apply example_reachable|done].
Defined.

(** C4: The trees the system can build.  Some run of legal transitions
    from the initial configuration of a sentence ends in a finished
    configuration whose arcs are the gold arcs exactly when the
    annotation is well formed (every token leads to ROOT) and
    projective (no two arcs cross, the arcs from ROOT included). *)
Theorem buildable_iff_projective_tree se :
  (∃ c, reachable se c ∧ is_finished c = true ∧
        list_to_set (arcs c) =@{gset (Z * Z)} Gold.arcs (get_gold_config se))
  ↔ well_formed se ∧ projective (get_gold_config se).
Proof.
  split.
  - intros (c&Hr&Hfin&Harcs). by eapply built_tree.
  - intros [Hwf Hproj].
    destruct (static_oracle_run se Hwf Hproj) as (ts&c&_&Hs&Hfin&Harcs).
    exists c. split; [by exists ts|done].
Qed.

(** When the projectivity test rejects an annotation, no run of the
    parser builds its arcs. *)
Lemma not_projective_unbuildable se c :
  is_not_projective (get_gold_config se) = true →
  reachable se c → is_finished c = true →
  list_to_set (arcs c) ≠@{gset (Z * Z)} Gold.arcs (get_gold_config se).
Proof.
  intros (d1&h1&d2&h2&H1&H2&_&_&Hc)%is_not_projective_true Hr Hfin Harcs.
  destruct (built_tree se c Hr Hfin Harcs) as [_ Hproj].
  exact (Hproj _ _ _ _ H1 H2 Hc).
Qed.
