(* ===== verification/DynamicOracle.v ===== *)
(** * The dynamic oracle

    Models the four cost functions [left_arc_cost], [right_arc_cost],
    [shift_cost] and [reduce_cost] and [ArcEager.dynamic_oracle]
    (src/arc_eager.py, lines 212-292).

    The cost functions read [deps_of], a defaultdict: a read at a
    missing key stores an empty list under it.  They are therefore
    computations on the gold tree, [py GoldConfiguration]; the theorems
    show that the entries they create change no result, and say when
    [reduce_cost] creates one: when the top of the stack is a leaf of
    the gold tree. *)

From stdpp Require Import base tactics option list numbers gmap strings.
From S2P Require Import Prelude Config Transitions Machine StaticOracle.

#[local] Open Scope Z_scope.

(** ** The model *)

(** [gold_config.head_of[k]] *)
Definition gold_head (k : Z) : py GoldConfiguration Z :=
  λ g, (of_lookup k (head_of g !! k), g).

(** [(h, d) in gold_config.arcs] *)
Definition gold_has_arc (h d : Z) : py GoldConfiguration bool :=
  gets (λ g, bool_decide ((h, d) ∈ Gold.arcs g)).

Definition left_arc_cost (config : Configuration) : py GoldConfiguration Z :=
  py_assert (bool_decide (0 < length (stack config))%nat
             && bool_decide (0 < length (buffer config))%nat);;
  b ← lift (of_index (head (buffer config)));
  s ← lift (of_index (py_top (stack config)));
  py_assert (bool_decide (s ≠ ROOT));;
  in_gold ← gold_has_arc b s;
  if in_gold : bool then mret 0 else
  hs ← gold_head s;
  ds ← Gold.deps_of_get s;
  let ks := hs :: ds in
  mret (count_common ks (buffer config)).

Definition right_arc_cost (config : Configuration) : py GoldConfiguration Z :=
  py_assert (bool_decide (0 < length (stack config))%nat
             && bool_decide (0 < length (buffer config))%nat);;
  b ← lift (of_index (head (buffer config)));
  s ← lift (of_index (py_top (stack config)));
  py_assert (bool_decide (b ≠ ROOT));;
  in_gold ← gold_has_arc s b;
  if in_gold : bool then mret 0 else
  let cost := 0 in
  hb ← gold_head b;
  let cost := cost + Z_of_bool (bool_decide (hb ∈ stack config)) in
  hb ← gold_head b;
  let cost := cost + Z_of_bool (bool_decide (hb ∈ buffer config)) in
  ks ← Gold.deps_of_get b;
  mret (cost + count_common ks (stack config)).

Definition shift_cost (config : Configuration) : py GoldConfiguration Z :=
  py_assert (bool_decide (0 < length (buffer config))%nat);;
  b ← lift (of_index (head (buffer config)));
  cost ← py_foldl (λ cost k,
            hb ← gold_head b;
            let cost := cost + Z_of_bool (bool_decide (k = hb)) in
            ds ← Gold.deps_of_get b;
            mret (cost + Z_of_bool (bool_decide (k ∈ ds))))
          0 (stack config);
  mret (Z.max 0 cost).

Definition reduce_cost (config : Configuration) : py GoldConfiguration Z :=
  py_assert (bool_decide (0 < length (stack config))%nat);;
  s ← lift (of_index (py_top (stack config)));
  deps ← Gold.deps_of_get s;
  mret (count_common deps (buffer config)).

(** [if is_ok[t]: if cost(config, gold_config): is_ok[t] = False] *)
Definition check_cost (t : Z) (cost : py GoldConfiguration Z)
    (is_ok : gmap Z bool) : py GoldConfiguration (gmap Z bool) :=
  ok ← lift (of_lookup t (is_ok !! t));
  if ok : bool then
    c ← cost;
    if bool_decide (c ≠ 0) then mret (<[t := false]> is_ok) else mret is_ok
  else mret is_ok.

(** The dict [is_ok] is read in the order of its keys 0, 1, 2, 3. *)
Definition dynamic_oracle (config : Configuration) :
    py GoldConfiguration (list Z) :=
  let legal := get_legal_transitions config in
  let is_ok : gmap Z bool :=
    list_to_map ((λ t, (t, bool_decide (t ∈ legal))) <$> TRANSITIONS) in
  is_ok ← check_cost LEFT (left_arc_cost config) is_ok;
  is_ok ← check_cost RIGHT (right_arc_cost config) is_ok;
  is_ok ← check_cost SHIFT (shift_cost config) is_ok;
  is_ok ← check_cost REDUCE (reduce_cost config) is_ok;
  let ok_transitions := filter (λ t, is_ok !! t = Some true) TRANSITIONS in
  mret ok_transitions.

(** ** The costs as functions of the configuration and the gold tree *)

Definition top (c : Configuration) : Z := default ROOT (py_top (stack c)).
Definition front (c : Configuration) : Z := default ROOT (head (buffer c)).
Definition ghead (g : GoldConfiguration) (k : Z) : Z :=
  default ROOT (head_of g !! k).

Definition cost_left (c : Configuration) (g : GoldConfiguration) : Z :=
  if bool_decide ((front c, top c) ∈ Gold.arcs g) then 0
  else count_common (ghead g (top c) :: Gold.deps g (top c)) (buffer c).

Definition cost_right (c : Configuration) (g : GoldConfiguration) : Z :=
  if bool_decide ((top c, front c) ∈ Gold.arcs g) then 0
  else Z_of_bool (bool_decide (ghead g (front c) ∈ stack c))
       + Z_of_bool (bool_decide (ghead g (front c) ∈ buffer c))
       + count_common (Gold.deps g (front c)) (stack c).

Definition cost_shift (c : Configuration) (g : GoldConfiguration) : Z :=
  foldl (λ cost k,
           cost + Z_of_bool (bool_decide (k = ghead g (front c)))
           + Z_of_bool (bool_decide (k ∈ Gold.deps g (front c))))
        0 (stack c).

Definition cost_reduce (c : Configuration) (g : GoldConfiguration) : Z :=
  count_common (Gold.deps g (top c)) (buffer c).

Definition cost (t : Transition) : Configuration → GoldConfiguration → Z :=
  match t with
  | Left_arc => cost_left
  | Right_arc => cost_right
  | Shift => cost_shift
  | Reduce => cost_reduce
  end.

(** ** The reads of the gold tree *)

Section reads.
Implicit Types (g : GoldConfiguration) (k h d : Z).

Lemma returns_gold_head g k h :
  head_of g !! k = Some h → returns (gold_head k) g h.
Proof. intros Hk. exists g. unfold gold_head. by rewrite Hk. Qed.

Lemma returns_gold_has_arc g h d :
  returns (gold_has_arc h d) g (bool_decide ((h, d) ∈ Gold.arcs g)).
Proof. by exists g. Qed.

Lemma returns_deps_of_get g k :
  returns (Gold.deps_of_get k) g (Gold.deps g k).
Proof. exists (touch k g). split; [apply deps_of_get_run|apply touch_equiv]. Qed.

Lemma ghead_Some g k h : head_of g !! k = Some h → ghead g k = h.
Proof. unfold ghead. by intros ->. Qed.

#[export] Instance ghead_proper : Proper ((≡) ==> (=) ==> (=)) ghead.
Proof. intros g g' Hg k ? <-. unfold ghead. by rewrite Hg. Qed.

End reads.

#[export] Instance cost_proper t c : Proper ((≡) ==> (=)) (cost t c).
Proof.
  intros g g' (Hh&Ha&Hd).
  destruct t; simpl;
    unfold cost_left, cost_right, cost_shift, cost_reduce, ghead;
    by rewrite ?Hh, ?Ha, ?Hd.
Qed.

Lemma count_common_nonneg xs ys : 0 ≤ count_common xs ys.
Proof. unfold count_common. lia. Qed.

Lemma shift_fold_nonneg g b l a :
  0 ≤ a →
  0 ≤ foldl (λ cost k, cost + Z_of_bool (bool_decide (k = ghead g b))
                       + Z_of_bool (bool_decide (k ∈ Gold.deps g b))) a l.
Proof.
  revert a. induction l as [|k l IH]; intros a Ha; simpl; [done|].
  apply IH. repeat case_bool_decide; simpl; lia.
Qed.

Lemma cost_shift_nonneg c g : 0 ≤ cost_shift c g.
Proof. by apply shift_fold_nonneg. Qed.

Lemma cost_nonneg t c g : 0 ≤ cost t c g.
Proof.
  destruct t; simpl; unfold cost_left, cost_right, cost_reduce;
    [..|apply cost_shift_nonneg|];
    pose proof count_common_nonneg; repeat case_bool_decide; simpl;
    try done; repeat (apply Z.add_nonneg_nonneg; try done).
Qed.

(** ** The cost functions return the costs *)

Section cost_runs.
Implicit Types (c : Configuration) (g : GoldConfiguration) (σ β : list Z).

Lemma left_arc_cost_returns c g σ s b β hs :
  stack c = σ ++ [s] → buffer c = b :: β → s ≠ ROOT →
  head_of g !! s = Some hs →
  returns (left_arc_cost c) g (cost_left c g).
Proof.
  intros Hs Hb Hroot Hhs. unfold left_arc_cost, cost_left, top, front.
  rewrite Hs, Hb, py_top_snoc, length_app. simpl.
  rbind ltac:(apply returns_assert; by rewrite !bool_decide_eq_true_2 by lia).
  rbind ltac:(apply returns_lift).
  rbind ltac:(apply returns_lift).
  rbind ltac:(apply returns_assert; by apply bool_decide_pack).
  rbind ltac:(apply returns_gold_has_arc).
  gold_rw. case_bool_decide; [apply returns_ret|].
  rbind ltac:(apply returns_gold_head; gold_rw; done).
  rbind ltac:(apply returns_deps_of_get).
  apply returns_ret_eq; [apply _|]. gold_rw. by erewrite ghead_Some.
Qed.

Lemma right_arc_cost_returns c g σ s b β hb :
  stack c = σ ++ [s] → buffer c = b :: β → b ≠ ROOT →
  head_of g !! b = Some hb →
  returns (right_arc_cost c) g (cost_right c g).
Proof.
  intros Hs Hb Hroot Hhb. unfold right_arc_cost, cost_right, top, front.
  rewrite Hs, Hb, py_top_snoc, length_app. simpl.
  rbind ltac:(apply returns_assert; by rewrite !bool_decide_eq_true_2 by lia).
  rbind ltac:(apply returns_lift).
  rbind ltac:(apply returns_lift).
  rbind ltac:(apply returns_assert; by apply bool_decide_pack).
  rbind ltac:(apply returns_gold_has_arc).
  gold_rw. case_bool_decide; [apply returns_ret|].
  rbind ltac:(apply returns_gold_head; gold_rw; done).
  rbind ltac:(apply returns_gold_head; gold_rw; done).
  rbind ltac:(apply returns_deps_of_get).
  apply returns_ret_eq; [apply _|]. gold_rw. by erewrite ghead_Some.
Qed.

Lemma shift_cost_returns c g b β hb :
  buffer c = b :: β → head_of g !! b = Some hb →
  returns (shift_cost c) g (cost_shift c g).
Proof.
  intros Hb Hhb. unfold shift_cost, cost_shift, front. rewrite Hb.
  rbind ltac:(apply returns_assert, bool_decide_pack; simpl; lia).
  rbind ltac:(apply returns_lift).
  rbind ltac:(apply returns_foldl
    with (pure := λ cost k, cost + Z_of_bool (bool_decide (k = ghead g b))
                   + Z_of_bool (bool_decide (k ∈ Gold.deps g b)))).
  - intros g' a k Hg' _.
    rbind ltac:(apply returns_gold_head; gold_rw; done).
    rbind ltac:(apply returns_deps_of_get).
    apply returns_ret_eq; [apply _|]. gold_rw. by erewrite ghead_Some.
  - apply returns_ret_eq; [apply _|]. by apply Z.max_r, shift_fold_nonneg.
Qed.

Lemma reduce_cost_returns c g σ s :
  stack c = σ ++ [s] → returns (reduce_cost c) g (cost_reduce c g).
Proof.
  intros Hs. unfold reduce_cost, cost_reduce, top.
  rewrite Hs, py_top_snoc, length_app. simpl.
  rbind ltac:(apply returns_assert; by rewrite !bool_decide_eq_true_2 by lia).
  rbind ltac:(apply returns_lift).
  rbind ltac:(apply returns_deps_of_get).
  apply returns_ret_eq; [apply _|]. by gold_rw.
Qed.

Lemma check_cost_returns t m (is_ok : gmap Z bool) g ok v :
  is_ok !! t = Some ok →
  (ok = true → ∀ g', g' ≡ g → returns m g' v) →
  returns (check_cost t m is_ok) g
    (if ok && bool_decide (v ≠ 0) then <[t := false]> is_ok else is_ok).
Proof.
  intros Ht Hm. unfold check_cost. rewrite Ht. simpl.
  rbind ltac:(apply returns_lift). destruct ok; simpl; [|apply returns_ret].
  rbind ltac:(by apply Hm). case_bool_decide; apply returns_ret.
Qed.

End cost_runs.

(** ** The dynamic oracle returns the legal transitions of cost zero *)

(** The gold tree has a head for every token of the configuration. *)
Definition gold_covers (g : GoldConfiguration) (c : Configuration) : Prop :=
  (∀ k, k ∈ buffer c → is_Some (head_of g !! k)) ∧
  (∀ k, k ∈ stack c → k ≠ ROOT → is_Some (head_of g !! k)).

Definition zero_cost (c : Configuration) (g : GoldConfiguration) (z : Z) : bool :=
  match decode z with
  | Some t => bool_decide (cost t c g = 0)
  | None => false
  end.

#[export] Instance gold_covers_proper : Proper ((≡) ==> (=) ==> iff) gold_covers.
Proof. intros g g' Hg c ? <-. unfold gold_covers. by rewrite (gold_equiv_head_of _ _ Hg). Qed.

Section dynamic.
Implicit Types (c : Configuration) (g : GoldConfiguration) (σ β : list Z).

Lemma left_cost_legal c g :
  gold_covers g c → left_ok c = true →
  ∀ g', g' ≡ g → returns (left_arc_cost c) g' (cost_left c g).
Proof.
  intros [_ Hst] (σ&s&b&β&Hs&Hb&Hroot&_)%left_ok_true g' Hg'.
  destruct (Hst s) as [hs Hhs]; [rewrite Hs; set_solver|done|].
  change (cost_left c g) with (cost Left_arc c g).
  rewrite <-(cost_proper Left_arc c _ _ Hg'). simpl.
  eapply left_arc_cost_returns; eauto. by gold_rw.
Qed.

Lemma right_cost_legal c g :
  gold_covers g c → right_ok c = true →
  ∀ g', g' ≡ g → returns (right_arc_cost c) g' (cost_right c g).
Proof.
  intros [Hbuf _] (σ&s&b&β&Hs&Hb&Hroot&_)%right_ok_true g' Hg'.
  destruct (Hbuf b) as [hb Hhb]; [rewrite Hb; set_solver|].
  change (cost_right c g) with (cost Right_arc c g).
  rewrite <-(cost_proper Right_arc c _ _ Hg'). simpl.
  eapply right_arc_cost_returns; eauto. by gold_rw.
Qed.

Lemma shift_cost_legal c g :
  gold_covers g c → shift_ok c = true →
  ∀ g', g' ≡ g → returns (shift_cost c) g' (cost_shift c g).
Proof.
  intros [Hbuf _] (b&β&Hb)%shift_ok_true g' Hg'.
  destruct (Hbuf b) as [hb Hhb]; [rewrite Hb; set_solver|].
  change (cost_shift c g) with (cost Shift c g).
  rewrite <-(cost_proper Shift c _ _ Hg'). simpl.
  eapply shift_cost_returns; eauto. by gold_rw.
Qed.

Lemma reduce_cost_legal c g :
  reduce_ok c = true →
  ∀ g', g' ≡ g → returns (reduce_cost c) g' (cost_reduce c g).
Proof.
  intros (σ&s&h&Hs&_)%reduce_ok_true g' Hg'.
  change (cost_reduce c g) with (cost Reduce c g).
  rewrite <-(cost_proper Reduce c _ _ Hg'). simpl.
  by eapply reduce_cost_returns.
Qed.

(** The transition [z] of code [t], when it is legal and costs nothing. *)
Definition keep (ok : bool) (v z : Z) : list Z :=
  if ok && bool_decide (v = 0) then [z] else [].

Lemma dynamic_oracle_returns_flags c g :
  gold_covers g c →
  returns (dynamic_oracle c) g
    (keep (left_ok c) (cost_left c g) LEFT
     ++ keep (right_ok c) (cost_right c g) RIGHT
     ++ keep (shift_ok c) (cost_shift c g) SHIFT
     ++ keep (reduce_ok c) (cost_reduce c g) REDUCE).
Proof.
  intros Hcov. unfold dynamic_oracle.
  rbind ltac:(eapply (check_cost_returns _ _ _ _ (left_ok c) (cost_left c g));
    [|intros ? g' ?; by apply (left_cost_legal c g)]).
  2: rbind ltac:(eapply (check_cost_returns _ _ _ _ (right_ok c) (cost_right c g));
    [|intros ? g' ?; apply (right_cost_legal c g); [done..|by etrans]]).
  3: rbind ltac:(eapply (check_cost_returns _ _ _ _ (shift_ok c) (cost_shift c g));
    [|intros ? g' ?; apply (shift_cost_legal c g); [done..|by etrans]]).
  4: rbind ltac:(eapply (check_cost_returns _ _ _ _ (reduce_ok c) (cost_reduce c g));
    [|intros ? g' ?; apply (reduce_cost_legal c g); [done|by etrans]]).
  5: apply returns_ret_eq; [apply _|]; unfold keep.
  all: rewrite get_legal_transitions_spec;
    destruct (left_ok c), (right_ok c), (shift_ok c), (reduce_ok c);
    simpl; repeat case_bool_decide; try done; vm_compute; reflexivity.
Qed.

Lemma keep_filter c g :
  keep (left_ok c) (cost_left c g) LEFT
  ++ keep (right_ok c) (cost_right c g) RIGHT
  ++ keep (shift_ok c) (cost_shift c g) SHIFT
  ++ keep (reduce_ok c) (cost_reduce c g) REDUCE
  = filter (λ z, zero_cost c g z = true) (get_legal_transitions c).
Proof.
  rewrite get_legal_transitions_spec. unfold keep, zero_cost.
  destruct (left_ok c), (right_ok c), (shift_ok c), (reduce_ok c); simpl;
    rewrite ?filter_cons, ?filter_nil; simpl;
    repeat (case_bool_decide; simpl); done.
Qed.

Lemma dynamic_oracle_returns c g :
  gold_covers g c →
  returns (dynamic_oracle c) g
    (filter (λ z, zero_cost c g z = true) (get_legal_transitions c)).
Proof. intros. rewrite <-keep_filter. by apply dynamic_oracle_returns_flags. Qed.

End dynamic.

(** ** The dynamic oracle on reachable configurations *)

Lemma reachable_gold_covers se c :
  reachable se c → gold_covers (get_gold_config se) c.
Proof.
  intros Hwf%reachable_wf_at. pose proof (wf_k _ _ _ Hwf). split.
  - intros k. rewrite (wf_buffer _ _ _ Hwf), elem_of_seqZ, get_gold_config_dom. lia.
  - intros k Hk Hroot. destruct (wf_stack _ _ _ Hwf) as (σ&Hσ&_&Hr).
    rewrite Hσ, elem_of_cons, Forall_forall in *. destruct Hk as [?|Hk]; [done|].
    apply Hr in Hk. apply get_gold_config_dom. lia.
Qed.

(** The configuration of the example sentence after the first SHIFT. *)
Definition example_shifted : Configuration :=
  mkConfiguration [] [ROOT; 0] [1; 2] example_sentence.

Lemma example_shifted_reachable : reachable example_sentence example_shifted.
Proof. by exists [Shift]. Qed.

(** The results of [dynamic_oracle] along the run [ts] from [c], the
    gold tree threaded through the calls as the object the driver
    holds. *)
Fixpoint dynamic_trace (ts : list Transition) (c : Configuration)
    (g : GoldConfiguration) : list (result (list Z)) :=
  match ts with
  | [] => []
  | t :: ts =>
      let '(r, g') := dynamic_oracle c g in
      r :: match step_fun t c with
           | Some c' => dynamic_trace ts c' g'
           | None => []
           end
  end.

(** C8: At every configuration reachable in a sentence, with the gold
    tree of that sentence, [dynamic_oracle] raises nothing and returns
    exactly the legal transitions whose cost is zero, in the order LEFT,
    RIGHT, SHIFT, REDUCE; the gold tree it leaves differs from the one
    it was given at most by empty [deps_of] entries. *)
Theorem dynamic_oracle_reachable se c :
  reachable se c →
  ∃ g', dynamic_oracle c (get_gold_config se)
        = (Ok (filter (λ z, zero_cost c (get_gold_config se) z = true)
                      (get_legal_transitions c)), g')
        ∧ g' ≡ get_gold_config se.
Proof. intros Hr. by apply dynamic_oracle_returns, reachable_gold_covers. Qed.

Lemma dynamic_oracle_reachable_witness :
  reachable example_sentence example_shifted ∧
  ∃ g', dynamic_oracle example_shifted (get_gold_config example_sentence)
        = (Ok (filter (λ z, zero_cost example_shifted
                              (get_gold_config example_sentence) z = true)
                      (get_legal_transitions example_shifted)), g')
        ∧ g' ≡ get_gold_config example_sentence.
Proof.
  split; [apply example_shifted_reachable|].
  apply (dynamic_oracle_reachable example_sentence example_shifted),
    example_shifted_reachable.
Defined.

Lemma dynamic_oracle_elem se c g' ts z :
  reachable se c →
  dynamic_oracle c (get_gold_config se) = (Ok ts, g') →
  z ∈ ts →
  z ∈ get_legal_transitions c ∧
  ∃ t, decode z = Some t ∧ cost t c (get_gold_config se) = 0.
Proof.
  intros Hr Hrun Hz.
  destruct (dynamic_oracle_returns c _ (reachable_gold_covers _ _ Hr))
    as (g''&Hrun'&_).
  rewrite Hrun in Hrun'. simplify_eq.
  apply list_elem_of_filter in Hz as [Hz ?]. split; [done|].
  unfold zero_cost in Hz. destruct (decode z) as [t|]; [|done].
  exists t. split; [done|]. by apply bool_decide_eq_true in Hz.
Qed.

(** The transitions [dynamic_oracle] returns at a reachable
    configuration are legal there, so each of them can be taken. *)
Theorem dynamic_oracle_legal se c g' ts z :
  reachable se c →
  dynamic_oracle c (get_gold_config se) = (Ok ts, g') →
  z ∈ ts →
  z ∈ get_legal_transitions c ∧
  ∃ t, decode z = Some t ∧ cost t c (get_gold_config se) = 0.
Proof. apply dynamic_oracle_elem. Qed.

Lemma dynamic_oracle_legal_witness :
  reachable example_sentence example_shifted ∧
  LEFT ∈ get_legal_transitions example_shifted ∧
  ∃ t, decode LEFT = Some t ∧
       cost t example_shifted (get_gold_config example_sentence) = 0.
Proof.
  split; [apply example_shifted_reachable|].
  apply (dynamic_oracle_legal example_sentence example_shifted
           (get_gold_config example_sentence) [LEFT] LEFT).
  - apply example_shifted_reachable.
  - vm_compute. reflexivity.
  - set_solver.
Defined.

(** The costs are sums of counts: at a configuration where SHIFT
    is legal, [shift_cost] returns the number of stack members that are
    the gold head or a gold dependent of the front of the buffer, which
    is never negative, so the clamp [max(0, cost)] changes nothing. *)
Theorem shift_cost_unclamped se c :
  reachable se c → shift_ok c = true →
  ∃ g', shift_cost c (get_gold_config se)
        = (Ok (cost_shift c (get_gold_config se)), g')
        ∧ g' ≡ get_gold_config se
        ∧ 0 ≤ cost_shift c (get_gold_config se).
Proof.
  intros Hr Hok.
  destruct (shift_cost_legal c _ (reachable_gold_covers _ _ Hr) Hok
              (get_gold_config se)) as (g'&?&?); [done|].
  exists g'. split_and!; [done..|apply cost_shift_nonneg].
Qed.

Lemma shift_cost_unclamped_witness :
  reachable example_sentence example_shifted ∧
  shift_ok example_shifted = true ∧
  ∃ g', shift_cost example_shifted (get_gold_config example_sentence)
        = (Ok (cost_shift example_shifted (get_gold_config example_sentence)), g')
        ∧ g' ≡ get_gold_config example_sentence
        ∧ 0 ≤ cost_shift example_shifted (get_gold_config example_sentence).
Proof.
  split; [apply example_shifted_reachable|]. split; [reflexivity|].
  apply (shift_cost_unclamped example_sentence example_shifted);
    [apply example_shifted_reachable|reflexivity].
Defined.

(** [reduce_cost] on a stack that is not empty: the value, and the gold
    tree after the read of [deps_of]. *)
Lemma reduce_cost_run c g σ s :
  stack c = σ ++ [s] →
  reduce_cost c g = (Ok (count_common (Gold.deps g s) (buffer c)), touch s g).
Proof.
  intros Hs. unfold reduce_cost. py_unfold.
  rewrite Hs, py_top_snoc, length_app. simpl.
  rewrite bool_decide_eq_true_2 by lia. simpl.
  by rewrite deps_of_get_run.
Qed.

(** C40: The cost functions write to the gold tree.  [deps_of] is a
    defaultdict, and [get_gold_config] gives it an entry for the tokens
    that have a dependent only.  For every sentence and every
    configuration with a stack top [s]: when some token hangs from [s]
    in the gold tree, [reduce_cost] returns the number of dependents of
    [s] in the buffer and leaves the gold tree as it is; when [s] is a
    leaf of the gold tree, [deps_of] has no entry for [s] before the
    call, and [reduce_cost] returns 0 and a gold tree in which [deps_of]
    maps [s] to the empty list. *)
Theorem reduce_cost_touches_gold se c σ s :
  stack c = σ ++ [s] →
  ((∃ d, head_of (get_gold_config se) !! d = Some s) →
   reduce_cost c (get_gold_config se)
   = (Ok (count_common (Gold.deps (get_gold_config se) s) (buffer c)),
      get_gold_config se)) ∧
  ((∀ d, head_of (get_gold_config se) !! d ≠ Some s) →
   deps_of (get_gold_config se) !! s = None ∧
   reduce_cost c (get_gold_config se)
   = (Ok 0, mkGold (head_of (get_gold_config se))
                   (<[s := []]> (deps_of (get_gold_config se)))
                   (Gold.arcs (get_gold_config se)))).
Proof.
  intros Hs. rewrite (reduce_cost_run c _ σ s Hs). split.
  - intros [d Hd].
    destruct (deps_of (get_gold_config se) !! s) as [l|] eqn:Hl.
    + by rewrite (touch_present _ _ l).
    + by destruct (proj1 (get_gold_config_deps_of se s) Hl d).
  - intros Hleaf%get_gold_config_deps_of. split; [done|].
    rewrite touch_missing by done. unfold Gold.deps. by rewrite Hleaf.
Qed.

Lemma reduce_cost_touches_gold_witness :
  stack example_shifted = [ROOT] ++ [0] ∧
  ((∃ d, head_of (get_gold_config example_sentence) !! d = Some 0) →
   reduce_cost example_shifted (get_gold_config example_sentence)
   = (Ok (count_common (Gold.deps (get_gold_config example_sentence) 0)
                       (buffer example_shifted)),
      get_gold_config example_sentence)) ∧
  ((∀ d, head_of (get_gold_config example_sentence) !! d ≠ Some 0) →
   deps_of (get_gold_config example_sentence) !! 0 = None ∧
   reduce_cost example_shifted (get_gold_config example_sentence)
   = (Ok 0, mkGold (head_of (get_gold_config example_sentence))
                   (<[0 := []]> (deps_of (get_gold_config example_sentence)))
                   (Gold.arcs (get_gold_config example_sentence)))).
Proof.
  split; [done|].
  by apply (reduce_cost_touches_gold example_sentence example_shifted [ROOT] 0).
Defined.

(** In the example token 0 is a leaf: after [reduce_cost] with token 0
    on top of the stack the gold tree has an entry it did not have, and
    is equivalent to the tree before. *)
Example reduce_cost_example :
  deps_of (get_gold_config example_sentence) !! 0 = None ∧
  reduce_cost example_shifted (get_gold_config example_sentence)
  = (Ok 0, touch 0 (get_gold_config example_sentence)) ∧
  deps_of (touch 0 (get_gold_config example_sentence)) !! 0 = Some [] ∧
  touch 0 (get_gold_config example_sentence) ≡ get_gold_config example_sentence.
Proof. split_and!; [by vm_compute..|apply touch_equiv]. Qed.

(** Along the run of the specification's end-to-end scenario the
    dynamic oracle returns, at every step, exactly one transition: the
    one the static oracle chooses there. *)
Example dynamic_oracle_example :
  dynamic_trace example_run (get_initial_config example_sentence)
                (get_gold_config example_sentence)
  = [Ok [SHIFT]; Ok [LEFT]; Ok [RIGHT]; Ok [RIGHT]; Ok [REDUCE]; Ok [REDUCE]].
Proof. vm_compute. reflexivity. Qed.
