(* ===== verification/Agreement.v ===== *)
(** * The two oracles agree

    On the path the static oracle follows on a projective tree, the
    transition it names costs nothing: [dynamic_oracle] (src/arc_eager.py,
    lines 212-232) returns it among its zero-cost transitions, and so
    never returns an empty list there.  Off that path the dynamic oracle
    can return the empty list at a configuration that is not finished. *)

From stdpp Require Import base tactics option list numbers gmap strings.
From S2P Require Import Prelude Config Transitions Machine Projectivity Tree.
From S2P Require Import StaticOracle OracleCorrect DynamicOracle.

#[local] Open Scope Z_scope.

(** ** Costs that are zero *)

Lemma count_common_zero xs ys :
  (∀ x, x ∈ xs → x ∉ ys) → count_common xs ys = 0.
Proof.
  intros Hdisj. unfold count_common.
  destruct (filter _ _) as [|x l] eqn:E; [done|].
  assert (x ∈ filter (λ x, x ∈ ys) (remove_dups xs)) as Hx by (rewrite E; left).
  apply list_elem_of_filter in Hx as [Hy Hx]. rewrite elem_of_remove_dups in Hx.
  destruct (Hdisj x Hx Hy).
Qed.

Lemma shift_fold_zero g b l :
  (∀ j, j ∈ l → j ≠ ghead g b ∧ j ∉ Gold.deps g b) →
  foldl (λ cost k, cost + Z_of_bool (bool_decide (k = ghead g b))
                   + Z_of_bool (bool_decide (k ∈ Gold.deps g b))) 0 l = 0.
Proof.
  induction l as [|j l IH] using rev_ind; intros Hl; [done|].
  rewrite foldl_snoc, IH by set_solver.
  destruct (Hl j) as [??]; [set_solver|].
  by rewrite !bool_decide_eq_false_2.
Qed.

Section agreement.
Context (se : list Token) (Htree : tree (get_gold_config se))
  (Hproj : projective (get_gold_config se)).
#[local] Abbreviation g := (get_gold_config se).
Implicit Types (c : Configuration) (t : Transition) (k : Z).

(** The transition of the rule that applies costs nothing. *)
Lemma oracle_case_cost k c t :
  oracle_inv se k c → oracle_case se c t → cost t c g = 0.
Proof.
  intros Hinv Hcase. pose proof (oi_wf _ _ _ Hinv) as Hwf.
  pose proof (get_gold_config_consistent se) as Hg.
  destruct Hcase as [σ s Hst Hbf Hroot|σ s b β Hst Hbf Hroot Hs
                    |σ s b β Hst Hbf Hl Hb
                    |σ s b β x y Hst Hbf Hy Hmin Hmax Hsb Hbs
                    |σ s b β hb Hst Hbf Hl Hb Hne Hge Hdeps]; simpl;
    unfold cost_reduce, cost_left, cost_right, cost_shift, top, front;
    rewrite ?Hst, ?Hbf, ?py_top_snoc; simpl.
  - apply count_common_zero. intros ?? []%elem_of_nil.
  - by rewrite bool_decide_eq_true_2 by by apply (gc_arcs _ Hg).
  - by rewrite bool_decide_eq_true_2 by by apply (gc_arcs _ Hg).
  - destruct (covered_bounds se Htree Hproj k c σ s b β x y) as (_&_&Hd);
      [done..|].
    apply count_common_zero. intros d Hds%(gc_deps _ Hg)%Hd.
    rewrite <-Hbf, (wf_buffer _ _ _ Hwf), elem_of_seqZ. lia.
  - destruct c as [a st bf se']. simplify_eq/=.
    destruct (inv_shift se Htree Hproj k a σ s b β se' hb Hinv) as [Hlt _];
      [done..|].
    destruct (wf_buffer_cons _ _ _ _ _ Hwf eq_refl) as (->&_&_).
    apply shift_fold_zero. intros j Hj. rewrite (ghead_Some _ _ hb) by done.
    split.
    + apply (wf_stack_mem _ _ _ Hwf) in Hj. pose proof (wf_k _ _ _ Hwf). root_lia.
    + intros Hjb%(gc_deps _ Hg).
      apply elem_of_app in Hj as [Hj| ->%list_elem_of_singleton].
      * apply (wf_stack_below _ _ _ Hwf σ s) in Hj; [|done]. by apply (Hdeps j).
      * apply Hl. split; [|done]. apply gold_key_range in Hjb. root_lia.
Qed.

(** On the oracle's path, the transition the static oracle names is
    among those the dynamic oracle returns. *)
Lemma static_choice_zero_cost c :
  oracle_path se c → is_finished c = false →
  static_choice c g ∈ get_legal_transitions c ∧
  zero_cost c g (static_choice c g) = true.
Proof.
  intros Hp Hfin. destruct (oracle_path_inv se Htree Hproj c Hp) as [k Hinv].
  destruct (static_choice_case se k c (oi_wf _ _ _ Hinv) Hfin) as (t&Ht&Hcase).
  destruct (oracle_case_step se Htree Hproj k c t Hinv Hcase) as (c'&Hstep&_).
  rewrite Ht. split; [by apply step_sound in Hstep as [? _]|].
  unfold zero_cost. rewrite decode_code.
  apply bool_decide_eq_true. by eapply oracle_case_cost.
Qed.

End agreement.

(** ** The theorems on the two oracles *)

(** C20: The oracles share one gold tree, and the dynamic oracle writes
    to it.  On a reachable configuration, a gold tree that differs from
    the one built from the sentence by empty [deps_of] entries, as the
    cost functions leave it, gives the same result of [static_oracle]
    and of [dynamic_oracle], and is left equivalent again: the oracles
    can be called any number of times, in any order. *)
Theorem oracles_stable se c g' :
  reachable se c → g' ≡ get_gold_config se →
  static_oracle c g' = static_oracle c (get_gold_config se) ∧
  (dynamic_oracle c g').1 = (dynamic_oracle c (get_gold_config se)).1 ∧
  (dynamic_oracle c g').2 ≡ get_gold_config se.
Proof.
  intros Hr Hg. pose proof (reachable_gold_covers _ _ Hr) as Hcov.
  destruct (dynamic_oracle_returns c _ Hcov) as (g1&Hrun1&_).
  rewrite <-Hg in Hcov.
  destruct (dynamic_oracle_returns c _ Hcov) as (g2&Hrun2&Hg2).
  rewrite Hrun1, Hrun2. simpl. split_and!; [by rewrite Hg| |by rewrite Hg2].
  f_equal. apply list_filter_iff. intros z. unfold zero_cost.
  destruct (decode z) as [t|]; [|done]. by rewrite (cost_proper t c _ _ Hg).
Qed.

Lemma oracles_stable_witness :
  reachable example_sentence example_shifted ∧
  touch 0 (get_gold_config example_sentence) ≡ get_gold_config example_sentence ∧
  static_oracle example_shifted (touch 0 (get_gold_config example_sentence))
  = static_oracle example_shifted (get_gold_config example_sentence) ∧
  (dynamic_oracle example_shifted (touch 0 (get_gold_config example_sentence))).1
  = (dynamic_oracle example_shifted (get_gold_config example_sentence)).1 ∧
  (dynamic_oracle example_shifted (touch 0 (get_gold_config example_sentence))).2
  ≡ get_gold_config example_sentence.
Proof.
  split; [apply example_shifted_reachable|]. split; [apply touch_equiv|].
  apply (oracles_stable example_sentence example_shifted _
           example_shifted_reachable (touch_equiv 0 _)).
Defined.

(** C13: The static oracle's transition is always among the dynamic
    oracle's.  At every configuration on the static oracle's path for a
    projective tree, and not yet finished, [dynamic_oracle] returns a
    list that contains the transition [static_oracle] names; so it is
    never empty there. *)
Theorem static_in_dynamic se c :
  well_formed se → projective (get_gold_config se) →
  oracle_path se c → is_finished c = false →
  ∃ z zs g',
    static_oracle c (get_gold_config se) = Ok (Some [z]) ∧
    dynamic_oracle c (get_gold_config se) = (Ok zs, g') ∧
    z ∈ zs.
Proof.
  intros Htree%well_formed_tree Hproj Hp Hfin.
  pose proof (oracle_path_reachable se Htree Hproj c Hp) as Hr.
  destruct (static_choice_zero_cost se Htree Hproj c Hp Hfin) as [Hl Hz].
  destruct (dynamic_oracle_returns c _ (reachable_gold_covers _ _ Hr))
    as (g'&Hrun&_).
  eexists _, _, g'. split_and!; [by apply static_oracle_choice|done|].
  by apply list_elem_of_filter.
Qed.

Lemma static_in_dynamic_witness :
  well_formed example_sentence ∧
  projective (get_gold_config example_sentence) ∧
  oracle_path example_sentence (get_initial_config example_sentence) ∧
  is_finished (get_initial_config example_sentence) = false ∧
  ∃ z zs g',
    static_oracle (get_initial_config example_sentence)
      (get_gold_config example_sentence) = Ok (Some [z]) ∧
    dynamic_oracle (get_initial_config example_sentence)
      (get_gold_config example_sentence) = (Ok zs, g') ∧
    z ∈ zs.
Proof.
  split; [apply example_well_formed|]. split; [apply example_projective|].
  split; [constructor|]. split; [reflexivity|].
  apply (static_in_dynamic example_sentence _ example_well_formed
           example_projective (op_initial _) eq_refl).
Defined.

(** Off the oracle's path the dynamic oracle can come back empty: it
    returns legal transitions only, and a configuration in which every
    token is shifted and none attached has none.  The one-token
    sentence whose token hangs from ROOT is a projective tree; after
    SHIFT the configuration is reachable and not finished, and
    [dynamic_oracle] returns the empty list.  It also returns the empty
    list at the finished configuration of the example. *)
Example dynamic_oracle_empty :
  well_formed dead_end_sentence ∧
  projective (get_gold_config dead_end_sentence) ∧
  reachable dead_end_sentence dead_end ∧
  is_finished dead_end = false ∧
  (dynamic_oracle dead_end (get_gold_config dead_end_sentence)).1 = Ok [] ∧
  (dynamic_oracle example_final (get_gold_config example_sentence)).1 = Ok [].
Proof.
  split_and!; [by apply well_formedb_sound|by apply projectiveb_spec
              |apply dead_end_reachable|done|vm_compute; reflexivity..].
Qed.
