(* ===== verification/Costs.v ===== *)
(** * What a cost of zero means

    The cost functions of the dynamic oracle (src/arc_eager.py, lines
    234-292) count gold arcs that a transition makes unreachable, in
    the sense of [Reach.arc_reachable].

    The theorem: on a projective tree a transition of cost zero keeps
    every reachable gold arc reachable.  The example [astray] shows a
    cost that counts an arc lost before; [Loss] says by how much the
    costs overcount. *)

From stdpp Require Import base tactics option list numbers gmap strings.
From S2P Require Import Prelude Config Transitions Machine Projectivity Tree.
From S2P Require Import StaticOracle OracleCorrect Reach DynamicOracle.

#[local] Open Scope Z_scope.

(** ** Costs that are zero *)

Lemma count_common_zero_inv xs ys x :
  count_common xs ys = 0 → x ∈ xs → x ∉ ys.
Proof.
  unfold count_common. intros Hz Hx Hy.
  assert (x ∈ filter (λ x, x ∈ ys) (remove_dups xs)) as Hin
    by by apply list_elem_of_filter; rewrite elem_of_remove_dups.
  destruct (filter _ _); [by apply elem_of_nil in Hin|simpl in Hz; lia].
Qed.

Lemma shift_fold_ge g b l a :
  a ≤ foldl (λ cost k, cost + Z_of_bool (bool_decide (k = ghead g b))
                       + Z_of_bool (bool_decide (k ∈ Gold.deps g b))) a l.
Proof.
  revert a. induction l as [|k l IH]; intros a; simpl; [lia|].
  etrans; [|apply IH]. repeat case_bool_decide; simpl; lia.
Qed.

Lemma shift_fold_zero_inv g b l a j :
  0 ≤ a →
  foldl (λ cost k, cost + Z_of_bool (bool_decide (k = ghead g b))
                   + Z_of_bool (bool_decide (k ∈ Gold.deps g b))) a l = 0 →
  j ∈ l → j ≠ ghead g b ∧ j ∉ Gold.deps g b.
Proof.
  revert a. induction l as [|k l IH]; intros a Ha Hz Hj;
    [by apply elem_of_nil in Hj|].
  simpl in Hz.
  match type of Hz with
  | foldl _ ?acc l = 0 => pose proof (shift_fold_ge g b l acc) as Hge
  end.
  rewrite Hz in Hge.
  apply elem_of_cons in Hj as [->|Hj].
  - revert Hge. repeat case_bool_decide; simpl; intros; [lia..|done].
  - eapply IH; [|done..]. repeat case_bool_decide; simpl; lia.
Qed.

(** ** A transition of cost zero loses no gold arc *)

Section safe.
Context (se : list Token) (Htree : tree (get_gold_config se))
  (Hproj : projective (get_gold_config se)).
#[local] Abbreviation g := (get_gold_config se).
#[local] Abbreviation n := (Z.of_nat (length se)).
Implicit Types (c : Configuration) (a : list (Z * Z)) (σ β : list Z)
  (k s b d h : Z).

Lemma wf_stack_buffer_disjoint k c x :
  wf_at n k c → x ∈ stack c → x ∈ buffer c → False.
Proof.
  intros Hwf [->|?]%(wf_stack_mem _ _ _ Hwf).
  all: rewrite (wf_buffer _ _ _ Hwf), elem_of_seqZ.
  all: pose proof (wf_k _ _ _ Hwf); root_lia.
Qed.

Lemma wf_front_not_behind k c b β : wf_at n k c → buffer c = b :: β → b ∉ β.
Proof.
  intros Hwf Hb. destruct (wf_buffer_cons _ _ _ _ _ Hwf Hb) as (->&->&_).
  rewrite elem_of_seqZ. lia.
Qed.

Lemma gold_arc_head h d : (h, d) ∈ Gold.arcs g ↔ head_of g !! d = Some h.
Proof. apply (gc_arcs _ (get_gold_config_consistent se)). Qed.

Lemma gold_dep_head h d : d ∈ Gold.deps g h ↔ head_of g !! d = Some h.
Proof. apply (gc_deps _ (get_gold_config_consistent se)). Qed.

(** For a gold arc, the side conditions of [arc_reachable] hold. *)
Lemma arc_reachable_gold c h d :
  head_of g !! d = Some h →
  arc_reachable c h d ↔
  (h, d) ∈ arcs c ∨
  ((∀ h', (h', d) ∉ arcs c) ∧
   ((h ∈ stack c ∧ d ∈ buffer c) ∨
    (h ∈ buffer c ∧ d ∈ stack c) ∨
    (h ∈ buffer c ∧ d ∈ buffer c))).
Proof.
  intros Hd. unfold arc_reachable.
  assert (d ≠ ROOT) by (apply gold_key_range in Hd; root_lia).
  assert (h ≠ d) by (intros ->; by apply (tree_no_loop g Htree) in Hd).
  tauto.
Qed.

Ltac gold_reachable Hd Hr :=
  apply (arc_reachable_gold _ _ _ Hd) in Hr;
  apply (arc_reachable_gold _ _ _ Hd).

Lemma left_zero_safe k a σ s b β se' h d :
  let c := mkConfiguration a (σ ++ [s]) (b :: β) se' in
  wf_at n k c → cost_left c g = 0 → head_of g !! d = Some h →
  arc_reachable c h d →
  arc_reachable (mkConfiguration (a ++ [(b, s)]) σ (b :: β) se') h d.
Proof.
  intros c Hwf Hcost Hd Hr. gold_reachable Hd Hr.
  destruct Hr as [Ha|[Hp Hpos]]; [left; set_solver|].
  pose proof (wf_stack_buffer_disjoint k c) as Hdisj.
  pose proof (wf_stack_not_below _ _ _ Hwf σ s eq_refl) as Hs.
  unfold cost_left, top, front in Hcost. simpl in *.
  rewrite py_top_snoc in Hcost. simpl in Hcost.
  case_bool_decide as Hgold; [apply gold_arc_head in Hgold|].
  - destruct (decide (d = s)) as [->|Hne]; [left; simplify_eq; set_solver|].
    right. split; [set_solver|].
    destruct Hpos as [[Hh ?]|[[??]|?]]; [left|set_solver..].
    apply elem_of_app in Hh as [?| ->%list_elem_of_singleton]; [done|].
    exfalso. destruct (wf_buffer_cons _ _ _ _ _ Hwf eq_refl) as (->&->&_).
    destruct (wf_stack_top _ _ _ Hwf σ s eq_refl) as [->|?];
      [by rewrite (tree_root_no_head g Htree) in Hgold|].
    apply (no_arc_back g Htree Hproj s d k); [done..|].
    assert (k ≠ d) by (intros <-; by eapply (tree_no_2cycle g Htree)).
    assert (d ∈ seqZ (k + 1) (n - (k + 1))) as ?%elem_of_seqZ by set_solver.
    lia.
  - assert (∀ x, x ∈ ghead g s :: Gold.deps g s → x ∉ b :: β) as Hno
      by (intros x; by apply count_common_zero_inv).
    destruct (decide (d = s)) as [->|Hne].
    { exfalso. apply (Hno h); [rewrite (ghead_Some _ _ h) by done; left|].
      destruct Hpos as [[? ?]|[[??]|[??]]]; [|done|done]. by destruct (Hdisj s); simpl; set_solver. }
    right. split; [set_solver|].
    destruct Hpos as [[Hh ?]|[[??]|?]]; [left|set_solver..].
    apply elem_of_app in Hh as [?| ->%list_elem_of_singleton]; [done|].
    exfalso. apply (Hno d); [right; by apply gold_dep_head|done].
Qed.

Lemma right_zero_safe k a σ s b β se' h d :
  let c := mkConfiguration a (σ ++ [s]) (b :: β) se' in
  wf_at n k c → cost_right c g = 0 → head_of g !! d = Some h →
  arc_reachable c h d →
  arc_reachable (mkConfiguration (a ++ [(s, b)]) (σ ++ [s; b]) β se') h d.
Proof.
  intros c Hwf Hcost Hd Hr. gold_reachable Hd Hr.
  destruct Hr as [Ha|[Hp Hpos]]; [left; set_solver|].
  pose proof (wf_stack_buffer_disjoint k c) as Hdisj.
  pose proof (wf_front_not_behind k c b β Hwf eq_refl) as Hb.
  unfold cost_right, top, front in Hcost. simpl in *.
  rewrite py_top_snoc in Hcost. simpl in Hcost.
  destruct (decide (d = b)) as [->|Hne].
  { rewrite (ghead_Some _ _ h) in Hcost by done.
    case_bool_decide as Hgold;
      [apply gold_arc_head in Hgold; left; simplify_eq; set_solver|].
    exfalso. pose proof (count_common_nonneg (Gold.deps g b) (σ ++ [s])).
    destruct Hpos as [[? _]|[[_ ?]|[? _]]]; [|by destruct (Hdisj b); set_solver|].
    - rewrite (bool_decide_eq_true_2 (h ∈ σ ++ [s])) in Hcost by done.
      revert Hcost. case_bool_decide; simpl; lia.
    - rewrite (bool_decide_eq_true_2 (h ∈ b :: β)) in Hcost by done.
      revert Hcost. case_bool_decide; simpl; lia. }
  right. split; [set_solver|].
  destruct Hpos as [[? ?]|[[Hh ?]|[Hh ?]]]; [set_solver| |set_solver].
  apply elem_of_cons in Hh as [->|?]; [exfalso|set_solver].
  case_bool_decide as Hgold; [apply gold_arc_head in Hgold|].
  - destruct (wf_buffer_cons _ _ _ _ _ Hwf eq_refl) as (->&_&_).
    assert (d ≠ s) by (intros ->; by eapply (tree_no_2cycle g Htree)).
    assert (d < s) by (apply (wf_stack_below _ _ _ Hwf σ s); set_solver).
    pose proof (wf_stack_top _ _ _ Hwf σ s eq_refl).
    apply gold_key_range in Hd as Hr.
    apply (no_arc_back g Htree Hproj k d s); [done..|root_lia].
  - apply (count_common_zero_inv (Gold.deps g b) (σ ++ [s]) d);
      [|by apply gold_dep_head|done].
    pose proof (count_common_nonneg (Gold.deps g b) (σ ++ [s])).
    revert Hcost. repeat case_bool_decide; simpl; lia.
Qed.

Lemma shift_zero_safe k a σ b β se' h d :
  let c := mkConfiguration a σ (b :: β) se' in
  wf_at n k c → cost_shift c g = 0 → head_of g !! d = Some h →
  arc_reachable c h d →
  arc_reachable (mkConfiguration a (σ ++ [b]) β se') h d.
Proof.
  intros c Hwf Hcost Hd Hr. gold_reachable Hd Hr.
  destruct Hr as [Ha|[Hp Hpos]]; [by left|].
  pose proof (wf_stack_buffer_disjoint k c) as Hdisj.
  assert (∀ j, j ∈ σ → j ≠ ghead g b ∧ j ∉ Gold.deps g b) as Hno
    by (intros j; by apply (shift_fold_zero_inv g b σ 0)).
  right. split; [done|]. simpl in *.
  destruct Hpos as [[Hh Hdb]|[[Hh Hds]|[Hh Hdb]]].
  - apply elem_of_cons in Hdb as [->|?]; [exfalso|set_solver].
    destruct (Hno h Hh) as [Hne _]. by rewrite (ghead_Some _ _ h) in Hne.
  - apply elem_of_cons in Hh as [->|?]; [exfalso|set_solver].
    destruct (Hno d Hds) as [_ Hnd]. by apply Hnd, gold_dep_head.
  - apply elem_of_cons in Hh as [->|?], Hdb as [->|?]; [|set_solver..].
    by apply (tree_no_loop g Htree) in Hd.
Qed.

Lemma reduce_zero_safe k a σ s β se' hs h d :
  let c := mkConfiguration a (σ ++ [s]) β se' in
  wf_at n k c → (hs, s) ∈ a → cost_reduce c g = 0 →
  head_of g !! d = Some h → arc_reachable c h d →
  arc_reachable (mkConfiguration a σ β se') h d.
Proof.
  intros c Hwf Hs Hcost Hd Hr. gold_reachable Hd Hr.
  destruct Hr as [Ha|[Hp Hpos]]; [by left|].
  unfold cost_reduce, top in Hcost. simpl in *. rewrite py_top_snoc in Hcost.
  right. split; [done|].
  destruct Hpos as [[Hh ?]|[[? Hds]|?]]; [left|right; left|set_solver].
  - apply elem_of_app in Hh as [?| ->%list_elem_of_singleton]; [done|].
    exfalso. by apply (count_common_zero_inv (Gold.deps g s) β d);
      [|apply gold_dep_head|].
  - apply elem_of_app in Hds as [?| ->%list_elem_of_singleton]; [done|].
    by destruct (Hp hs).
Qed.

(** Whatever the transition: one step of cost zero keeps every
    reachable gold arc reachable. *)
Lemma zero_cost_step_safe k t c c' h d :
  wf_at n k c → step t c c' → cost t c g = 0 →
  head_of g !! d = Some h → arc_reachable c h d → arc_reachable c' h d.
Proof.
  intros Hwf Hstep. destruct Hstep; simpl.
  - by eapply left_zero_safe.
  - by eapply right_zero_safe.
  - by eapply shift_zero_safe.
  - by eapply reduce_zero_safe.
Qed.

End safe.

(** ** A configuration off the oracle's path *)

(** Three tokens with gold heads ROOT, 2, 0. *)
Definition astray_sentence : list Token :=
  [ mkToken "a" "V" ROOT "x"; mkToken "b" "N" 2 "x"; mkToken "c" "N" 0 "x" ].

(** After SHIFT, LEFT, RIGHT: token 0 hangs from token 1 and token 1
    from ROOT, both wrongly. *)
Definition astray : Configuration :=
  mkConfiguration [(1, 0); (ROOT, 1)] [ROOT; 1] [2] astray_sentence.

Lemma astray_reachable : reachable astray_sentence astray.
Proof. by exists [Shift; Left_arc; Right_arc]. Qed.

Lemma astray_nothing_reachable h d :
  (h, d) ∈ Gold.arcs (get_gold_config astray_sentence) →
  ¬ arc_reachable astray h d.
Proof.
  intros Hg%gold_arc_head. rewrite get_gold_config_head_of in Hg.
  case_decide; [|done]. unfold arc_reachable, astray. simpl.
  destruct (Z.to_nat d) as [|[|[|]]] eqn:E; simplify_eq/=;
    [replace d with 0 by lia|replace d with 1 by lia|replace d with 2 by lia].
  - intros [?|[Hp _]]; [set_solver by root_lia|destruct (Hp 1); set_solver].
  - intros [?|[Hp _]]; [set_solver by root_lia|destruct (Hp ROOT); set_solver].
  - intros [?|[_ ?]]; set_solver by root_lia.
Qed.

(** ** The theorems of the costs *)

(** C10: A transition the dynamic oracle returns loses no gold arc.  On
    a reachable configuration of a sentence whose annotation is a
    projective tree, take a transition that [dynamic_oracle] returned:
    every gold arc that some run of legal transitions could build
    before can still be built by some run after it. *)
Theorem dynamic_oracle_safe se c zs g' z c' h d :
  well_formed se → projective (get_gold_config se) → reachable se c →
  dynamic_oracle c (get_gold_config se) = (Ok zs, g') → z ∈ zs →
  take_transition the_funcs z c = (Ok (), c') →
  (h, d) ∈ Gold.arcs (get_gold_config se) →
  (∃ ts c1, steps_fun ts c = Some c1 ∧ (h, d) ∈ arcs c1) →
  ∃ ts c2, steps_fun ts c' = Some c2 ∧ (h, d) ∈ arcs c2.
Proof.
  intros Htree%well_formed_tree Hproj Hr Hrun Hz Htake Hg%gold_arc_head.
  destruct (dynamic_oracle_elem se c g' zs z Hr Hrun Hz) as (Hl&t&Ht&Hcost).
  apply code_decode in Ht as <-.
  pose proof (step_complete _ _ _ Hl Htake) as Hstep.
  rewrite <-!arc_reachable_runs by eauto using reachable_step.
  by eapply (zero_cost_step_safe se Htree Hproj); [by apply reachable_wf_at|..].
Qed.

Lemma dynamic_oracle_safe_witness :
  well_formed astray_sentence ∧
  projective (get_gold_config astray_sentence) ∧
  reachable astray_sentence (get_initial_config astray_sentence) ∧
  dynamic_oracle (get_initial_config astray_sentence)
    (get_gold_config astray_sentence)
  = (Ok [RIGHT], touch 0 (get_gold_config astray_sentence)) ∧
  RIGHT ∈ [RIGHT] ∧
  take_transition the_funcs RIGHT (get_initial_config astray_sentence)
  = (Ok (), mkConfiguration [(ROOT, 0)] [ROOT; 0] [1; 2] astray_sentence) ∧
  (0, 2) ∈ Gold.arcs (get_gold_config astray_sentence) ∧
  (∃ ts c1, steps_fun ts (get_initial_config astray_sentence) = Some c1 ∧
            (0, 2) ∈ arcs c1) ∧
  ∃ ts c2,
    steps_fun ts (mkConfiguration [(ROOT, 0)] [ROOT; 0] [1; 2] astray_sentence)
    = Some c2 ∧ (0, 2) ∈ arcs c2.
Proof.
  assert (∃ ts c1, steps_fun ts (get_initial_config astray_sentence) = Some c1 ∧
                   (0, 2) ∈ arcs c1) as Hreach.
  { exists [Right_arc; Shift; Left_arc; Right_arc]. eexists.
    split; [reflexivity|]. set_solver. }
  split_and!;
    [by apply well_formedb_sound|by apply projectiveb_spec
    |apply reachable_initial|vm_compute; reflexivity|set_solver
    |reflexivity|by apply gold_arc_head|done|].
  apply (dynamic_oracle_safe astray_sentence
           (get_initial_config astray_sentence) [RIGHT]
           (touch 0 (get_gold_config astray_sentence)) RIGHT _ 0 2);
    [by apply well_formedb_sound|by apply projectiveb_spec
    |apply reachable_initial|vm_compute; reflexivity|set_solver
    |reflexivity|by apply gold_arc_head|done].
Defined.

(** The costs overcount.  In the configuration reached by SHIFT,
    LEFT, RIGHT on the tree with heads ROOT, 2, 0, no gold arc is
    reachable any more, so no transition can lose one; RIGHT is legal,
    [right_arc_cost] is 1 (it counts the gold arc (2,1), lost when token
    1 was attached to ROOT), and [dynamic_oracle] returns REDUCE only. *)
Example cost_overcounts :
  well_formed astray_sentence ∧
  projective (get_gold_config astray_sentence) ∧
  reachable astray_sentence astray ∧
  (∀ h d, (h, d) ∈ Gold.arcs (get_gold_config astray_sentence) →
          ¬ arc_reachable astray h d) ∧
  RIGHT ∈ get_legal_transitions astray ∧
  (right_arc_cost astray (get_gold_config astray_sentence)).1 = Ok 1 ∧
  (dynamic_oracle astray (get_gold_config astray_sentence)).1 = Ok [REDUCE].
Proof.
  split_and!;
    [by apply well_formedb_sound|by apply projectiveb_spec
    |apply astray_reachable|apply astray_nothing_reachable
    |by apply (bool_decide_unpack _)|vm_compute; reflexivity..].
Qed.
