(* ===== verification/Driver.v ===== *)
(** * The arc-eager system behind the driver

    The engine of [Transitions] is an instance of the interface
    [ArcSystem]; the static oracle is a policy for the driver of
    [ArcSystem], and the driver with that policy parses every
    projective tree.  Whatever the policy, a parse the driver
    completes is a projective tree. *)

From stdpp Require Import base tactics option list numbers gmap strings.
From S2P Require Import Prelude ArcSystem Config Transitions Machine.
From S2P Require Import Projectivity Tree StaticOracle OracleCorrect Reach Forest.

#[local] Open Scope Z_scope.

(** ** The instance *)

(** The class [ArcEager] (src/arc_eager.py, line 32), once its
    constructor has filled the handler table, as the system a driver
    calls: its static methods [get_legal_transitions],
    [take_transition] and [is_finished], with the measure of [Machine]
    as the proof that a legal transition applies. *)
#[export] Instance ArcEager : ArcSystem Configuration := {|
  sys_legal := get_legal_transitions;
  sys_take := take_transition the_funcs;
  sys_finished := is_finished;
  sys_measure := measure;
  sys_take_legal c t := legal_take_measure t c
|}.

(** The static oracle as a policy: the transition in the list it
    returns. *)
Definition static_policy (gold_config : GoldConfiguration)
    (c : Configuration) : result (option Z) :=
  o ← static_oracle c gold_config; mret (o ≫= head).

(** ** The driver on the arc-eager system *)

Section driver.
Variable choose : Configuration → result (option Z).
Implicit Types (c : Configuration) (se : list Token) (ts : list Transition).

Lemma sys_run_steps zs c c' :
  sys_run zs c c' → ∃ ts, zs = code <$> ts ∧ steps_fun ts c = Some c'.
Proof.
  induction 1 as [c|z zs c c1 c2 Hl Ht _ (ts&->&Hs)]; [by exists []|].
  simpl in Hl, Ht. destruct (decode z) as [t|] eqn:Hd.
  - apply code_decode in Hd as <-. exists (t :: ts). split; [done|].
    apply steps_fun_Some. apply steps_fun_Some in Hs.
    econstructor; [|done]. by apply step_complete.
  - apply decode_None in Hd. by apply get_legal_transitions_sub in Hl.
Qed.

Lemma initial_measure se :
  measure (get_initial_config se) = (2 * length se + 1)%nat.
Proof. unfold measure. simpl. rewrite length_seqZ. lia. Qed.

Lemma drive_reachable fuel se :
  ∃ ts, (drive choose fuel (get_initial_config se)).1 = code <$> ts ∧
        steps_fun ts (get_initial_config se)
        = Some (last_config (drive choose fuel (get_initial_config se)).2).
Proof. apply sys_run_steps, drive_run. Qed.

(** Whatever the policy, a parse the driver completes is a projective
    tree: the sentence annotated with the arcs of the last
    configuration is well formed, and no two of its arcs cross. *)
Lemma drive_builds_tree fuel se c :
  (drive choose fuel (get_initial_config se)).2 = Finished c →
  well_formed (parsed c) ∧ projective (get_gold_config (parsed c)) ∧
  Gold.arcs (get_gold_config (parsed c)) = list_to_set (arcs c).
Proof.
  intros Hd. apply (finished_parse se).
  - destruct (drive_reachable fuel se) as (ts&_&Hs). rewrite Hd in Hs.
    by exists ts.
  - change (sys_finished c = true).
    by apply (drive_finished choose fuel (get_initial_config se)).
Qed.

End driver.

Lemma is_finished_initial se :
  se ≠ [] → is_finished (get_initial_config se) = false.
Proof.
  intros Hne. unfold is_finished. simpl. destruct se as [|t se]; [done|].
  rewrite length_seqZ, bool_decide_eq_false_2; [done|]. simpl. lia.
Qed.

(** On the oracle's path the static policy names a legal transition
    and stays on the path. *)
Lemma static_policy_step se c :
  tree (get_gold_config se) → projective (get_gold_config se) →
  oracle_path se c → is_finished c = false →
  ∃ z c', static_policy (get_gold_config se) c = Ok (Some z) ∧
          z ∈ get_legal_transitions c ∧
          take_transition the_funcs z c = (Ok (), c') ∧ oracle_path se c'.
Proof.
  intros Htree Hproj Hp Hfin.
  destruct (oracle_path_inv se Htree Hproj c Hp) as [k Hinv].
  destruct (oracle_inv_step se Htree Hproj k c Hinv Hfin) as (t&c'&Ht&Hstep&_).
  exists (code t), c'. destruct (step_sound _ _ _ Hstep) as [Hl Htake].
  split_and!; [|done..|by eapply oracle_path_next]. unfold static_policy.
  rewrite (static_oracle_choice se) by by apply oracle_path_reachable.
  by rewrite Ht.
Qed.

(** ** The theorems of the driver *)

(** C23: Termination of the driver.  Whatever the policy, on a sentence
    of [n] tokens the driver stops before its fuel runs out as soon as
    the fuel exceeds [2 * n + 1]; the transitions it has taken are a run
    of the abstract machine from the initial configuration, at most
    [2 * n] of them. *)
Theorem drive_terminates choose se fuel :
  (2 * length se + 1 < fuel)%nat →
  let r := drive choose fuel (get_initial_config se) in
  out_of_fuel r.2 = false ∧
  (length r.1 ≤ 2 * length se)%nat ∧
  ∃ ts, r.1 = code <$> ts ∧
        steps_fun ts (get_initial_config se) = Some (last_config r.2).
Proof.
  intros Hfuel r. subst r. destruct (drive_reachable choose fuel se) as (ts&Hts&Hs).
  split_and!; [| |by exists ts].
  - apply drive_enough_fuel. simpl. rewrite initial_measure. lia.
  - rewrite Hts, length_fmap.
    pose proof (steps_measure _ _ _ (proj1 (steps_fun_Some _ _ _) Hs)) as Hm.
    rewrite initial_measure in Hm.
    assert (reachable se (last_config (drive choose fuel (get_initial_config se)).2))
      as [σ Hσ]%reachable_stack_root by by exists ts.
    revert Hm. unfold measure. rewrite Hσ. simpl. lia.
Qed.

Lemma drive_terminates_witness :
  (2 * length example_sentence + 1 < 8)%nat ∧
  let r := drive (static_policy (get_gold_config example_sentence)) 8
             (get_initial_config example_sentence) in
  out_of_fuel r.2 = false ∧
  (length r.1 ≤ 2 * length example_sentence)%nat ∧
  ∃ ts, r.1 = code <$> ts ∧
        steps_fun ts (get_initial_config example_sentence)
        = Some (last_config r.2).
Proof.
  split; [simpl; lia|].
  apply (drive_terminates (static_policy (get_gold_config example_sentence))
           example_sentence 8). simpl. lia.
Defined.

(** The result of the driver does not depend on the fuel, once it
    exceeds [2 * n + 1]. *)
Theorem drive_fuel_independent choose se fuel fuel' :
  (2 * length se + 1 < fuel)%nat → (fuel ≤ fuel')%nat →
  drive choose fuel' (get_initial_config se)
  = drive choose fuel (get_initial_config se).
Proof.
  intros Hfuel Hle. apply drive_fuel_irrelevant; [|done].
  simpl. rewrite initial_measure. lia.
Qed.


(** How the driver ends.  It never fails inside [take_transition]:
    it ends in a finished configuration, or the policy raised, or the
    policy named no transition or one that is not legal in the
    configuration reached. *)
Theorem drive_outcome choose fuel c :
  match (drive choose fuel c).2 with
  | Finished c' => is_finished c' = true
  | Stuck c' =>
      is_finished c' = false ∧
      (choose c' = Ok None ∨
       ∃ t, choose c' = Ok (Some t) ∧ (t ∉ get_legal_transitions c'))
  | Failed e c' => choose c' = Raise e
  | OutOfFuel c' => (fuel ≤ measure c)%nat
  end.
Proof.
  destruct (drive choose fuel c).2 as [c'|c'|e c'|c'] eqn:Hd.
  - exact (drive_finished choose fuel c c' Hd).
  - exact (drive_stuck choose fuel c c' Hd).
  - exact (drive_failed choose fuel c e c' Hd).
  - destruct (decide (measure c < fuel)%nat) as [Hlt|]; [|lia].
    pose proof (drive_enough_fuel choose fuel c Hlt) as Hf. by rewrite Hd in Hf.
Qed.

(** The driver with the static oracle on the end-to-end scenario
    of the specification: SHIFT, LEFT, RIGHT, RIGHT, REDUCE, REDUCE, each
    legal where it is taken, ending in the finished configuration whose
    arcs are those of the gold tree. *)
Example drive_static_example :
  drive (static_policy (get_gold_config example_sentence)) 8
        (get_initial_config example_sentence)
  = ([SHIFT; LEFT; RIGHT; RIGHT; REDUCE; REDUCE], Finished example_final) ∧
  list_to_set (arcs example_final)
  = Gold.arcs (get_gold_config example_sentence).
Proof. split; vm_compute; reflexivity. Qed.

(** On the tree with heads 2, ROOT, 1, which passes the
    projectivity test, the driver stops after SHIFT: the static oracle
    names REDUCE for token 0, which has no head, and that is not
    legal. *)
Example drive_static_stuck :
  drive (static_policy (get_gold_config covered_root_sentence)) 8
        (get_initial_config covered_root_sentence)
  = ([SHIFT], Stuck (mkConfiguration [] [ROOT; 0] [1; 2] covered_root_sentence)).
Proof. vm_compute. reflexivity. Qed.

(** Two tokens that are each other's head: the annotation has a cycle,
    passes the projectivity test, and the driver with the static oracle
    stops at a REDUCE that is not legal. *)
Definition cycle_sentence : list Token :=
  [ mkToken "a" "N" 1 "x"; mkToken "b" "N" 0 "x" ].

Example drive_static_cycle :
  is_not_projective (get_gold_config cycle_sentence) = false ∧
  well_formedb cycle_sentence = false ∧
  drive (static_policy (get_gold_config cycle_sentence)) 8
        (get_initial_config cycle_sentence)
  = ([SHIFT; LEFT; SHIFT],
     Stuck (mkConfiguration [(1, 0)] [ROOT; 1] [] cycle_sentence)).
Proof. split_and!; vm_compute; reflexivity. Qed.

(** C18: The driver with the static oracle parses every projective
    tree.  On a sentence whose annotation is a tree without crossing
    arcs, ROOT arcs included, the driver with the static oracle as its
    policy, given fuel above [2 * n + 1], is never stuck and never fails:
    it ends in a finished configuration whose arcs are exactly the gold
    arcs. *)
Theorem drive_static_correct se fuel :
  well_formed se → projective (get_gold_config se) →
  (2 * length se + 1 < fuel)%nat →
  ∃ c, (drive (static_policy (get_gold_config se)) fuel
          (get_initial_config se)).2 = Finished c ∧
       is_finished c = true ∧
       list_to_set (arcs c) =@{gset (Z * Z)} Gold.arcs (get_gold_config se).
Proof.
  intros Htree%well_formed_tree Hproj Hfuel.
  destruct (drive_invariant (static_policy (get_gold_config se))
              (oracle_path se) fuel (get_initial_config se))
    as (c&Hd&Hp).
  { intros c Hp Hfin. by apply static_policy_step. }
  { constructor. }
  { simpl. rewrite initial_measure. lia. }
  pose proof (drive_finished _ _ _ _ Hd) as Hfin. simpl in Hfin.
  destruct (oracle_path_inv se Htree Hproj c Hp) as [k Hinv].
  exists c. split_and!; [done..|]. by eapply oracle_inv_finished.
Qed.

Lemma drive_static_correct_witness :
  well_formed example_sentence ∧
  projective (get_gold_config example_sentence) ∧
  (2 * length example_sentence + 1 < 8)%nat ∧
  ∃ c, (drive (static_policy (get_gold_config example_sentence)) 8
          (get_initial_config example_sentence)).2 = Finished c ∧
       is_finished c = true ∧
       list_to_set (arcs c)
       =@{gset (Z * Z)} Gold.arcs (get_gold_config example_sentence).
Proof.
  split; [apply example_well_formed|]. split; [apply example_projective|].
  split; [simpl; lia|].
  apply (drive_static_correct example_sentence 8 example_well_formed
           example_projective). simpl. lia.
Defined.
