(* ===== verification/DynamicCorrect.v ===== *)
(** * Correctness of the dynamic oracle

    A driver that trains with exploration takes, at each configuration,
    one of the transitions [dynamic_oracle] (src/arc_eager.py, lines
    212-232) returns.  This file shows that on a projective tree such a
    driver is never left without a transition and ends with the gold
    tree, whichever of the returned transitions it takes.

    Two facts carry the proof.  At a configuration where some
    transition is legal, one of the legal transitions has cost zero:
    SHIFT when the gold tree joins the front of the buffer to no token
    of the stack; RIGHT when the front of the buffer hangs from the top
    of the stack; and otherwise LEFT or REDUCE, because the top of the
    stack lies under a gold arc that ends at the front of the buffer,
    or hangs from it.  And a transition of cost zero keeps every gold
    arc reachable ([Costs.zero_cost_step_safe]), so that on the way
    from the initial configuration no gold arc is ever lost. *)

From stdpp Require Import base tactics option list numbers gmap strings.
From S2P Require Import Prelude Config Transitions Machine Projectivity Tree.
From S2P Require Import StaticOracle OracleCorrect Reach DynamicOracle.
From S2P Require Import Agreement Costs ArcSystem Driver.

#[local] Open Scope Z_scope.

(** ** The configurations a driver passes with the dynamic oracle *)

(** The driver holds one gold tree, which the cost functions write to:
    the path carries it along. *)
Inductive dynamic_path (se : list Token) :
    Configuration → GoldConfiguration → Prop :=
| dp_initial :
    dynamic_path se (get_initial_config se) (get_gold_config se)
| dp_step c g zs g' z c' :
    dynamic_path se c g →
    dynamic_oracle c g = (Ok zs, g') → z ∈ zs →
    take_transition the_funcs z c = (Ok (), c') →
    dynamic_path se c' g'.

(** Every gold arc can still be built. *)
Definition all_reachable (g : GoldConfiguration) (c : Configuration) : Prop :=
  ∀ h d, head_of g !! d = Some h → arc_reachable c h d.

(** ** A legal transition of cost zero *)

Section zero.
Context (se : list Token) (Htree : tree (get_gold_config se))
  (Hproj : projective (get_gold_config se)).
#[local] Abbreviation g := (get_gold_config se).
#[local] Abbreviation n := (Z.of_nat (length se)).
Implicit Types (c : Configuration) (σ β : list Z) (k s b d h x : Z).

(** A token [s] strictly between the ends of a gold arc: its dependents
    and its head are not beyond the arc. *)
Lemma under_arc x s b d h :
  head_of g !! b = Some x ∨ head_of g !! x = Some b →
  x < s < b → head_of g !! d = Some h → h = s ∨ d = s → h ≤ b ∧ d ≤ b.
Proof.
  intros Harc Hs Hd Hends.
  destruct Harc as [Ha|Ha];
    pose proof (Hproj _ _ _ _ Ha Hd); unfold crosses in *; lia.
Qed.

(** A cost of SHIFT that is not zero: the gold tree joins the front of
    the buffer to a token of the stack. *)
Lemma cost_shift_joined c b β :
  buffer c = b :: β → is_Some (head_of g !! b) → cost_shift c g ≠ 0 →
  ∃ x, x ∈ stack c ∧ (head_of g !! b = Some x ∨ head_of g !! x = Some b).
Proof.
  intros Hb [hb Hhb] Hcost. unfold cost_shift, front in Hcost.
  rewrite Hb in Hcost. simpl in Hcost.
  destruct (decide (Forall (λ j, j ≠ ghead g b ∧ j ∉ Gold.deps g b) (stack c)))
    as [Hall|Hex].
  { rewrite Forall_forall in Hall. by rewrite shift_fold_zero in Hcost. }
  apply not_Forall_Exists in Hex; [|apply _].
  apply Exists_exists in Hex as (x&Hx&Hj). simpl in Hj.
  exists x. split; [done|]. rewrite (ghead_Some _ _ hb) in Hj by done.
  destruct (decide (x = hb)) as [->|]; [by left|right].
  apply (gold_dep_head se). apply dec_stable. naive_solver.
Qed.

(** The top of the stack, when the gold tree joins it to the buffer at
    most by the arc from the front of the buffer: LEFT costs nothing if
    the top has no head yet, REDUCE if it has one. *)
Lemma top_zero_cost k c σ s b β :
  wf_at n k c → stack c = σ ++ [s] → buffer c = b :: β → s ≠ ROOT →
  (∀ d, head_of g !! d = Some s → d ∉ b :: β) →
  (∀ hs, head_of g !! s = Some hs → hs ∈ b :: β → hs = b) →
  ∃ t, enabled t c = true ∧ cost t c g = 0.
Proof.
  intros Hwf Hst Hbf Hroot Hdeps Hhead.
  destruct (has_head (arcs c) s) eqn:Hh.
  - exists Reduce. split; [simpl; unfold reduce_ok; by rewrite Hst, py_top_snoc|].
    simpl. unfold cost_reduce, top. rewrite Hst, py_top_snoc, Hbf. simpl.
    apply count_common_zero. intros d Hd%(gold_dep_head se). by apply Hdeps.
  - exists Left_arc. split.
    { simpl. unfold left_ok. rewrite Hst, py_top_snoc, Hbf, Hh.
      by rewrite bool_decide_eq_true_2. }
    simpl. unfold cost_left, top, front. rewrite Hst, py_top_snoc, Hbf. simpl.
    case_bool_decide as Hgold; [done|]. apply count_common_zero.
    intros d [->|Hd%(gold_dep_head se)]%elem_of_cons; [|by apply Hdeps].
    destruct (wf_stack_top _ _ _ Hwf σ s Hst) as [?|Hs]; [done|].
    destruct (head_of g !! s) as [hs|] eqn:Hhs.
    + rewrite (ghead_Some _ _ hs) by done. intros ->%Hhead; [|done].
      by apply Hgold, (gold_arc_head se).
    + apply eq_None_not_Some in Hhs. destruct Hhs.
      apply get_gold_config_dom. pose proof (wf_k _ _ _ Hwf). lia.
Qed.

(** The top of the stack under a gold arc that joins a token below it
    to the front of the buffer. *)
Lemma under_top k c σ s x β :
  wf_at n k c → stack c = σ ++ [s] → buffer c = k :: β → x ∈ σ →
  head_of g !! k = Some x ∨ head_of g !! x = Some k →
  s ≠ ROOT ∧
  (∀ d, head_of g !! d = Some s → d ∉ k :: β) ∧
  (∀ hs, head_of g !! s = Some hs → hs ∈ k :: β → hs = k).
Proof.
  intros Hwf Hst Hbf Hx Harc.
  pose proof (wf_stack_below _ _ _ Hwf σ s x Hst Hx).
  assert (x ∈ stack c) as Hxs%(wf_stack_mem _ _ _ Hwf) by (rewrite Hst; set_solver).
  destruct (wf_stack_top _ _ _ Hwf σ s Hst) as [?|Hs]; [root_lia|].
  assert (∀ y, y ∈ k :: β → k ≤ y) as Hge.
  { intros y Hy. rewrite <-Hbf in Hy. apply (wf_buffer_mem _ _ _ _ Hwf) in Hy. lia. }
  split_and!; [root_lia| |].
  - intros d Hd Hin%Hge.
    destruct (under_arc x s k d s Harc) as [_ ?]; [lia|done|by left|].
    assert (d = k) as -> by lia.
    destruct Harc as [?|Hxk]; [simplify_eq; lia|].
    apply (no_arc_back g Htree Hproj k x s); [done..|lia].
  - intros hs Hhs Hin%Hge.
    destruct (under_arc x s k s hs Harc) as [? _]; [lia|done|by right|lia].
Qed.

(** The top of the stack, when it hangs from the front of the buffer. *)
Lemma hanging_top k c σ s β :
  wf_at n k c → stack c = σ ++ [s] → buffer c = k :: β →
  head_of g !! s = Some k →
  s ≠ ROOT ∧
  (∀ d, head_of g !! d = Some s → d ∉ k :: β) ∧
  (∀ hs, head_of g !! s = Some hs → hs ∈ k :: β → hs = k).
Proof.
  intros Hwf Hst Hbf Hs.
  assert (s ≠ ROOT) by (intros ->; by rewrite (tree_root_no_head g Htree) in Hs).
  destruct (wf_stack_top _ _ _ Hwf σ s Hst) as [?|?]; [done|].
  split_and!; [done| |by intros; simplify_eq].
  intros d Hd Hin. rewrite <-Hbf in Hin.
  apply (wf_buffer_mem _ _ _ _ Hwf) in Hin.
  assert (d ≠ k) by (intros ->; by eapply (tree_no_2cycle g Htree)).
  apply (no_arc_back g Htree Hproj s d k); [done..|lia].
Qed.

(** Where a transition is legal, a legal transition has cost zero. *)
Lemma zero_cost_exists k c :
  wf_at n k c → get_legal_transitions c ≠ [] →
  ∃ t, enabled t c = true ∧ cost t c g = 0.
Proof.
  intros Hwf Hlegal. destruct (wf_stack _ _ _ Hwf) as (σ0&Hσ0&_).
  pose proof (wf_k _ _ _ Hwf).
  snoc_case (stack c) s σ Hst; [by rewrite Hσ0 in Hst|].
  destruct (buffer c) as [|b β] eqn:Hbf.
  { exists Reduce. rewrite get_legal_transitions_spec in Hlegal.
    unfold left_ok, right_ok, shift_ok in Hlegal. rewrite Hbf in Hlegal.
    split; [simpl; by destruct (py_top (stack c)), (reduce_ok c)|].
    simpl. unfold cost_reduce. rewrite Hbf.
    apply count_common_zero. by intros ? _ ?%elem_of_nil. }
  destruct (wf_buffer_cons _ _ _ _ _ Hwf Hbf) as (->&Hβ&Hk).
  destruct (decide (cost_shift c g = 0)) as [|Hshift];
    [exists Shift; split; [simpl; unfold shift_ok; by rewrite Hbf|done]|].
  destruct (cost_shift_joined c k β Hbf) as (x&Hx&Harc);
    [apply get_gold_config_dom; lia|done|].
  rewrite Hst in Hx. apply elem_of_app in Hx as [Hx| ->%list_elem_of_singleton].
  { destruct (under_top k c σ s x β) as (?&?&?); [done..|].
    by eapply top_zero_cost. }
  destruct Harc as [Hright|Hleft].
  - exists Right_arc. split.
    + simpl. unfold right_ok. rewrite Hst, py_top_snoc, Hbf.
      rewrite bool_decide_eq_true_2 by root_lia. apply negb_true_iff.
      apply has_head_false, (wf_no_head_buffer _ _ _ _ Hwf). lia.
    + simpl. unfold cost_right, top, front. rewrite Hst, py_top_snoc, Hbf. simpl.
      by rewrite bool_decide_eq_true_2 by by apply (gold_arc_head se).
  - destruct (hanging_top k c σ s β) as (?&?&?); [done..|].
    by eapply top_zero_cost.
Qed.

(** ** No gold arc is lost *)

Lemma all_reachable_initial : all_reachable g (get_initial_config se).
Proof.
  intros h d Hd. apply (arc_reachable_gold se Htree); [done|]. right. simpl.
  split; [by intros ? ?%elem_of_nil|].
  pose proof (gold_key_range se _ _ Hd).
  assert (d ∈ seqZ 0 n) by (apply elem_of_seqZ; lia).
  destruct (tree_head_range g Htree _ _ Hd) as [->|[? Hh%(gold_key_range se)]].
  - left. split; [set_solver|done].
  - right. right. split; [apply elem_of_seqZ; lia|done].
Qed.

Lemma all_reachable_step k t c c' :
  wf_at n k c → step t c c' → cost t c g = 0 →
  all_reachable g c → all_reachable g c'.
Proof.
  intros Hwf Hstep Hcost Hall h d Hd.
  by eapply (zero_cost_step_safe se Htree Hproj), Hall.
Qed.

(** With an empty buffer, a gold arc that can be built is built. *)
Lemma all_reachable_built c h d :
  all_reachable g c → buffer c = [] → head_of g !! d = Some h → (h, d) ∈ arcs c.
Proof.
  intros Hall Hbf Hd. destruct (Hall h d Hd) as [?|[_ Hpos]]; [done|].
  rewrite Hbf in Hpos. set_solver.
Qed.

(** While no gold arc is lost the driver is not at a dead end. *)
Lemma all_reachable_not_stuck k c :
  wf_at n k c → all_reachable g c → is_finished c = false →
  get_legal_transitions c ≠ [].
Proof.
  intros Hwf Hall Hfin. rewrite get_legal_transitions_spec.
  destruct (buffer c) as [|b β] eqn:Hbf;
    [|unfold shift_ok; rewrite Hbf; by destruct (left_ok c), (right_ok c)].
  destruct (wf_stack _ _ _ Hwf) as (σ0&Hσ0&_).
  snoc_case (stack c) s σ Hst; [by rewrite Hσ0 in Hst|].
  destruct (wf_stack_top _ _ _ Hwf σ s Hst) as [->|Hs].
  { rewrite (wf_stack_top_root _ _ _ Hwf σ Hst) in Hst.
    apply not_true_iff_false in Hfin. destruct Hfin.
    apply is_finished_spec. eauto. }
  destruct (proj2 (get_gold_config_dom se s)) as [hs Hhs];
    [pose proof (wf_k _ _ _ Hwf); lia|].
  assert (reduce_ok c = true) as ->.
  { unfold reduce_ok. rewrite Hst, py_top_snoc. apply has_head_true.
    exists hs. by apply all_reachable_built. }
  by destruct (left_ok c), (right_ok c), (shift_ok c).
Qed.

(** When the buffer is empty and no gold arc was lost, the arcs are the
    gold arcs. *)
Lemma all_reachable_finished k c :
  wf_at n k c → all_reachable g c → buffer c = [] →
  list_to_set (arcs c) =@{gset (Z * Z)} Gold.arcs g.
Proof.
  intros Hwf Hall Hbf. apply set_eq. intros [h d].
  rewrite elem_of_list_to_set, (gold_arc_head se). split.
  - intros Ha. pose proof (wf_arc_dep _ _ _ Hwf _ _ Ha).
    destruct (proj2 (get_gold_config_dom se d)) as [h' Hh'];
      [pose proof (wf_k _ _ _ Hwf); lia|].
    pose proof (all_reachable_built c h' d Hall Hbf Hh') as Ha'.
    by rewrite (NoDup_fmap_snd_functional (arcs c) h h' d (wf_single _ _ _ Hwf) Ha Ha').
  - by apply all_reachable_built.
Qed.

End zero.

(** ** The path of a driver *)

Section path.
Context (se : list Token) (Htree : tree (get_gold_config se))
  (Hproj : projective (get_gold_config se)).
#[local] Abbreviation g := (get_gold_config se).
Implicit Types (c : Configuration) (z : Z) (zs : list Z).

(** What [dynamic_oracle] returns on a gold tree the cost functions have
    written to: legal transitions of cost zero, and an equivalent tree. *)
Lemma dynamic_oracle_run c g0 :
  reachable se c → g0 ≡ g →
  ∃ g', dynamic_oracle c g0
        = (Ok (filter (λ z, zero_cost c g z = true) (get_legal_transitions c)), g')
        ∧ g' ≡ g.
Proof.
  intros Hr Hg. pose proof (reachable_gold_covers _ _ Hr) as Hcov.
  rewrite <-Hg in Hcov. destruct (dynamic_oracle_returns c _ Hcov) as (g'&Hrun&Hg').
  exists g'. rewrite Hrun. split; [|by rewrite Hg'].
  do 2 f_equal. apply list_filter_iff. intros z. unfold zero_cost.
  destruct (decode z) as [t|]; [|done]. by rewrite (cost_proper t c _ _ Hg).
Qed.

(** A transition the oracle returned is legal and costs nothing. *)
Lemma dynamic_choice c g0 zs g' z :
  reachable se c → g0 ≡ g →
  dynamic_oracle c g0 = (Ok zs, g') → z ∈ zs →
  g' ≡ g ∧ z ∈ get_legal_transitions c ∧ ∃ t, z = code t ∧ cost t c g = 0.
Proof.
  intros Hr Hg Hrun Hz.
  destruct (dynamic_oracle_run c g0 Hr Hg) as (g''&Hrun'&Hg'').
  rewrite Hrun in Hrun'. simplify_eq. split; [done|].
  apply list_elem_of_filter in Hz as [Hz Hl]. split; [done|].
  unfold zero_cost in Hz.
  destruct (decode z) as [t|] eqn:Ht; [|done]. apply code_decode in Ht as <-.
  exists t. split; [done|by apply bool_decide_eq_true in Hz].
Qed.

(** Taking it keeps the configuration reachable and loses no gold arc. *)
Lemma dynamic_step c z t c' :
  reachable se c → all_reachable g c →
  code t ∈ get_legal_transitions c → cost t c g = 0 →
  take_transition the_funcs (code t) c = (Ok (), c') →
  reachable se c' ∧ all_reachable g c'.
Proof.
  intros Hr Hall Hl Hcost Htake. pose proof (step_complete _ _ _ Hl Htake).
  split; [by eapply reachable_step|].
  eapply (all_reachable_step se Htree Hproj); [by apply reachable_wf_at|done..].
Qed.

Lemma dynamic_path_inv c g0 :
  dynamic_path se c g0 → reachable se c ∧ g0 ≡ g ∧ all_reachable g c.
Proof.
  induction 1 as [|c g0 zs g' z c' _ (Hr&Hg&Hall) Hrun Hz Htake].
  { split_and!; [apply reachable_initial|done|by apply all_reachable_initial]. }
  destruct (dynamic_choice c g0 zs g' z) as (Hg'&Hl&t&->&Hcost); [done..|].
  destruct (dynamic_step c (code t) t c') as [??]; done.
Qed.

(** The oracle's answer is not empty where a transition is legal. *)
Lemma dynamic_oracle_some c g0 :
  reachable se c → g0 ≡ g → get_legal_transitions c ≠ [] →
  ∃ zs g', dynamic_oracle c g0 = (Ok zs, g') ∧ zs ≠ [].
Proof.
  intros Hr Hg Hlegal. destruct (dynamic_oracle_run c g0 Hr Hg) as (g'&Hrun&_).
  eexists _, g'. split; [done|].
  destruct (zero_cost_exists se Htree Hproj _ c (reachable_wf_at _ _ Hr) Hlegal)
    as (t&Hen&Hcost).
  assert (code t ∈ filter (λ z, zero_cost c g z = true) (get_legal_transitions c))
    as Hin; [|by intros Hnil; rewrite Hnil in Hin; apply elem_of_nil in Hin].
  apply list_elem_of_filter. split; [|by apply legal_code].
  unfold zero_cost. rewrite decode_code. by apply bool_decide_eq_true.
Qed.

(** On the path the oracle always has an answer, and at the end the
    gold tree is built. *)
Lemma dynamic_path_sound c g0 :
  dynamic_path se c g0 →
  (is_finished c = false →
   ∃ zs g', dynamic_oracle c g0 = (Ok zs, g') ∧ zs ≠ []) ∧
  (is_finished c = true →
   list_to_set (arcs c) =@{gset (Z * Z)} Gold.arcs g).
Proof.
  intros (Hr&Hg&Hall)%dynamic_path_inv.
  pose proof (reachable_wf_at _ _ Hr) as Hwf. split.
  - intros Hfin. apply dynamic_oracle_some; [done..|].
    by eapply (all_reachable_not_stuck se).
  - intros [Hbf _]%is_finished_spec.
    by eapply (all_reachable_finished se).
Qed.

End path.

(** ** The driver with the dynamic oracle *)

(** The dynamic oracle as a policy: a classifier [pick] chooses among
    the transitions the oracle returns. *)
Definition dynamic_policy (pick : Configuration → list Z → option Z)
    (gold_config : GoldConfiguration) (c : Configuration) : result (option Z) :=
  zs ← (dynamic_oracle c gold_config).1; mret (pick c zs).

(** A classifier that picks one of the transitions it is offered. *)
Definition picks (pick : Configuration → list Z → option Z) : Prop :=
  ∀ c zs, zs ≠ [] → ∃ z, pick c zs = Some z ∧ z ∈ zs.

Lemma dynamic_policy_step pick se c :
  tree (get_gold_config se) → projective (get_gold_config se) → picks pick →
  reachable se c ∧ all_reachable (get_gold_config se) c →
  is_finished c = false →
  ∃ z c', dynamic_policy pick (get_gold_config se) c = Ok (Some z) ∧
          z ∈ get_legal_transitions c ∧
          take_transition the_funcs z c = (Ok (), c') ∧
          reachable se c' ∧ all_reachable (get_gold_config se) c'.
Proof.
  intros Htree Hproj Hpick [Hr Hall] Hfin.
  pose proof (reachable_wf_at _ _ Hr) as Hwf.
  destruct (dynamic_oracle_some se Htree Hproj c _ Hr (reflexivity _))
    as (zs&g'&Hrun&Hne); [by eapply (all_reachable_not_stuck se)|].
  destruct (Hpick c zs Hne) as (z&Hz&Hin).
  destruct (dynamic_choice se c _ zs g' z Hr (reflexivity _) Hrun Hin)
    as (_&Hl&t&->&Hcost).
  destruct (legal_take_measure (code t) c Hl) as (c'&Htake&_).
  exists (code t), c'. unfold dynamic_policy. rewrite Hrun. simpl. rewrite Hz.
  destruct (dynamic_step se Htree Hproj c (code t) t c') as [??]; [done..|].
  by split_and!.
Qed.

(** ** The theorems of the dynamic oracle *)

(** C11: The dynamic oracle always has an answer.  On a sentence whose
    annotation is a projective tree, at every reachable configuration
    where some transition is legal, also one a wrong transition led to,
    [dynamic_oracle] returns a list that is not empty. *)
Theorem dynamic_oracle_nonempty se c :
  well_formed se → projective (get_gold_config se) →
  reachable se c → get_legal_transitions c ≠ [] →
  ∃ zs g', dynamic_oracle c (get_gold_config se) = (Ok zs, g') ∧ zs ≠ [].
Proof.
  intros Htree%well_formed_tree Hproj Hr Hlegal.
  by apply (dynamic_oracle_some se Htree Hproj).
Qed.

Lemma dynamic_oracle_nonempty_witness :
  well_formed astray_sentence ∧
  projective (get_gold_config astray_sentence) ∧
  reachable astray_sentence astray ∧
  get_legal_transitions astray ≠ [] ∧
  ∃ zs g', dynamic_oracle astray (get_gold_config astray_sentence)
           = (Ok zs, g') ∧ zs ≠ [].
Proof.
  split_and!; [by apply well_formedb_sound|by apply projectiveb_spec
              |apply astray_reachable|by vm_compute|].
  apply (dynamic_oracle_nonempty astray_sentence astray);
    [by apply well_formedb_sound|by apply projectiveb_spec
    |apply astray_reachable|by vm_compute].
Defined.

(** C3: Following the dynamic oracle builds the gold tree.  On a
    sentence whose annotation is a projective tree, start from the
    initial configuration and take, each time, any of the transitions
    [dynamic_oracle] returns, with the gold tree as the previous call
    left it.  At every configuration on the way that is not finished
    the oracle returns a list that is not empty, and at a finished
    configuration the arcs are exactly the gold arcs. *)
Theorem dynamic_oracle_correct se c g0 :
  well_formed se → projective (get_gold_config se) →
  dynamic_path se c g0 →
  (is_finished c = false →
   ∃ zs g', dynamic_oracle c g0 = (Ok zs, g') ∧ zs ≠ []) ∧
  (is_finished c = true →
   list_to_set (arcs c) =@{gset (Z * Z)} Gold.arcs (get_gold_config se)).
Proof.
  intros Htree%well_formed_tree Hproj. by apply dynamic_path_sound.
Qed.

(** The configuration of the example sentence after SHIFT, with the
    gold tree as the dynamic oracle left it at the initial
    configuration. *)
Lemma example_shifted_path :
  dynamic_path example_sentence example_shifted
    (dynamic_oracle (get_initial_config example_sentence)
       (get_gold_config example_sentence)).2.
Proof.
  eapply (dp_step _ _ _ [SHIFT] _ SHIFT); [constructor| |set_solver|done].
  vm_compute. reflexivity.
Qed.

Lemma dynamic_oracle_correct_witness :
  well_formed example_sentence ∧
  projective (get_gold_config example_sentence) ∧
  dynamic_path example_sentence example_shifted
    (dynamic_oracle (get_initial_config example_sentence)
       (get_gold_config example_sentence)).2 ∧
  (is_finished example_shifted = false →
   ∃ zs g', dynamic_oracle example_shifted
              (dynamic_oracle (get_initial_config example_sentence)
                 (get_gold_config example_sentence)).2 = (Ok zs, g') ∧
            zs ≠ []) ∧
  (is_finished example_shifted = true →
   list_to_set (arcs example_shifted)
   =@{gset (Z * Z)} Gold.arcs (get_gold_config example_sentence)).
Proof.
  split; [apply example_well_formed|]. split; [apply example_projective|].
  split; [apply example_shifted_path|].
  apply (dynamic_oracle_correct example_sentence _ _ example_well_formed
           example_projective example_shifted_path).
Defined.

(** C19: The driver with the dynamic oracle parses every projective
    tree.  Whatever the classifier picks among the transitions
    [dynamic_oracle] returns, the driver, given fuel above [2 * n + 1],
    is never stuck and never fails: it ends in a finished configuration
    whose arcs are exactly the gold arcs. *)
Theorem drive_dynamic_correct pick se fuel :
  well_formed se → projective (get_gold_config se) → picks pick →
  (2 * length se + 1 < fuel)%nat →
  ∃ c, (drive (dynamic_policy pick (get_gold_config se)) fuel
          (get_initial_config se)).2 = Finished c ∧
       is_finished c = true ∧
       list_to_set (arcs c) =@{gset (Z * Z)} Gold.arcs (get_gold_config se).
Proof.
  intros Htree%well_formed_tree Hproj Hpick Hfuel.
  destruct (drive_invariant (dynamic_policy pick (get_gold_config se))
              (λ c, reachable se c ∧ all_reachable (get_gold_config se) c)
              fuel (get_initial_config se))
    as (c&Hd&Hr&Hall).
  { intros c HP Hfin. by apply dynamic_policy_step. }
  { split; [apply reachable_initial|by apply all_reachable_initial]. }
  { simpl. rewrite initial_measure. lia. }
  pose proof (drive_finished _ _ _ _ Hd) as Hfin. simpl in Hfin.
  exists c. split_and!; [done..|].
  apply is_finished_spec in Hfin as Hbf. destruct Hbf as [Hbf _].
  eapply (all_reachable_finished se Htree Hproj); [by apply reachable_wf_at|done..].
Qed.

(** The classifier that takes the first transition offered. *)
Lemma picks_head : picks (λ _ zs, head zs).
Proof. intros c [|z zs] ?; [done|]. exists z. split; [done|left]. Qed.

Lemma drive_dynamic_correct_witness :
  well_formed example_sentence ∧
  projective (get_gold_config example_sentence) ∧
  picks (λ _ zs, head zs) ∧
  (2 * length example_sentence + 1 < 8)%nat ∧
  ∃ c, (drive (dynamic_policy (λ _ zs, head zs)
                 (get_gold_config example_sentence)) 8
          (get_initial_config example_sentence)).2 = Finished c ∧
       is_finished c = true ∧
       list_to_set (arcs c)
       =@{gset (Z * Z)} Gold.arcs (get_gold_config example_sentence).
Proof.
  split; [apply example_well_formed|]. split; [apply example_projective|].
  split; [apply picks_head|]. split; [simpl; lia|].
  apply (drive_dynamic_correct _ example_sentence 8 example_well_formed
           example_projective picks_head). simpl. lia.
Defined.

(** Three tokens with gold heads ROOT, 2, ROOT. *)
Definition two_roots_sentence : list Token :=
  [ mkToken "a" "N" ROOT "x"; mkToken "b" "N" 2 "x"; mkToken "c" "N" ROOT "x" ].

(** Two runs to the same tree: the static oracle shifts token 1 before
    it removes token 0 from the stack; a classifier that takes the last
    transition the dynamic oracle offers removes token 0 first. *)
Example drive_dynamic_example :
  drive (static_policy (get_gold_config two_roots_sentence)) 8
    (get_initial_config two_roots_sentence)
  = ([RIGHT; SHIFT; LEFT; REDUCE; RIGHT; REDUCE],
     Finished (mkConfiguration [(ROOT, 0); (2, 1); (ROOT, 2)] [ROOT] []
                               two_roots_sentence)) ∧
  drive (dynamic_policy (λ _ zs, last zs) (get_gold_config two_roots_sentence)) 8
    (get_initial_config two_roots_sentence)
  = ([RIGHT; REDUCE; SHIFT; LEFT; RIGHT; REDUCE],
     Finished (mkConfiguration [(ROOT, 0); (2, 1); (ROOT, 2)] [ROOT] []
                               two_roots_sentence)).
Proof. split; vm_compute; reflexivity. Qed.
