(* ===== verification/Script.v ===== *)
(** * The script at the end of src/arc_eager.py

    The script (lines 313-334) takes sentence 30 of a corpus, prints its
    initial configuration and its gold arcs and, when the projectivity
    test passes, runs the static oracle in a loop that prints the name
    of each transition and the configuration after it.

    The model keeps what the script writes: the state of the loop is
    the configuration with the lines printed so far.  The corpus reader
    is not part of the sources, so the corpus is an argument.  The
    values Python passes around are kept as they are: [static_oracle]
    returns a list or [None], and the script uses that value as an
    index of TRANSITION_NAMES and as a transition.

    The theorems say what the script does on each kind of corpus and
    sentence; on a sentence that is not empty and passes the test, it
    stops in the first iteration with a TypeError.

    The source keeps a second script in a comment (lines 296-311),
    which replays a list of transitions; it is modelled too, as the
    comment writes its call of [take_transition] and with the
    arguments in the order of the signature. *)

From stdpp Require Import base tactics option list numbers gmap strings.
From S2P Require Import Prelude ArcSystem Config Printing Transitions Machine.
From S2P Require Import Projectivity Tree StaticOracle OracleCorrect Driver.

#[local] Open Scope Z_scope.

(** ** Values and output *)

(** The values the script passes around: the result of
    [static_oracle] is [None] or a list, where an integer is expected;
    the scenario of the comment passes a configuration in that place. *)
Inductive pyval : Type :=
| PNone
| PInt (z : Z)
| PList (l : list Z)
| PConfig (c : Configuration).

Definition oracle_value (o : option (list Z)) : pyval :=
  match o with
  | None => PNone
  | Some l => PList l
  end.

(** [l[ix]] for a Python list [l]: an integer index counts from the end
    when negative; any other index is a TypeError. *)
Definition py_getitem {A} (l : list A) (ix : pyval) : result A :=
  match ix with
  | PInt i =>
      let n := Z.of_nat (length l) in
      if bool_decide (0 ≤ i < n) then of_index (l !! Z.to_nat i)
      else if bool_decide (- n ≤ i < 0) then of_index (l !! Z.to_nat (n + i))
      else Raise IndexError
  | _ => Raise TypeError
  end.

(** [take_transition(config, action)] on such a value: the assertion
    [transition in TRANSITIONS] fails for a list and for [None]. *)
Definition take_transition_val (funcs : gmap Z (py Configuration unit))
    (action : pyval) : py Configuration unit :=
  match action with
  | PInt t => take_transition funcs t
  | _ => py_assert false
  end.

(** What a [print] statement writes: a line of text, or a set of arcs,
    whose elements Python prints in the order of its hash table. *)
Inductive output : Type :=
| Line (s : string)
| ArcSet (s : gset (Z * Z)).

#[export] Instance output_eq_dec : EqDecision output.
Proof. solve_decision. Defined.

(** The state of the script: the configuration and what was printed. *)
Definition world : Type := Configuration * list output.

(** [print x] *)
Definition print (o : output) : py world unit :=
  modify (λ w, (w.1, w.2 ++ [o])).

(** A method of the arc system, called on the configuration. *)
Definition on_config {A} (m : py Configuration A) : py world A := λ w,
  let '(r, c) := m w.1 in (r, (c, w.2)).

(** ** The script *)

(** The body of the [while] loop. *)
Definition script_body (funcs : gmap Z (py Configuration unit))
    (gold_config : GoldConfiguration) (gold_arcs : gset (Z * Z)) :
    py world unit :=
  action ← on_config (λ c, (oracle_value <$> static_oracle c gold_config, c));
  name ← lift (py_getitem TRANSITION_NAMES action);
  print (Line name);;
  on_config (take_transition_val funcs action);;
  config ← gets fst;
  print (Line (Configuration_str config));;
  print (ArcSet (gold_arcs ∖ list_to_set (arcs config)));;
  print (Line "").

(** [while not arcsys.is_finished(config): ...]; [None] when the fuel
    runs out. *)
Fixpoint script_loop (fuel : nat) (funcs : gmap Z (py Configuration unit))
    (gold_config : GoldConfiguration) (gold_arcs : gset (Z * Z))
    (w : world) : option (result unit * world) :=
  if is_finished w.1 then Some (Ok (), w) else
  match fuel with
  | O => None
  | S fuel =>
      match script_body funcs gold_config gold_arcs w with
      | (Ok _, w') => script_loop fuel funcs gold_config gold_arcs w'
      | (Raise e, w') => Some (Raise e, w')
      end
  end.

(** The script on a sentence: lines 317-334. *)
Definition script_sentence (fuel : nat) (sentence : list Token) :
    option (result unit * world) :=
  let funcs := ArcEager_init transition_funcs in
  let config := get_initial_config sentence in
  let out := [Line (Configuration_str config)] in
  let gold_config := get_gold_config sentence in
  let gold_arcs := Gold.arcs gold_config in
  let out := out ++ [ArcSet gold_arcs] in
  let out := out ++ [Line ""] in
  if negb (is_not_projective gold_config) then
    script_loop fuel funcs gold_config gold_arcs (config, out)
  else Some (Ok (), (config, out ++ [Line "not projective"])).

(** The script on the corpus [ss] that the reader returns: the result
    and what was printed. *)
Definition script (fuel : nat) (ss : list (list Token)) :
    option (result unit * list output) :=
  match of_index (ss !! 30%nat) with
  | Raise e => Some (Raise e, [])
  | Ok sentence =>
      '(r, w) ← script_sentence fuel sentence; Some (r, w.2)
  end.

(** ** The scenario kept in a comment

    Lines 296-311 hold a second script, commented out: it replays a
    list of transitions on a sentence of nine words, printing the name
    of each transition and the configuration after it, or [not legal],
    and stops with [finished] at a finished configuration. *)

(** [sentence = "economic news ... markets .".split()]; a word stands
    as a token without annotation, [get_initial_config] reads only the
    length of the sentence. *)
Definition scenario_sentence : list Token :=
  (λ w, mkToken w "" ROOT "") <$>
  ["economic"; "news"; "had"; "little"; "effect"; "on"; "financial";
   "markets"; "."].

Definition scenario_transitions : list Z :=
  [2; 0; 2; 0; 1; 2; 0; 1; 1; 2; 0; 1; 3; 3; 3; 1].

(** [arcsys.take_transition(t, config)], as the comment writes it: the
    signature is [take_transition(config, transition)], so the
    configuration is what the assertion tests. *)
Definition call_as_written (funcs : gmap Z (py Configuration unit)) (t : Z) :
    py Configuration unit :=
  config ← gets id; take_transition_val funcs (PConfig config).

(** The call with its arguments in the order of the signature. *)
Definition call_in_order (funcs : gmap Z (py Configuration unit)) (t : Z) :
    py Configuration unit :=
  take_transition_val funcs (PInt t).

(** The body of the [for] loop; the result says whether the loop
    breaks. *)
Definition replay_body (call : Z → py Configuration unit) (t : Z) :
    py world bool :=
  name ← lift (py_getitem TRANSITION_NAMES (PInt t));
  print (Line name);;
  legal ← on_config (gets get_legal_transitions);
  (if bool_decide (t ∈ legal) then
     on_config (call t);;
     config ← gets fst;
     print (Line (Configuration_str config))
   else print (Line "not legal"));;
  config ← gets fst;
  if is_finished config then print (Line "finished");; mret true
  else mret false.

(** [for t in transitions: ...] *)
Fixpoint replay (call : Z → py Configuration unit) (ts : list Z) :
    py world unit :=
  match ts with
  | [] => mret ()
  | t :: ts =>
      stop ← replay_body call t;
      if stop : bool then mret () else replay call ts
  end.

(** The commented script, with one of the two calls. *)
Definition scenario
    (call : gmap Z (py Configuration unit) → Z → py Configuration unit) :
    result unit * world :=
  let funcs := ArcEager_init transition_funcs in
  let config := get_initial_config scenario_sentence in
  (print (Line (Configuration_str config));;
   replay (call funcs) scenario_transitions) (config, []).

(** The configuration the sixteen transitions lead to. *)
Definition scenario_final : Configuration :=
  mkConfiguration
    [(1, 0); (2, 1); (ROOT, 2); (4, 3); (2, 4); (4, 5); (7, 6); (5, 7); (2, 8)]
    [ROOT; 2; 8] [] scenario_sentence.

(** What the script prints before the loop. *)
Definition preamble (sentence : list Token) : list output :=
  [ Line (Configuration_str (get_initial_config sentence));
    ArcSet (Gold.arcs (get_gold_config sentence));
    Line "" ].

(** ** The body of the loop *)

(** Whatever list the static oracle returns, the body raises TypeError
    at the index, before it prints or takes a transition. *)
Lemma script_body_TypeError funcs g ga w l :
  static_oracle w.1 g = Ok (Some l) →
  script_body funcs g ga w = (Raise TypeError, w).
Proof.
  intros Ho. unfold script_body, on_config. py_unfold. rewrite Ho.
  by destruct w.
Qed.

(** When the oracle returns [None] the body raises TypeError as well. *)
Lemma script_body_None funcs g ga w :
  static_oracle w.1 g = Ok None →
  script_body funcs g ga w = (Raise TypeError, w).
Proof.
  intros Ho. unfold script_body, on_config. py_unfold. rewrite Ho.
  by destruct w.
Qed.

(** The loop never takes a transition: it ends at once, on a finished
    configuration or with the exception of the first iteration. *)
Lemma script_loop_first fuel funcs g ga w r w' :
  script_loop fuel funcs g ga w = Some (r, w') → w' = w.
Proof.
  destruct fuel as [|fuel]; simpl; destruct (is_finished w.1); try naive_solver.
  unfold script_body, on_config. py_unfold.
  destruct (static_oracle w.1 g) as [[l|]|e]; destruct w; simpl; naive_solver.
Qed.

(** ** The script on each kind of input *)

Lemma script_sentence_TypeError se fuel :
  se ≠ [] → is_not_projective (get_gold_config se) = false →
  script_sentence (S fuel) se
  = Some (Raise TypeError, (get_initial_config se, preamble se)).
Proof.
  intros Hne Hproj. unfold script_sentence. rewrite Hproj.
  cbn [negb script_loop fst]. rewrite is_finished_initial by done.
  by erewrite script_body_TypeError
    by (apply static_oracle_choice, reachable_initial).
Qed.

Lemma script_sentence_not_projective se fuel :
  is_not_projective (get_gold_config se) = true →
  script_sentence fuel se
  = Some (Ok (), (get_initial_config se,
                  preamble se ++ [Line "not projective"])).
Proof. intros Hproj. unfold script_sentence. by rewrite Hproj. Qed.

Lemma script_sentence_empty fuel :
  script_sentence fuel [] = Some (Ok (), (get_initial_config [], preamble [])).
Proof. by destruct fuel. Qed.

(** The script fails on every sentence it parses.  When sentence 30
    of the corpus is not empty and passes the projectivity test, the
    script prints the initial configuration, the gold arcs and an empty
    line, and the first iteration of the loop raises TypeError: the
    result of [static_oracle] is a list, and the script uses it as an
    index of TRANSITION_NAMES.  No transition is taken and no name is
    printed. *)
Theorem script_raises_TypeError ss se fuel :
  ss !! 30%nat = Some se → se ≠ [] →
  is_not_projective (get_gold_config se) = false →
  script (S fuel) ss = Some (Raise TypeError, preamble se) ∧
  script_sentence (S fuel) se
  = Some (Raise TypeError, (get_initial_config se, preamble se)).
Proof.
  intros Hss Hne Hproj.
  pose proof (script_sentence_TypeError se fuel Hne Hproj) as Hs.
  split; [|done]. unfold script. rewrite Hss. cbn [of_index]. by rewrite Hs.
Qed.

Lemma script_raises_TypeError_witness :
  (replicate 30 [] ++ [example_sentence]) !! 30%nat = Some example_sentence ∧
  example_sentence ≠ [] ∧
  is_not_projective (get_gold_config example_sentence) = false ∧
  script 1 (replicate 30 [] ++ [example_sentence])
  = Some (Raise TypeError, preamble example_sentence) ∧
  script_sentence 1 example_sentence
  = Some (Raise TypeError,
          (get_initial_config example_sentence, preamble example_sentence)).
Proof.
  split; [done|]. split; [done|]. split; [vm_compute; reflexivity|].
  apply (script_raises_TypeError _ example_sentence 0); [done..|].
  vm_compute. reflexivity.
Defined.

(** C31: What the script does on every corpus, given fuel for one
    iteration.  A corpus of fewer than 31 sentences: IndexError, nothing
    printed.  Otherwise the preamble is printed, and then: on a sentence
    that fails the projectivity test, the line [not projective]; on an
    empty sentence nothing more; on any other sentence TypeError. *)
Theorem script_outcome ss fuel :
  script (S fuel) ss =
  match ss !! 30%nat with
  | None => Some (Raise IndexError, [])
  | Some se =>
      if is_not_projective (get_gold_config se)
      then Some (Ok (), preamble se ++ [Line "not projective"%string])
      else if bool_decide (se = []) then Some (Ok (), preamble se)
      else Some (Raise TypeError, preamble se)
  end.
Proof.
  unfold script. destruct (ss !! 30%nat) as [se|]; cbn [of_index]; [|done].
  destruct (is_not_projective (get_gold_config se)) eqn:Hproj.
  { by rewrite script_sentence_not_projective by done. }
  case_bool_decide as Hse; [subst; by rewrite script_sentence_empty|].
  by rewrite script_sentence_TypeError by done.
Qed.

(** The text the script prints first for the sentence of the
    specification's scenario. *)
Example script_example :
  script 1 (replicate 30 [] ++ [example_sentence])
  = Some (Raise TypeError,
          [ Line ("stack: [-1]" +:+ nl +:+ "buffer: [0, 1, 2]" +:+ nl
                  +:+ "arcs: []");
            ArcSet {[ (1, 0); (ROOT, 1); (1, 2) ]};
            Line "" ]).
Proof. vm_compute. reflexivity. Qed.

(** ** The scenario of the comment *)

(** As written, the scenario stops at its first transition: SHIFT is
    legal, and the call passes the configuration where the transition
    is expected, so the assertion of [take_transition] fails. *)
Example scenario_as_written :
  scenario call_as_written
  = (Raise AssertionError,
     (get_initial_config scenario_sentence,
      [ Line (Configuration_str (get_initial_config scenario_sentence));
        Line "SHIFT" ])).
Proof. vm_compute. reflexivity. Qed.

(** With the arguments in order, every transition of the list is legal
    and every token gets a head.  The last configuration still has the
    tokens 2 and 8 on the stack: [is_finished] is false, and the line
    [finished] is never printed. *)
Example scenario_in_order :
  ∃ out,
    scenario call_in_order = (Ok (), (scenario_final, out)) ∧
    length out = 33%nat ∧
    (Line "not legal" ∉ out) ∧ (Line "finished" ∉ out) ∧
    is_finished scenario_final = false ∧
    Forall (λ i, has_head (arcs scenario_final) i = true) (seqZ 0 9).
Proof.
  eexists. split; [vm_compute; reflexivity|].
  split_and!; [done|by apply (bool_decide_unpack _)..|done|].
  by apply (bool_decide_unpack _).
Qed.
