(* ===== verification/Loss.v ===== *)
(** * The arcs a transition loses

    The cost functions of the dynamic oracle (src/arc_eager.py, lines
    234-292) are meant to count the gold arcs a transition makes
    unreachable.  This file counts them: [lost g c c'] is the set of
    gold arcs that can be built from [c] and not from [c'], and the
    theorem relates its size to the value the code returns, for each
    of the four transitions, on a projective tree.

    LEFT and REDUCE cost exactly what they lose.  RIGHT and SHIFT also
    count the gold arcs from the front of the buffer to tokens of the
    stack that already have a head; those arcs were lost when the head
    was given, and [overcount] is their number.

    The lost arcs all touch one token, the top of the stack for LEFT
    and REDUCE and the front of the buffer for RIGHT and SHIFT: they
    are counted by their other end, once as the head of that token and
    once for each of its dependents.

    So at every reachable configuration the dynamic oracle returns the
    legal transitions that lose nothing and count nothing twice.  While
    the gold tree can still be built nothing is counted twice, and the
    dynamic oracle returns exactly the legal transitions that lose
    nothing, which are those after which the gold tree can still be
    built. *)

From stdpp Require Import base tactics option list numbers gmap strings sorting.
From S2P Require Import Prelude Config Transitions Machine Projectivity Tree.
From S2P Require Import StaticOracle OracleCorrect Reach Forest DynamicOracle.
From S2P Require Import Agreement Costs Driver DynamicCorrect.

#[local] Open Scope Z_scope.

(** ** Definitions *)

#[export] Instance arc_reachable_dec c h d : Decision (arc_reachable c h d).
Proof.
  refine (cast_if (decide
    ((h, d) ∈ arcs c ∨
     (has_head (arcs c) d = false ∧
      ((h ∈ stack c ∧ d ∈ buffer c) ∨
       (h ∈ buffer c ∧ d ∈ stack c ∧ d ≠ ROOT) ∨
       (h ∈ buffer c ∧ d ∈ buffer c ∧ h ≠ d))))));
    unfold arc_reachable; rewrite has_head_false in *; tauto.
Defined.

(** The gold arcs that can be built from [c] and no longer from [c']. *)
Definition lost (g : GoldConfiguration) (c c' : Configuration) : gset (Z * Z) :=
  filter (λ a, arc_reachable c a.1 a.2 ∧ ¬ arc_reachable c' a.1 a.2)
         (Gold.arcs g).

(** The gold dependents of the front of the buffer that are on the
    stack and have a head already. *)
Definition stale (g : GoldConfiguration) (c : Configuration) : list Z :=
  filter (λ d, d ∈ stack c ∧ has_head (arcs c) d = true)
         (Gold.deps g (front c)).

(** What the cost of a transition counts beyond the arcs it loses. *)
Definition overcount (t : Transition) (g : GoldConfiguration)
    (c : Configuration) : Z :=
  match t with
  | Right_arc | Shift => Z.of_nat (length (stale g c))
  | Left_arc | Reduce => 0
  end.

(** The cost function that [dynamic_oracle] calls for each transition. *)
Definition cost_function (t : Transition) :
    Configuration → py GoldConfiguration Z :=
  match t with
  | Left_arc => left_arc_cost
  | Right_arc => right_arc_cost
  | Shift => shift_cost
  | Reduce => reduce_cost
  end.

(** Some run of legal transitions from [c] ends with the gold tree. *)
Definition builds (se : list Token) (c : Configuration) : Prop :=
  ∃ ts cf, steps_fun ts c = Some cf ∧ is_finished cf = true ∧
           list_to_set (arcs cf) =@{gset (Z * Z)} Gold.arcs (get_gold_config se).

(** ** Counting *)

Lemma remove_dups_NoDup {A} `{EqDecision A} (l : list A) :
  NoDup l → remove_dups l = l.
Proof.
  induction 1 as [|x l Hx _ IH]; simpl; [done|].
  destruct (decide_rel _ x l); [done|by rewrite IH].
Qed.

Lemma count_common_NoDup xs ys :
  NoDup xs → count_common xs ys = Z.of_nat (length (filter (λ x, x ∈ ys) xs)).
Proof. intros Hxs. unfold count_common. by rewrite remove_dups_NoDup. Qed.

Lemma count_common_cons x xs ys :
  NoDup (x :: xs) →
  count_common (x :: xs) ys
  = Z_of_bool (bool_decide (x ∈ ys)) + count_common xs ys.
Proof.
  intros Hxs. pose proof Hxs as [??]%NoDup_cons.
  rewrite !count_common_NoDup by done. rewrite filter_cons.
  case_bool_decide; rewrite ?decide_True, ?decide_False by done; simpl; lia.
Qed.

Lemma filter_none {A} (P : A → Prop) `{∀ x, Decision (P x)} (l : list A) :
  (∀ x, x ∈ l → ¬ P x) → filter P l = [].
Proof.
  induction l as [|x l IH]; intros Hl; [done|].
  rewrite filter_cons, decide_False, IH; set_solver.
Qed.

Lemma Z_of_bool_or (P Q : Prop) `{Decision P, Decision Q} :
  ¬ (P ∧ Q) →
  Z_of_bool (bool_decide (P ∨ Q))
  = Z_of_bool (bool_decide P) + Z_of_bool (bool_decide Q).
Proof. intros. repeat case_bool_decide; simpl; lia || tauto. Qed.

(** A filter splits by a test with a boolean result. *)
Lemma length_filter_bool {A} (P : A → Prop) `{∀ x, Decision (P x)}
    (f : A → bool) (l : list A) :
  length (filter P l)
  = (length (filter (λ x, P x ∧ f x = false) l)
     + length (filter (λ x, P x ∧ f x = true) l))%nat.
Proof.
  induction l as [|x l IH]; [done|]. rewrite !filter_cons.
  destruct (f x); repeat case_decide; simpl; lia || naive_solver.
Qed.

Lemma length_filter_eq (x : Z) (l : list Z) :
  NoDup l →
  Z.of_nat (length (filter (λ k, k = x) l)) = Z_of_bool (bool_decide (x ∈ l)).
Proof.
  induction 1 as [|y l Hy _ IH]; [done|]. rewrite filter_cons.
  destruct (decide (y = x)) as [->|].
  - rewrite bool_decide_eq_true_2 by left. simpl.
    rewrite bool_decide_eq_false_2 in IH by done. simpl in IH. lia.
  - rewrite IH. apply f_equal, bool_decide_ext. set_solver.
Qed.

(** The members of one list in another, counted from either side. *)
Lemma length_filter_comm (l1 l2 : list Z) :
  NoDup l1 → NoDup l2 →
  length (filter (λ x, x ∈ l2) l1) = length (filter (λ x, x ∈ l1) l2).
Proof.
  intros H1 H2. apply Permutation_length, NoDup_Permutation;
    [by apply NoDup_filter..|].
  intros x. rewrite !list_elem_of_filter. tauto.
Qed.

(** The loop of [shift_cost] as two counts. *)
Lemma shift_fold_count g b l a :
  foldl (λ cost k, cost + Z_of_bool (bool_decide (k = ghead g b))
                   + Z_of_bool (bool_decide (k ∈ Gold.deps g b))) a l
  = a + Z.of_nat (length (filter (λ k, k = ghead g b) l))
      + Z.of_nat (length (filter (λ k, k ∈ Gold.deps g b) l)).
Proof.
  revert a. induction l as [|k l IH]; intros a; simpl; [lia|].
  rewrite IH, !filter_cons.
  repeat case_bool_decide; repeat case_decide; simpl; try lia; done.
Qed.

(** A set of arcs that all touch [x], counted by their other end: the
    arc into [x] if [into] holds, and one arc for each member of
    [ds]. *)
Lemma size_around (X : gset (Z * Z)) x hx (into : bool) (ds : list Z) :
  NoDup ds → hx ≠ x →
  (∀ h d, (h, d) ∈ X ↔ (into = true ∧ h = hx ∧ d = x) ∨ (h = x ∧ d ∈ ds)) →
  Z.of_nat (size X) = Z_of_bool into + Z.of_nat (length ds).
Proof.
  intros Hds Hne HX.
  assert (X = list_to_set ((if into then [(hx, x)] else []) ++ ((x,.) <$> ds)))
    as ->.
  { apply set_eq. intros [h d]. rewrite HX, elem_of_list_to_set, elem_of_app.
    rewrite list_elem_of_fmap. destruct into; set_solver. }
  rewrite size_list_to_set.
  - rewrite length_app, length_fmap. destruct into; simpl; lia.
  - apply NoDup_app. split_and!.
    + destruct into; [apply NoDup_singleton|constructor].
    + intros [h d] Hin (y&[= -> ->]&_)%list_elem_of_fmap.
      destruct into; set_solver.
    + apply (NoDup_fmap_2 _), Hds.
Qed.

(** ** The lost arcs of each transition *)

(** A gold arc whose ends are where they were, with the same arcs into
    its dependent, is as reachable as it was. *)
Lemma arc_reachable_same c c' h d :
  (∀ h', (h', d) ∈ arcs c ↔ (h', d) ∈ arcs c') →
  (h ∈ stack c ↔ h ∈ stack c') → (d ∈ stack c ↔ d ∈ stack c') →
  (h ∈ buffer c ↔ h ∈ buffer c') → (d ∈ buffer c ↔ d ∈ buffer c') →
  arc_reachable c h d ↔ arc_reachable c' h d.
Proof.
  intros Ha Hhs Hds Hhb Hdb. unfold arc_reachable.
  rewrite (Ha h), Hhs, Hds, Hhb, Hdb.
  by setoid_rewrite Ha.
Qed.

Section lost.
Context (se : list Token) (Htree : tree (get_gold_config se))
  (Hproj : projective (get_gold_config se)).
#[local] Abbreviation g := (get_gold_config se).
#[local] Abbreviation n := (Z.of_nat (length se)).
Implicit Types (c : Configuration) (a : list (Z * Z)) (σ β : list Z)
  (k s b d h : Z).

Lemma elem_of_lost c c' h d :
  (h, d) ∈ lost g c c' ↔
  head_of g !! d = Some h ∧ arc_reachable c h d ∧ ¬ arc_reachable c' h d.
Proof.
  unfold lost. rewrite elem_of_filter, (gold_arc_head se). simpl. tauto.
Qed.

(** The tokens of a well-formed configuration: the stack and the buffer
    share none, and a token of the buffer has no head. *)
Lemma wf_tokens k c :
  wf_at n k c →
  (∀ y, y ∈ stack c → y ∈ buffer c → False) ∧
  (∀ y hh, y ∈ buffer c → (hh, y) ∉ arcs c).
Proof.
  intros Hwf. split; [intros y; apply (wf_stack_buffer_disjoint se k c y Hwf)|].
  intros y hh Hy. apply (wf_no_head_buffer _ _ _ _ Hwf).
  apply (wf_buffer_mem _ k c y Hwf) in Hy. lia.
Qed.

Lemma wf_stack_NoDup k c : wf_at n k c → NoDup (stack c).
Proof. intros Hwf. eapply StronglySorted_lt_NoDup, wf_stack_sorted, Hwf. Qed.

Lemma gold_token_head k c d :
  wf_at n k c → d ∈ stack c ∨ d ∈ buffer c → d ≠ ROOT →
  head_of g !! d = Some (ghead g d).
Proof.
  intros Hwf Hd Hroot. pose proof (wf_k _ _ _ Hwf).
  destruct (proj2 (get_gold_config_dom se d)) as [h Hh];
    [|by rewrite (ghead_Some _ _ h)].
  destruct Hd as [[?|?]%(wf_stack_mem _ _ _ Hwf)|?%(wf_buffer_mem _ _ _ _ Hwf)];
    [done|lia..].
Qed.

(** The three cases of a gold arc at a transition that moves the token
    [x]: the arc into [x], an arc out of [x], and the others, which the
    transition leaves as they are. *)
Ltac lost_cases x c c' :=
  match goal with
  | Hd : head_of _ !! ?d = Some ?h |- _ =>
      destruct (decide (d = x)) as [->|?];
      [|destruct (decide (h = x)) as [->|?];
        [|rewrite (arc_reachable_same c c' h d) by (simpl; set_solver);
          naive_solver]];
      rewrite !(arc_reachable_gold se Htree _ _ _ Hd); simpl in *;
      set_unfold; naive_solver
  end.

Lemma lost_left k a σ s b β se' h d :
  let c := mkConfiguration a (σ ++ [s]) (b :: β) se' in
  let c' := mkConfiguration (a ++ [(b, s)]) σ (b :: β) se' in
  wf_at n k c → s ≠ ROOT → (∀ h, (h, s) ∉ a) → head_of g !! d = Some h →
  arc_reachable c h d ∧ ¬ arc_reachable c' h d ↔
  (h ∈ β ∧ d = s) ∨ (h = s ∧ d ∈ b :: β).
Proof.
  intros c c' Hwf Hroot Hhead Hd.
  destruct (wf_tokens k c Hwf) as [Hdisj Hfree].
  pose proof (wf_stack_not_below _ _ _ Hwf σ s eq_refl).
  pose proof (wf_front_not_behind se k c b β Hwf eq_refl).
  pose proof (tree_no_loop g Htree d).
  lost_cases s c c'.
Qed.

Lemma lost_reduce k a σ s β se' hs h d :
  let c := mkConfiguration a (σ ++ [s]) β se' in
  let c' := mkConfiguration a σ β se' in
  wf_at n k c → (hs, s) ∈ a → head_of g !! d = Some h →
  arc_reachable c h d ∧ ¬ arc_reachable c' h d ↔
  (False ∧ d = s) ∨ (h = s ∧ d ∈ β).
Proof.
  intros c c' Hwf Hhead Hd.
  destruct (wf_tokens k c Hwf) as [Hdisj Hfree].
  pose proof (wf_stack_not_below _ _ _ Hwf σ s eq_refl).
  pose proof (tree_no_loop g Htree d).
  lost_cases s c c'.
Qed.

Lemma lost_shift k a σ b β se' h d :
  let c := mkConfiguration a σ (b :: β) se' in
  let c' := mkConfiguration a (σ ++ [b]) β se' in
  wf_at n k c → head_of g !! d = Some h →
  arc_reachable c h d ∧ ¬ arc_reachable c' h d ↔
  (h ∈ σ ∧ d = b) ∨ (h = b ∧ d ∈ σ ∧ has_head a d = false).
Proof.
  intros c c' Hwf Hd. rewrite has_head_false.
  destruct (wf_tokens k c Hwf) as [Hdisj Hfree].
  pose proof (wf_front_not_behind se k c b β Hwf eq_refl).
  pose proof (tree_no_loop g Htree d).
  lost_cases b c c'.
Qed.

Lemma lost_right k a σ s b β se' h d :
  let c := mkConfiguration a (σ ++ [s]) (b :: β) se' in
  let c' := mkConfiguration (a ++ [(s, b)]) (σ ++ [s; b]) β se' in
  wf_at n k c → head_of g !! d = Some h →
  arc_reachable c h d ∧ ¬ arc_reachable c' h d ↔
  ((h ≠ s ∧ (h ∈ σ ++ [s] ∨ h ∈ β)) ∧ d = b) ∨
  (h = b ∧ d ∈ σ ++ [s] ∧ has_head a d = false).
Proof.
  intros c c' Hwf Hd. rewrite has_head_false.
  destruct (wf_tokens k c Hwf) as [Hdisj Hfree].
  pose proof (wf_front_not_behind se k c b β Hwf eq_refl).
  pose proof (tree_no_loop g Htree d).
  lost_cases b c c'.
Qed.


End lost.

(** ** Counting the lost arcs *)

Section loss.
Context (se : list Token) (Htree : tree (get_gold_config se))
  (Hproj : projective (get_gold_config se)).
#[local] Abbreviation g := (get_gold_config se).
#[local] Abbreviation n := (Z.of_nat (length se)).
Implicit Types (c : Configuration) (a : list (Z * Z)) (σ β : list Z)
  (k s b d h : Z).

(** The arcs lost around the token [x], counted from the gold tree: the
    arc into [x] when its head satisfies [P], and the arcs to the
    dependents of [x] that satisfy [Q]. *)
Lemma size_lost c c' x (P Q : Z → Prop)
    `{!∀ h, Decision (P h), !∀ d, Decision (Q d)} :
  head_of g !! x = Some (ghead g x) →
  (∀ h d, head_of g !! d = Some h →
     arc_reachable c h d ∧ ¬ arc_reachable c' h d ↔
     (P h ∧ d = x) ∨ (h = x ∧ Q d)) →
  Z.of_nat (size (lost g c c'))
  = Z_of_bool (bool_decide (P (ghead g x)))
    + Z.of_nat (length (filter Q (Gold.deps g x))).
Proof.
  intros Hx Hlost. apply (size_around _ x (ghead g x)).
  - apply NoDup_filter, (gc_nodup _ (get_gold_config_consistent se)).
  - intros Heq. rewrite Heq in Hx. by apply (tree_no_loop g Htree) in Hx.
  - intros h d. rewrite (elem_of_lost se), bool_decide_eq_true, list_elem_of_filter.
    rewrite (gold_dep_head se). split.
    + intros [Hd [[? ->]|[-> ?]]%(Hlost _ _ Hd)]; [left|by right].
      by rewrite Hx in Hd; simplify_eq.
    + intros [(?&->&->)|(->&?&Hd)]; (split; [done|]); apply Hlost; eauto.
Qed.

(** When the gold head of the front of the buffer is the top of the
    stack, no gold dependent of the front is on the stack. *)
Lemma hanging_front k c σ s β d :
  wf_at n k c → stack c = σ ++ [s] → buffer c = k :: β →
  head_of g !! k = Some s → head_of g !! d = Some k → d ∉ stack c.
Proof.
  intros Hwf Hst Hbf Hk Hd Hin. rewrite Hst in Hin.
  apply elem_of_app in Hin as [Hin| ->%list_elem_of_singleton];
    [|by eapply (tree_no_2cycle g Htree)].
  pose proof (wf_stack_below _ _ _ Hwf σ s d Hst Hin).
  destruct (wf_stack_top _ _ _ Hwf σ s Hst) as [?|?];
    [apply gold_key_range in Hd; root_lia|].
  apply (no_arc_back g Htree Hproj k d s); [done..|lia].
Qed.

Lemma loss_left k a σ s b β se' :
  let c := mkConfiguration a (σ ++ [s]) (b :: β) se' in
  wf_at n k c → s ≠ ROOT → (∀ h, (h, s) ∉ a) →
  Z.of_nat (size (lost g c (mkConfiguration (a ++ [(b, s)]) σ (b :: β) se')))
  = cost_left c g.
Proof.
  intros c Hwf Hroot Hhead.
  assert (head_of g !! s = Some (ghead g s)) as Hs
    by (apply (gold_token_head se k c); [done|simpl; set_solver|done]).
  pose proof (wf_front_not_behind se k c b β Hwf eq_refl) as Hb.
  pose proof (gc_nodup _ (get_gold_config_consistent se) s) as Hnd.
  rewrite (size_lost _ _ s (.∈ β) (.∈ b :: β))
    by (done || intros; by eapply (lost_left se Htree)).
  unfold cost_left, top, front. simpl. rewrite py_top_snoc. simpl.
  destruct (bool_decide_reflect ((b, s) ∈ Gold.arcs g)) as [Hgold|Hgold];
    [apply (gold_arc_head se) in Hgold|].
  - destruct (wf_buffer_cons _ _ _ _ _ Hwf eq_refl) as (->&_).
    destruct (hanging_top se Htree Hproj k c σ s β Hwf eq_refl eq_refl Hgold)
      as (_&Hdeps&_).
    rewrite (ghead_Some _ _ k), bool_decide_eq_false_2 by done.
    rewrite filter_none; [done|].
    intros d Hd%(gold_dep_head se). by apply Hdeps.
  - assert (ghead g s ∉ Gold.deps g s)
      by (intros ?%(gold_dep_head se); by eapply (tree_no_2cycle g Htree)).
    rewrite count_common_cons, count_common_NoDup by (done || by constructor).
    do 2 f_equal. apply bool_decide_ext.
    rewrite (gold_arc_head se), Hs in Hgold. set_solver.
Qed.


Lemma loss_reduce k a σ s β se' hs :
  let c := mkConfiguration a (σ ++ [s]) β se' in
  wf_at n k c → (hs, s) ∈ a →
  Z.of_nat (size (lost g c (mkConfiguration a σ β se'))) = cost_reduce c g.
Proof.
  intros c Hwf Hhead.
  assert (s ≠ ROOT) by (intros ->; by eapply (wf_no_head_root _ _ c)).
  assert (head_of g !! s = Some (ghead g s)) as Hs
    by (apply (gold_token_head se k c); [done|simpl; set_solver|done]).
  rewrite (size_lost _ _ s (λ _, False) (.∈ β))
    by (done || intros; by eapply (lost_reduce se Htree)).
  unfold cost_reduce, top. simpl. rewrite py_top_snoc. simpl.
  by rewrite count_common_NoDup
    by apply (gc_nodup _ (get_gold_config_consistent se)).
Qed.

(** The gold dependents of [b] on the stack: those that have no head
    yet, and the stale ones. *)
Lemma deps_on_stack c b :
  NoDup (stack c) →
  count_common (Gold.deps g b) (stack c)
  = Z.of_nat (length (filter (λ d, d ∈ stack c ∧ has_head (arcs c) d = false)
                             (Gold.deps g b)))
    + Z.of_nat (length (filter (λ d, d ∈ stack c ∧ has_head (arcs c) d = true)
                               (Gold.deps g b))).
Proof.
  intros Hnd. rewrite count_common_NoDup
    by apply (gc_nodup _ (get_gold_config_consistent se)).
  rewrite (length_filter_bool _ (has_head (arcs c))). lia.
Qed.

Lemma loss_shift k a σ b β se' :
  let c := mkConfiguration a σ (b :: β) se' in
  wf_at n k c →
  Z.of_nat (size (lost g c (mkConfiguration a (σ ++ [b]) β se')))
  = cost_shift c g - Z.of_nat (length (stale g c)).
Proof.
  intros c Hwf.
  assert (head_of g !! b = Some (ghead g b)) as Hb.
  { apply (gold_token_head se k c); [done|simpl; set_solver|].
    destruct (wf_buffer_cons _ _ _ _ _ Hwf eq_refl) as (->&_).
    pose proof (wf_k _ _ _ Hwf). root_lia. }
  pose proof (wf_stack_NoDup se k c Hwf) as Hnd.
  rewrite (size_lost _ _ b (.∈ σ) (λ d, d ∈ σ ∧ has_head a d = false))
    by (done || intros; by eapply (lost_shift se Htree)).
  unfold cost_shift, stale, front. simpl. rewrite shift_fold_count.
  rewrite length_filter_eq by done.
  rewrite length_filter_comm
    by (done || apply (gc_nodup _ (get_gold_config_consistent se))).
  pose proof (deps_on_stack c b Hnd) as Hdeps.
  rewrite count_common_NoDup in Hdeps
    by apply (gc_nodup _ (get_gold_config_consistent se)).
  simpl in Hdeps. lia.
Qed.

Lemma loss_right k a σ s b β se' :
  let c := mkConfiguration a (σ ++ [s]) (b :: β) se' in
  wf_at n k c →
  Z.of_nat (size (lost g c
              (mkConfiguration (a ++ [(s, b)]) (σ ++ [s; b]) β se')))
  = cost_right c g - Z.of_nat (length (stale g c)).
Proof.
  intros c Hwf.
  destruct (wf_buffer_cons _ _ _ _ _ Hwf eq_refl) as (->&_).
  assert (head_of g !! k = Some (ghead g k)) as Hb.
  { apply (gold_token_head se k c); [done|simpl; set_solver|].
    pose proof (wf_k _ _ _ Hwf). root_lia. }
  destruct (wf_tokens se k c Hwf) as [Hdisj _].
  pose proof (wf_front_not_behind se k c k β Hwf eq_refl) as Hk.
  rewrite (size_lost _ _ k (λ h, h ≠ s ∧ (h ∈ σ ++ [s] ∨ h ∈ β))
             (λ d, d ∈ σ ++ [s] ∧ has_head a d = false))
    by (done || intros; by eapply (lost_right se Htree)).
  unfold cost_right, stale, top, front. simpl. rewrite py_top_snoc. simpl.
  destruct (bool_decide_reflect ((s, k) ∈ Gold.arcs g)) as [Hgold|Hgold];
    [apply (gold_arc_head se) in Hgold|].
  - rewrite (ghead_Some _ _ s), bool_decide_eq_false_2 by tauto.
    rewrite !filter_none; [done|intros d Hd%(gold_dep_head se) [Hin _]..].
    all: by eapply (hanging_front k c).
  - pose proof (deps_on_stack c k (wf_stack_NoDup se k c Hwf)) as Hdeps.
    rewrite (gold_arc_head se), Hb in Hgold. simpl in *. rewrite Hdeps.
    assert (ghead g k ≠ k) by (intros Heq; rewrite Heq in Hb;
                               by apply (tree_no_loop g Htree) in Hb).
    rewrite (bool_decide_ext _ (ghead g k ∈ σ ++ [s] ∨ ghead g k ∈ β))
      by naive_solver.
    rewrite Z_of_bool_or by (intros [??]; eapply Hdisj; [done|by right]).
    rewrite (bool_decide_ext (_ ∈ k :: β) (ghead g k ∈ β))
      by (rewrite elem_of_cons; tauto).
    lia.
Qed.

(** Whatever the transition: what its cost counts is what it loses and
    what was lost before. *)
Lemma loss_step k t c c' :
  wf_at n k c → step t c c' →
  Z.of_nat (size (lost g c c')) = cost t c g - overcount t g c.
Proof.
  intros Hwf Hstep. destruct Hstep; simpl; rewrite ?Z.sub_0_r.
  - by eapply loss_left.
  - by eapply loss_right.
  - by eapply loss_shift.
  - by eapply loss_reduce.
Qed.

End loss.

(** ** The cost functions of the code *)

Lemma cost_function_returns se c t :
  reachable se c → enabled t c = true →
  returns (cost_function t c) (get_gold_config se)
          (cost t c (get_gold_config se)).
Proof.
  intros Hcov%reachable_gold_covers Hen. destruct t; simpl in *.
  - by apply left_cost_legal.
  - by apply right_cost_legal.
  - by apply shift_cost_legal.
  - by apply reduce_cost_legal.
Qed.

Lemma overcount_nonneg t g c : 0 ≤ overcount t g c.
Proof. destruct t; simpl; lia. Qed.

(** ** The arcs counted twice *)

(** The arcs that [overcount] counts were lost before: they cannot be
    built from the configuration. *)
Lemma stale_unreachable se c d :
  reachable se c → buffer c ≠ [] → d ∈ stale (get_gold_config se) c →
  ¬ arc_reachable c (front c) d.
Proof.
  intros Hr Hne [[Hin (h&Hh)%has_head_true] Hd]%list_elem_of_filter.
  intros [Ha|[Hfree _]]; [|by destruct (Hfree h)].
  destruct (forest_below c (reachable_forest se c Hr) _ _ Ha Hin) as [Hf _].
  pose proof (reachable_wf_at _ _ Hr) as Hwf.
  unfold front in *. destruct (buffer c) as [|b β] eqn:Hb; [done|].
  simpl in *. eapply (wf_stack_buffer_disjoint se _ c b Hwf); [done|]. rewrite Hb. left.
Qed.

(** The lost arcs, read on the runs of the machine: the gold arcs that
    some run could build before the transition and no run can build
    after it. *)
Lemma elem_of_lost_runs se c c' t h d :
  reachable se c → step t c c' →
  (h, d) ∈ lost (get_gold_config se) c c' ↔
  (h, d) ∈ Gold.arcs (get_gold_config se) ∧
  (∃ ts c1, steps_fun ts c = Some c1 ∧ (h, d) ∈ arcs c1) ∧
  ¬ (∃ ts c2, steps_fun ts c' = Some c2 ∧ (h, d) ∈ arcs c2).
Proof.
  intros Hr Hstep. unfold lost. rewrite elem_of_filter. simpl.
  rewrite <-!arc_reachable_runs by eauto using reachable_step. tauto.
Qed.

(** ** The theorem of the costs *)

Lemma cost_is_loss se c z t c' :
  well_formed se → projective (get_gold_config se) → reachable se c →
  z ∈ get_legal_transitions c → decode z = Some t →
  take_transition the_funcs z c = (Ok (), c') →
  cost t c (get_gold_config se)
  = Z.of_nat (size (lost (get_gold_config se) c c'))
    + overcount t (get_gold_config se) c.
Proof.
  intros Htree%well_formed_tree Hproj Hr Hz <-%code_decode Htake.
  pose proof (step_complete _ _ _ Hz Htake) as Hstep.
  rewrite (loss_step se Htree Hproj _ t c c' (reachable_wf_at _ _ Hr) Hstep).
  lia.
Qed.

(** A cost is an upper bound of the loss. *)
Lemma cost_bounds_loss se c z t c' :
  well_formed se → projective (get_gold_config se) → reachable se c →
  z ∈ get_legal_transitions c → decode z = Some t →
  take_transition the_funcs z c = (Ok (), c') →
  Z.of_nat (size (lost (get_gold_config se) c c'))
  ≤ cost t c (get_gold_config se).
Proof.
  intros. erewrite (cost_is_loss se c z t c') by done.
  pose proof (overcount_nonneg t (get_gold_config se) c). lia.
Qed.

(** The transitions of cost zero, at any reachable configuration: those
    that lose nothing and count no arc lost before. *)
Lemma zero_cost_iff_exact se c z t c' :
  well_formed se → projective (get_gold_config se) → reachable se c →
  z ∈ get_legal_transitions c → decode z = Some t →
  take_transition the_funcs z c = (Ok (), c') →
  zero_cost c (get_gold_config se) z = true
  ↔ lost (get_gold_config se) c c' = ∅ ∧
    overcount t (get_gold_config se) c = 0.
Proof.
  intros Hwf Hproj Hr Hz Ht Htake. unfold zero_cost. rewrite Ht.
  rewrite bool_decide_eq_true, (cost_is_loss se c z t c') by done.
  pose proof (overcount_nonneg t (get_gold_config se) c).
  rewrite <-(leibniz_equiv_iff (lost _ _ _) ∅), <-size_empty_iff. lia.
Qed.

(** C12: The costs count the lost arcs, and more.  On a reachable
    configuration of a sentence whose annotation is a projective tree,
    the cost function of a legal transition returns the number of gold
    arcs that could be built before the transition and cannot be built
    after it, plus, for RIGHT and SHIFT, the number of gold dependents
    of the front of the buffer that are on the stack and have a head
    already.  For LEFT and REDUCE the cost is exactly the loss. *)
Theorem loss_exact se c z t c' :
  well_formed se → projective (get_gold_config se) → reachable se c →
  z ∈ get_legal_transitions c → decode z = Some t →
  take_transition the_funcs z c = (Ok (), c') →
  returns (cost_function t c) (get_gold_config se)
    (Z.of_nat (size (lost (get_gold_config se) c c'))
     + overcount t (get_gold_config se) c).
Proof.
  intros Htree Hproj Hr Hz Ht Htake.
  rewrite <-(cost_is_loss se c z t c') by done.
  apply cost_function_returns; [done|].
  apply code_decode in Ht as <-. by apply legal_code.
Qed.

Lemma loss_exact_witness :
  well_formed astray_sentence ∧
  projective (get_gold_config astray_sentence) ∧
  reachable astray_sentence astray ∧
  RIGHT ∈ get_legal_transitions astray ∧
  decode RIGHT = Some Right_arc ∧
  take_transition the_funcs RIGHT astray
  = (Ok (), mkConfiguration [(1, 0); (ROOT, 1); (1, 2)] [ROOT; 1; 2] []
              astray_sentence) ∧
  returns (cost_function Right_arc astray) (get_gold_config astray_sentence)
    (Z.of_nat (size (lost (get_gold_config astray_sentence) astray
        (mkConfiguration [(1, 0); (ROOT, 1); (1, 2)] [ROOT; 1; 2] []
           astray_sentence)))
     + overcount Right_arc (get_gold_config astray_sentence) astray).
Proof.
  split_and!;
    [by apply well_formedb_sound|by apply projectiveb_spec
    |apply astray_reachable|by apply (bool_decide_unpack _)
    |reflexivity|reflexivity|].
  apply (loss_exact astray_sentence astray RIGHT);
    [by apply well_formedb_sound|by apply projectiveb_spec
    |apply astray_reachable|by apply (bool_decide_unpack _)
    |reflexivity|reflexivity].
Defined.

(** At [astray], RIGHT loses nothing and costs 1: the arc it counts,
    from token 2 to token 1, was lost when token 1 got its head. *)
Example loss_example :
  let g := get_gold_config astray_sentence in
  let c' := mkConfiguration [(1, 0); (ROOT, 1); (1, 2)] [ROOT; 1; 2] []
              astray_sentence in
  lost g astray c' = ∅ ∧ stale g astray = [1] ∧
  cost Right_arc astray g = 1 ∧ overcount Right_arc g astray = 1.
Proof. by vm_compute. Qed.

(** ** The dynamic oracle after a mistake *)

(** C36: What the dynamic oracle returns at every reachable
    configuration, also one that wrong transitions led to.  On a
    sentence whose annotation is a projective tree, [dynamic_oracle]
    returns a legal transition exactly when the transition makes no
    gold arc unreachable and, for RIGHT and SHIFT, no gold dependent of
    the front of the buffer is on the stack with a head already.  The
    second condition is what the costs count beyond the loss: a
    transition that loses nothing is left out when it fails. *)
Theorem dynamic_oracle_off_path se c g0 zs g' z t c' :
  well_formed se → projective (get_gold_config se) →
  reachable se c → g0 ≡ get_gold_config se →
  dynamic_oracle c g0 = (Ok zs, g') →
  z ∈ get_legal_transitions c → decode z = Some t →
  take_transition the_funcs z c = (Ok (), c') →
  (z ∈ zs ↔ lost (get_gold_config se) c c' = ∅ ∧
            overcount t (get_gold_config se) c = 0).
Proof.
  intros Hwf Hproj Hr Hg Hrun Hz Ht Htake.
  destruct (dynamic_oracle_run se c g0 Hr Hg) as (g''&Hrun'&_).
  rewrite Hrun in Hrun'. injection Hrun' as -> _.
  rewrite list_elem_of_filter, (zero_cost_iff_exact se c z t c') by done.
  tauto.
Qed.

Lemma dynamic_oracle_off_path_witness :
  well_formed astray_sentence ∧
  projective (get_gold_config astray_sentence) ∧
  reachable astray_sentence astray ∧
  get_gold_config astray_sentence ≡ get_gold_config astray_sentence ∧
  dynamic_oracle astray (get_gold_config astray_sentence)
  = (Ok [REDUCE],
     (dynamic_oracle astray (get_gold_config astray_sentence)).2) ∧
  RIGHT ∈ get_legal_transitions astray ∧
  decode RIGHT = Some Right_arc ∧
  take_transition the_funcs RIGHT astray
  = (Ok (), mkConfiguration [(1, 0); (ROOT, 1); (1, 2)] [ROOT; 1; 2] []
              astray_sentence) ∧
  (RIGHT ∈ [REDUCE] ↔
   lost (get_gold_config astray_sentence) astray
     (mkConfiguration [(1, 0); (ROOT, 1); (1, 2)] [ROOT; 1; 2] []
        astray_sentence) = ∅ ∧
   overcount Right_arc (get_gold_config astray_sentence) astray = 0).
Proof.
  split; [by apply well_formedb_sound|]. split; [by apply projectiveb_spec|].
  split; [apply astray_reachable|]. split; [done|].
  split; [vm_compute; reflexivity|].
  split; [by apply (bool_decide_unpack _)|]. split; [reflexivity|].
  split; [reflexivity|].
  apply (dynamic_oracle_off_path astray_sentence astray
           (get_gold_config astray_sentence) [REDUCE]
           (dynamic_oracle astray (get_gold_config astray_sentence)).2
           RIGHT Right_arc);
    [by apply well_formedb_sound|by apply projectiveb_spec
    |apply astray_reachable|done|vm_compute; reflexivity
    |by apply (bool_decide_unpack _)|reflexivity|reflexivity].
Defined.

(** ** The dynamic oracle where nothing is lost yet *)

(** While every gold arc can be built, no gold dependent of the front
    of the buffer is stale. *)
Lemma all_reachable_no_stale se c :
  reachable se c → buffer c ≠ [] → all_reachable (get_gold_config se) c →
  stale (get_gold_config se) c = [].
Proof.
  intros Hr Hne Hall. destruct (stale _ c) as [|d l] eqn:E; [done|].
  assert (d ∈ stale (get_gold_config se) c) as Hd by (rewrite E; left).
  destruct (stale_unreachable se c d Hr Hne Hd).
  apply list_elem_of_filter in Hd as [_ Hd%(gold_dep_head se)]. by apply Hall.
Qed.

Lemma all_reachable_overcount se c t :
  reachable se c → enabled t c = true →
  all_reachable (get_gold_config se) c →
  overcount t (get_gold_config se) c = 0.
Proof.
  intros Hr Hen Hall. destruct t; simpl in *; [done| | |done].
  - apply right_ok_true in Hen as (σ&s&b&β&_&Hb&_).
    rewrite all_reachable_no_stale; [done..|by rewrite Hb|done].
  - apply shift_ok_true in Hen as (b&β&Hb).
    rewrite all_reachable_no_stale; [done..|by rewrite Hb|done].
Qed.

(** There the transitions of cost zero are those that lose nothing. *)
Lemma zero_cost_iff_no_loss se c z c' :
  well_formed se → projective (get_gold_config se) → reachable se c →
  all_reachable (get_gold_config se) c →
  z ∈ get_legal_transitions c →
  take_transition the_funcs z c = (Ok (), c') →
  zero_cost c (get_gold_config se) z = true
  ↔ lost (get_gold_config se) c c' = ∅.
Proof.
  intros Hwf Hproj Hr Hall Hz Htake.
  destruct (decode z) as [t|] eqn:Ht;
    [|by apply decode_None in Ht; apply get_legal_transitions_sub in Hz].
  rewrite (zero_cost_iff_exact se c z t c') by done.
  rewrite all_reachable_overcount; [tauto|done| |done].
  apply code_decode in Ht as <-. by apply legal_code.
Qed.

(** ** The configurations from which the gold tree can be built *)

Section builds.
Context (se : list Token) (Htree : tree (get_gold_config se))
  (Hproj : projective (get_gold_config se)).
#[local] Abbreviation g := (get_gold_config se).
#[local] Abbreviation n := (Z.of_nat (length se)).
Implicit Types (c : Configuration).

Lemma builds_all_reachable c : reachable se c → builds se c → all_reachable g c.
Proof.
  intros Hr (ts&cf&Hs&_&Harcs) h d Hd.
  apply (arc_reachable_runs se c h d Hr). exists ts, cf. split; [done|].
  apply (elem_of_list_to_set (C:=gset (Z * Z))). rewrite Harcs.
  by apply (gold_arc_head se).
Qed.

(** While no gold arc is lost, the transitions of cost zero lead to the
    gold tree. *)
Lemma all_reachable_builds_fuel fuel c :
  (measure c ≤ fuel)%nat → reachable se c → all_reachable g c → builds se c.
Proof.
  revert c. induction fuel as [|fuel IH]; intros c Hm Hr Hall;
    pose proof (reachable_wf_at _ _ Hr) as Hwf;
    destruct (is_finished c) eqn:Hfin.
  1,3: exists [], c; split_and!; [done..|];
    apply is_finished_spec in Hfin as [Hbf _];
    by eapply (all_reachable_finished se).
  { by rewrite (wf_measure_finished _ _ c Hwf) in Hfin by lia. }
  pose proof (all_reachable_not_stuck se Htree Hproj _ c Hwf Hall Hfin) as Hlegal.
  destruct (zero_cost_exists se Htree Hproj _ c Hwf Hlegal) as (t&Hen&Hcost).
  destruct (enabled_step t c Hen) as [c' Hstep].
  destruct (IH c') as (ts&cf&Hs&?&?).
  - apply step_measure in Hstep. lia.
  - by eapply reachable_step.
  - by eapply (all_reachable_step se Htree Hproj).
  - exists (t :: ts), cf. split; [|done].
    apply steps_fun_Some. apply steps_fun_Some in Hs. by econstructor.
Qed.

Lemma builds_iff_all_reachable c :
  reachable se c → builds se c ↔ all_reachable g c.
Proof.
  intros Hr. split; [by apply builds_all_reachable|].
  by apply (all_reachable_builds_fuel (measure c)).
Qed.

(** A transition loses no gold arc exactly when it keeps them all. *)
Lemma no_loss_all_reachable c c' :
  all_reachable g c → lost g c c' = ∅ ↔ all_reachable g c'.
Proof.
  intros Hall. split.
  - intros Hlost h d Hd. destruct (decide (arc_reachable c' h d)); [done|].
    assert ((h, d) ∈ lost g c c') as Hin; [|by rewrite Hlost in Hin].
    apply (elem_of_lost se). auto.
  - intros Hall'. apply leibniz_equiv, elem_of_equiv_empty. intros [h d].
    rewrite (elem_of_lost se). intros (Hd&_&Hn). by apply Hn, Hall'.
Qed.

End builds.

(** A driver that follows the dynamic oracle stays where the gold tree
    can be built. *)
Lemma dynamic_path_builds se c g0 :
  well_formed se → projective (get_gold_config se) →
  dynamic_path se c g0 →
  reachable se c ∧ g0 ≡ get_gold_config se ∧ builds se c.
Proof.
  intros Htree%well_formed_tree Hproj Hpath.
  destruct (dynamic_path_inv se Htree Hproj c g0 Hpath) as (Hr&Hg&Hall).
  split_and!; [done..|]. by apply (builds_iff_all_reachable se Htree Hproj).
Qed.

(** A legal transition, taken by the engine, as a step of the machine. *)
Lemma legal_take_step z c c' :
  z ∈ get_legal_transitions c → take_transition the_funcs z c = (Ok (), c') →
  ∃ t, decode z = Some t ∧ step t c c'.
Proof.
  intros Hz Htake. destruct (decode z) as [t|] eqn:Ht;
    [|by apply decode_None in Ht; apply get_legal_transitions_sub in Hz].
  exists t. split; [done|]. apply code_decode in Ht as <-.
  by apply step_complete.
Qed.

(** Where the gold tree can be built, what the oracle returns. *)
Lemma dynamic_oracle_builds se c g0 zs g' z c' :
  well_formed se → projective (get_gold_config se) →
  reachable se c → g0 ≡ get_gold_config se → builds se c →
  dynamic_oracle c g0 = (Ok zs, g') →
  z ∈ get_legal_transitions c →
  take_transition the_funcs z c = (Ok (), c') →
  (z ∈ zs ↔ lost (get_gold_config se) c c' = ∅) ∧
  (lost (get_gold_config se) c c' = ∅ ↔ builds se c').
Proof.
  intros Hwf Hproj Hr Hg Hb Hrun Hz Htake.
  pose proof (well_formed_tree _ Hwf) as Htree.
  pose proof (builds_all_reachable se c Hr Hb) as Hall.
  destruct (legal_take_step z c c' Hz Htake) as (t&_&Hstep).
  destruct (dynamic_oracle_run se c g0 Hr Hg) as (g''&Hrun'&_).
  rewrite Hrun in Hrun'. injection Hrun' as -> _. split.
  - rewrite list_elem_of_filter, (zero_cost_iff_no_loss se c z c') by done.
    tauto.
  - rewrite (no_loss_all_reachable se c c' Hall).
    symmetry. apply (builds_iff_all_reachable se Htree Hproj).
    by eapply reachable_step.
Qed.

(** C6: The dynamic oracle is exact where the gold tree can be built.
    On a sentence whose annotation is a projective tree, at a reachable
    configuration from which some run of legal transitions still builds
    the gold tree, [dynamic_oracle] returns a legal transition exactly
    when the gold tree can still be built after it; and that is exactly
    when the transition makes no gold arc unreachable. *)
Theorem dynamic_oracle_exact se c g0 zs g' z c' :
  well_formed se → projective (get_gold_config se) →
  reachable se c → g0 ≡ get_gold_config se → builds se c →
  dynamic_oracle c g0 = (Ok zs, g') →
  z ∈ get_legal_transitions c →
  take_transition the_funcs z c = (Ok (), c') →
  (z ∈ zs ↔ builds se c') ∧
  (z ∈ zs ↔ lost (get_gold_config se) c c' = ∅).
Proof.
  intros Hwf Hproj Hr Hg Hb Hrun Hz Htake.
  destruct (dynamic_oracle_builds se c g0 zs g' z c') as [H1 H2]; [done..|].
  split; [by rewrite H1|done].
Qed.

Lemma dynamic_oracle_exact_witness :
  well_formed example_sentence ∧
  projective (get_gold_config example_sentence) ∧
  reachable example_sentence example_shifted ∧
  get_gold_config example_sentence ≡ get_gold_config example_sentence ∧
  builds example_sentence example_shifted ∧
  dynamic_oracle example_shifted (get_gold_config example_sentence)
  = (Ok [LEFT],
     (dynamic_oracle example_shifted (get_gold_config example_sentence)).2) ∧
  LEFT ∈ get_legal_transitions example_shifted ∧
  take_transition the_funcs LEFT example_shifted
  = (Ok (), mkConfiguration [(1, 0)] [ROOT] [1; 2] example_sentence) ∧
  (LEFT ∈ [LEFT] ↔
   builds example_sentence
     (mkConfiguration [(1, 0)] [ROOT] [1; 2] example_sentence)) ∧
  (LEFT ∈ [LEFT] ↔
   lost (get_gold_config example_sentence) example_shifted
     (mkConfiguration [(1, 0)] [ROOT] [1; 2] example_sentence) = ∅).
Proof.
  assert (builds example_sentence example_shifted) as Hb.
  { exists [Left_arc; Right_arc; Right_arc; Reduce; Reduce], example_final.
    by vm_compute. }
  split; [apply example_well_formed|]. split; [apply example_projective|].
  split; [apply example_shifted_reachable|]. split; [done|]. split; [done|].
  split; [vm_compute; reflexivity|].
  split; [by apply (bool_decide_unpack _)|]. split; [reflexivity|].
  apply (dynamic_oracle_exact example_sentence example_shifted
           (get_gold_config example_sentence) [LEFT]
           (dynamic_oracle example_shifted (get_gold_config example_sentence)).2
           LEFT);
    [apply example_well_formed|apply example_projective
    |apply example_shifted_reachable|done|done|vm_compute; reflexivity
    |by apply (bool_decide_unpack _)|reflexivity].
Defined.

(** After the first SHIFT of the example, LEFT builds a gold arc and
    loses nothing; SHIFT is legal and loses the two gold arcs between
    token 1 and the stack: the oracle returns LEFT only. *)
Example dynamic_oracle_exact_example :
  let g := get_gold_config example_sentence in
  (dynamic_oracle example_shifted g).1 = Ok [LEFT] ∧
  lost g example_shifted
    (mkConfiguration [(1, 0)] [ROOT] [1; 2] example_sentence) = ∅ ∧
  lost g example_shifted
    (mkConfiguration [] [ROOT; 0; 1] [2] example_sentence)
  = {[ (ROOT, 1); (1, 0) ]}.
Proof. by vm_compute. Qed.
